(** * Lowering of Perm nodes after register allocation (ir/be/belower.c)

    A shallow embedding of libFirm's [belower.c]: the register-pair model,
    the cycle/chain decomposer, the scratch-register finder, the Perm
    lowerer, the push-through optimisation, the must-be-different
    constraint pass and the driver, followed by the properties proved
    about them. *)

From Stdlib Require Import ZArith Lia Bool.
From stdpp Require Import base option list gmap.

Open Scope nat_scope.

(** ** Registers and register classes (bearch.h) *)

(** [arch_register_t]: [reg_class] is the number of the class the register
    belongs to, [index] its index inside the class, [global_index] its index
    in the allocatable bitset, [reg_virtual] the bit
    [type & arch_register_type_virtual]. *)
Record arch_register_t := mk_reg {
  reg_class    : nat;
  index        : nat;
  global_index : nat;
  reg_virtual  : bool
}.

#[global] Instance arch_register_eq_dec : EqDecision arch_register_t.
Proof. solve_decision. Defined.

(** [arch_register_class_t]: [regs] is the array behind
    [arch_register_for_index]. *)
Record arch_register_class_t := mk_cls {
  cls_index : nat;
  n_regs    : nat;
  regs      : list arch_register_t
}.

Definition arch_register_for_index (cls : arch_register_class_t) (i : nat)
  : option arch_register_t := regs cls !! i.

Definition arch_register_get_index (r : arch_register_t) : nat := index r.

(** ** Register pairs and moves *)

Record reg_pair_t := mk_pair {
  in_reg   : arch_register_t;
  in_node  : nat;
  out_reg  : arch_register_t;
  out_node : nat;
  checked  : bool
}.

Inductive perm_type_t := PERM_CYCLE | PERM_CHAIN.

#[global] Instance perm_type_eq_dec : EqDecision perm_type_t.
Proof. solve_decision. Defined.

(** [elems] holds the first [n_elems] entries of the C buffer. *)
Record perm_move_t := mk_move {
  elems     : list arch_register_t;
  move_type : perm_type_t
}.

Definition n_elems (m : perm_move_t) : nat := length (elems m).

Definition set_checked (p : reg_pair_t) : reg_pair_t :=
  mk_pair (in_reg p) (in_node p) (out_reg p) (out_node p) true.

Definition set_in_node (p : reg_pair_t) (n : nat) : reg_pair_t :=
  mk_pair (in_reg p) n (out_reg p) (out_node p) (checked p).

(** returns the number register pairs not yet marked as checked. *)
Definition get_n_unchecked_pairs (pairs : list reg_pair_t) : nat :=
  length (filter (fun p => checked p = false) pairs).

(** [for (i = 0; i < n; i++) if (pairs[i].in_reg->index == reg_idx) return i;] *)
Fixpoint get_pairidx_for_in_regidx (pairs : list reg_pair_t) (reg_idx : nat)
  : option nat :=
  match pairs with
  | [] => None
  | p :: rest =>
      if index (in_reg p) =? reg_idx then Some 0
      else S <$> get_pairidx_for_in_regidx rest reg_idx
  end.

Fixpoint get_pairidx_for_out_regidx (pairs : list reg_pair_t) (reg_idx : nat)
  : option nat :=
  match pairs with
  | [] => None
  | p :: rest =>
      if index (out_reg p) =? reg_idx then Some 0
      else S <$> get_pairidx_for_out_regidx rest reg_idx
  end.

Fixpoint get_node_for_in_register (pairs : list reg_pair_t)
    (reg : arch_register_t) : option nat :=
  match pairs with
  | [] => None
  | p :: rest =>
      if index (in_reg p) =? index reg then Some (in_node p)
      else get_node_for_in_register rest reg
  end.

Fixpoint get_node_for_out_register (pairs : list reg_pair_t)
    (reg : arch_register_t) : option nat :=
  match pairs with
  | [] => None
  | p :: rest =>
      if index (out_reg p) =? index reg then Some (out_node p)
      else get_node_for_out_register rest reg
  end.

(** ** The decomposer: [get_perm_move_info] *)

(** First loop of [get_perm_move_info]: go back to the start of the cycle
    or chain.  Returns [(head, start, move_type)].  The source loop does
    not terminate on a pair array whose backward walk never meets
    [cur_idx]; the model gives [None] when the fuel is used up. *)
Fixpoint find_move_start (fuel : nat) (pairs : list reg_pair_t)
    (cur_idx head start : nat) : option (nat * nat * perm_type_t) :=
  if head =? cur_idx then Some (head, start, PERM_CYCLE)
  else
    match fuel with
    | 0 => None
    | S fuel' =>
        match get_pairidx_for_out_regidx pairs head with
        | None => Some (head, start, PERM_CHAIN)
        | Some cur_pair_idx =>
            p ← pairs !! cur_pair_idx;
            find_move_start fuel' pairs cur_idx (index (in_reg p)) cur_pair_idx
        end
    end.

(** Second loop: collect the registers of the move.  [cap] is the size of
    the [elems] buffer ([2 * n_pairs_todo]); a write past it is an error. *)
Fixpoint collect_move_elems (fuel : nat) (pairs : list reg_pair_t)
    (cap head cur_idx : nat) (es : list arch_register_t) (ty : perm_type_t)
  : option (list arch_register_t * perm_type_t) :=
  if cur_idx =? head then Some (es, ty)
  else
    match fuel with
    | 0 => None
    | S fuel' =>
        match get_pairidx_for_in_regidx pairs cur_idx with
        | None => Some (es, ty)
        | Some cur_pair_idx =>
            p ← pairs !! cur_pair_idx;
            let cur_idx' := index (out_reg p) in
            if cur_idx' =? head then
              (* we are there where we started -> CYCLE *)
              collect_move_elems fuel' pairs cap head cur_idx' es PERM_CYCLE
            else if length es <? cap then
              collect_move_elems fuel' pairs cap head cur_idx'
                (es ++ [out_reg p]) ty
            else None
        end
    end.

Definition mark_pair_checked (pairs : list reg_pair_t) (i : option nat)
  : list reg_pair_t :=
  match i with
  | Some k => alter set_checked k pairs
  | None => pairs
  end.

(** Third loop: mark all pairs having one in/out register with the move in
    common as checked. *)
Fixpoint mark_move_checked (pairs : list reg_pair_t)
    (es : list arch_register_t) : list reg_pair_t :=
  match es with
  | [] => pairs
  | r :: rest =>
      let pairs1 :=
        mark_pair_checked pairs (get_pairidx_for_in_regidx pairs (index r)) in
      let pairs2 :=
        mark_pair_checked pairs1 (get_pairidx_for_out_regidx pairs1 (index r)) in
      mark_move_checked pairs2 rest
  end.

(** [get_perm_move_info(move, pairs, n_pairs, start)]; the result is the
    move and the pair array with its new [checked] marks.  Each walk gets
    [n_pairs] steps: a walk that needs more has come back to a pair it
    already left. *)
Definition get_perm_move_info (pairs : list reg_pair_t) (start : nat)
  : option (perm_move_t * list reg_pair_t) :=
  p0 ← pairs !! start;
  let head0 := index (in_reg p0) in
  let cur_idx := index (out_reg p0) in
  let n_pairs_todo := get_n_unchecked_pairs pairs in
  '(head, start', move_type0) ←
      find_move_start (length pairs) pairs cur_idx head0 start;
  ps ← pairs !! start';
  if 2 <=? n_pairs_todo * 2 then
    '(es, ty) ← collect_move_elems (length pairs) pairs (n_pairs_todo * 2)
                  head (index (out_reg ps)) [in_reg ps; out_reg ps] move_type0;
    Some (mk_move es ty, mark_move_checked pairs es)
  else None.

(** ** The IR graph *)

Inductive ir_opcode :=
  | iro_Block | iro_Phi | iro_Proj
  | beo_Perm | beo_Copy | beo_CopyKeep | beo_Keep
  | iro_Generic      (* an ordinary machine instruction *)
  | iro_Deleted.     (* a killed node *)

#[global] Instance ir_opcode_eq_dec : EqDecision ir_opcode.
Proof. solve_decision. Defined.

Inductive ir_mode :=
  | mode_T | mode_Iu | mode_b | mode_M | mode_X | mode_BB | mode_ANY.

#[global] Instance ir_mode_eq_dec : EqDecision ir_mode.
Proof. solve_decision. Defined.

Definition mode_is_data (m : ir_mode) : bool :=
  match m with mode_Iu => true | _ => false end.

Definition mode_is_datab (m : ir_mode) : bool :=
  match m with mode_Iu | mode_b => true | _ => false end.

(** Modelled from the spec: the requirement kinds of bearch.h, which is not
    among the sources; a requirement has a kind bitset ([normal],
    [limited], [should_be_same], [must_be_different], [ignore]) and, for
    the differ/same kinds, the masks [other_same] / [other_different]
    indexing the instruction's own inputs. *)
Definition arch_register_req_type_normal            : Z := 1.
Definition arch_register_req_type_limited           : Z := 2.
Definition arch_register_req_type_should_be_same    : Z := 4.
Definition arch_register_req_type_must_be_different : Z := 8.
Definition arch_register_req_type_ignore            : Z := 16.

Record arch_register_req_t := mk_req {
  req_type        : Z;
  req_cls         : nat;
  other_same      : Z;
  other_different : Z
}.

Definition arch_register_req_is (req : arch_register_req_t) (kind : Z) : bool :=
  negb (Z.land (req_type req) kind =? 0)%Z.

(** [arch_irn_flags_t] of be_types.h. *)
Definition arch_irn_flags_dont_spill   : Z := 1.
Definition arch_irn_flags_modify_flags : Z := 4.

Record ir_node_t := mk_node {
  irn_op    : ir_opcode;
  irn_mode  : ir_mode;
  irn_block : nat;                      (* get_nodes_block *)
  irn_in    : list nat;                 (* the ordered inputs *)
  irn_proj  : nat;                      (* the Proj number of a Proj *)
  irn_reg   : option arch_register_t;   (* the assigned register, if any *)
  irn_req   : arch_register_req_t;      (* the output requirement *)
  irn_flags : Z                         (* arch_irn_flags_t bitset *)
}.

(** A procedure graph: its nodes by node index, and the schedule of every
    block as the list of its nodes in execution order. *)
Record ir_graph := mk_irg {
  irg_nodes : list ir_node_t;
  irg_sched : gmap nat (list nat)
}.

(** The liveness service: the values live at the end of a block and the
    interference test. *)
Record be_lv_t := mk_lv {
  lv_end       : nat -> list nat;
  lv_interfere : nat -> nat -> bool
}.

Definition set_in (nd : ir_node_t) (ins : list nat) : ir_node_t :=
  mk_node (irn_op nd) (irn_mode nd) (irn_block nd) ins (irn_proj nd)
          (irn_reg nd) (irn_req nd) (irn_flags nd).

Definition set_op (nd : ir_node_t) (op : ir_opcode) : ir_node_t :=
  mk_node op (irn_mode nd) (irn_block nd) (irn_in nd) (irn_proj nd)
          (irn_reg nd) (irn_req nd) (irn_flags nd).

Definition set_proj (nd : ir_node_t) (pn : nat) : ir_node_t :=
  mk_node (irn_op nd) (irn_mode nd) (irn_block nd) (irn_in nd) pn
          (irn_reg nd) (irn_req nd) (irn_flags nd).

Definition set_reg (nd : ir_node_t) (r : option arch_register_t) : ir_node_t :=
  mk_node (irn_op nd) (irn_mode nd) (irn_block nd) (irn_in nd) (irn_proj nd)
          r (irn_req nd) (irn_flags nd).

Definition set_flags (nd : ir_node_t) (f : Z) : ir_node_t :=
  mk_node (irn_op nd) (irn_mode nd) (irn_block nd) (irn_in nd) (irn_proj nd)
          (irn_reg nd) (irn_req nd) f.

Definition set_nodes (g : ir_graph) (ns : list ir_node_t) : ir_graph :=
  mk_irg ns (irg_sched g).

Definition set_sched (g : ir_graph) (s : gmap nat (list nat)) : ir_graph :=
  mk_irg (irg_nodes g) s.

Definition get_node (g : ir_graph) (n : nat) : option ir_node_t :=
  irg_nodes g !! n.

Definition update_node (g : ir_graph) (n : nat) (f : ir_node_t -> ir_node_t)
  : ir_graph := set_nodes g (alter f n (irg_nodes g)).

Definition get_irn_arity (g : ir_graph) (n : nat) : option nat :=
  nd ← get_node g n; Some (length (irn_in nd)).

(** [get_irn_n]: an index outside the inputs is an assertion failure. *)
Definition get_irn_n (g : ir_graph) (n i : nat) : option nat :=
  nd ← get_node g n; irn_in nd !! i.

Definition get_irn_mode (g : ir_graph) (n : nat) : option ir_mode :=
  irn_mode <$> get_node g n.

Definition get_nodes_block (g : ir_graph) (n : nat) : option nat :=
  irn_block <$> get_node g n.

Definition has_op (g : ir_graph) (n : nat) (op : ir_opcode) : bool :=
  match get_node g n with
  | Some nd => bool_decide (irn_op nd = op)
  | None => false
  end.

Definition is_Proj (g : ir_graph) (n : nat) : bool := has_op g n iro_Proj.
Definition is_Phi (g : ir_graph) (n : nat) : bool := has_op g n iro_Phi.
Definition is_Block (g : ir_graph) (n : nat) : bool := has_op g n iro_Block.
Definition be_is_Perm (g : ir_graph) (n : nat) : bool := has_op g n beo_Perm.
Definition be_is_Copy (g : ir_graph) (n : nat) : bool := has_op g n beo_Copy.
Definition be_is_Keep (g : ir_graph) (n : nat) : bool := has_op g n beo_Keep.
Definition be_is_CopyKeep (g : ir_graph) (n : nat) : bool :=
  has_op g n beo_CopyKeep.

(** [get_Proj_proj] asserts that its argument is a Proj. *)
Definition get_Proj_proj (g : ir_graph) (n : nat) : option nat :=
  nd ← get_node g n;
  if bool_decide (irn_op nd = iro_Proj) then Some (irn_proj nd) else None.

Definition skip_Proj (g : ir_graph) (n : nat) : nat :=
  match get_node g n with
  | Some nd =>
      if bool_decide (irn_op nd = iro_Proj) then default n (irn_in nd !! 0)
      else n
  | None => n
  end.

Definition arch_get_irn_register (g : ir_graph) (n : nat)
  : option arch_register_t := nd ← get_node g n; irn_reg nd.

Definition arch_set_irn_register (g : ir_graph) (n : nat)
    (r : option arch_register_t) : ir_graph :=
  update_node g n (fun nd => set_reg nd r).

Definition arch_irn_is (g : ir_graph) (n : nat) (flag : Z) : bool :=
  match get_node g n with
  | Some nd => negb (Z.land (irn_flags nd) flag =? 0)%Z
  | None => false
  end.

(** Modelled from the spec: the out edges of a node (iredges, not among
    the sources): one edge per input position of a user that holds the
    node, enumerated by user index. *)
Definition edges_from (n src : nat) (nd : ir_node_t) : list nat :=
  (fun _ => src) <$> filter (fun x => x = n) (irn_in nd).

Definition get_irn_out_edges (g : ir_graph) (n : nat) : list nat :=
  mjoin (imap (edges_from n) (irg_nodes g)).

Definition get_irn_n_edges (g : ir_graph) (n : nat) : nat :=
  length (get_irn_out_edges g n).

(** Modelled from the spec: [exchange(old, new)] (irgmod, not among the
    sources) replaces [old] by [new] in the inputs of all users; [old] is
    dead afterwards and no longer uses its own inputs. *)
Definition reroute (old nw : nat) (nd : ir_node_t) : ir_node_t :=
  set_in nd ((fun x => if bool_decide (x = old) then nw else x) <$> irn_in nd).

Definition kill (nd : ir_node_t) : ir_node_t :=
  set_in (set_op nd iro_Deleted) [].

Definition exchange (g : ir_graph) (old nw : nat) : ir_graph :=
  update_node (set_nodes g (reroute old nw <$> irg_nodes g)) old kill.

(** Modelled from the spec: [kill_node] (irnode, not among the sources)
    deletes a node from the graph. *)
Definition kill_node (g : ir_graph) (n : nat) : ir_graph :=
  update_node g n kill.

(** Modelled from the spec: node construction (benode and ircons, not among
    the sources).  A new node gets the next free node index. *)
Definition normal_req (cls : nat) : arch_register_req_t :=
  mk_req arch_register_req_type_normal cls 0 0.

Definition add_node (g : ir_graph) (nd : ir_node_t) : nat * ir_graph :=
  (length (irg_nodes g), set_nodes g (irg_nodes g ++ [nd])).

Definition node_req_cls (g : ir_graph) (n : nat) : nat :=
  match get_node g n with Some nd => req_cls (irn_req nd) | None => 0 end.

Definition be_new_Copy (g : ir_graph) (block op : nat) : option (nat * ir_graph) :=
  nd ← get_node g op;
  Some (add_node g (mk_node beo_Copy (irn_mode nd) block [op] 0 None
                            (normal_req (req_cls (irn_req nd))) 0)).

Definition be_new_Perm (g : ir_graph) (cls block : nat) (ins : list nat)
  : nat * ir_graph :=
  add_node g (mk_node beo_Perm mode_T block ins 0 None (normal_req cls) 0).

Definition new_r_Proj (g : ir_graph) (pred : nat) (mode : ir_mode) (pn : nat)
  : option (nat * ir_graph) :=
  nd ← get_node g pred;
  Some (add_node g (mk_node iro_Proj mode (irn_block nd) [pred] pn None
                            (normal_req (req_cls (irn_req nd))) 0)).

Definition be_new_Keep (g : ir_graph) (block : nat) (ins : list nat)
  : nat * ir_graph :=
  add_node g (mk_node beo_Keep mode_ANY block ins 0 None (normal_req 0) 0).

Definition be_new_CopyKeep_single (g : ir_graph) (block src keep : nat)
  : option (nat * ir_graph) :=
  nd ← get_node g src;
  Some (add_node g (mk_node beo_CopyKeep (irn_mode nd) block [src; keep] 0 None
                            (normal_req (req_cls (irn_req nd))) 0)).

(** [set_Proj_pred] and [set_Proj_proj] assert that the node is a Proj. *)
Definition set_Proj_pred (g : ir_graph) (proj pred : nat) : option ir_graph :=
  nd ← get_node g proj;
  if bool_decide (irn_op nd = iro_Proj)
  then Some (update_node g proj (fun nd => set_in nd [pred])) else None.

Definition set_Proj_proj (g : ir_graph) (proj pn : nat) : option ir_graph :=
  nd ← get_node g proj;
  if bool_decide (irn_op nd = iro_Proj)
  then Some (update_node g proj (fun nd => set_proj nd pn)) else None.

(** ** The schedule (besched, not among the sources) *)

(** The block whose schedule a node lives in; a block is the head of its
    own schedule. *)
Definition sched_block (g : ir_graph) (n : nat) : option nat :=
  nd ← get_node g n;
  Some (if bool_decide (irn_op nd = iro_Block) then n else irn_block nd).

Definition sched_list (g : ir_graph) (bl : nat) : list nat :=
  default [] (irg_sched g !! bl).

Fixpoint list_index (x : nat) (l : list nat) : option nat :=
  match l with
  | [] => None
  | y :: rest => if bool_decide (y = x) then Some 0 else S <$> list_index x rest
  end.

(** Modelled from the spec: [sched_is_scheduled]. *)
Definition sched_is_scheduled (g : ir_graph) (n : nat) : bool :=
  match sched_block g n with
  | Some bl => bool_decide (n ∈ sched_list g bl)
  | None => false
  end.

(** Modelled from the spec: [sched_prev]; the predecessor of the first node
    of a schedule is the block. *)
Definition sched_prev (g : ir_graph) (n : nat) : option nat :=
  bl ← sched_block g n;
  i ← list_index n (sched_list g bl);
  match i with
  | 0 => Some bl
  | S j => sched_list g bl !! j
  end.

(** Modelled from the spec: [sched_next]; the successor of the last node is
    the block, the successor of the block is the first node. *)
Definition sched_next (g : ir_graph) (n : nat) : option nat :=
  bl ← sched_block g n;
  if bool_decide (n = bl) then Some (default bl (sched_list g bl !! 0))
  else
    i ← list_index n (sched_list g bl);
    Some (default bl (sched_list g bl !! S i)).

Definition sched_is_begin (g : ir_graph) (n : nat) : bool := is_Block g n.

Definition list_remove (x : nat) (l : list nat) : list nat :=
  filter (fun y => y ≠ x) l.

(** Modelled from the spec: [sched_remove]. *)
Definition sched_remove (g : ir_graph) (n : nat) : ir_graph :=
  match sched_block g n with
  | Some bl =>
      match irg_sched g !! bl with
      | Some l => set_sched g (<[bl := list_remove n l]> (irg_sched g))
      | None => g
      end
  | None => g
  end.

Fixpoint insert_after (a x : nat) (l : list nat) : list nat :=
  match l with
  | [] => []
  | y :: rest =>
      if bool_decide (y = a) then y :: x :: rest else y :: insert_after a x rest
  end.

Fixpoint insert_before (b x : nat) (l : list nat) : list nat :=
  match l with
  | [] => []
  | y :: rest =>
      if bool_decide (y = b) then x :: y :: rest else y :: insert_before b x rest
  end.

(** Modelled from the spec: [sched_add_after(after, irn)]; after the block
    means at the head of its schedule. *)
Definition sched_add_after (g : ir_graph) (a n : nat) : ir_graph :=
  match sched_block g a with
  | Some bl =>
      let l := sched_list g bl in
      let l' := if bool_decide (a = bl) then n :: l else insert_after a n l in
      set_sched g (<[bl := l']> (irg_sched g))
  | None => g
  end.

(** Modelled from the spec: [sched_add_before(before, irn)]; before the
    block means at the end of its schedule. *)
Definition sched_add_before (g : ir_graph) (b n : nat) : ir_graph :=
  match sched_block g b with
  | Some bl =>
      let l := sched_list g bl in
      let l' := if bool_decide (b = bl) then l ++ [n] else insert_before b n l in
      set_sched g (<[bl := l']> (irg_sched g))
  | None => g
  end.

(** The time step of a node: 0 for the block, its position plus one for a
    scheduled node. *)
Definition sched_time_step (g : ir_graph) (n : nat) : option nat :=
  bl ← sched_block g n;
  if bool_decide (n = bl) then Some 0
  else S <$> list_index n (sched_list g bl).

(** Modelled from the spec: [sched_comes_after(n1, n2)] holds when [n1] is
    in front of [n2] in the schedule. *)
Definition sched_comes_after (g : ir_graph) (n1 n2 : nat) : bool :=
  match sched_time_step g n1, sched_time_step g n2 with
  | Some t1, Some t2 => t1 <? t2
  | _, _ => false
  end.

(** ** The scratch-register finder *)

(** [rbitset_is_set] on a bitset kept as an integer. *)
Definition rbitset_is_set (bs : Z) (i : nat) : bool := Z.testbit bs (Z.of_nat i).

(** [set_reg_in_use]: [None] is the panic on a data node without register,
    or a write outside the [regs_in_use] array. *)
Definition set_reg_in_use (g : ir_graph) (node : nat)
    (reg_class_ : arch_register_class_t) (regs_in_use : list bool)
    (in_use : bool) : option (list bool) :=
  nd ← get_node g node;
  if negb (mode_is_data (irn_mode nd)) then Some regs_in_use
  else
    match irn_reg nd with
    | None => None
    | Some reg =>
        if reg_virtual reg then Some regs_in_use
        else if negb (reg_class reg =? cls_index reg_class_) then Some regs_in_use
        else
          let reg_idx := arch_register_get_index reg in
          if reg_idx <? length regs_in_use
          then Some (<[reg_idx := in_use]> regs_in_use)
          else None
    end.

Fixpoint set_regs_in_use (g : ir_graph) (nodes : list nat)
    (reg_class_ : arch_register_class_t) (regs_in_use : list bool)
    (in_use : bool) : option (list bool) :=
  match nodes with
  | [] => Some regs_in_use
  | n :: rest =>
      regs' ← set_reg_in_use g n reg_class_ regs_in_use in_use;
      set_regs_in_use g rest reg_class_ regs' in_use
  end.

Definition update_reg_defs (g : ir_graph) (node : nat)
    (reg_class_ : arch_register_class_t) (regs_in_use : list bool)
    (in_use : bool) : option (list bool) :=
  mode ← get_irn_mode g node;
  if bool_decide (mode = mode_T)
  then set_regs_in_use g (get_irn_out_edges g node) reg_class_ regs_in_use in_use
  else set_reg_in_use g node reg_class_ regs_in_use in_use.

Definition update_reg_uses (g : ir_graph) (node : nat)
    (reg_class_ : arch_register_class_t) (regs_in_use : list bool)
  : option (list bool) :=
  nd ← get_node g node;
  set_regs_in_use g (irn_in nd) reg_class_ regs_in_use true.

(** The [sched_foreach_reverse] loop of [find_free_register] over the
    nodes still to visit, last node of the block first. *)
Fixpoint walk_block_reverse (g : ir_graph) (irn : nat)
    (reg_class_ : arch_register_class_t) (todo : list nat)
    (regs_in_use : list bool) : option (list bool) :=
  match todo with
  | [] => Some regs_in_use
  | node :: rest =>
      if is_Phi g node then Some regs_in_use
      else
        regs1 ← update_reg_defs g node reg_class_ regs_in_use
                  (bool_decide (irn = node));
        regs2 ← update_reg_uses g node reg_class_ regs1;
        if bool_decide (irn = node) then Some regs2
        else walk_block_reverse g irn reg_class_ rest regs2
  end.

(** The in-use array [find_free_register] has computed when it starts to
    look for a free register. *)
Definition registers_in_use_at (g : ir_graph) (lv : be_lv_t) (irn : nat)
    (reg_class_ : arch_register_class_t) : option (list bool) :=
  block ← get_nodes_block g irn;
  regs0 ← set_regs_in_use g (lv_end lv block) reg_class_
            (replicate (n_regs reg_class_) false) true;
  walk_block_reverse g irn reg_class_ (reverse (sched_list g block)) regs0.

(** The last loop of [find_free_register], from index [i] on, with
    [todo] indices left: the first register that is not in use and
    allocatable. *)
Fixpoint first_free_register (reg_class_ : arch_register_class_t)
    (allocatable_regs : Z) (registers_in_use : list bool) (i todo : nat)
  : option (option arch_register_t) :=
  match todo with
  | 0 => Some None
  | S todo' =>
      reg ← arch_register_for_index reg_class_ i;
      in_use ← registers_in_use !! i;
      let okay_to_use := rbitset_is_set allocatable_regs (global_index reg) in
      if negb in_use && okay_to_use then Some (Some reg)
      else first_free_register reg_class_ allocatable_regs registers_in_use
             (S i) todo'
  end.

(** [find_free_register(irn, reg_class)]; the result is the new
    [free_register_map]. *)
Definition find_free_register (g : ir_graph) (lv : be_lv_t)
    (allocatable_regs : Z) (free_register_map : gmap nat arch_register_t)
    (irn : nat) (reg_class_ : arch_register_class_t)
  : option (gmap nat arch_register_t) :=
  registers_in_use ← registers_in_use_at g lv irn reg_class_;
  found ← first_free_register reg_class_ allocatable_regs registers_in_use
            0 (n_regs reg_class_);
  match found with
  | Some reg => Some (<[irn := reg]> free_register_map)
  | None => Some free_register_map
  end.

Definition get_free_register (free_register_map : gmap nat arch_register_t)
    (irn : nat) : option arch_register_t := free_register_map !! irn.


(** A node holds register [r] of the class as far as [set_reg_in_use] is
    concerned: it has a data mode and a non-virtual register of the class. *)
Definition holds_register (g : ir_graph) (reg_class_ : arch_register_class_t)
    (n : nat) (r : arch_register_t) : Prop :=
  exists nd, get_node g n = Some nd /\ mode_is_data (irn_mode nd) = true /\
             irn_reg nd = Some r /\ reg_virtual r = false /\
             reg_class r = cls_index reg_class_.

(** ** The constraint-assurance pass *)

(** Associates an ir_node with its copy and CopyKeep. *)
Record op_copy_assoc_t := mk_assoc {
  copies    : gset nat;
  assoc_cls : nat
}.

(** Environment for constraints: the [op_set] map. *)
Record constraint_env_t := mk_cenv {
  op_set : gmap nat op_copy_assoc_t
}.

(** Modelled from the spec: [arch_irn_is_ignore] (bearch.h, not among the
    sources): the node is ignorable for register allocation. *)
Definition arch_irn_is_ignore (nd : ir_node_t) : bool :=
  arch_register_req_is (irn_req nd) arch_register_req_type_ignore.

(** Modelled from the spec: [sched_is_scheduled] as the pass uses it on a
    value: the schedule entry of a Proj is that of its predecessor. *)
Definition sched_is_scheduled_value (g : ir_graph) (n : nat) : bool :=
  sched_is_scheduled g (skip_Proj g n).

Definition has_irn_users (g : ir_graph) (irn : nat) : bool :=
  match get_irn_out_edges g irn with
  | [] => false
  | _ :: _ => true
  end.

Definition be_get_Copy_op (g : ir_graph) (n : nat) : option nat :=
  get_irn_n g n 0.

(** The nodes scheduled in front of [n], nearest first: what repeated
    [sched_prev] visits before it reaches the block. *)
Definition sched_before (g : ir_graph) (n : nat) : option (list nat) :=
  bl ← sched_block g n;
  i ← list_index n (sched_list g bl);
  Some (reverse (take i (sched_list g bl))).

(** The loop of [find_copy] over the nodes in front of [irn]; at the
    block, which is not a Copy, it gives up. *)
Fixpoint find_copy_from (g : ir_graph) (before : list nat) (op : nat)
  : option nat :=
  match before with
  | [] => None
  | cur_node :: rest =>
      if negb (be_is_Copy g cur_node) then None
      else if bool_decide (be_get_Copy_op g cur_node = Some op)
              && arch_irn_is g cur_node arch_irn_flags_dont_spill
           then Some cur_node
           else find_copy_from g rest op
  end.

(** [find_copy(irn, op)]; the outer [None] is an unscheduled [irn]. *)
Definition find_copy (g : ir_graph) (irn op : nat) : option (option nat) :=
  before ← sched_before g irn;
  Some (find_copy_from g before op).

Definition arch_set_irn_flags (g : ir_graph) (n : nat) (f : Z) : ir_graph :=
  update_node g n (fun nd => set_flags nd f).

Definition env_add_copy (env : constraint_env_t) (other cls_ cpy : nat)
  : constraint_env_t :=
  let entry := default (mk_assoc ∅ cls_) (op_set env !! other) in
  mk_cenv (<[other := mk_assoc ({[cpy]} ∪ copies entry) (assoc_cls entry)]>
             (op_set env)).

(** [gen_assure_different_pattern(irn, other_different, env)].  The class
    recorded for an input of the new CopyKeep
    ([be_node_set_reg_class_in]) is not part of the node model. *)
Definition gen_assure_different_pattern (g : ir_graph) (env : constraint_env_t)
    (irn other_different : nat) : option (ir_graph * constraint_env_t) :=
  nd_other ← get_node g other_different;
  if arch_irn_is_ignore nd_other || negb (mode_is_datab (irn_mode nd_other))
  then Some (g, env)
  else
    block ← get_nodes_block g irn;
    let cls_ := req_cls (irn_req nd_other) in
    found ← find_copy g (skip_Proj g irn) other_different;
    '(cpy, g1) ←
       match found with
       | Some cpy => Some (cpy, g)
       | None =>
           '(cpy, g') ← be_new_Copy g block other_different;
           Some (cpy, arch_set_irn_flags g' cpy arch_irn_flags_dont_spill)
       end;
    '(keep, g2) ←
       (if has_irn_users g1 other_different
        then be_new_CopyKeep_single g1 block cpy irn
        else Some (be_new_Keep g1 block [irn; cpy]));
    if negb (sched_is_scheduled_value g2 irn) then None
    else
      let g3 := if negb (sched_is_scheduled g2 cpy)
                then sched_add_before g2 (skip_Proj g2 irn) cpy else g2 in
      let g4 := sched_add_after g3 (skip_Proj g3 irn) keep in
      let env1 := env_add_copy env other_different cls_ cpy in
      let env2 := if be_is_CopyKeep g4 keep
                  then env_add_copy env1 other_different cls_ keep else env1 in
      Some (g4, env2).

(** Modelled from the spec: [is_po2] and [ntz] (bitfiddle.h, not among the
    sources): a single-bit mask, and the index of its bit. *)
Definition is_po2 (x : Z) : bool :=
  (0 <? x)%Z && (Z.land x (x - 1) =? 0)%Z.

Definition ntz (x : Z) : nat := Z.to_nat (Z.log2 (Z.land x (- x))).

(** The loop [for (i = 0; 1U << i <= other; ++i)] of
    [assure_different_constraints] with [todo] shifts left before
    [1U << i] leaves the 32 bits of an unsigned. *)
Fixpoint assure_each_bit (todo : nat) (g : ir_graph) (env : constraint_env_t)
    (irn skipped_irn : nat) (other : Z) (i : nat)
  : option (ir_graph * constraint_env_t) :=
  match todo with
  | 0 => None
  | S todo' =>
      if (Z.shiftl 1 (Z.of_nat i) <=? other)%Z then
        '(g', env') ←
           (if Z.testbit other (Z.of_nat i) then
              different_from ← get_irn_n g skipped_irn i;
              gen_assure_different_pattern g env irn different_from
            else Some (g, env));
        assure_each_bit todo' g' env' irn skipped_irn other (S i)
      else Some (g, env)
  end.

(** [assure_different_constraints(irn, skipped_irn, env)]. *)
Definition assure_different_constraints (g : ir_graph) (env : constraint_env_t)
    (irn skipped_irn : nat) : option (ir_graph * constraint_env_t) :=
  nd ← get_node g irn;
  let req := irn_req nd in
  if arch_register_req_is req arch_register_req_type_must_be_different then
    let other := other_different req in
    let same := other_same req in
    if arch_register_req_is req arch_register_req_type_should_be_same
       && is_po2 other && is_po2 same
    then
      a ← get_irn_n g skipped_irn (ntz other);
      b ← get_irn_n g skipped_irn (ntz same);
      if bool_decide (a = b) then Some (g, env)
      else assure_each_bit 32 g env irn skipped_irn other 0
    else assure_each_bit 32 g env irn skipped_irn other 0
  else Some (g, env).

(** The Keep and CopyKeep nodes of a graph. *)
Definition is_keep_node (nd : ir_node_t) : bool :=
  bool_decide (irn_op nd = beo_Keep) || bool_decide (irn_op nd = beo_CopyKeep).

Definition count_keeps (g : ir_graph) : nat :=
  length (filter (fun nd => is_keep_node nd = true) (irg_nodes g)).

(** Input [i] of [skipped_irn] asks for a copy/keep pattern: bit [i] of
    the mask is set and the input is neither ignorable nor without a
    [datab] mode. *)
Definition needs_pattern (g : ir_graph) (skipped_irn : nat) (other : Z)
    (i : nat) : bool :=
  Z.testbit other (Z.of_nat i) &&
  match get_irn_n g skipped_irn i ≫= get_node g with
  | Some nd => negb (arch_irn_is_ignore nd) && mode_is_datab (irn_mode nd)
  | None => false
  end.

Definition count_patterns (g : ir_graph) (skipped_irn : nat) (other : Z) : nat :=
  length (filter (fun i => needs_pattern g skipped_irn other i = true) (seq 0 32)).

(** [g'] has the nodes of [g], unchanged, and maybe new ones after them. *)
Definition extends (g g' : ir_graph) : Prop :=
  exists extra, irg_nodes g' = irg_nodes g ++ extra.

(** The condition under which [assure_different_constraints] skips a
    node: must_be_different and should_be_same are both single-bit masks
    and select the same input node. *)
Definition same_single_input (g : ir_graph) (skipped_irn : nat)
    (req : arch_register_req_t) : bool :=
  arch_register_req_is req arch_register_req_type_should_be_same
  && is_po2 (other_different req) && is_po2 (other_same req)
  && bool_decide (get_irn_n g skipped_irn (ntz (other_different req)) =
                  get_irn_n g skipped_irn (ntz (other_same req))).

Definition is_copy_or_keep (nd : ir_node_t) : Prop :=
  irn_op nd = beo_Copy \/ irn_op nd = beo_Keep \/ irn_op nd = beo_CopyKeep.

(** [g'] is [g] with new Copy, Keep and CopyKeep nodes, and nothing else
    new or changed among the nodes. *)
Definition adds_copies_and_keeps (g g' : ir_graph) : Prop :=
  exists extra, irg_nodes g' = irg_nodes g ++ extra /\
                Forall is_copy_or_keep extra.

(** The pattern asked for by a node [nd_other]. *)
Definition wants_pattern (nd_other : ir_node_t) : bool :=
  negb (arch_irn_is_ignore nd_other) && mode_is_datab (irn_mode nd_other).

(** ** The Perm lowerer *)

(** The loop of [build_register_pair_list] over the out edges of [irn]
    (taken before the loop starts, as [foreach_out_edge_safe] allows the
    body to remove the current edge).  Registers are compared as
    pointers, so two missing registers are equal; a pair with a missing
    register is an error (the source dereferences it when it decomposes
    the pairs). *)
Fixpoint build_register_pairs (g : ir_graph) (irn : nat) (edges : list nat)
    (pairs : list reg_pair_t) : option (list reg_pair_t * ir_graph) :=
  match edges with
  | [] => Some (pairs, g)
  | out :: rest =>
      pn ← get_Proj_proj g out;
      in_ ← get_irn_n g irn pn;
      let in_reg_ := arch_get_irn_register g in_ in
      let out_reg_ := arch_get_irn_register g out in
      if bool_decide (in_reg_ = out_reg_) then
        (* a register left untouched by the Perm *)
        build_register_pairs (exchange g out in_) irn rest pairs
      else
        ri ← in_reg_;
        ro ← out_reg_;
        build_register_pairs g irn rest (pairs ++ [mk_pair ri in_ ro out false])
  end.

Definition build_register_pair_list (g : ir_graph) (irn : nat)
  : option (list reg_pair_t * ir_graph) :=
  build_register_pairs g irn (get_irn_out_edges g irn) [].

(** The loop [for (i = n_elems - 2; i >= 0; --i)] shared, word for word,
    by [split_chain_into_copies] and [split_cycle_into_copies]; [k] is
    [i + 1].  Returns the graph and the last schedule point. *)
Fixpoint copies_loop (k : nat) (g : ir_graph) (block : nat)
    (move : perm_move_t) (pairs : list reg_pair_t) (sched_point : nat)
  : option (ir_graph * nat) :=
  match k with
  | 0 => Some (g, sched_point)
  | S i =>
      e_i ← elems move !! i;
      e_i1 ← elems move !! S i;
      arg1 ← get_node_for_in_register pairs e_i;
      res2 ← get_node_for_out_register pairs e_i1;
      '(cpy, g1) ← be_new_Copy g block arg1;
      let g2 := arch_set_irn_register g1 cpy (Some e_i1) in
      (* exchange copy node and proj *)
      let g3 := exchange g2 res2 cpy in
      let g4 := sched_add_after g3 (skip_Proj g3 sched_point) cpy in
      copies_loop i g4 block move pairs cpy
  end.

Definition split_chain_into_copies (g : ir_graph) (irn : nat)
    (move : perm_move_t) (pairs : list reg_pair_t) : option ir_graph :=
  block ← get_nodes_block g irn;
  sched_point ← sched_prev g irn;
  if bool_decide (move_type move = PERM_CHAIN) then
    fst <$> copies_loop (n_elems move - 1) g block move pairs sched_point
  else None.

(** The loop of [split_cycle_into_swaps]; [k] is [i + 1].  Returns the
    graph, the pairs with their new in nodes and the schedule point. *)
Fixpoint swaps_loop (k : nat) (g : ir_graph) (reg_class_ block : nat)
    (move : perm_move_t) (pairs : list reg_pair_t) (sched_point : nat)
  : option (ir_graph * list reg_pair_t * nat) :=
  match k with
  | 0 => Some (g, pairs, sched_point)
  | S i =>
      e_i ← elems move !! i;
      e_i1 ← elems move !! S i;
      arg1 ← get_node_for_in_register pairs e_i;
      arg2 ← get_node_for_in_register pairs e_i1;
      res1_0 ← get_node_for_out_register pairs e_i;
      res2 ← get_node_for_out_register pairs e_i1;
      let '(xchg, g1) := be_new_Perm g reg_class_ block [arg1; arg2] in
      '(res1, g2, pairs') ←
         match i with
         | S _ =>
             (* cycle is not done yet: create intermediate proj *)
             pidx ← get_pairidx_for_in_regidx pairs (index e_i);
             mode ← get_irn_mode g1 res1_0;
             '(res1, g2) ← new_r_Proj g1 xchg mode 0;
             Some (res1, g2, alter (fun p => set_in_node p res1) pidx pairs)
         | 0 => Some (res1_0, g1, pairs)
         end;
      g3 ← set_Proj_pred g2 res2 xchg;
      g4 ← set_Proj_proj g3 res2 0;
      g5 ← set_Proj_pred g4 res1 xchg;
      g6 ← set_Proj_proj g5 res1 1;
      let g7 := arch_set_irn_register g6 res2 (Some e_i1) in
      let g8 := arch_set_irn_register g7 res1 (Some e_i) in
      let g9 := sched_add_after g8 (skip_Proj g8 sched_point) xchg in
      swaps_loop i g9 reg_class_ block move pairs' res1
  end.

Definition split_cycle_into_swaps (g : ir_graph) (irn : nat)
    (move : perm_move_t) (pairs : list reg_pair_t)
  : option (ir_graph * list reg_pair_t) :=
  in0 ← get_irn_n g irn 0;
  reg0 ← arch_get_irn_register g in0;
  block ← get_nodes_block g irn;
  sched_point ← sched_prev g irn;
  if bool_decide (move_type move = PERM_CYCLE) then
    '(g', pairs', _) ← swaps_loop (n_elems move - 1) g (reg_class reg0) block
                         move pairs sched_point;
    Some (g', pairs')
  else None.

Definition split_cycle_into_copies (g : ir_graph) (irn : nat)
    (move : perm_move_t) (pairs : list reg_pair_t) (free_reg : arch_register_t)
  : option ir_graph :=
  block ← get_nodes_block g irn;
  sched_point ← sched_prev g irn;
  if bool_decide (move_type move = PERM_CYCLE) then
    let num_elems := n_elems move in
    (* Save last register content. *)
    e_last ← (match num_elems with 0 => None | S m => elems move !! m end);
    arg ← get_node_for_in_register pairs e_last;
    '(save_cpy, g1) ← be_new_Copy g block arg;
    let g2 := arch_set_irn_register g1 save_cpy (Some free_reg) in
    let g3 := sched_add_after g2 (skip_Proj g2 sched_point) save_cpy in
    '(g4, sched_point') ← copies_loop (n_elems move - 1) g3 block move pairs
                            save_cpy;
    (* Restore last register content and write it to first register. *)
    '(restore_cpy, g5) ← be_new_Copy g4 block save_cpy;
    e_0 ← elems move !! 0;
    let g6 := arch_set_irn_register g5 restore_cpy (Some e_0) in
    proj ← get_node_for_out_register pairs e_0;
    let g7 := exchange g6 proj restore_cpy in
    Some (sched_add_after g7 (skip_Proj g7 sched_point') restore_cpy)
  else None.

Definition reduce_perm_size (g : ir_graph)
    (free_register_map : gmap nat arch_register_t) (irn : nat)
    (move : perm_move_t) (pairs : list reg_pair_t)
  : option (ir_graph * list reg_pair_t) :=
  match move_type move with
  | PERM_CYCLE =>
      match get_free_register free_register_map irn with
      | Some free_reg =>
          if n_elems move <=? 2 then split_cycle_into_swaps g irn move pairs
          else
            g' ← split_cycle_into_copies g irn move pairs free_reg;
            Some (g', pairs)
      | None => split_cycle_into_swaps g irn move pairs
      end
  | PERM_CHAIN =>
      g' ← split_chain_into_copies g irn move pairs;
      Some (g', pairs)
  end.

(** [for (i = 0; pairs[i].checked; ++i)]: the first not-checked pair. *)
Fixpoint first_unchecked_pair (pairs : list reg_pair_t) : option nat :=
  match pairs with
  | [] => None
  | p :: rest => if checked p then S <$> first_unchecked_pair rest else Some 0
  end.

(** The [while (get_n_unchecked_pairs(pairs, n_pairs) > 0)] loop of
    [lower_perm_node]; returns the graph and [keep_perm].  A round that
    checks no new pair repeats for ever in the source; the model stops
    with [None] after one round per pair. *)
Fixpoint lower_moves (fuel : nat) (g : ir_graph)
    (free_register_map : gmap nat arch_register_t) (irn arity : nat)
    (pairs : list reg_pair_t) (keep_perm : bool) : option (ir_graph * bool) :=
  if get_n_unchecked_pairs pairs =? 0 then Some (g, keep_perm)
  else
    match fuel with
    | 0 => None
    | S fuel' =>
        i ← first_unchecked_pair pairs;
        '(move, pairs1) ← get_perm_move_info pairs i;
        if bool_decide (move_type move = PERM_CYCLE) && (arity =? 2) then
          (* a Perm with two elements which represents a cycle already is
             an exchange node *)
          lower_moves fuel' g free_register_map irn arity pairs1 true
        else
          '(g', pairs2) ← reduce_perm_size g free_register_map irn move pairs1;
          lower_moves fuel' g' free_register_map irn arity pairs2 keep_perm
    end.

(** [lower_perm_node(irn)]; [None] is a failed assertion (no Perm, not
    scheduled, in and out numbers different) or a failure further down. *)
Definition lower_perm_node (g : ir_graph)
    (free_register_map : gmap nat arch_register_t) (irn : nat)
  : option ir_graph :=
  arity ← get_irn_arity g irn;
  _ ← sched_prev g irn;
  if negb (be_is_Perm g irn) then None
  else if negb (arity =? get_irn_n_edges g irn) then None
  else
    '(pairs, g1) ← build_register_pair_list g irn;
    '(g2, keep_perm) ← lower_moves (length pairs) g1 free_register_map irn
                         arity pairs false;
    if (keep_perm : bool) then Some g2
    else Some (kill_node (sched_remove g2 irn) irn).

(** ** The push-through optimisation *)

(** Modelled from the spec: [arch_irn_consider_in_reg_alloc(cls, node)]
    (bearch.h, not among the sources): the node is a value of class [cls]
    that register allocation has to consider. *)
Definition arch_irn_consider_in_reg_alloc (g : ir_graph) (cls_ : nat)
    (node : nat) : bool :=
  match get_node g node with
  | Some nd => (req_cls (irn_req nd) =? cls_) && negb (arch_irn_is_ignore nd)
  | None => false
  end.

Definition arch_get_irn_reg_class (g : ir_graph) (n : nat) : option nat :=
  nd ← get_node g n; Some (req_cls (irn_req nd)).

(** The inner loop of the frontier search: some operand of [irn] is a
    value of the class that does not interfere with [one_proj]. *)
Definition lets_operand_die (g : ir_graph) (lv : be_lv_t) (cls_ one_proj : nat)
    (irn : nat) : bool :=
  match get_node g irn with
  | Some nd =>
      existsb (fun op => arch_irn_consider_in_reg_alloc g cls_ op
                         && negb (lv_interfere lv op one_proj))
              (irn_in nd)
  | None => false
  end.

(** The loop [sched_foreach_reverse_from(sched_prev(perm), irn)] over the
    nodes in front of the Perm, nearest first; [bl] is the initial
    frontier. *)
Fixpoint find_frontier (g : ir_graph) (lv : be_lv_t) (cls_ one_proj bl : nat)
    (before : list nat) : nat :=
  match before with
  | [] => bl
  | irn :: rest =>
      if lets_operand_die g lv cls_ one_proj irn then irn
      else find_frontier g lv cls_ one_proj bl rest
  end.

(** [foreach_out_edge(perm, edge)] looking for the Proj whose input is
    [node]: [Some (Some (proj, input))] when found, [Some None] when
    [node] is no input of the Perm. *)
Fixpoint find_perm_input (g : ir_graph) (perm node : nat) (edges : list nat)
  : option (option (nat * nat)) :=
  match edges with
  | [] => Some None
  | out :: rest =>
      pn ← get_Proj_proj g out;
      in_ ← get_irn_n g perm pn;
      if bool_decide (node = in_) then Some (Some (out, pn))
      else find_perm_input g perm node rest
  end.

(** The node may be moved behind the Perm: it comes after the frontier,
    does not modify the flags, has a plain normal requirement and no
    operand of the class. *)
Definition may_push_through (g : ir_graph) (cls_ frontier node : nat) : bool :=
  match get_node g node with
  | Some nd =>
      sched_comes_after g frontier node
      && negb (arch_irn_is g node arch_irn_flags_modify_flags)
      && (req_type (irn_req nd) =? arch_register_req_type_normal)%Z
      && negb (existsb (arch_irn_consider_in_reg_alloc g cls_) (irn_in nd))
  | None => false
  end.

(** The body of the loop once [node] is known to be movable: move it
    behind the Perm, give it the register of the Proj and reroute the
    users of the Proj to it. *)
Definition move_behind_perm (g : ir_graph) (perm node proj : nat) : ir_graph :=
  (* move the movable node in front of the Perm *)
  let g1 := sched_remove g node in
  let g2 := sched_add_after g1 perm node in
  (* give it the proj's register *)
  let g3 := arch_set_irn_register g2 node (arch_get_irn_register g2 proj) in
  (* reroute all users of the proj to the moved node. *)
  exchange g3 proj node.

(** The [while (!sched_is_begin(node))] loop of [push_through_perm];
    returns the graph, the [moved] bitset and [n_moved].  It gets one
    round for every node of the schedule and one more. *)
Fixpoint push_loop (fuel : nat) (g : ir_graph) (perm cls_ frontier node : nat)
    (moved : Z) (n_moved : nat) : option (ir_graph * Z * nat) :=
  if sched_is_begin g node then Some (g, moved, n_moved)
  else
    match fuel with
    | 0 => None
    | S fuel' =>
        found ← find_perm_input g perm node (get_irn_out_edges g perm);
        match found with
        | None => Some (g, moved, n_moved)
        | Some (proj, input) =>
            if negb (may_push_through g cls_ frontier node)
            then Some (g, moved, n_moved)
            else
              let g4 := move_behind_perm g perm node proj in
              node' ← sched_prev g4 node;
              push_loop fuel' g4 perm cls_ frontier node'
                        (Z.setbit moved (Z.of_nat input)) (S n_moved)
        end
    end.

(** An entry of [proj_map]: a number written by the loop, the -1 of
    [memset(proj_map, -1, sizeof(proj_map[0]))], which clears the first
    entry only, or an entry that nothing has written ([ALLOCAN] does not
    clear the array). *)
Inductive proj_map_entry_t :=
  | pm_number (n : nat)
  | pm_minus_one
  | pm_unwritten.

(** What [pn = proj_map[pn]; assert(pn >= 0)] gets from an entry: the -1
    fails the assertion, an entry never written has no defined value. *)
Definition proj_map_number (e : proj_map_entry_t) : option nat :=
  match e with
  | pm_number n => Some n
  | pm_minus_one | pm_unwritten => None
  end.

(** The [memset] and the loop that fills [map] and [proj_map]: the entry
    of a moved slot is not written by the loop. *)
Fixpoint build_proj_map (moved : Z) (i todo n : nat)
  : list nat * list proj_map_entry_t :=
  match todo with
  | 0 => ([], [])
  | S todo' =>
      if Z.testbit moved (Z.of_nat i) then
        let '(map_, proj_map) := build_proj_map moved (S i) todo' n in
        (map_, (if i =? 0 then pm_minus_one else pm_unwritten) :: proj_map)
      else
        let '(map_, proj_map) := build_proj_map moved (S i) todo' (S n) in
        (i :: map_, pm_number n :: proj_map)
  end.

Fixpoint renumber_projs (g : ir_graph) (proj_map : list proj_map_entry_t)
    (edges : list nat) : option ir_graph :=
  match edges with
  | [] => Some g
  | proj :: rest =>
      pn ← get_Proj_proj g proj;
      pn' ← proj_map !! pn ≫= proj_map_number;
      g' ← set_Proj_proj g proj pn';
      renumber_projs g' proj_map rest
  end.

(** Modelled from the spec: [be_Perm_reduce(perm, new_size, map)] (benode,
    not among the sources) rebuilds the input list of the Perm from the
    slots listed in [map]. *)
Definition be_Perm_reduce (g : ir_graph) (perm : nat) (map_ : list nat)
  : option ir_graph :=
  nd ← get_node g perm;
  new_in ← mapM (fun i => irn_in nd !! i) map_;
  Some (update_node g perm (fun nd => set_in nd new_in)).

(** The frontier [push_through_perm] computes for a Perm. *)
Definition perm_frontier (g : ir_graph) (lv : be_lv_t) (perm : nat)
  : option nat :=
  bl ← get_nodes_block g perm;
  one_proj ← head (get_irn_out_edges g perm);
  cls_ ← arch_get_irn_reg_class g one_proj;
  before ← sched_before g perm;
  Some (find_frontier g lv cls_ one_proj bl before).

(** The first half of [push_through_perm]: the frontier and the loop that
    moves nodes behind the Perm.  Returns the arity of the Perm, the new
    graph, the [moved] bitset and [n_moved]. *)
Definition push_through_perm_loop (g : ir_graph) (lv : be_lv_t) (perm : nat)
  : option (nat * ir_graph * Z * nat) :=
  bl ← get_nodes_block g perm;
  arity ← get_irn_arity g perm;
  one_proj ← head (get_irn_out_edges g perm);
  cls_ ← arch_get_irn_reg_class g one_proj;
  if negb (is_Proj g one_proj) then None
  else
    frontier ← perm_frontier g lv perm;
    node ← sched_prev g perm;
    '(g1, moved, n_moved) ←
       push_loop (S (length (sched_list g bl))) g perm cls_ frontier node 0 0;
    Some (arity, g1, moved, n_moved).

(** The second half: return if nothing was moved, delete the Perm if all
    its slots were moved, shrink it otherwise. *)
Definition push_through_perm_shrink (g1 : ir_graph) (perm arity : nat)
    (moved : Z) (n_moved : nat) : option (bool * ir_graph) :=
  (* well, we could not push anything through the perm *)
  if n_moved =? 0 then Some (true, g1)
  else if arity <? n_moved then None
  else
    let new_size := arity - n_moved in
    if new_size =? 0 then
      Some (false, kill_node (sched_remove g1 perm) perm)
    else
      let '(map_, proj_map) := build_proj_map moved 0 arity 0 in
      if negb (length map_ =? new_size) then None
      else
        g2 ← renumber_projs g1 proj_map (get_irn_out_edges g1 perm);
        g3 ← be_Perm_reduce g2 perm map_;
        Some (true, g3).

(** [push_through_perm(perm)]; the result is the returned flag and the
    new graph. *)
Definition push_through_perm (g : ir_graph) (lv : be_lv_t) (perm : nat)
  : option (bool * ir_graph) :=
  '(arity, g1, moved, n_moved) ← push_through_perm_loop g lv perm;
  push_through_perm_shrink g1 perm arity moved n_moved.

(** The frontier as the specification words it: walking the schedule
    predecessors of the Perm, the first node that defines, in the class
    of the Perm, a value interfering with any Proj of the Perm. *)
Definition defines_interfering_value (g : ir_graph) (lv : be_lv_t)
    (cls_ perm irn : nat) : bool :=
  arch_irn_consider_in_reg_alloc g cls_ irn
  && existsb (fun proj => lv_interfere lv irn proj) (get_irn_out_edges g perm).

Fixpoint find_frontier_as_specified (g : ir_graph) (lv : be_lv_t)
    (cls_ perm bl : nat) (before : list nat) : nat :=
  match before with
  | [] => bl
  | irn :: rest =>
      if defines_interfering_value g lv cls_ perm irn then irn
      else find_frontier_as_specified g lv cls_ perm bl rest
  end.

Definition perm_frontier_as_specified (g : ir_graph) (lv : be_lv_t) (perm : nat)
  : option nat :=
  bl ← get_nodes_block g perm;
  one_proj ← head (get_irn_out_edges g perm);
  cls_ ← arch_get_irn_reg_class g one_proj;
  before ← sched_before g perm;
  Some (find_frontier_as_specified g lv cls_ perm bl before).

(** ** The driver *)

Definition find_free_registers_walker (g : ir_graph) (lv : be_lv_t)
    (classes : list arch_register_class_t) (allocatable_regs : Z)
    (free_register_map : gmap nat arch_register_t) (irn : nat)
  : option (gmap nat arch_register_t) :=
  if negb (be_is_Perm g irn) then Some free_register_map
  else
    in0 ← get_irn_n g irn 0;
    reg0 ← arch_get_irn_register g in0;
    reg_class_ ← classes !! reg_class reg0;
    find_free_register g lv allocatable_regs free_register_map irn reg_class_.

Definition lower_nodes_after_ra_walker (g : ir_graph) (lv : be_lv_t)
    (free_register_map : gmap nat arch_register_t) (irn : nat)
  : option ir_graph :=
  if negb (be_is_Perm g irn) then Some g
  else
    '(perm_stayed, g1) ← push_through_perm g lv irn;
    if (perm_stayed : bool) then lower_perm_node g1 free_register_map irn
    else Some g1.

(** Modelled from the spec: [irg_walk_graph] (irgwalk, not among the
    sources) calls the walker on the nodes of the graph, one after the
    other; [visit] lists the nodes in the order of the calls. *)
Fixpoint walk_free_registers (g : ir_graph) (lv : be_lv_t)
    (classes : list arch_register_class_t) (allocatable_regs : Z)
    (visit : list nat) (free_register_map : gmap nat arch_register_t)
  : option (gmap nat arch_register_t) :=
  match visit with
  | [] => Some free_register_map
  | irn :: rest =>
      fm ← find_free_registers_walker g lv classes allocatable_regs
             free_register_map irn;
      walk_free_registers g lv classes allocatable_regs rest fm
  end.

Fixpoint walk_lower_nodes (g : ir_graph) (lv : be_lv_t)
    (free_register_map : gmap nat arch_register_t) (visit : list nat)
  : option ir_graph :=
  match visit with
  | [] => Some g
  | irn :: rest =>
      g' ← lower_nodes_after_ra_walker g lv free_register_map irn;
      walk_lower_nodes g' lv free_register_map rest
  end.

(** [lower_nodes_after_ra(irg)]: the walk that fills the free-register
    map visits [visit1], the lowering walk visits [visit2]. *)
Definition lower_nodes_after_ra (g : ir_graph) (lv : be_lv_t)
    (classes : list arch_register_class_t) (allocatable_regs : Z)
    (visit1 visit2 : list nat) : option ir_graph :=
  fm ← walk_free_registers g lv classes allocatable_regs visit1 ∅;
  walk_lower_nodes g lv fm visit2.

(** ** Well-formed Perms *)

(** The nodes of the schedule of block [bl] live in [bl] and are neither
    blocks nor Projs. *)
Definition scheduled_in_block (g : ir_graph) (bl x : nat) : bool :=
  match get_node g x with
  | Some nd => bool_decide (irn_block nd = bl)
               && negb (bool_decide (irn_op nd = iro_Block))
               && negb (bool_decide (irn_op nd = iro_Proj))
  | None => false
  end.

(** An out edge of a Perm with [arity] inputs is a Proj that selects one
    of the inputs. *)
Definition is_perm_proj (g : ir_graph) (arity out : nat) : bool :=
  match get_node g out with
  | Some nd => bool_decide (irn_op nd = iro_Proj) && (irn_proj nd <? arity)
  | None => false
  end.

(** The invariant of a Perm entering the pass: it is a scheduled Perm
    node, the schedule of its block is a duplicate-free list of nodes of
    the block, it has results, and every result is exposed by one Proj
    that selects an input of the Perm. *)
Definition perm_ok (g : ir_graph) (perm : nat) : bool :=
  match get_node g perm with
  | Some ndp =>
      let bl := irn_block ndp in
      let edges := get_irn_out_edges g perm in
      bool_decide (irn_op ndp = beo_Perm)
      && is_Block g bl
      && bool_decide (perm ∈ sched_list g bl)
      && bool_decide (NoDup (sched_list g bl))
      && forallb (scheduled_in_block g bl) (sched_list g bl)
      && negb (bool_decide (edges = []))
      && forallb (is_perm_proj g (length (irn_in ndp))) edges
      && bool_decide (NoDup ((fun out => irn_proj <$> get_node g out) <$> edges))
  | None => false
  end.

(** [node] is one of the inputs of the Perm: some Proj of the Perm
    selects it. *)
Definition is_perm_input (g : ir_graph) (perm node : nat) : bool :=
  match find_perm_input g perm node (get_irn_out_edges g perm) with
  | Some (Some _) => true
  | _ => false
  end.

(** [node] satisfies all the conditions [push_through_perm] asks of a
    node it moves behind the Perm. *)
Definition can_hoist (g : ir_graph) (lv : be_lv_t) (perm node : nat) : bool :=
  match perm_frontier g lv perm,
        head (get_irn_out_edges g perm) ≫= arch_get_irn_reg_class g with
  | Some frontier, Some cls_ =>
      is_perm_input g perm node && may_push_through g cls_ frontier node
  | _, _ => false
  end.

(** ** Identity Perms *)

(** The input of the Perm [irn] that the Proj [out] selects. *)
Definition selected_input (g : ir_graph) (irn out : nat) : option nat :=
  get_Proj_proj g out ≫= get_irn_n g irn.

(** The permutation of [irn] is the identity on every slot: each Proj has
    the register of the input it selects. *)
Definition perm_is_identity (g : ir_graph) (irn : nat) : bool :=
  forallb (fun out =>
             match selected_input g irn out with
             | Some in_ => bool_decide (arch_get_irn_register g in_ =
                                        arch_get_irn_register g out)
             | None => false
             end)
          (get_irn_out_edges g irn).

(** No Proj of the Perm is an input of the Perm. *)
Definition perm_is_acyclic (g : ir_graph) (irn : nat) : bool :=
  match get_node g irn with
  | Some nd => forallb (fun out => bool_decide (out ∉ irn_in nd))
                       (get_irn_out_edges g irn)
  | None => false
  end.

(** Where a user of [y] reads from once the Projs [es] of [irn] have been
    exchanged with the inputs they select. *)
Definition bypass_projs (g : ir_graph) (irn : nat) (es : list nat) (y : nat)
  : nat :=
  if bool_decide (y ∈ es) then default y (selected_input g irn y) else y.

(** ** Perm nodes across a rewriting step *)

(** Every Perm node of [g'], except maybe node [k], is a Perm node of [g]
    with the same number of inputs, or a new node with two inputs; and
    the nodes of [g] are still there. *)
Definition perm_frame_except (k : option nat) (g g' : ir_graph) : Prop :=
  length (irg_nodes g) <= length (irg_nodes g') /\
  (forall n nd', get_node g' n = Some nd' -> irn_op nd' = beo_Perm ->
     Some n <> k ->
     (exists nd, get_node g n = Some nd /\ irn_op nd = beo_Perm /\
                 length (irn_in nd') = length (irn_in nd)) \/
     (length (irg_nodes g) <= n /\ length (irn_in nd') = 2)) /\
  (* a node of [g] stays in its block and keeps its opcode until it is
     killed *)
  (forall n nd, get_node g n = Some nd ->
     exists nd', get_node g' n = Some nd' /\ irn_block nd' = irn_block nd /\
                 (irn_op nd' = irn_op nd \/ irn_op nd' = iro_Deleted)).

Definition perm_frame (g g' : ir_graph) : Prop := perm_frame_except None g g'.

(** Node [n] is no Perm, or a Perm with exactly two inputs. *)
Definition binary_if_perm (g : ir_graph) (n : nat) : Prop :=
  forall nd, get_node g n = Some nd -> irn_op nd = beo_Perm ->
             length (irn_in nd) = 2.

(** ** A cycle lowered with a scratch register *)

(** Node [n] is a Copy of [src] in block [block], assigned register [r]. *)
Definition is_copy_of (g : ir_graph) (block n src : nat) (r : arch_register_t)
  : Prop :=
  exists nd, get_node g n = Some nd /\ irn_op nd = beo_Copy /\
             irn_in nd = [src] /\ irn_reg nd = Some r /\ irn_block nd = block.

(** The copies [split_cycle_into_copies] emits for a cycle with elements
    [es], whose registers are held by the nodes [hs], with scratch
    register [s], in the order it emits them, each as (source, register):
    the last holder into [s]; for i = n-2 down to 0 the holder of r_i into
    r_(i+1); the saved copy (the first new node, [first_new]) into r_0. *)
Definition cycle_copies (first_new : nat) (hs : list nat)
    (es : list arch_register_t) (s : arch_register_t)
  : list (nat * arch_register_t) :=
  match last hs, es with
  | Some h_last, e_0 :: es' =>
      (h_last, s) :: reverse (zip hs es') ++ [(first_new, e_0)]
  | _, _ => []
  end.

(** After the last [t] Projs of [qs] have been exchanged with their
    copies: where a user of [y] reads from, and whether [u] is one of the
    exchanged Projs.  The Proj of r_k is exchanged with the new node
    [first_new + n - k]. *)
Definition copy_for_proj (first_new n : nat) (qs : list nat) (t y : nat) : nat :=
  match list_index y qs with
  | Some k => if n - t <=? k then first_new + n - k else y
  | None => y
  end.

Definition proj_exchanged (n : nat) (qs : list nat) (t u : nat) : bool :=
  match list_index u qs with
  | Some k => n - t <=? k
  | None => false
  end.

(** The graph [gt] that [split_cycle_into_copies] has built from [g]
    when it has emitted the copies [news] and exchanged the last [t]
    Projs of [qs]. *)
Definition copies_emitted (g : ir_graph) (bl irn : nat) (pre post qs : list nat)
    (n t : nat) (news : list (nat * arch_register_t)) (gt : ir_graph) : Prop :=
  let N := length (irg_nodes g) in
  length (irg_nodes gt) = N + length news /\
  irg_sched gt = <[bl := pre ++ seq N (length news) ++ irn :: post]> (irg_sched g) /\
  (forall u nd, get_node g u = Some nd ->
     get_node gt u =
     Some (if proj_exchanged n qs t u then kill nd
           else set_in nd (copy_for_proj N n qs t <$> irn_in nd))) /\
  (forall j src r, news !! j = Some (src, r) ->
     is_copy_of gt bl (N + j) src r /\ (src ∉ qs)).

(** The holders [hs] of the registers of a move of the Perm [irn] are
    nodes of the graph and none of them is one of the nodes [qs], which
    are distinct Projs of the Perm. *)
Definition cycle_nodes_ok (g : ir_graph) (irn : nat) (hs qs : list nat) : bool :=
  bool_decide (NoDup qs)
  && forallb (fun q => is_Proj g q
                       && bool_decide (q ∈ get_irn_out_edges g irn)) qs
  && forallb (fun h => bool_decide (is_Some (get_node g h))
                       && bool_decide (h ∉ qs)) hs.

(** ** Pair arrays that differ in their marks only *)

(** [pairs'] holds the registers and nodes of [pairs], pair by pair,
    with the checked marks of [pairs] and maybe more. *)
Definition marks_more (pairs pairs' : list reg_pair_t) : Prop :=
  Forall2 (fun p p' => in_reg p' = in_reg p /\ in_node p' = in_node p /\
                       out_reg p' = out_reg p /\ out_node p' = out_node p /\
                       (checked p = true -> checked p' = true))
          pairs pairs'.

(** The pair at index [i] is marked as checked. *)
Definition checked_at (pairs : list reg_pair_t) (i : nat) : Prop :=
  exists p, pairs !! i = Some p /\ checked p = true.

(** Some pair of the array moves the content of register [e] into
    register [e']: its in register has the index of [e] and [e'] is its
    out register. *)
Definition moves_to (pairs : list reg_pair_t) (e e' : arch_register_t) : Prop :=
  exists p, p ∈ pairs /\ index (in_reg p) = index e /\ out_reg p = e'.

(** Every register of the list is moved into the next one. *)
Definition is_path (pairs : list reg_pair_t) (es : list arch_register_t) : Prop :=
  forall k e e', es !! k = Some e -> es !! S k = Some e' -> moves_to pairs e e'.

(** ** Scratch registers of a Perm *)

(** [r] is an allocatable register of the register class of the first
    input of the Perm [irn]. *)
Definition scratch_candidate (g : ir_graph)
    (classes : list arch_register_class_t) (allocatable_regs : Z)
    (irn : nat) (r : arch_register_t) : Prop :=
  exists in0 reg0 cls j,
    get_irn_n g irn 0 = Some in0 /\ arch_get_irn_register g in0 = Some reg0 /\
    classes !! reg_class reg0 = Some cls /\
    j < n_regs cls /\ arch_register_for_index cls j = Some r /\
    rbitset_is_set allocatable_regs (global_index r) = true.

(** ** Copies in front of a node *)

(** [c] is a Copy of [op] that must not be spilled: what [find_copy]
    looks for. *)
Definition is_unspillable_copy_of (g : ir_graph) (op c : nat) : bool :=
  be_is_Copy g c && bool_decide (be_get_Copy_op g c = Some op)
  && arch_irn_is g c arch_irn_flags_dont_spill.

(** [x] is a Copy that [find_copy] steps over. *)
Definition is_other_copy (g : ir_graph) (op x : nat) : bool :=
  be_is_Copy g x && negb (is_unspillable_copy_of g op x).

(** ** Patterns without a plain Keep *)

Definition is_copy_or_copykeep (nd : ir_node_t) : Prop :=
  irn_op nd = beo_Copy \/ irn_op nd = beo_CopyKeep.

(** [g'] is [g] with new Copy and CopyKeep nodes, and nothing else new or
    changed among the nodes. *)
Definition adds_copies_and_copykeeps (g g' : ir_graph) : Prop :=
  exists extra, irg_nodes g' = irg_nodes g ++ extra /\
                Forall is_copy_or_copykeep extra.

(** ** A chain lowered into copies *)

(** The copies [split_chain_into_copies] emits for a chain with
    registers [es], of which all but the last are held by the nodes
    [hs], in the order it emits them, each as (source, register): for
    i = n-2 down to 0 the holder of r_i into r_(i+1). *)
Definition chain_copies (hs : list nat) (es : list arch_register_t)
  : list (nat * arch_register_t) :=
  reverse (zip hs (drop 1 es)).

(** After the last [t] of the Projs [qs] (those of r_1 .. r_(n-1)) have
    been exchanged with their copies: where a user of [y] reads from.
    The [k]-th Proj is exchanged with the new node
    [first_new + (length qs - 1 - k)]. *)
Definition chain_copy_for_proj (first_new : nat) (qs : list nat) (t y : nat)
  : nat :=
  match list_index y qs with
  | Some k => if length qs - t <=? k then first_new + (length qs - 1 - k) else y
  | None => y
  end.

(** The graph [gt] that [split_chain_into_copies] has built from [g]
    when it has emitted the copies [news] and exchanged the last [t]
    Projs of [qs]. *)
Definition chain_copies_emitted (g : ir_graph) (bl irn : nat)
    (pre post qs : list nat) (t : nat) (news : list (nat * arch_register_t))
    (gt : ir_graph) : Prop :=
  let N := length (irg_nodes g) in
  length (irg_nodes gt) = N + length news /\
  irg_sched gt = <[bl := pre ++ seq N (length news) ++ irn :: post]> (irg_sched g) /\
  (forall u nd, get_node g u = Some nd ->
     get_node gt u =
     Some (if proj_exchanged (length qs) qs t u then kill nd
           else set_in nd (chain_copy_for_proj N qs t <$> irn_in nd))) /\
  (forall j src r, news !! j = Some (src, r) ->
     is_copy_of gt bl (N + j) src r /\ (src ∉ qs)).

(** ** A cycle lowered into swaps *)

(** [x] is an exchange node: a Perm of the block with the two inputs
    [a1] and [a2]. *)
Definition is_swap_of (g : ir_graph) (block x a1 a2 : nat) : Prop :=
  exists nd, get_node g x = Some nd /\ irn_op nd = beo_Perm /\
             irn_in nd = [a1; a2] /\ irn_block nd = block.

(** [y] is the Proj of result [pn] of [x], bound to register [r]. *)
Definition is_proj_of (g : ir_graph) (y x pn : nat) (r : arch_register_t)
  : Prop :=
  exists nd, get_node g y = Some nd /\ irn_op nd = iro_Proj /\
             irn_in nd = [x] /\ irn_proj nd = pn /\ irn_reg nd = Some r.

(** The exchange node of round [j] is the new node [first_new + 2 * j],
    the Proj created in that round the node after it. *)
Definition swap_perm (first_new j : nat) : nat := first_new + 2 * j.
Definition swap_proj (first_new j : nat) : nat := first_new + 2 * j + 1.

(** The second input of the exchange node of round [j]: the holder of
    the last register in the first round, the Proj of the round before
    in the others. *)
Definition swap_arg2 (first_new : nat) (hs : list nat) (j : nat) : option nat :=
  match j with
  | 0 => last hs
  | S j' => Some (swap_proj first_new j')
  end.

(** An old Proj of the Perm once it is result 0 of the exchange node
    that writes its register r_k. *)
Definition rewired_proj (first_new n : nat) (es : list arch_register_t)
    (k : nat) (nd : ir_node_t) : ir_node_t :=
  set_reg (set_proj (set_in nd [swap_perm first_new (n - 1 - k)]) 0) (es !! k).

(** The graph [gt] that [split_cycle_into_swaps] has built from [g]
    after [t] rounds that each created a Proj. *)
Definition swaps_emitted (g : ir_graph) (bl irn : nat) (pre post hs qs : list nat)
    (es : list arch_register_t) (t : nat) (gt : ir_graph) : Prop :=
  let N := length (irg_nodes g) in
  let n := length es in
  length (irg_nodes gt) = N + 2 * t /\
  irg_sched gt =
    <[bl := pre ++ (swap_perm N <$> seq 0 t) ++ irn :: post]> (irg_sched g) /\
  (forall u nd, get_node g u = Some nd ->
     get_node gt u =
     Some (match list_index u qs with
           | Some k => if n - t <=? k then rewired_proj N n es k nd else nd
           | None => nd
           end)) /\
  (forall j a1 a2 e, j < t ->
     hs !! (n - 2 - j) = Some a1 -> swap_arg2 N hs j = Some a2 ->
     es !! (n - 2 - j) = Some e ->
     is_swap_of gt bl (swap_perm N j) a1 a2 /\
     is_proj_of gt (swap_proj N j) (swap_perm N j) 1 e).

(** The pair array after [t] rounds: the pairs that read r_(n-1-t) ..
    r_(n-2) have the Projs of the rounds as their in nodes, all else is
    as it was. *)
Definition pairs_after_swaps (pairs : list reg_pair_t) (hs : list nat)
    (es : list arch_register_t) (first_new t : nat)
    (pairs_t : list reg_pair_t) : Prop :=
  let n := length es in
  Forall2 (fun p p' => in_reg p' = in_reg p /\ out_reg p' = out_reg p /\
                       out_node p' = out_node p) pairs pairs_t /\
  forall j e, es !! j = Some e ->
    get_node_for_in_register pairs_t e =
    if (n - 1 - t <=? j) && (j <=? n - 2)
    then Some (swap_proj first_new (n - 2 - j)) else hs !! j.

(** The pair that the loop of [build_register_pair_list] makes for the
    Proj [out] of the Perm [irn]: its in node is the input that the Proj
    selects, its registers are the ones of that input and of the Proj,
    and it is not checked.  There is none if the two registers are the
    same one. *)
Definition register_pair_of (g : ir_graph) (irn out : nat)
  : option reg_pair_t :=
  in_ ← selected_input g irn out;
  ri ← arch_get_irn_register g in_;
  ro ← arch_get_irn_register g out;
  if bool_decide (ri = ro) then None
  else Some (mk_pair ri in_ ro out false).

(** ** The patterns of a node that must be different *)

(** The operands for which the loop of [assure_different_constraints]
    makes a pattern, in the order of the loop: the inputs of
    [skipped_irn] at the set bits of the mask that are neither ignorable
    nor without a [datab] mode. *)
Definition pattern_inputs (g : ir_graph) (skipped_irn : nat) (other : Z)
  : list nat :=
  omap (fun i => if needs_pattern g skipped_irn other i
                 then get_irn_n g skipped_irn i else None) (seq 0 32).

(** One pattern for the node [irn] of block [bl] and the operand [d],
    leading from [g], [env] to [g'], [env'].  If [find_copy] meets a Copy
    [c] of [d] that must not be spilled in front of the node, one node is
    new, the CopyKeep of [c] and [irn], scheduled directly behind the
    node.  If not, two nodes are new: a Copy of [d] that must not be
    spilled, scheduled directly in front of the node, and the CopyKeep
    of that Copy and [irn], scheduled directly behind the node.  The Copy
    and the CopyKeep are recorded for [d] in the environment; no other
    node and no other schedule changes. *)
Definition pattern_emitted (g : ir_graph) (env : constraint_env_t)
    (irn bl d : nat) (g' : ir_graph) (env' : constraint_env_t) : Prop :=
  let N := length (irg_nodes g) in
  let s := skip_Proj g irn in
  exists nd_d pre post,
    get_node g d = Some nd_d /\
    sched_list g bl = pre ++ s :: post /\ (s ∉ pre) /\
    let cls := req_cls (irn_req nd_d) in
    match find_copy_from g (reverse pre) d with
    | Some c =>
        exists nd_c, get_node g c = Some nd_c /\ c ∈ pre /\
          is_unspillable_copy_of g d c = true /\
          irg_nodes g' = irg_nodes g ++
            [mk_node beo_CopyKeep (irn_mode nd_c) bl [c; irn] 0 None
                     (normal_req (req_cls (irn_req nd_c))) 0] /\
          irg_sched g' = <[bl := pre ++ s :: N :: post]> (irg_sched g) /\
          env' = env_add_copy (env_add_copy env d cls c) d cls N
    | None =>
        irg_nodes g' = irg_nodes g ++
          [mk_node beo_Copy (irn_mode nd_d) bl [d] 0 None (normal_req cls)
                   arch_irn_flags_dont_spill;
           mk_node beo_CopyKeep (irn_mode nd_d) bl [N; irn] 0 None
                   (normal_req cls) 0] /\
        irg_sched g' = <[bl := pre ++ N :: s :: S N :: post]> (irg_sched g) /\
        env' = env_add_copy (env_add_copy env d cls N) d cls (S N)
    end.

(** One pattern after the other for the operands [ds], and nothing
    else: with no operand the graph and the environment stay as they
    are. *)
Fixpoint patterns_emitted (g : ir_graph) (env : constraint_env_t)
    (irn bl : nat) (ds : list nat) (g' : ir_graph) (env' : constraint_env_t)
  : Prop :=
  match ds with
  | [] => g' = g /\ env' = env
  | d :: rest =>
      exists g1 env1,
        pattern_emitted g env irn bl d g1 env1 /\
        patterns_emitted g1 env1 irn bl rest g' env'
  end.
(** ** Concrete registers and graphs used by the examples *)

Definition r1 : arch_register_t := mk_reg 0 0 0 false.
Definition r2 : arch_register_t := mk_reg 0 1 1 false.
Definition r3 : arch_register_t := mk_reg 0 2 2 false.
Definition r4 : arch_register_t := mk_reg 0 3 3 false.

Definition no_req : arch_register_req_t := normal_req 0.

Definition blk (b : nat) : ir_node_t :=
  mk_node iro_Block mode_BB b [] 0 None no_req 0.

Definition ins_node (b : nat) (ins : list nat) (r : arch_register_t) : ir_node_t :=
  mk_node iro_Generic mode_Iu b ins 0 (Some r) no_req 0.

Definition perm_node (b : nat) (ins : list nat) : ir_node_t :=
  mk_node beo_Perm mode_T b ins 0 None no_req 0.

Definition proj_node (b pred pn : nat) (r : arch_register_t) : ir_node_t :=
  mk_node iro_Proj mode_Iu b [pred] pn (Some r) no_req 0.

Definition lv_none : be_lv_t := mk_lv (fun _ => []) (fun _ _ => false).

Definition cls2 : arch_register_class_t := mk_cls 0 2 [r1; r2].
Definition cls4 : arch_register_class_t := mk_cls 0 4 [r1; r2; r3; r4].

(** Block 0 with the schedule [a; P]: [a] lives in r1, the Perm [P]
    (node 2) moves it to r2 (Proj 3). *)
Definition g_move : ir_graph :=
  mk_irg [blk 0; ins_node 0 [] r1; perm_node 0 [1]; proj_node 0 2 0 r2]
         {[ 0 := [1; 2] ]}.

(** Block 0 with the schedule [d; N]: [N] (node 2) must differ from its
    input 0, the ignorable node [d] (node 1). *)
Definition g_ignore : ir_graph :=
  mk_irg [blk 0;
          mk_node iro_Generic mode_Iu 0 [] 0 (Some r1)
                  (mk_req arch_register_req_type_ignore 0 0 0) 0;
          mk_node iro_Generic mode_Iu 0 [1] 0 (Some r2)
                  (mk_req arch_register_req_type_must_be_different 0 0 1) 0]
         {[ 0 := [1; 2] ]}.

(** The same with an ordinary [d]: [N] needs a copy of [d] and a keep. *)
Definition g_differ : ir_graph :=
  mk_irg [blk 0;
          ins_node 0 [] r1;
          mk_node iro_Generic mode_Iu 0 [1] 0 (Some r2)
                  (mk_req arch_register_req_type_must_be_different 0 0 1) 0]
         {[ 0 := [1; 2] ]}.

(** [N] (node 2) must differ from input 0 and should be the same as
    input 1, and both inputs are the node [d]. *)
Definition g_same : ir_graph :=
  mk_irg [blk 0;
          ins_node 0 [] r1;
          mk_node iro_Generic mode_Iu 0 [1; 1] 0 (Some r2)
                  (mk_req (Z.lor arch_register_req_type_must_be_different
                                 arch_register_req_type_should_be_same) 0 2 1) 0]
         {[ 0 := [1; 2] ]}.

(** Scenario "three-cycle": block 0 schedules a, b, c (nodes 1, 2, 3, in
    r1, r2, r3), the Perm (node 4) and a user of its three Projs; the
    Projs of results 2, 1 and 0 (nodes 5, 6, 7) are bound to r1, r3
    and r2. *)
Definition g_cycle3 : ir_graph :=
  mk_irg [blk 0; ins_node 0 [] r1; ins_node 0 [] r2; ins_node 0 [] r3;
          perm_node 0 [1; 2; 3];
          proj_node 0 4 2 r1; proj_node 0 4 1 r3; proj_node 0 4 0 r2;
          ins_node 0 [5; 6; 7] r4]
         {[ 0 := [1; 2; 3; 4; 8] ]}.

(** The pairs of its Perm, and the cycle they form. *)
Definition pairs_cycle3 : list reg_pair_t :=
  [mk_pair r3 3 r1 5 false; mk_pair r2 2 r3 6 false; mk_pair r1 1 r2 7 false].

Definition move_cycle3 : perm_move_t := mk_move [r1; r2; r3] PERM_CYCLE.

(** Scenario "pure swap": a in r1, b in r2, outputs r2 and r1. *)
Definition g_swap : ir_graph :=
  mk_irg [blk 0; ins_node 0 [] r1; ins_node 0 [] r2;
          perm_node 0 [1; 2];
          proj_node 0 3 0 r2; proj_node 0 3 1 r1;
          ins_node 0 [4; 5] r3]
         {[ 0 := [1; 2; 3; 6] ]}.

(** Scenario "chain": pairs a/r1 -> r2 and b/r2 -> r3. *)
Definition g_chain : ir_graph :=
  mk_irg [blk 0; ins_node 0 [] r1; ins_node 0 [] r2;
          perm_node 0 [1; 2];
          proj_node 0 3 0 r2; proj_node 0 3 1 r3;
          ins_node 0 [4; 5] r4]
         {[ 0 := [1; 2; 3; 6] ]}.

(** A Perm that is the identity on both slots. *)
Definition g_ident : ir_graph :=
  mk_irg [blk 0; ins_node 0 [] r1; ins_node 0 [] r2;
          perm_node 0 [1; 2];
          proj_node 0 3 0 r1; proj_node 0 3 1 r2;
          ins_node 0 [4; 5] r3]
         {[ 0 := [1; 2; 3; 6] ]}.

(** Scenario "push-through elimination": [N] (node 2) computes a value of
    class 0 from [x] (node 1, class 1); the Perm (node 3) has [N] as its
    sole input and one Proj (node 4) bound to r2. *)
Definition g_push : ir_graph :=
  mk_irg [blk 0;
          mk_node iro_Generic mode_Iu 0 [] 0 (Some (mk_reg 1 0 8 false))
                  (normal_req 1) 0;
          ins_node 0 [1] r1;
          perm_node 0 [2];
          proj_node 0 3 0 r2;
          ins_node 0 [4] r3]
         {[ 0 := [1; 2; 3; 5] ]}.

(** As [g_swap], but the inputs of the Perm modify the flags, so that
    nothing can be pushed through the Perm. *)
Definition flags_node (b : nat) (ins : list nat) (r : arch_register_t) : ir_node_t :=
  mk_node iro_Generic mode_Iu b ins 0 (Some r) no_req arch_irn_flags_modify_flags.

Definition g_stuck : ir_graph :=
  mk_irg [blk 0; flags_node 0 [] r1; flags_node 0 [] r2;
          perm_node 0 [1; 2];
          proj_node 0 3 0 r2; proj_node 0 3 1 r1;
          ins_node 0 [4; 5] r3]
         {[ 0 := [1; 2; 3; 6] ]}.

(** Block 0 schedules [u] (node 1), [A] (node 2, which uses [u]), [B]
    (node 3, without operands) and the Perm (node 4) of [B]; all are
    values of class 0.  Only [B] interferes with the Proj (node 5) of the
    Perm, so [u] dies at [A]. *)
Definition g_front : ir_graph :=
  mk_irg [blk 0; ins_node 0 [] r1; ins_node 0 [1] r2; ins_node 0 [] r3;
          perm_node 0 [3];
          proj_node 0 4 0 r4]
         {[ 0 := [1; 2; 3; 4] ]}.

Definition lv_front : be_lv_t :=
  mk_lv (fun _ => [5]) (fun a b => bool_decide (a = 3 /\ b = 5)).

(** The three-cycle again, with inputs that modify the flags and so
    cannot be pushed through the Perm (node 4). *)
Definition g_cycle3_flags : ir_graph :=
  mk_irg [blk 0; flags_node 0 [] r1; flags_node 0 [] r2; flags_node 0 [] r3;
          perm_node 0 [1; 2; 3];
          proj_node 0 4 0 r2; proj_node 0 4 1 r3; proj_node 0 4 2 r1;
          ins_node 0 [5; 6; 7] r1]
         {[ 0 := [1; 2; 3; 4; 8] ]}.

Definition cls3 : arch_register_class_t := mk_cls 0 3 [r1; r2; r3].


(** As [g_differ], with a Copy of [d] that must not be spilled (node 2)
    scheduled between [d] and [N] (node 3). *)
Definition g_copied : ir_graph :=
  mk_irg [blk 0;
          ins_node 0 [] r1;
          mk_node beo_Copy mode_Iu 0 [1] 0 (Some r3) no_req
                  arch_irn_flags_dont_spill;
          mk_node iro_Generic mode_Iu 0 [1] 0 (Some r2)
                  (mk_req arch_register_req_type_must_be_different 0 0 1) 0]
         {[ 0 := [1; 2; 3] ]}.

(** The pairs of the Perm of [g_chain], and the chain they form. *)
Definition pairs_chain : list reg_pair_t :=
  [mk_pair r1 1 r2 4 false; mk_pair r2 2 r3 5 false].

Definition move_chain : perm_move_t := mk_move [r1; r2; r3] PERM_CHAIN.

(** A Perm (node 4) with the inputs [N] (node 3) and [a] (node 2); [N],
    its schedule predecessor, computes its value from [x] (node 1), a
    value of another register class, and can be pushed through. *)
Definition g_shrink : ir_graph :=
  mk_irg [blk 0;
          mk_node iro_Generic mode_Iu 0 [] 0 (Some (mk_reg 1 0 8 false))
                  (normal_req 1) 0;
          ins_node 0 [] r2;
          ins_node 0 [1] r1;
          perm_node 0 [3; 2];
          proj_node 0 4 0 r2; proj_node 0 4 1 r1;
          ins_node 0 [5; 6] r3]
         {[ 0 := [1; 2; 3; 4; 7] ]}.

(** The graph after the push-through. *)
Definition g_shrunk : ir_graph :=
  default g_shrink (snd <$> push_through_perm g_shrink lv_none 4).

(** A Perm that exchanges r1 and r2 and leaves r3 alone: the Projs of
    results 0 and 1 (nodes 5 and 6) are bound to r2 and r1, the Proj of
    result 2 (node 7) has the register of the input it selects. *)
Definition g_mixed : ir_graph :=
  mk_irg [blk 0; ins_node 0 [] r1; ins_node 0 [] r2; ins_node 0 [] r3;
          perm_node 0 [1; 2; 3];
          proj_node 0 4 0 r2; proj_node 0 4 1 r1; proj_node 0 4 2 r3;
          ins_node 0 [5; 6; 7] r4]
         {[ 0 := [1; 2; 3; 4; 8] ]}.

(** The pairs of its Perm. *)
Definition pairs_mixed : list reg_pair_t :=
  [mk_pair r1 1 r2 5 false; mk_pair r2 2 r1 6 false].
(** * Properties *)

Ltac obind H := cbn [mbind option_bind fmap option_fmap option_map] in H.
Ltac obindg := cbn [mbind option_bind fmap option_fmap option_map].

(** ** The decomposer *)

Lemma get_pairidx_for_out_regidx_None pairs r :
  get_pairidx_for_out_regidx pairs r = None <->
  forall p, p ∈ pairs -> index (out_reg p) <> r.
Proof.
  induction pairs as [|q rest IH]; simpl.
  - split; [intros _ p Hp; inversion Hp | done].
  - destruct (Nat.eqb_spec (index (out_reg q)) r) as [He|Hne].
    + split; [done | intros H; exfalso; apply (H q); [left | done]].
    + destruct (get_pairidx_for_out_regidx rest r) eqn:E; simpl.
      * split; [done | intros H].
        assert (Some n = None) as Hc; [|done].
        apply IH. intros p Hp. apply H. by right.
      * split; [|done]. intros _ p Hp.
        apply elem_of_cons in Hp as [->|Hp]; [done|].
        destruct IH as [IH _]. by apply IH.
Qed.

Lemma get_pairidx_for_out_regidx_Some pairs r k :
  get_pairidx_for_out_regidx pairs r = Some k ->
  exists p, pairs !! k = Some p /\ index (out_reg p) = r.
Proof.
  revert k. induction pairs as [|q rest IH]; simpl; intros k H; [done|].
  destruct (Nat.eqb_spec (index (out_reg q)) r) as [He|Hne].
  - injection H as <-. by exists q.
  - destruct (get_pairidx_for_out_regidx rest r) eqn:E; simpl in H; [|done].
    injection H as <-. destruct (IH _ eq_refl) as (p & Hp & Hr). by exists p.
Qed.

(** The backward walk keeps [head] the in register of [pairs[start]];
    it answers [PERM_CHAIN] exactly when no pair writes [head]. *)
Lemma find_move_start_inv fuel pairs cur_idx head start h s ty p0 :
  pairs !! start = Some p0 -> index (in_reg p0) = head ->
  find_move_start fuel pairs cur_idx head start = Some (h, s, ty) ->
  (exists ps, pairs !! s = Some ps /\ index (in_reg ps) = h) /\
  match ty with
  | PERM_CHAIN => get_pairidx_for_out_regidx pairs h = None
  | PERM_CYCLE => h = cur_idx
  end.
Proof.
  revert head start p0.
  induction fuel as [|fuel IH]; intros head start p0 Hp0 Hh; simpl.
  - destruct (Nat.eqb_spec head cur_idx); [|done].
    intros [= <- <- <-]. split; [by exists p0 | done].
  - destruct (Nat.eqb_spec head cur_idx).
    + intros [= <- <- <-]. split; [by exists p0 | done].
    + destruct (get_pairidx_for_out_regidx pairs head) as [k|] eqn:E.
      * destruct (pairs !! k) as [p|] eqn:Ek; simpl; [|done].
        intros H. by eapply IH.
      * intros [= <- <- <-]. split; [by exists p0 | done].
Qed.

(** The forward walk only appends to [elems]; it turns the tag into
    [PERM_CYCLE] only after it has met a pair that writes [head]. *)
Lemma collect_move_elems_inv fuel pairs cap head cur_idx es ty es' ty' :
  collect_move_elems fuel pairs cap head cur_idx es ty = Some (es', ty') ->
  (exists more, es' = es ++ more) /\
  (ty' = ty \/
   (ty' = PERM_CYCLE /\ exists p, p ∈ pairs /\ index (out_reg p) = head)).
Proof.
  revert cur_idx es ty.
  induction fuel as [|fuel IH]; intros cur_idx es ty; simpl.
  - destruct (cur_idx =? head); [|done].
    intros [= <- <-]. split; [exists []; by rewrite app_nil_r | by left].
  - destruct (cur_idx =? head).
    { intros [= <- <-]. split; [exists []; by rewrite app_nil_r | by left]. }
    destruct (get_pairidx_for_in_regidx pairs cur_idx) as [k|].
    2:{ intros [= <- <-]. split; [exists []; by rewrite app_nil_r | by left]. }
    destruct (pairs !! k) as [p|] eqn:Ek; simpl; [|done].
    destruct (Nat.eqb_spec (index (out_reg p)) head) as [He|Hne].
    + intros H. apply IH in H as [Hm [->|[-> Hex]]]; (split; [done|]).
      * right. split; [done|]. exists p. split; [|done].
        by eapply list_elem_of_lookup_2.
      * by right.
    + destruct (length es <? cap); [|done].
      intros H. apply IH in H as [[more ->] Hty]. split; [|done].
      exists (out_reg p :: more). by rewrite <- app_assoc.
Qed.

(** The tag of a move: it is a chain exactly when no pair of the array
    writes the first register of the move. *)
Lemma move_type_spec pairs start move pairs' :
  get_perm_move_info pairs start = Some (move, pairs') ->
  exists r0 r1 more,
    elems move = r0 :: r1 :: more /\
    (move_type move = PERM_CYCLE <->
     exists p, p ∈ pairs /\ index (out_reg p) = index r0).
Proof.
  unfold get_perm_move_info. intros H.
  destruct (pairs !! start) as [p0|] eqn:E0; simpl in H; [|done].
  destruct (find_move_start _ _ _ _ _) as [[[h s] ty0]|] eqn:Ef; simpl in H; [|done].
  destruct (pairs !! s) as [ps|] eqn:Es; simpl in H; [|done].
  match type of H with (if ?c then _ else _) = _ => destruct c end; [|done].
  destruct (collect_move_elems _ _ _ _ _ _ _) as [[es ty]|] eqn:Ec; simpl in H; [|done].
  injection H as <- <-. simpl.
  eapply find_move_start_inv in Ef as [(ps' & Hps' & Hh) Hty0]; [|done..].
  rewrite Es in Hps'. injection Hps' as <-.
  apply collect_move_elems_inv in Ec as [[more ->] Hty].
  exists (in_reg ps), (out_reg ps), more. split; [done|].
  rewrite Hh. destruct ty0.
  - subst h. assert (exists p, p ∈ pairs /\ index (out_reg p) = index (out_reg p0)) as Hex.
    { exists p0. split; [by eapply list_elem_of_lookup_2 | done]. }
    rewrite Hty0. destruct Hty as [->|[-> _]]; (split; [by intros _ | done]).
  - destruct Hty as [->|[_ (p & Hp & Hpo)]].
    + split; [done|]. intros (p & Hp & Hpo).
      by eapply get_pairidx_for_out_regidx_None in Hty0.
    + by eapply get_pairidx_for_out_regidx_None in Hty0.
Qed.

(** C3, as stated, fails: the single pair r1 -> r2 (nothing writes r1)
    decomposes into a move of two elements that is tagged [PERM_CHAIN]. *)
Lemma two_element_chain_exists :
  ~ (forall pairs start move pairs',
       get_perm_move_info pairs start = Some (move, pairs') ->
       n_elems move = 2 -> move_type move = PERM_CYCLE).
Proof.
  intros H.
  specialize (H [mk_pair r1 10 r2 20 false] 0
                (mk_move [r1; r2] PERM_CHAIN) [mk_pair r1 10 r2 20 true]
                eq_refl eq_refl).
  discriminate H.
Qed.

(** C3, amended: a move of exactly two elements is tagged [PERM_CYCLE]
    whenever some pair of the array writes the first register of the move
    (as in every array that is a permutation); when no pair writes it, the
    two-element move is a [PERM_CHAIN]. *)
Theorem two_element_move_tag pairs start move pairs' r0 :
  get_perm_move_info pairs start = Some (move, pairs') ->
  n_elems move = 2 ->
  elems move !! 0 = Some r0 ->
  ((exists p, p ∈ pairs /\ index (out_reg p) = index r0) ->
   move_type move = PERM_CYCLE) /\
  ((forall p, p ∈ pairs -> index (out_reg p) <> index r0) ->
   move_type move = PERM_CHAIN).
Proof.
  intros H _ H0.
  destruct (move_type_spec _ _ _ _ H) as (r0' & r1' & more & He & Hiff).
  rewrite He in H0. injection H0 as ->. split.
  - intros Hex. by apply Hiff.
  - intros Hno. destruct (move_type move) eqn:Et; [|done].
    destruct Hiff as [Hiff _]. destruct (Hiff eq_refl) as (p & Hp & Hpo).
    by apply Hno in Hp.
Qed.

Lemma two_element_move_tag_witness :
  move_type (mk_move [r2; r1] PERM_CYCLE) = PERM_CYCLE.
Proof.
  refine (proj1 (two_element_move_tag
            [mk_pair r1 10 r2 20 false; mk_pair r2 11 r1 21 false] 0
            (mk_move [r2; r1] PERM_CYCLE)
            [mk_pair r1 10 r2 20 true; mk_pair r2 11 r1 21 true] r2
            eq_refl eq_refl eq_refl) _).
  exists (mk_pair r1 10 r2 20 false). split; [|reflexivity].
  left.
Defined.

(** ** The scratch-register finder *)

Lemma set_reg_in_use_length g n cls regs b regs' :
  set_reg_in_use g n cls regs b = Some regs' -> length regs' = length regs.
Proof.
  unfold set_reg_in_use. intros H.
  destruct (get_node g n) as [nd|]; simpl in H; [|done].
  repeat (case_match; simplify_eq; try done).
  by rewrite length_insert.
Qed.

Lemma set_reg_in_use_true_mono g n cls regs regs' i :
  set_reg_in_use g n cls regs true = Some regs' ->
  regs !! i = Some true -> regs' !! i = Some true.
Proof.
  unfold set_reg_in_use. intros H Hi.
  destruct (get_node g n) as [nd|]; simpl in H; [|done].
  repeat (case_match; simplify_eq; try done).
  destruct (decide (arch_register_get_index a = i)) as [<-|Hne].
  - apply list_lookup_insert_eq. by eapply lookup_lt_Some.
  - by rewrite list_lookup_insert_ne.
Qed.

Lemma set_reg_in_use_true_hit g n cls regs regs' r :
  set_reg_in_use g n cls regs true = Some regs' ->
  holds_register g cls n r -> regs' !! index r = Some true.
Proof.
  unfold set_reg_in_use. intros H (nd & Hnd & Hm & Hr & Hv & Hc).
  rewrite Hnd in H. simpl in H. rewrite Hm, Hr, Hv, Hc, Nat.eqb_refl in H.
  simpl in H. unfold arch_register_get_index in H.
  destruct (Nat.ltb_spec (index r) (length regs)); [|done].
  injection H as <-. by apply list_lookup_insert_eq.
Qed.

Lemma set_regs_in_use_length g l cls regs b regs' :
  set_regs_in_use g l cls regs b = Some regs' -> length regs' = length regs.
Proof.
  revert regs. induction l as [|n l IH]; simpl; intros regs H.
  - by injection H as <-.
  - destruct (set_reg_in_use g n cls regs b) as [regs1|] eqn:E; simpl in H; [|done].
    rewrite (IH _ H). by eapply set_reg_in_use_length.
Qed.

Lemma set_regs_in_use_true_mono g l cls regs regs' i :
  set_regs_in_use g l cls regs true = Some regs' ->
  regs !! i = Some true -> regs' !! i = Some true.
Proof.
  revert regs. induction l as [|n l IH]; simpl; intros regs H Hi.
  - by injection H as <-.
  - destruct (set_reg_in_use g n cls regs true) as [regs1|] eqn:E; simpl in H; [|done].
    eapply IH; [done|]. by eapply set_reg_in_use_true_mono.
Qed.

Lemma set_regs_in_use_true_hit g l cls regs regs' x r :
  set_regs_in_use g l cls regs true = Some regs' ->
  x ∈ l -> holds_register g cls x r -> regs' !! index r = Some true.
Proof.
  revert regs. induction l as [|n l IH]; simpl; intros regs H Hx Hr.
  - inversion Hx.
  - destruct (set_reg_in_use g n cls regs true) as [regs1|] eqn:E; simpl in H; [|done].
    apply elem_of_cons in Hx as [->|Hx].
    + eapply set_regs_in_use_true_mono; [done|].
      by eapply set_reg_in_use_true_hit.
    + by eapply IH.
Qed.

(** When the reverse walk gets to [irn], it ends with the two updates made
    for [irn] itself. *)
Lemma walk_block_reverse_reaches g irn cls todo rest regs out :
  irn ∉ todo -> (forall n, n ∈ todo -> is_Phi g n = false) ->
  is_Phi g irn = false ->
  walk_block_reverse g irn cls (todo ++ irn :: rest) regs = Some out ->
  exists regs_a regs1,
    update_reg_defs g irn cls regs_a true = Some regs1 /\
    update_reg_uses g irn cls regs1 = Some out.
Proof.
  intros Hnot Hphi Hirn. revert regs.
  induction todo as [|n todo IH]; intros regs H; cbn [walk_block_reverse app] in H.
  - rewrite Hirn in H. rewrite bool_decide_eq_true_2 in H by done.
    destruct (update_reg_defs g irn cls regs true) as [ra|] eqn:E1; obind H; [|done].
    destruct (update_reg_uses g irn cls ra) as [rb|] eqn:E2; obind H; [|done].
    injection H as <-. eauto.
  - rewrite (Hphi n) in H by left.
    assert (irn <> n) as Hne by (intros ->; apply Hnot; left).
    rewrite bool_decide_eq_false_2 in H by done.
    destruct (update_reg_defs g n cls regs false) as [ra|]; obind H; [|done].
    destruct (update_reg_uses g n cls ra) as [rb|]; obind H; [|done].
    eapply IH; [| |done].
    + intros Hin. apply Hnot. by right.
    + intros m Hm. apply Hphi. by right.
Qed.

(** The registers [find_free_register] has marked in use when it looks
    for a free one include those of the Projs of [irn] and those of its
    inputs. *)
Lemma registers_in_use_at_perm g lv irn cls nd pre post in_use x r :
  get_node g irn = Some nd -> irn_op nd = beo_Perm -> irn_mode nd = mode_T ->
  sched_list g (irn_block nd) = pre ++ irn :: post ->
  irn ∉ post -> (forall n, n ∈ post -> is_Phi g n = false) ->
  registers_in_use_at g lv irn cls = Some in_use ->
  x ∈ get_irn_out_edges g irn \/ x ∈ irn_in nd ->
  holds_register g cls x r ->
  in_use !! index r = Some true.
Proof.
  intros Hnd Hop Hmode Hsched Hnot Hphi H Hx Hr.
  unfold registers_in_use_at, get_nodes_block in H.
  rewrite Hnd in H. obind H.
  destruct (set_regs_in_use g _ cls _ true) as [regs0|]; obind H; [|done].
  rewrite Hsched, reverse_app, reverse_cons, <- app_assoc in H.
  apply walk_block_reverse_reaches in H as (ra & rb & Hdefs & Huses).
  - unfold update_reg_defs, get_irn_mode in Hdefs. rewrite Hnd in Hdefs.
    obind Hdefs. rewrite Hmode, bool_decide_eq_true_2 in Hdefs by done.
    unfold update_reg_uses in Huses. rewrite Hnd in Huses. obind Huses.
    destruct Hx as [Hx|Hx].
    + eapply set_regs_in_use_true_mono; [done|].
      by eapply set_regs_in_use_true_hit.
    + by eapply set_regs_in_use_true_hit.
  - by rewrite elem_of_reverse.
  - intros n Hn. apply Hphi. by rewrite <- elem_of_reverse.
  - unfold is_Phi, has_op. rewrite Hnd, Hop. done.
Qed.

(** What the last loop of [find_free_register] returns: the first index,
    from [i] on, whose register is not in use and allocatable. *)
Lemma first_free_register_spec cls alloc in_use todo i res :
  first_free_register cls alloc in_use i todo = Some res ->
  match res with
  | Some reg =>
      exists j, i <= j /\ j < i + todo /\
        arch_register_for_index cls j = Some reg /\
        in_use !! j = Some false /\
        rbitset_is_set alloc (global_index reg) = true /\
        forall k rk, i <= k -> k < j ->
          arch_register_for_index cls k = Some rk ->
          in_use !! k = Some false ->
          rbitset_is_set alloc (global_index rk) = false
  | None =>
      forall k rk, i <= k -> k < i + todo ->
        arch_register_for_index cls k = Some rk ->
        in_use !! k = Some false ->
        rbitset_is_set alloc (global_index rk) = false
  end.
Proof.
  revert i. induction todo as [|todo IH]; intros i H; cbn [first_free_register] in H.
  - injection H as <-. intros; lia.
  - destruct (arch_register_for_index cls i) as [reg|] eqn:Er; obind H; [|done].
    destruct (in_use !! i) as [b|] eqn:Eb; obind H; [|done].
    destruct (negb b && rbitset_is_set alloc (global_index reg)) eqn:Ec.
    + injection H as <-.
      apply andb_true_iff in Ec as [Hb Ha]. apply negb_true_iff in Hb as ->.
      exists i. repeat split; try done; try lia.
    + apply IH in H.
      assert (forall k rk, k = i -> arch_register_for_index cls k = Some rk ->
                in_use !! k = Some false ->
                rbitset_is_set alloc (global_index rk) = false) as Hi.
      { intros k rk -> Hk Hf. rewrite Er in Hk. injection Hk as <-.
        rewrite Eb in Hf. injection Hf as ->. done. }
      destruct res as [reg'|].
      * destruct H as (j & Hij & Hj & Hrj & Hfj & Haj & Hmin).
        exists j. repeat split; try done; try lia.
        intros k rk Hk1 Hk2. destruct (decide (k = i)) as [->|Hne]; [by apply Hi|].
        apply Hmin; lia.
      * intros k rk Hk1 Hk2. destruct (decide (k = i)) as [->|Hne]; [by apply Hi|].
        apply H; lia.
Qed.

Lemma first_free_register_total cls alloc in_use todo i k rk :
  i <= k -> k < i + todo ->
  arch_register_for_index cls k = Some rk ->
  in_use !! k = Some false ->
  rbitset_is_set alloc (global_index rk) = true ->
  exists reg, first_free_register cls alloc in_use i todo = Some (Some reg).
Proof.
  revert i. induction todo as [|todo IH]; intros i Hik Hk Hrk Hf Ha; [lia|].
  cbn [first_free_register].
  destruct (decide (k = i)) as [->|Hne].
  - rewrite Hrk, Hf. simpl. rewrite Ha. simpl. eauto.
  - assert (is_Some (arch_register_for_index cls i)) as [ri Hri].
    { unfold arch_register_for_index in *. apply lookup_lt_is_Some.
      apply lookup_lt_Some in Hrk. lia. }
    assert (is_Some (in_use !! i)) as [bi Hbi].
    { apply lookup_lt_is_Some. apply lookup_lt_Some in Hf. lia. }
    rewrite Hri, Hbi. simpl.
    destruct (negb bi && rbitset_is_set alloc (global_index ri)); [eauto|].
    apply IH; [lia | lia | done..].
Qed.

(** C1, as stated, fails: in [g_move] register r2 is used only as the
    output of the Perm (node 2), is allocatable and in no other use, yet
    its in-use bit is set when the walk reaches the Perm, and no free
    register is reported. *)
Lemma perm_output_register_not_free :
  registers_in_use_at g_move lv_none 2 cls2 = Some [true; true] /\
  find_free_register g_move lv_none 3 ∅ 2 cls2 = Some ∅.
Proof. split; reflexivity. Qed.

(** C1, amended: when the reverse walk reaches the Perm P itself, the
    registers of the Projs of P (its defs) are marked in use, like the
    registers of its inputs; hence no register held by a Proj or by an
    input of P is reported as the free scratch register of P. *)
Theorem perm_registers_marked_in_use g lv irn cls nd pre post in_use x r :
  get_node g irn = Some nd -> irn_op nd = beo_Perm -> irn_mode nd = mode_T ->
  sched_list g (irn_block nd) = pre ++ irn :: post ->
  irn ∉ post -> (forall n, n ∈ post -> is_Phi g n = false) ->
  (forall k rk, arch_register_for_index cls k = Some rk -> index rk = k) ->
  registers_in_use_at g lv irn cls = Some in_use ->
  x ∈ get_irn_out_edges g irn \/ x ∈ irn_in nd ->
  holds_register g cls x r ->
  in_use !! index r = Some true /\
  forall alloc fm fm',
    fm !! irn = None ->
    find_free_register g lv alloc fm irn cls = Some fm' ->
    get_free_register fm' irn <> Some r.
Proof.
  intros Hnd Hop Hmode Hsched Hnot Hphi Hcls Hin Hx Hr.
  assert (in_use !! index r = Some true) as Hbit
    by (eapply registers_in_use_at_perm; eauto).
  split; [done|].
  intros alloc fm fm' Hfm H. unfold find_free_register in H.
  rewrite Hin in H. obind H.
  destruct (first_free_register _ _ _ _ _) as [res|] eqn:Ef; obind H; [|done].
  apply first_free_register_spec in Ef.
  unfold get_free_register. destruct res as [reg|].
  - injection H as <-. rewrite lookup_insert_eq. intros [= ->].
    destruct Ef as (j & _ & _ & Hj & Hfree & _).
    apply Hcls in Hj. subst j. rewrite Hbit in Hfree. done.
  - injection H as <-. by rewrite Hfm.
Qed.

Lemma perm_registers_marked_in_use_witness :
  [true; true; false; false] !! index r2 = Some true /\
  forall alloc fm fm',
    fm !! 2 = None ->
    find_free_register g_move lv_none alloc fm 2 cls4 = Some fm' ->
    get_free_register fm' 2 <> Some r2.
Proof.
  apply (perm_registers_marked_in_use g_move lv_none 2 cls4
           (perm_node 0 [1]) [1] [] [true; true; false; false] 3 r2).
  - reflexivity.
  - reflexivity.
  - reflexivity.
  - reflexivity.
  - intros H. inversion H.
  - intros n H. inversion H.
  - intros k rk. unfold arch_register_for_index. simpl.
    destruct k as [|[|[|[|k]]]]; simpl; intros [= <-]; reflexivity.
  - reflexivity.
  - left. left.
  - exists (proj_node 0 2 0 r2). repeat split.
Defined.

(** C9: when some register of the class is free at P and allocatable,
    [find_free_register] records for P the one with the lowest index: the
    recorded register is free and allocatable, and every lower index is in
    use or not allocatable. *)
Theorem find_free_register_lowest g lv alloc fm irn cls in_use i r :
  registers_in_use_at g lv irn cls = Some in_use ->
  i < n_regs cls ->
  arch_register_for_index cls i = Some r ->
  in_use !! i = Some false ->
  rbitset_is_set alloc (global_index r) = true ->
  exists fm' j rj,
    find_free_register g lv alloc fm irn cls = Some fm' /\
    get_free_register fm' irn = Some rj /\
    arch_register_for_index cls j = Some rj /\
    j <= i /\
    in_use !! j = Some false /\
    rbitset_is_set alloc (global_index rj) = true /\
    forall k rk, k < j ->
      arch_register_for_index cls k = Some rk ->
      in_use !! k = Some false ->
      rbitset_is_set alloc (global_index rk) = false.
Proof.
  intros Hin Hi Hr Hfree Halloc.
  destruct (first_free_register_total cls alloc in_use (n_regs cls) 0 i r)
    as [reg Hreg]; [lia | lia | done..|].
  unfold find_free_register. rewrite Hin. simpl. rewrite Hreg. simpl.
  apply first_free_register_spec in Hreg
    as (j & _ & Hj & Hrj & Hfj & Haj & Hmin).
  exists (<[irn := reg]> fm), j, reg.
  unfold get_free_register. rewrite lookup_insert_eq.
  repeat split; try done.
  - destruct (decide (j <= i)) as [|Hgt]; [done|].
    assert (rbitset_is_set alloc (global_index r) = false) as Hc
      by (apply (Hmin i r); [lia | lia | done..]).
    rewrite Halloc in Hc. done.
  - intros k rk Hk. apply Hmin; lia.
Qed.

Lemma find_free_register_lowest_witness :
  exists fm' j rj,
    find_free_register g_move lv_none 12 ∅ 2 cls4 = Some fm' /\
    get_free_register fm' 2 = Some rj /\
    arch_register_for_index cls4 j = Some rj /\
    j <= 3 /\
    [true; true; false; false] !! j = Some false /\
    rbitset_is_set 12 (global_index rj) = true /\
    forall k rk, k < j ->
      arch_register_for_index cls4 k = Some rk ->
      [true; true; false; false] !! k = Some false ->
      rbitset_is_set 12 (global_index rk) = false.
Proof.
  apply (find_free_register_lowest g_move lv_none 12 ∅ 2 cls4
           [true; true; false; false] 3 r4); try reflexivity.
  simpl. lia.
Defined.

(** ** The constraint-assurance pass *)

Lemma extends_refl g : extends g g.
Proof. exists []. by rewrite app_nil_r. Qed.

Lemma extends_trans g1 g2 g3 : extends g1 g2 -> extends g2 g3 -> extends g1 g3.
Proof.
  intros [e1 H1] [e2 H2]. exists (e1 ++ e2). by rewrite H2, H1, app_assoc.
Qed.

Lemma extends_get_node g g' n nd :
  extends g g' -> get_node g n = Some nd -> get_node g' n = Some nd.
Proof.
  intros [e He] H. unfold get_node in *. rewrite He. by apply lookup_app_l_Some.
Qed.

Lemma extends_add_node g nd : extends g (add_node g nd).2.
Proof. by exists [nd]. Qed.

Lemma extends_set_sched g g' s : extends g g' -> extends g (set_sched g' s).
Proof. intros [e He]. by exists e. Qed.

Lemma extends_sched_add_before g g' b n :
  extends g g' -> extends g (sched_add_before g' b n).
Proof.
  intros H. unfold sched_add_before. destruct (sched_block g' b); [|done].
  by apply extends_set_sched.
Qed.

Lemma extends_sched_add_after g g' a n :
  extends g g' -> extends g (sched_add_after g' a n).
Proof.
  intros H. unfold sched_add_after. destruct (sched_block g' a); [|done].
  by apply extends_set_sched.
Qed.

Lemma count_keeps_add_node g nd :
  count_keeps (add_node g nd).2 =
  count_keeps g + (if is_keep_node nd then 1 else 0).
Proof.
  unfold count_keeps, add_node. simpl. rewrite filter_app, length_app.
  f_equal. rewrite filter_cons, filter_nil.
  destruct (is_keep_node nd); by case_decide.
Qed.

Lemma adds_extends g g' : adds_copies_and_keeps g g' -> extends g g'.
Proof. intros (e & He & _). by exists e. Qed.

Lemma adds_refl g : adds_copies_and_keeps g g.
Proof. exists []. by rewrite app_nil_r. Qed.

Lemma adds_trans g1 g2 g3 :
  adds_copies_and_keeps g1 g2 -> adds_copies_and_keeps g2 g3 ->
  adds_copies_and_keeps g1 g3.
Proof.
  intros (e1 & H1 & F1) (e2 & H2 & F2). exists (e1 ++ e2).
  split; [by rewrite H2, H1, app_assoc | by apply Forall_app].
Qed.

Lemma adds_same_nodes g g' g'' :
  adds_copies_and_keeps g g' -> irg_nodes g'' = irg_nodes g' ->
  adds_copies_and_keeps g g''.
Proof. intros (e & He & F) H. exists e. by rewrite H. Qed.

Lemma sched_add_before_nodes g b n :
  irg_nodes (sched_add_before g b n) = irg_nodes g.
Proof. unfold sched_add_before. by destruct (sched_block g b). Qed.

Lemma sched_add_after_nodes g a n :
  irg_nodes (sched_add_after g a n) = irg_nodes g.
Proof. unfold sched_add_after. by destruct (sched_block g a). Qed.

Lemma sched_remove_nodes g n : irg_nodes (sched_remove g n) = irg_nodes g.
Proof.
  unfold sched_remove. destruct (sched_block g n); [|done].
  by destruct (irg_sched g !! _).
Qed.

Lemma same_nodes_get_node g g' n :
  irg_nodes g' = irg_nodes g -> get_node g' n = get_node g n.
Proof. unfold get_node. by intros ->. Qed.

Lemma same_nodes_sched_block g g' n :
  irg_nodes g' = irg_nodes g -> sched_block g' n = sched_block g n.
Proof. intros H. unfold sched_block. by rewrite (same_nodes_get_node _ _ _ H). Qed.

Lemma same_nodes_skip_Proj g g' n :
  irg_nodes g' = irg_nodes g -> skip_Proj g' n = skip_Proj g n.
Proof. intros H. unfold skip_Proj. by rewrite (same_nodes_get_node _ _ _ H). Qed.

Lemma extends_sched_block g g' n bl :
  extends g g' -> sched_block g n = Some bl -> sched_block g' n = Some bl.
Proof.
  intros He. unfold sched_block. destruct (get_node g n) as [nd|] eqn:E; [|done].
  by rewrite (extends_get_node _ _ _ _ He E).
Qed.

Lemma extends_skip_Proj g g' n :
  extends g g' -> is_Some (get_node g n) -> skip_Proj g' n = skip_Proj g n.
Proof.
  intros He [nd E]. unfold skip_Proj.
  by rewrite E, (extends_get_node _ _ _ _ He E).
Qed.

Lemma elem_of_insert_before b n l x : x ∈ l -> x ∈ insert_before b n l.
Proof.
  induction l as [|y l IH]; simpl; [done|]. intros Hx.
  case_bool_decide.
  - by right.
  - apply elem_of_cons in Hx as [->|Hx]; [left | right; by apply IH].
Qed.

Lemma elem_of_insert_after a n l x : x ∈ l -> x ∈ insert_after a n l.
Proof.
  induction l as [|y l IH]; simpl; [done|]. intros Hx.
  case_bool_decide.
  - apply elem_of_cons in Hx as [->|Hx]; [left | right; by right].
  - apply elem_of_cons in Hx as [->|Hx]; [left | right; by apply IH].
Qed.

Lemma sched_add_before_scheduled g b n x :
  sched_is_scheduled g x = true ->
  sched_is_scheduled (sched_add_before g b n) x = true.
Proof.
  unfold sched_is_scheduled.
  rewrite (same_nodes_sched_block _ _ x (sched_add_before_nodes g b n)).
  destruct (sched_block g x) as [bl|]; [|done].
  intros Hx. apply bool_decide_eq_true in Hx. apply bool_decide_eq_true.
  unfold sched_add_before. destruct (sched_block g b) as [bl'|]; [|done].
  unfold sched_list in *. simpl.
  destruct (decide (bl' = bl)) as [->|Hne].
  - rewrite lookup_insert_eq. simpl. case_bool_decide.
    + apply elem_of_app. by left.
    + by apply elem_of_insert_before.
  - by rewrite lookup_insert_ne.
Qed.

Lemma sched_add_after_scheduled g a n x :
  sched_is_scheduled g x = true ->
  sched_is_scheduled (sched_add_after g a n) x = true.
Proof.
  unfold sched_is_scheduled.
  rewrite (same_nodes_sched_block _ _ x (sched_add_after_nodes g a n)).
  destruct (sched_block g x) as [bl|]; [|done].
  intros Hx. apply bool_decide_eq_true in Hx. apply bool_decide_eq_true.
  unfold sched_add_after. destruct (sched_block g a) as [bl'|]; [|done].
  unfold sched_list in *. simpl.
  destruct (decide (bl' = bl)) as [->|Hne].
  - rewrite lookup_insert_eq. simpl. case_bool_decide.
    + by right.
    + by apply elem_of_insert_after.
  - by rewrite lookup_insert_ne.
Qed.

Lemma extends_scheduled g g' x :
  extends g g' -> irg_sched g' = irg_sched g ->
  sched_is_scheduled g x = true -> sched_is_scheduled g' x = true.
Proof.
  intros He Hs. unfold sched_is_scheduled.
  destruct (sched_block g x) as [bl|] eqn:E; [|done].
  rewrite (extends_sched_block _ _ _ _ He E). unfold sched_list. by rewrite Hs.
Qed.

Lemma sched_is_scheduled_before g x :
  sched_is_scheduled g x = true -> is_Some (sched_before g x).
Proof.
  unfold sched_is_scheduled, sched_before.
  destruct (sched_block g x) as [bl|]; [|done]. simpl.
  intros Hx. apply bool_decide_eq_true in Hx.
  assert (is_Some (list_index x (sched_list g bl))) as [i ->]; [|by eexists].
  induction (sched_list g bl) as [|y l IH]; [inversion Hx|]. simpl.
  case_bool_decide; [by eexists|].
  apply elem_of_cons in Hx as [->|Hx]; [done|].
  destruct (IH Hx) as [i ->]. by eexists.
Qed.

Lemma sched_is_scheduled_node g x :
  sched_is_scheduled g x = true -> is_Some (get_node g x).
Proof.
  unfold sched_is_scheduled, sched_block.
  destruct (get_node g x); [by eexists | done].
Qed.

Lemma find_copy_from_node g before op cpy :
  find_copy_from g before op = Some cpy -> is_Some (get_node g cpy).
Proof.
  induction before as [|c rest IH]; simpl; [done|].
  destruct (be_is_Copy g c) eqn:Ec; simpl; [|done].
  destruct (_ && _).
  - intros [= <-]. unfold be_is_Copy, has_op in Ec.
    destruct (get_node g c); [by eexists | done].
  - done.
Qed.

Lemma arch_set_irn_flags_new g nd f :
  arch_set_irn_flags (add_node g nd).2 (add_node g nd).1 f =
  (add_node g (set_flags nd f)).2.
Proof.
  unfold arch_set_irn_flags, update_node, add_node, set_nodes. simpl. f_equal.
  rewrite <- (Nat.add_0_r (length (irg_nodes g))) at 1.
  by rewrite alter_app_r.
Qed.

Lemma add_node_adds g nd :
  is_copy_or_keep nd -> adds_copies_and_keeps g (add_node g nd).2.
Proof. intros H. exists [nd]. split; [done | by constructor]. Qed.

Lemma add_node_get_new g nd : get_node (add_node g nd).2 (add_node g nd).1 = Some nd.
Proof.
  unfold get_node, add_node. simpl.
  rewrite lookup_app_r by done. by rewrite Nat.sub_diag.
Qed.


(** One call of [gen_assure_different_pattern] on a scheduled value:
    it returns, adds only Copy/Keep/CopyKeep nodes, and adds exactly one
    keep node when the other node is neither ignorable nor without a
    datab mode, and nothing at all otherwise. *)
Lemma gen_assure_different_pattern_spec g env irn other ndo :
  get_node g other = Some ndo -> is_Some (get_node g irn) ->
  sched_is_scheduled_value g irn = true ->
  exists g' env',
    gen_assure_different_pattern g env irn other = Some (g', env') /\
    adds_copies_and_keeps g g' /\
    sched_is_scheduled_value g' irn = true /\
    count_keeps g' = count_keeps g + (if wants_pattern ndo then 1 else 0) /\
    (wants_pattern ndo = false -> g' = g /\ env' = env).
Proof.
  intros Ho [ndi Hi] Hs. unfold gen_assure_different_pattern.
  rewrite Ho. obindg.
  destruct (wants_pattern ndo) eqn:Ew.
  2:{ unfold wants_pattern in Ew.
      replace (arch_irn_is_ignore ndo || negb (mode_is_datab (irn_mode ndo)))
        with true by (destruct (arch_irn_is_ignore ndo), (mode_is_datab (irn_mode ndo)); done).
      exists g, env. rewrite Nat.add_0_r. repeat split; try done. apply adds_refl. }
  unfold wants_pattern in Ew.
  replace (arch_irn_is_ignore ndo || negb (mode_is_datab (irn_mode ndo)))
    with false by (destruct (arch_irn_is_ignore ndo), (mode_is_datab (irn_mode ndo)); done).
  unfold get_nodes_block. rewrite Hi. obindg.
  set (s := skip_Proj g irn) in *.
  unfold find_copy.
  destruct (sched_is_scheduled_before g s Hs) as [before ->]. obindg.
  assert (exists cpy g1,
            match find_copy_from g before other with
            | Some cpy => Some (cpy, g)
            | None =>
                be_new_Copy g (irn_block ndi) other
                ≫= λ '(cpy, g'0),
                     Some (cpy, arch_set_irn_flags g'0 cpy arch_irn_flags_dont_spill)
            end = Some (cpy, g1) /\
            adds_copies_and_keeps g g1 /\ irg_sched g1 = irg_sched g /\
            count_keeps g1 = count_keeps g /\ is_Some (get_node g1 cpy))
    as (cpy & g1 & -> & Ha1 & Hs1 & Hc1 & Hcpy).
  { destruct (find_copy_from g before other) as [cpy|] eqn:Ef.
    - exists cpy, g. repeat split; try done; [apply adds_refl|].
      by eapply find_copy_from_node.
    - unfold be_new_Copy. rewrite Ho. obindg.
      match goal with |- context [add_node g ?nd] => set (ndc := nd) end.
      exists (add_node g ndc).1, (add_node g (set_flags ndc arch_irn_flags_dont_spill)).2.
      rewrite <- arch_set_irn_flags_new.
      split; [by destruct (add_node g ndc)|].
      rewrite arch_set_irn_flags_new.
      repeat split; try done.
      + apply add_node_adds. by left.
      + by rewrite count_keeps_add_node, Nat.add_0_r.
      + replace (add_node g ndc).1 with
          (add_node g (set_flags ndc arch_irn_flags_dont_spill)).1 by done.
        rewrite add_node_get_new. by eexists. }
  obindg.
  assert (exists keep g2,
            (if has_irn_users g1 other
             then be_new_CopyKeep_single g1 (irn_block ndi) cpy irn
             else Some (be_new_Keep g1 (irn_block ndi) [irn; cpy]))
            = Some (keep, g2) /\
            adds_copies_and_keeps g1 g2 /\ irg_sched g2 = irg_sched g1 /\
            count_keeps g2 = count_keeps g1 + 1)
    as (keep & g2 & -> & Ha2 & Hs2 & Hc2).
  { destruct (has_irn_users g1 other).
    - unfold be_new_CopyKeep_single. destruct Hcpy as [ndc ->]. obindg.
      match goal with |- context [add_node g1 ?nd] => set (ndk := nd) end.
      exists (add_node g1 ndk).1, (add_node g1 ndk).2.
      split; [by destruct (add_node g1 ndk)|].
      repeat split; try done.
      + apply add_node_adds. right. by right.
      + by rewrite count_keeps_add_node.
    - unfold be_new_Keep.
      match goal with |- context [add_node g1 ?nd] => set (ndk := nd) end.
      exists (add_node g1 ndk).1, (add_node g1 ndk).2.
      split; [by destruct (add_node g1 ndk)|].
      repeat split; try done.
      + apply add_node_adds. right. by left.
      + by rewrite count_keeps_add_node. }
  obindg.
  assert (adds_copies_and_keeps g g2) as Ha by (by eapply adds_trans).
  assert (extends g g2) as He by (by apply adds_extends).
  assert (skip_Proj g2 irn = s) as Hsk by (by apply extends_skip_Proj).
  assert (sched_is_scheduled g2 s = true) as Hs'.
  { eapply extends_scheduled; [done | by rewrite Hs2, Hs1 | done]. }
  unfold sched_is_scheduled_value at 1. rewrite Hsk, Hs'. simpl negb. cbv iota.
  eexists _, _. split; [done|].
  set (g3 := if negb (sched_is_scheduled g2 cpy)
             then sched_add_before g2 s cpy else g2).
  assert (irg_nodes g3 = irg_nodes g2) as Hn3.
  { unfold g3. destruct (sched_is_scheduled g2 cpy); simpl;
      [done | apply sched_add_before_nodes]. }
  assert (sched_is_scheduled g3 s = true) as Hs3.
  { unfold g3. destruct (sched_is_scheduled g2 cpy); simpl;
      [done | by apply sched_add_before_scheduled]. }
  rewrite (same_nodes_skip_Proj _ _ _ Hn3), Hsk.
  repeat split.
  - eapply adds_same_nodes; [done|]. by rewrite sched_add_after_nodes.
  - unfold sched_is_scheduled_value.
    rewrite (same_nodes_skip_Proj g2 (sched_add_after g3 s keep)), Hsk
      by (by rewrite sched_add_after_nodes).
    by apply sched_add_after_scheduled.
  - unfold count_keeps in *. by rewrite sched_add_after_nodes, Hn3, Hc2, Hc1.
  - done.
  - done.
Qed.

Lemma testbit_below (M : Z) (i j : nat) :
  (0 <= M)%Z -> (M < Z.shiftl 1 (Z.of_nat i))%Z -> i <= j ->
  Z.testbit M (Z.of_nat j) = false.
Proof.
  intros H0 Hlt Hij. rewrite Z.shiftl_1_l in Hlt.
  apply Z.testbit_false; [lia|].
  rewrite Z.div_small; [done|]. split; [done|].
  eapply Z.lt_le_trans; [done|]. apply Z.pow_le_mono_r; lia.
Qed.

Lemma filter_none {A} (P : A -> bool) (l : list A) :
  (forall x, x ∈ l -> P x = false) -> filter (fun x => P x = true) l = [].
Proof.
  induction l as [|y l IH]; intros H; [done|].
  rewrite filter_cons. rewrite (H y) by left. case_decide; [done|].
  apply IH. intros x Hx. apply H. by right.
Qed.

Lemma needs_pattern_unset g skipped M i :
  Z.testbit M (Z.of_nat i) = false -> needs_pattern g skipped M i = false.
Proof. unfold needs_pattern. by intros ->. Qed.

Lemma count_filter_seq_cons (P : nat -> bool) i todo :
  length (filter (fun j => P j = true) (seq i (S todo))) =
  (if P i then 1 else 0) + length (filter (fun j => P j = true) (seq (S i) todo)).
Proof.
  simpl. rewrite filter_cons. destruct (P i); by case_decide.
Qed.

Lemma assure_each_bit_spec g0 irn skipped M :
  (0 <= M < 2 ^ 31)%Z ->
  is_Some (get_node g0 irn) ->
  (forall j, Z.testbit M (Z.of_nat j) = true ->
     exists d, get_irn_n g0 skipped j = Some d /\ is_Some (get_node g0 d)) ->
  forall todo i g env,
    i + todo = 32 -> i <= 31 ->
    adds_copies_and_keeps g0 g ->
    sched_is_scheduled_value g irn = true ->
    exists g' env',
      assure_each_bit todo g env irn skipped M i = Some (g', env') /\
      adds_copies_and_keeps g0 g' /\
      count_keeps g' = count_keeps g +
        length (filter (fun j => needs_pattern g0 skipped M j = true) (seq i todo)).
Proof.
  intros HM Hirn Hins. induction todo as [|todo IH]; intros i g env Hsum Hi Ha Hs.
  { lia. }
  cbn [assure_each_bit].
  destruct (Z.leb_spec (Z.shiftl 1 (Z.of_nat i)) M) as [Hle|Hgt].
  - assert (i < 31) as Hi'.
    { rewrite Z.shiftl_1_l in Hle.
      destruct (decide (i < 31)) as [|Hge]; [done|].
      assert (2 ^ 31 <= 2 ^ Z.of_nat i)%Z by (apply Z.pow_le_mono_r; lia). lia. }
    rewrite count_filter_seq_cons.
    assert (exists g1 env1,
              (if Z.testbit M (Z.of_nat i)
               then get_irn_n g skipped i ≫= λ different_from,
                      gen_assure_different_pattern g env irn different_from
               else Some (g, env)) = Some (g1, env1) /\
              adds_copies_and_keeps g0 g1 /\
              sched_is_scheduled_value g1 irn = true /\
              count_keeps g1 = count_keeps g +
                (if needs_pattern g0 skipped M i then 1 else 0))
      as (g1 & env1 & -> & Ha1 & Hs1 & Hc1).
    { destruct (Z.testbit M (Z.of_nat i)) eqn:Eb.
      - destruct (Hins _ Eb) as (d & Hd & [ndo Hndo]).
        assert (get_irn_n g skipped i = Some d) as ->.
        { unfold get_irn_n in *.
          destruct (get_node g0 skipped) as [nds|] eqn:Es; [|done].
          by rewrite (extends_get_node _ _ _ _ (adds_extends _ _ Ha) Es). }
        obindg.
        destruct (gen_assure_different_pattern_spec g env irn d ndo)
          as (g1 & env1 & -> & Hg1 & Hs1 & Hc1 & _).
        + by eapply extends_get_node; [apply adds_extends|].
        + destruct Hirn as [ndi Hndi]. exists ndi.
          by eapply extends_get_node; [apply adds_extends|].
        + done.
        + exists g1, env1. repeat split; [by eapply adds_trans | done |].
          rewrite Hc1. f_equal. unfold needs_pattern. rewrite Eb, Hd. simpl.
          by rewrite Hndo.
      - exists g, env. rewrite needs_pattern_unset by done.
        by rewrite Nat.add_0_r. }
    obindg.
    destruct (IH (S i) g1 env1) as (g' & env' & -> & Ha' & Hc'); [lia | lia | done..|].
    exists g', env'. repeat split; [done|]. rewrite Hc', Hc1. lia.
  - exists g, env. repeat split; [done|].
    rewrite filter_none; [simpl; lia|].
    intros j Hj. apply elem_of_seq in Hj.
    rewrite needs_pattern_unset; [done|].
    apply (testbit_below M i j); lia.
Qed.

(** C8, as stated, fails: node 2 of [g_ignore] must differ from its input
    0 (bit 0 of the mask is set, there is no should_be_same shortcut), but
    that input is ignorable, and neither a copy nor a keep is generated. *)
Lemma ignored_input_gets_no_pattern :
  arch_register_req_is (mk_req arch_register_req_type_must_be_different 0 0 1)
    arch_register_req_type_must_be_different = true /\
  Z.testbit 1 0 = true /\
  same_single_input g_ignore 2
    (mk_req arch_register_req_type_must_be_different 0 0 1) = false /\
  assure_different_constraints g_ignore (mk_cenv ∅) 2 2 =
    Some (g_ignore, mk_cenv ∅).
Proof. repeat split. Qed.

(** ** Schedules as lists *)

Lemma list_index_app_r x pre post :
  x ∉ pre -> list_index x (pre ++ x :: post) = Some (length pre).
Proof.
  induction pre as [|y pre IH]; simpl; intros Hx.
  - by rewrite bool_decide_eq_true_2.
  - rewrite bool_decide_eq_false_2 by (intros ->; apply Hx; left).
    rewrite IH; [done|]. intros H. apply Hx. by right.
Qed.

Lemma list_index_Some_elem x l i : list_index x l = Some i -> x ∈ l.
Proof.
  revert i. induction l as [|y l IH]; simpl; intros i H; [done|].
  case_bool_decide; [subst; left|].
  destruct (list_index x l) eqn:E; [|done]. right. by eapply IH.
Qed.

Lemma list_index_split x l i :
  list_index x l = Some i ->
  exists pre post, l = pre ++ x :: post /\ (x ∉ pre) /\ length pre = i.
Proof.
  revert i. induction l as [|y l IH]; simpl; intros i H; [done|].
  case_bool_decide.
  - injection H as <-. subst y. exists [], l. repeat split.
    intros Hx. inversion Hx.
  - destruct (list_index x l) as [j|] eqn:E; [|done]. injection H as <-.
    destruct (IH j eq_refl) as (pre & post & -> & Hn & Hl).
    exists (y :: pre), post. repeat split; [|by simpl; rewrite Hl].
    intros Hx. apply elem_of_cons in Hx as [->|Hx]; done.
Qed.

Lemma elem_of_list_index x l : x ∈ l -> is_Some (list_index x l).
Proof.
  induction l as [|y l IH]; intros Hx; [inversion Hx|]. simpl.
  case_bool_decide; [by eexists|].
  apply elem_of_cons in Hx as [->|Hx]; [done|].
  destruct (IH Hx) as [i ->]. by eexists.
Qed.

Lemma list_remove_middle x pre post :
  x ∉ pre -> x ∉ post -> list_remove x (pre ++ x :: post) = pre ++ post.
Proof.
  intros Hpre Hpost. unfold list_remove.
  assert (forall l : list nat, x ∉ l -> filter (fun y => y ≠ x) l = l) as Hid.
  { induction l as [|y l IH]; intros Hl; [done|].
    rewrite filter_cons. case_decide.
    - f_equal. apply IH. intros H'. apply Hl. by right.
    - exfalso. apply Hl. assert (y = x) as -> by (by destruct (decide (y = x))).
      left. }
  rewrite filter_app, filter_cons. rewrite decide_False by (intros H; by apply H).
  by rewrite !Hid.
Qed.

Lemma insert_after_middle a x pre post :
  a ∉ pre -> insert_after a x (pre ++ a :: post) = pre ++ a :: x :: post.
Proof.
  induction pre as [|y pre IH]; simpl; intros Ha.
  - by rewrite bool_decide_eq_true_2.
  - rewrite bool_decide_eq_false_2 by (intros ->; apply Ha; left).
    rewrite IH; [done|]. intros H. apply Ha. by right.
Qed.

Lemma sched_list_set_sched g bl l :
  sched_list (set_sched g (<[bl := l]> (irg_sched g))) bl = l.
Proof. unfold sched_list. simpl. by rewrite lookup_insert_eq. Qed.

Lemma sched_list_set_sched_ne g bl bl' l :
  bl ≠ bl' -> sched_list (set_sched g (<[bl := l]> (irg_sched g))) bl' =
              sched_list g bl'.
Proof. intros H. unfold sched_list. simpl. by rewrite lookup_insert_ne. Qed.

Lemma sched_remove_list g n bl :
  sched_block g n = Some bl ->
  sched_list (sched_remove g n) bl = list_remove n (sched_list g bl).
Proof.
  intros Hb. unfold sched_remove. rewrite Hb. unfold sched_list at 2.
  destruct (irg_sched g !! bl) as [l|] eqn:E; simpl.
  - apply sched_list_set_sched.
  - unfold sched_list. by rewrite E.
Qed.

Lemma sched_remove_list_ne g n bl bl' :
  sched_block g n = Some bl -> bl ≠ bl' ->
  sched_list (sched_remove g n) bl' = sched_list g bl'.
Proof.
  intros Hb Hne. unfold sched_remove. rewrite Hb.
  destruct (irg_sched g !! bl) as [l|] eqn:E; [|done].
  by apply sched_list_set_sched_ne.
Qed.

Lemma sched_add_after_list g a n bl :
  sched_block g a = Some bl ->
  sched_list (sched_add_after g a n) bl =
  if bool_decide (a = bl) then n :: sched_list g bl
  else insert_after a n (sched_list g bl).
Proof.
  intros Hb. unfold sched_add_after. rewrite Hb. apply sched_list_set_sched.
Qed.

Lemma sched_prev_middle g n bl pre post :
  sched_block g n = Some bl -> sched_list g bl = pre ++ n :: post -> n ∉ pre ->
  sched_prev g n = Some (default bl (last pre)).
Proof.
  intros Hb Hl Hn. unfold sched_prev. rewrite Hb. obindg.
  rewrite Hl, (list_index_app_r _ _ _ Hn). obindg.
  destruct pre as [|p pre _] using rev_ind; [done|].
  rewrite length_app. simpl. rewrite Nat.add_1_r.
  rewrite last_snoc. simpl. rewrite <- app_assoc.
  simpl. by rewrite list_lookup_middle.
Qed.

(** ** Well-formed Perms *)

Lemma perm_ok_elim g perm :
  perm_ok g perm = true ->
  exists ndp pre post,
    get_node g perm = Some ndp /\ irn_op ndp = beo_Perm /\
    is_Block g (irn_block ndp) = true /\
    sched_list g (irn_block ndp) = pre ++ perm :: post /\
    NoDup (pre ++ perm :: post) /\
    (forall x, x ∈ pre ++ perm :: post ->
       scheduled_in_block g (irn_block ndp) x = true) /\
    get_irn_out_edges g perm <> [] /\
    (forall out, out ∈ get_irn_out_edges g perm ->
       is_perm_proj g (length (irn_in ndp)) out = true) /\
    NoDup ((fun out => irn_proj <$> get_node g out) <$> get_irn_out_edges g perm).
Proof.
  unfold perm_ok. destruct (get_node g perm) as [ndp|]; [|done].
  rewrite !andb_true_iff.
  intros [[[[[[[H1 H2] H3] H4] H5] H6] H7] H8].
  apply bool_decide_eq_true in H1, H3, H4, H8.
  apply negb_true_iff, bool_decide_eq_false in H6.
  destruct (elem_of_list_index _ _ H3) as [i Hi].
  destruct (list_index_split _ _ _ Hi) as (pre & post & Hl & _ & _).
  exists ndp, pre, post. rewrite <- Hl.
  repeat split; try done.
  - intros x Hx. rewrite forallb_forall in H5. apply H5. by apply list_elem_of_In.
  - intros x Hx. rewrite forallb_forall in H7. apply H7. by apply list_elem_of_In.
Qed.

Lemma perm_ok_sched_block g perm ndp :
  get_node g perm = Some ndp -> irn_op ndp = beo_Perm ->
  sched_block g perm = Some (irn_block ndp).
Proof. intros H Hop. unfold sched_block. rewrite H. simpl. by rewrite Hop. Qed.

Lemma scheduled_in_block_elim g bl x :
  scheduled_in_block g bl x = true ->
  exists nd, get_node g x = Some nd /\ irn_block nd = bl /\
             irn_op nd <> iro_Block /\ irn_op nd <> iro_Proj /\
             sched_block g x = Some bl.
Proof.
  unfold scheduled_in_block, sched_block.
  destruct (get_node g x) as [nd|]; [|done].
  rewrite !andb_true_iff. intros [[H1 H2] H3].
  apply bool_decide_eq_true in H1.
  apply negb_true_iff, bool_decide_eq_false in H2, H3.
  exists nd. repeat split; try done. simpl.
  by rewrite bool_decide_eq_false_2, H1.
Qed.

Lemma is_perm_proj_elim g arity out :
  is_perm_proj g arity out = true ->
  exists nd, get_node g out = Some nd /\ irn_op nd = iro_Proj /\
             irn_proj nd < arity.
Proof.
  unfold is_perm_proj. destruct (get_node g out) as [nd|]; [|done].
  rewrite andb_true_iff. intros [H1 H2].
  apply bool_decide_eq_true in H1. apply Nat.ltb_lt in H2. by exists nd.
Qed.

(** On a well-formed Perm the search for the Proj of an input never
    fails an assertion. *)
Lemma find_perm_input_total g perm ndp node edges :
  get_node g perm = Some ndp ->
  (forall out, out ∈ edges -> is_perm_proj g (length (irn_in ndp)) out = true) ->
  is_Some (find_perm_input g perm node edges).
Proof.
  intros Hp. induction edges as [|out rest IH]; intros H; simpl; [by eexists|].
  destruct (is_perm_proj_elim _ _ _ (H out ltac:(left))) as (nd & Hnd & Hop & Hlt).
  unfold get_Proj_proj, get_irn_n. rewrite Hnd, Hp. obindg.
  rewrite bool_decide_eq_true_2 by done. obindg.
  destruct (lookup_lt_is_Some_2 (irn_in ndp) (irn_proj nd) Hlt) as [in_ ->].
  obindg. case_bool_decide; [by eexists|].
  apply IH. intros o Ho. apply H. by right.
Qed.

(** What [push_through_perm] reads off a well-formed Perm before its
    loop starts. *)
Lemma perm_ok_entry g lv perm :
  perm_ok g perm = true ->
  exists ndp pre post one_proj ndq frontier,
    get_node g perm = Some ndp /\ irn_op ndp = beo_Perm /\
    is_Block g (irn_block ndp) = true /\
    sched_block g perm = Some (irn_block ndp) /\
    sched_list g (irn_block ndp) = pre ++ perm :: post /\
    NoDup (pre ++ perm :: post) /\
    (forall x, x ∈ pre ++ perm :: post ->
       scheduled_in_block g (irn_block ndp) x = true) /\
    (forall out, out ∈ get_irn_out_edges g perm ->
       is_perm_proj g (length (irn_in ndp)) out = true) /\
    NoDup ((fun out => irn_proj <$> get_node g out)
             <$> get_irn_out_edges g perm) /\
    head (get_irn_out_edges g perm) = Some one_proj /\
    get_node g one_proj = Some ndq /\ irn_op ndq = iro_Proj /\
    perm_frontier g lv perm = Some frontier /\
    sched_prev g perm = Some (default (irn_block ndp) (last pre)).
Proof.
  intros Hok.
  destruct (perm_ok_elim _ _ Hok)
    as (ndp & pre & post & Hp & Hop & Hbl & Hl & Hnd & Hin & Hedges & Hprojs & Hpn).
  pose proof (perm_ok_sched_block _ _ _ Hp Hop) as Hsb.
  assert (perm ∉ pre) as Hpre.
  { apply NoDup_app in Hnd as (_ & Hd & _). intros Hx. apply (Hd _ Hx). left. }
  destruct (get_irn_out_edges g perm) as [|one_proj edges] eqn:He; [done|].
  destruct (is_perm_proj_elim _ _ _ (Hprojs one_proj ltac:(left)))
    as (ndq & Hq & Hqop & _).
  destruct (sched_is_scheduled_before g perm) as [before Hbefore].
  { unfold sched_is_scheduled. rewrite Hsb, Hl. apply bool_decide_eq_true.
    apply elem_of_app. right. left. }
  exists ndp, pre, post, one_proj, ndq.
  eexists. repeat split; try done.
  - unfold perm_frontier, get_nodes_block, arch_get_irn_reg_class.
    rewrite Hp, He, Hbefore. simpl. rewrite Hq. simpl. done.
  - by eapply sched_prev_middle.
Qed.

(** C10: when no schedule predecessor of the Perm satisfies all hoisting
    conditions, [push_through_perm] returns 1 and leaves the graph (the
    Perm, its inputs, its Projs, all register assignments) and the
    schedule as they were. *)
Theorem push_through_perm_noop g lv perm :
  perm_ok g perm = true ->
  (forall bl node,
     get_nodes_block g perm = Some bl -> node ∈ sched_list g bl ->
     sched_comes_after g node perm = true ->
     can_hoist g lv perm node = false) ->
  push_through_perm g lv perm = Some (true, g).
Proof.
  intros Hok Hno.
  destruct (perm_ok_entry g lv perm Hok)
    as (ndp & pre & post & one_proj & ndq & frontier & Hp & Hop & Hbl & Hsb & Hl &
        Hnd & Hin & Hprojs & _ & Hhead & Hq & Hqop & Hfront & Hprev).
  assert (perm ∉ pre) as Hpre.
  { apply NoDup_app in Hnd as (_ & Hd & _). intros Hx. apply (Hd _ Hx). left. }
  assert (get_nodes_block g perm = Some (irn_block ndp)) as Hgb
    by (unfold get_nodes_block; by rewrite Hp).
  assert (arch_get_irn_reg_class g one_proj = Some (req_cls (irn_req ndq))) as Hcls
    by (unfold arch_get_irn_reg_class; by rewrite Hq).
  unfold push_through_perm, push_through_perm_loop. unfold get_irn_arity.
  rewrite Hgb, Hp, Hhead. obindg. rewrite Hcls. obindg.
  unfold is_Proj, has_op. rewrite Hq, bool_decide_eq_true_2 by done. simpl negb.
  cbv iota. rewrite Hfront, Hprev. obindg.
  assert (push_loop (S (length (sched_list g (irn_block ndp)))) g perm
            (req_cls (irn_req ndq)) frontier (default (irn_block ndp) (last pre))
            0 0 = Some (g, 0%Z, 0)) as ->; [|done].
  cbn [push_loop].
  destruct pre as [|p pre _] using rev_ind.
  { simpl. unfold sched_is_begin. by rewrite Hbl. }
  rewrite last_snoc. simpl.
  destruct (sched_is_begin g p); [done|].
  destruct (find_perm_input_total g perm ndp p (get_irn_out_edges g perm) Hp)
    as [found Hfound]; [done|].
  assert (p ∈ sched_list g (irn_block ndp)) as Hpin.
  { rewrite Hl. apply elem_of_app. left. apply elem_of_app. right. left. }
  assert (sched_comes_after g p perm = true) as Hafter.
  { destruct (scheduled_in_block_elim _ _ _ (Hin p ltac:(by rewrite <- Hl)))
      as (ndx & Hx & Hxb & Hxop & _ & Hxsb).
    unfold sched_comes_after, sched_time_step. rewrite Hxsb, Hsb. obindg.
    assert (p <> irn_block ndp) as Hne1.
    { intros ->. unfold is_Block, has_op in Hbl. rewrite Hx in Hbl.
      by apply bool_decide_eq_true in Hbl. }
    assert (perm <> irn_block ndp) as Hne2.
    { intros Heq. unfold is_Block, has_op in Hbl. rewrite <- Heq, Hp, Hop in Hbl.
      done. }
    rewrite !bool_decide_eq_false_2 by done.
    rewrite Hl. rewrite (list_index_app_r _ _ _ Hpre).
    assert (p ∉ pre) as Hppre.
    { rewrite <- app_assoc in Hnd. apply NoDup_app in Hnd as (_ & Hd & _).
      intros Hx'. apply (Hd _ Hx'). left. }
    rewrite <- (app_assoc pre [p]). simpl app.
    rewrite (list_index_app_r _ _ _ Hppre). simpl.
    apply Nat.ltb_lt. rewrite length_app. simpl. lia. }
  specialize (Hno _ p Hgb Hpin Hafter).
  unfold can_hoist, is_perm_input in Hno.
  rewrite Hfront, Hhead in Hno. simpl in Hno. rewrite Hcls, Hfound in Hno.
  rewrite Hfound. obindg.
  destruct found as [[proj input]|]; [|done].
  simpl in Hno. by rewrite Hno.
Qed.

Lemma push_through_perm_noop_witness :
  push_through_perm g_stuck lv_none 3 = Some (true, g_stuck).
Proof.
  apply push_through_perm_noop.
  - reflexivity.
  - intros bl node [= <-] Hnode _. unfold g_stuck, sched_list in Hnode.
    simpl in Hnode.
    repeat (apply elem_of_cons in Hnode as [->|Hnode]; [reflexivity|]).
    inversion Hnode.
Defined.

(** ** Nodes and edges under the graph primitives *)

Lemma get_node_update_node g k f n :
  get_node (update_node g k f) n =
  if bool_decide (n = k) then f <$> get_node g n else get_node g n.
Proof.
  unfold get_node, update_node. simpl. case_bool_decide.
  - subst. apply list_lookup_alter_eq.
  - by apply list_lookup_alter_ne.
Qed.

Lemma get_node_exchange g old nw n :
  get_node (exchange g old nw) n =
  (fun nd => if bool_decide (n = old) then kill (reroute old nw nd)
             else reroute old nw nd) <$> get_node g n.
Proof.
  unfold exchange. rewrite get_node_update_node. unfold get_node. simpl.
  rewrite list_lookup_fmap. case_bool_decide.
  - by rewrite <- option_fmap_compose.
  - done.
Qed.

Lemma sched_exchange g old nw : irg_sched (exchange g old nw) = irg_sched g.
Proof. done. Qed.

Lemma sched_update_node g k f : irg_sched (update_node g k f) = irg_sched g.
Proof. done. Qed.

Lemma out_edges_imap g n :
  get_irn_out_edges g n =
  mjoin (imap (fun i ins => (fun _ => i) <$> filter (fun x => x = n) ins)
              (irn_in <$> irg_nodes g)).
Proof. unfold get_irn_out_edges. by rewrite imap_fmap. Qed.

Lemma out_edges_same_ins g g' n :
  irn_in <$> irg_nodes g' = irn_in <$> irg_nodes g ->
  get_irn_out_edges g' n = get_irn_out_edges g n.
Proof. intros H. by rewrite !out_edges_imap, H. Qed.

Lemma update_node_same_ins g k f :
  (forall nd, irn_in (f nd) = irn_in nd) ->
  irn_in <$> irg_nodes (update_node g k f) = irn_in <$> irg_nodes g.
Proof.
  intros Hf. unfold update_node. simpl. apply list_eq. intros i.
  rewrite !list_lookup_fmap. destruct (decide (i = k)) as [->|Hne].
  - rewrite list_lookup_alter_eq. destruct (irg_nodes g !! k); simpl; by rewrite ?Hf.
  - by rewrite list_lookup_alter_ne.
Qed.

Lemma filter_mjoin_imap {A} (P : nat -> Prop) `{!forall x, Decision (P x)}
    (f f' : nat -> A -> list nat) (l : list A) :
  (forall i x, l !! i = Some x -> filter P (f i x) = f' i x) ->
  filter P (mjoin (imap f l)) = mjoin (imap f' l).
Proof.
  revert f f'. induction l as [|y l IH]; intros f f' Hf; [done|].
  simpl. rewrite filter_app. f_equal.
  - by apply (Hf 0).
  - apply IH. intros i x Hi. by apply (Hf (S i)).
Qed.

Lemma elem_of_out_edges g n out :
  out ∈ get_irn_out_edges g n <->
  exists nd, get_node g out = Some nd /\ n ∈ irn_in nd.
Proof.
  unfold get_irn_out_edges, get_node. rewrite list_elem_of_join. split.
  - intros (l & Hout & Hl). apply elem_of_lookup_imap in Hl as (i & nd & -> & Hi).
    unfold edges_from in Hout. apply list_elem_of_fmap in Hout as (x & -> & Hx).
    apply list_elem_of_filter in Hx as [-> Hx]. by exists nd.
  - intros (nd & Hnd & Hin). exists (edges_from n out nd). split.
    + unfold edges_from. apply list_elem_of_fmap. exists n. split; [done|].
      by apply list_elem_of_filter.
    + apply elem_of_lookup_imap. by exists out, nd.
Qed.

Lemma out_edges_exchange g old nw n :
  n <> old -> n <> nw ->
  get_irn_out_edges (exchange g old nw) n =
  filter (fun x => x <> old) (get_irn_out_edges g n).
Proof.
  intros Ho Hn. unfold get_irn_out_edges at 2.
  rewrite (filter_mjoin_imap _ _
            (fun i nd => if bool_decide (i = old) then [] else edges_from n i nd)).
  2:{ intros i nd _. unfold edges_from. case_bool_decide.
      - subst. induction (filter _ (irn_in nd)) as [|z l IH]; [done|].
        rewrite fmap_cons, filter_cons. by rewrite decide_False by (intros H; by apply H).
      - induction (filter _ (irn_in nd)) as [|z l IH]; [done|].
        rewrite fmap_cons, filter_cons. rewrite decide_True by done. by f_equal. }
  unfold get_irn_out_edges. f_equal.
  apply list_eq. intros i. rewrite !list_lookup_imap.
  pose proof (get_node_exchange g old nw i) as H. unfold get_node in H.
  rewrite H. destruct (irg_nodes g !! i) as [nd|]; [|done]. simpl. f_equal.
  case_bool_decide; [done|].
  unfold edges_from, reroute. simpl. f_equal.
  induction (irn_in nd) as [|z l IH]; [done|].
  rewrite fmap_cons, !filter_cons. rewrite IH.
  case_bool_decide.
  - subst z. rewrite decide_False by done. rewrite decide_False by done. done.
  - destruct (decide (z = n)); done.
Qed.

Lemma NoDup_fmap_inj_on {A B} (f : A -> B) (l : list A) x y :
  NoDup (f <$> l) -> x ∈ l -> y ∈ l -> f x = f y -> x = y.
Proof.
  induction l as [|z l IH]; intros Hnd Hx Hy Hf; [inversion Hx|].
  rewrite fmap_cons in Hnd. apply NoDup_cons in Hnd as [Hz Hnd].
  apply elem_of_cons in Hx as [->|Hx]; apply elem_of_cons in Hy as [->|Hy].
  - done.
  - exfalso. apply Hz. rewrite Hf. by apply list_elem_of_fmap_2.
  - exfalso. apply Hz. rewrite <- Hf. by apply list_elem_of_fmap_2.
  - by apply IH.
Qed.

Lemma find_perm_input_Some g perm node edges proj input :
  find_perm_input g perm node edges = Some (Some (proj, input)) ->
  proj ∈ edges /\ get_Proj_proj g proj = Some input /\
  get_irn_n g perm input = Some node.
Proof.
  induction edges as [|out rest IH]; simpl; [done|].
  destruct (get_Proj_proj g out) as [pn|] eqn:E1; simpl; [|done].
  destruct (get_irn_n g perm pn) as [in_|] eqn:E2; simpl; [|done].
  case_bool_decide.
  - intros [= <- <-]. subst. repeat split; [left | done..].
  - intros H'. destruct (IH H') as (? & ? & ?). repeat split; [by right | done..].
Qed.

Lemma kill_reroute old nw nd : kill (reroute old nw nd) = kill nd.
Proof. by destruct nd. Qed.

Lemma sched_list_lookup g bl l :
  sched_list g bl = l -> l <> [] -> irg_sched g !! bl = Some l.
Proof.
  unfold sched_list. destruct (irg_sched g !! bl); simpl; [by intros ->|].
  by intros <-.
Qed.

(** The graph after a node has been moved behind a well-formed Perm. *)
Lemma move_behind_perm_spec g perm p proj input ndp pre post :
  get_node g perm = Some ndp -> irn_op ndp = beo_Perm ->
  is_Block g (irn_block ndp) = true ->
  sched_list g (irn_block ndp) = (pre ++ [p]) ++ perm :: post ->
  NoDup ((pre ++ [p]) ++ perm :: post) ->
  (forall x, x ∈ (pre ++ [p]) ++ perm :: post ->
     scheduled_in_block g (irn_block ndp) x = true) ->
  (forall out, out ∈ get_irn_out_edges g perm ->
     is_perm_proj g (length (irn_in ndp)) out = true) ->
  find_perm_input g perm p (get_irn_out_edges g perm) = Some (Some (proj, input)) ->
  let g' := move_behind_perm g perm p proj in
  sched_list g' (irn_block ndp) = pre ++ perm :: p :: post /\
  irg_sched g' = <[irn_block ndp := pre ++ perm :: p :: post]> (irg_sched g) /\
  get_node g' perm = Some (reroute proj p ndp) /\
  get_node g' proj = kill <$> get_node g proj /\
  get_irn_out_edges g' perm = filter (fun x => x <> proj) (get_irn_out_edges g perm) /\
  (forall x, x <> proj -> x <> p ->
     get_node g' x = reroute proj p <$> get_node g x) /\
  length (irg_nodes g') = length (irg_nodes g) /\
  proj ∈ get_irn_out_edges g perm /\ input < length (irn_in ndp) /\
  get_Proj_proj g proj = Some input /\
  irn_in ndp !! input = Some p /\ proj <> perm /\ p <> perm /\ p <> proj /\
  sched_prev g' p = Some perm /\
  (forall x nd, get_node g x = Some nd -> x <> proj ->
     exists nd', get_node g' x = Some nd' /\ irn_op nd' = irn_op nd /\
                 irn_block nd' = irn_block nd /\
                 length (irn_in nd') = length (irn_in nd)).
Proof.
  intros Hp Hop Hbl Hl Hnd Hin Hprojs Hfind g'.
  destruct (find_perm_input_Some _ _ _ _ _ _ Hfind) as (Hproj & Hpn & Hinp).
  destruct (is_perm_proj_elim _ _ _ (Hprojs _ Hproj)) as (ndq & Hq & Hqop & Hlt).
  assert (irn_proj ndq = input) as Hinput.
  { unfold get_Proj_proj in Hpn. rewrite Hq in Hpn. simpl in Hpn.
    rewrite bool_decide_eq_true_2 in Hpn by done. by injection Hpn. }
  subst input.
  unfold get_irn_n in Hinp. rewrite Hp in Hinp. simpl in Hinp.
  assert (p ∈ (pre ++ [p]) ++ perm :: post) as Hpin.
  { apply elem_of_app. left. apply elem_of_app. right. left. }
  destruct (scheduled_in_block_elim _ _ _ (Hin p Hpin))
    as (ndx & Hx & Hxb & Hxop & Hxproj & Hxsb).
  pose proof (perm_ok_sched_block _ _ _ Hp Hop) as Hsb.
  set (bl := irn_block ndp) in *.
  assert (proj <> perm) as Hne1 by (intros ->; congruence).
  assert (p <> proj) as Hne3 by (intros ->; congruence).
  assert (perm ∉ pre ++ [p]) as Hpre.
  { apply NoDup_app in Hnd as (_ & Hd & _). intros Hx'. apply (Hd _ Hx'). left. }
  assert (p <> perm) as Hne2.
  { intros ->. apply Hpre. apply elem_of_app. right. left. }
  assert (perm <> bl) as Hne4.
  { intros Heq. unfold is_Block, has_op in Hbl. rewrite <- Heq, Hp, Hop in Hbl. done. }
  assert (p ∉ pre) as Hppre.
  { rewrite <- app_assoc in Hnd. apply NoDup_app in Hnd as (_ & Hd & _).
    intros Hx'. apply (Hd _ Hx'). left. }
  assert (p ∉ perm :: post) as Hppost.
  { apply NoDup_app in Hnd as (_ & Hd & _). intros Hx'.
    apply (Hd p); [|done]. apply elem_of_app. right. left. }
  assert (perm ∉ pre) as Hpre'.
  { intros Hx'. apply Hpre. apply elem_of_app. by left. }
  (* the schedule *)
  set (g1 := sched_remove g p).
  set (g2 := sched_add_after g1 perm p).
  assert (irg_nodes g1 = irg_nodes g) as Hn1 by apply sched_remove_nodes.
  assert (irg_nodes g2 = irg_nodes g) as Hn2.
  { unfold g2. by rewrite sched_add_after_nodes. }
  assert (irg_sched g !! bl = Some ((pre ++ [p]) ++ perm :: post)) as Hlook.
  { apply sched_list_lookup; [done|]. by destruct pre. }
  assert (irg_sched g1 = <[bl := pre ++ perm :: post]> (irg_sched g)) as Hs1.
  { unfold g1, sched_remove. rewrite Hxsb, Hlook. simpl. f_equal.
    rewrite <- app_assoc. simpl. by apply list_remove_middle. }
  assert (irg_sched g2 = <[bl := pre ++ perm :: p :: post]> (irg_sched g)) as Hs2.
  { unfold g2, sched_add_after.
    rewrite (same_nodes_sched_block g g1 perm Hn1), Hsb. simpl.
    rewrite bool_decide_eq_false_2 by done.
    unfold sched_list. rewrite Hs1, lookup_insert_eq. simpl.
    rewrite insert_insert_eq. f_equal. by apply insert_after_middle. }
  set (g3 := arch_set_irn_register g2 p (arch_get_irn_register g2 proj)).
  assert (g' = exchange g3 proj p) as Hg' by done.
  assert (irg_sched g' = <[bl := pre ++ perm :: p :: post]> (irg_sched g)) as Hs'.
  { by rewrite Hg'. }
  assert (sched_list g' bl = pre ++ perm :: p :: post) as Hl'.
  { unfold sched_list. by rewrite Hs', lookup_insert_eq. }
  assert (forall x, x <> p -> get_node g3 x = get_node g x) as Hg3.
  { intros x Hxp. unfold g3, arch_set_irn_register.
    rewrite get_node_update_node, bool_decide_eq_false_2 by done.
    by apply same_nodes_get_node. }
  assert (get_node g3 p = Some (set_reg ndx (arch_get_irn_register g2 proj))) as Hg3p.
  { unfold g3, arch_set_irn_register.
    rewrite get_node_update_node, bool_decide_eq_true_2 by done.
    by rewrite (same_nodes_get_node g g2 p Hn2), Hx. }
  repeat split; try done.
  - rewrite Hg', get_node_exchange, bool_decide_eq_false_2 by done.
    by rewrite Hg3, Hp.
  - rewrite Hg', get_node_exchange, bool_decide_eq_true_2 by done.
    rewrite Hg3 by done. rewrite Hq. simpl.
    by rewrite kill_reroute.
  - rewrite Hg', out_edges_exchange by done. f_equal.
    rewrite (out_edges_same_ins g2 g3).
    + by apply out_edges_same_ins; rewrite Hn2.
    + by apply update_node_same_ins.
  - intros x Hxq Hxp.
    rewrite Hg', get_node_exchange, bool_decide_eq_false_2 by done.
    by rewrite Hg3.
  - rewrite Hg'. unfold exchange, update_node, g3, arch_set_irn_register,
      update_node. simpl. by rewrite length_alter, length_fmap, length_alter, Hn2.
  - assert (sched_block g' p = Some bl) as Hsb'.
    { unfold sched_block. rewrite Hg', get_node_exchange, Hg3p.
      rewrite (bool_decide_eq_false_2 (p = proj)) by done. simpl.
      by rewrite bool_decide_eq_false_2, Hxb. }
    replace (pre ++ perm :: p :: post) with ((pre ++ [perm]) ++ p :: post) in Hl'
      by (by rewrite <- app_assoc).
    rewrite (sched_prev_middle _ _ _ _ _ Hsb' Hl').
    + by rewrite last_snoc.
    + intros Hx'. apply elem_of_app in Hx' as [Hx'|Hx']; [done|].
      apply list_elem_of_singleton in Hx'. done.
  - intros x nd Hnd' Hxq.
    rewrite Hg', get_node_exchange, bool_decide_eq_false_2 by done.
    destruct (decide (x = p)) as [->|Hxp].
    + rewrite Hg3p. simpl. eexists. split; [done|]. simpl.
      rewrite Hx in Hnd'. injection Hnd' as <-. by rewrite length_fmap.
    + rewrite Hg3, Hnd' by done. simpl. eexists. split; [done|]. simpl.
      by rewrite length_fmap.
Qed.

(** After the move the Perm itself is the next candidate, and it is none
    of its own inputs: the loop stops. *)
Lemma find_perm_input_self g g' perm p proj ndp es :
  get_node g perm = Some ndp -> irn_op ndp = beo_Perm ->
  get_node g' perm = Some (reroute proj p ndp) ->
  p <> perm ->
  (forall out, out ∈ get_irn_out_edges g perm ->
     is_perm_proj g (length (irn_in ndp)) out = true) ->
  (forall x, x <> proj -> x <> p ->
     get_node g' x = reroute proj p <$> get_node g x) ->
  (forall out, out ∈ es ->
     out ∈ get_irn_out_edges g perm /\ out <> proj /\ out <> p) ->
  find_perm_input g' perm perm es = Some None.
Proof.
  intros Hp Hop Hp' Hne Hprojs Hother.
  assert (perm ∉ irn_in ndp) as Hself.
  { intros Hin.
    assert (perm ∈ get_irn_out_edges g perm) as He
      by (apply elem_of_out_edges; by exists ndp).
    destruct (is_perm_proj_elim _ _ _ (Hprojs _ He)) as (nd & Hnd & Hopq & _).
    congruence. }
  induction es as [|out rest IH]; intros Hes; [done|].
  destruct (Hes out ltac:(left)) as (Hout & Hoq & Hop').
  destruct (is_perm_proj_elim _ _ _ (Hprojs _ Hout)) as (ndo & Hndo & Hoop & Hlt).
  cbn [find_perm_input]. unfold get_Proj_proj, get_irn_n.
  rewrite (Hother out Hoq Hop'), Hndo, Hp'. simpl.
  rewrite bool_decide_eq_true_2 by done. obindg.
  rewrite list_lookup_fmap.
  destruct (lookup_lt_is_Some_2 (irn_in ndp) (irn_proj ndo) Hlt) as [x Hx].
  rewrite Hx. simpl.
  rewrite bool_decide_eq_false_2.
  - apply IH. intros o Ho. apply Hes. by right.
  - case_bool_decide; [done|]. intros <-. apply Hself.
    by eapply list_elem_of_lookup_2.
Qed.

Lemma push_through_perm_loop_cases g lv perm :
  perm_ok g perm = true ->
  exists ndp pre post one_proj ndq frontier,
    get_node g perm = Some ndp /\ irn_op ndp = beo_Perm /\
    is_Block g (irn_block ndp) = true /\
    sched_block g perm = Some (irn_block ndp) /\
    sched_list g (irn_block ndp) = pre ++ perm :: post /\
    NoDup (pre ++ perm :: post) /\
    (forall x, x ∈ pre ++ perm :: post ->
       scheduled_in_block g (irn_block ndp) x = true) /\
    (forall out, out ∈ get_irn_out_edges g perm ->
       is_perm_proj g (length (irn_in ndp)) out = true) /\
    NoDup ((fun out => irn_proj <$> get_node g out)
             <$> get_irn_out_edges g perm) /\
    head (get_irn_out_edges g perm) = Some one_proj /\
    get_node g one_proj = Some ndq /\
    perm_frontier g lv perm = Some frontier /\
    (push_through_perm_loop g lv perm = Some (length (irn_in ndp), g, 0%Z, 0) \/
     exists pre' p proj input,
       pre = pre' ++ [p] /\
       find_perm_input g perm p (get_irn_out_edges g perm)
         = Some (Some (proj, input)) /\
       may_push_through g (req_cls (irn_req ndq)) frontier p = true /\
       push_through_perm_loop g lv perm =
         Some (length (irn_in ndp), move_behind_perm g perm p proj,
               Z.setbit 0 (Z.of_nat input), 1)).
Proof.
  intros Hok.
  destruct (perm_ok_entry g lv perm Hok)
    as (ndp & pre & post & one_proj & ndq & frontier & Hp & Hop & Hbl & Hsb & Hl &
        Hnd & Hin & Hprojs & Hnums & Hhead & Hq & Hqop & Hfront & Hprev).
  exists ndp, pre, post, one_proj, ndq, frontier.
  do 12 (split; [done|]).
  assert (get_nodes_block g perm = Some (irn_block ndp)) as Hgb
    by (unfold get_nodes_block; by rewrite Hp).
  assert (arch_get_irn_reg_class g one_proj = Some (req_cls (irn_req ndq))) as Hcls
    by (unfold arch_get_irn_reg_class; by rewrite Hq).
  unfold push_through_perm_loop. unfold get_irn_arity.
  rewrite Hgb, Hp, Hhead. obindg. rewrite Hcls. obindg.
  unfold is_Proj, has_op. rewrite Hq, bool_decide_eq_true_2 by done. simpl negb.
  cbv iota. rewrite Hfront, Hprev. obindg.
  cbn [push_loop].
  destruct pre as [|p pre _] using rev_ind.
  { left. simpl. unfold sched_is_begin. by rewrite Hbl. }
  rewrite last_snoc. simpl default.
  assert (p ∈ (pre ++ [p]) ++ perm :: post) as Hpin.
  { apply elem_of_app. left. apply elem_of_app. right. left. }
  destruct (scheduled_in_block_elim _ _ _ (Hin p Hpin))
    as (ndx & Hx & Hxb & Hxop & Hxproj & Hxsb).
  assert (sched_is_begin g p = false) as ->.
  { unfold sched_is_begin, is_Block, has_op. rewrite Hx.
    by apply bool_decide_eq_false. }
  destruct (find_perm_input_total g perm ndp p (get_irn_out_edges g perm) Hp)
    as [found Hfound]; [done|].
  rewrite Hfound. obindg.
  destruct found as [[proj input]|]; [|by left].
  destruct (may_push_through g (req_cls (irn_req ndq)) frontier p) eqn:Emay;
    [|by left].
  right. exists pre, p, proj, input. do 3 (split; [done|]).
  simpl negb. cbv iota.
  destruct (move_behind_perm_spec g perm p proj input ndp pre post
              Hp Hop Hbl Hl Hnd Hin Hprojs Hfound)
    as (Hl' & Hs' & Hp' & Hq' & He' & Hother & Hlen & Hproj & Hlt & Hpn & Hinp &
        Hne1 & Hne2 & Hne3 & Hprev' & _).
  rewrite Hprev'. obindg.
  rewrite Hl, length_app. simpl length. rewrite Nat.add_succ_r.
  cbn [push_loop].
  assert (sched_is_begin (move_behind_perm g perm p proj) perm = false) as ->.
  { unfold sched_is_begin, is_Block, has_op. rewrite Hp'. simpl.
    apply bool_decide_eq_false. by rewrite Hop. }
  rewrite (find_perm_input_self g _ perm p proj ndp _ Hp Hop Hp' Hne2 Hprojs Hother).
  - done.
  - intros out Hout. rewrite He' in Hout.
    apply list_elem_of_filter in Hout as [Ho1 Ho2]. repeat split; try done.
    intros ->. destruct (is_perm_proj_elim _ _ _ (Hprojs _ Ho2)) as (? & ? & ? & _).
    congruence.
Qed.

Lemma testbit_single (input j : nat) :
  Z.testbit (Z.setbit 0 (Z.of_nat input)) (Z.of_nat j) = bool_decide (j = input).
Proof.
  case_bool_decide.
  - subst. apply Z.setbit_eq. lia.
  - rewrite Z.setbit_neq by lia. apply Z.bits_0.
Qed.

(** [map] and [proj_map] when exactly the slot [input] was moved. *)
Lemma build_proj_map_single input todo i n map_ proj_map :
  build_proj_map (Z.setbit 0 (Z.of_nat input)) i todo n = (map_, proj_map) ->
  length map_ = todo - (if bool_decide (i <= input < i + todo) then 1 else 0) /\
  Forall (fun x => x < i + todo) map_ /\
  forall k, k < todo -> i + k <> input -> exists m, proj_map !! k = Some (pm_number m).
Proof.
  revert i n map_ proj_map.
  induction todo as [|todo IH]; intros i n map_ proj_map; cbn [build_proj_map].
  - intros [= <- <-]. repeat split; [done | intros; lia].
  - rewrite testbit_single. case_bool_decide as Hi.
    + destruct (build_proj_map _ (S i) todo n) as [m' pm'] eqn:E.
      intros [= <- <-]. destruct (IH _ _ _ _ E) as (Hlen & Hall & Hpm).
      subst i. repeat split.
      * rewrite Hlen. rewrite bool_decide_eq_false_2 by lia.
        rewrite bool_decide_eq_true_2 by lia. lia.
      * eapply Forall_impl; [done|]. simpl. intros; lia.
      * intros [|k] Hk Hne; [lia|]. simpl. apply Hpm; lia.
    + destruct (build_proj_map _ (S i) todo (S n)) as [m' pm'] eqn:E.
      intros [= <- <-]. destruct (IH _ _ _ _ E) as (Hlen & Hall & Hpm).
      repeat split.
      * simpl. rewrite Hlen.
        destruct (decide (S i <= input < S i + todo)).
        -- rewrite !bool_decide_eq_true_2 by lia. lia.
        -- rewrite !bool_decide_eq_false_2 by lia. lia.
      * constructor; [lia|]. eapply Forall_impl; [done|]. simpl. intros; lia.
      * intros [|k] Hk Hne; [by eexists|]. simpl. apply Hpm; lia.
Qed.

(** Renumbering touches the Proj number of the listed Projs only. *)
Lemma renumber_projs_total proj_map es g :
  NoDup es ->
  (forall out, out ∈ es ->
     exists nd m, get_node g out = Some nd /\ irn_op nd = iro_Proj /\
                  proj_map !! irn_proj nd = Some (pm_number m)) ->
  exists g', renumber_projs g proj_map es = Some g' /\
    irg_sched g' = irg_sched g /\
    (forall x, x ∉ es -> get_node g' x = get_node g x) /\
    (forall x, exists pn, get_node g' x = (fun nd => set_proj nd pn) <$> get_node g x).
Proof.
  revert g. induction es as [|out rest IH]; intros g Hnd Hes.
  - exists g. repeat split; try done.
    intros x. destruct (get_node g x) as [nd|] eqn:E.
    + exists (irn_proj nd). simpl. by destruct nd.
    + by exists 0.
  - apply NoDup_cons in Hnd as [Hout Hnd].
    destruct (Hes out ltac:(left)) as (nd & m & Hg & Hop & Hm).
    cbn [renumber_projs]. unfold get_Proj_proj, set_Proj_proj.
    rewrite Hg. obindg. rewrite bool_decide_eq_true_2 by done. obindg.
    rewrite Hm. simpl.
    set (g1 := update_node g out (fun nd => set_proj nd m)).
    destruct (IH g1 Hnd) as (g' & Hr & Hs & Hsame & Hshape).
    { intros o Ho. destruct (Hes o ltac:(by right)) as (ndo & mo & Hgo & Hoop & Hmo).
      exists ndo, mo. repeat split; try done.
      unfold g1. rewrite get_node_update_node, bool_decide_eq_false_2; [done|].
      intros ->. done. }
    exists g'. repeat split; try done.
    + intros x Hx. rewrite Hsame by (intros H'; apply Hx; by right).
      unfold g1. rewrite get_node_update_node, bool_decide_eq_false_2; [done|].
      intros ->. apply Hx. left.
    + intros x. destruct (Hshape x) as [pn Hpn]. rewrite Hpn.
      unfold g1. rewrite get_node_update_node. case_bool_decide.
      * exists pn. destruct (get_node g x) as [ndx|]; [|done]. simpl.
        by destruct ndx.
      * by exists pn.
Qed.

Lemma sched_is_scheduled_spec g x bl :
  sched_block g x = Some bl ->
  sched_is_scheduled g x = bool_decide (x ∈ sched_list g bl).
Proof. intros H. unfold sched_is_scheduled. by rewrite H. Qed.

Lemma not_elem_of_list_remove x l : x ∉ list_remove x l.
Proof.
  unfold list_remove. intros H. apply list_elem_of_filter in H as [H _]. done.
Qed.

(** C5: on a well-formed Perm [push_through_perm] returns, and the flag
    it returns is decided by the loop: it is false if [n_moved] equals
    the arity, that is if every input slot was moved, and true
    otherwise.  It returns true exactly when the Perm is still a Perm
    node of the graph and still in the schedule; it returns false
    exactly when the Perm is killed and out of the schedule, and the
    graph is then the one the loop left with the Perm removed from the
    schedule and killed. *)
Theorem push_through_perm_result g lv perm :
  perm_ok g perm = true ->
  exists arity g1 moved n_moved b g',
    get_irn_arity g perm = Some arity /\
    push_through_perm_loop g lv perm = Some (arity, g1, moved, n_moved) /\
    push_through_perm g lv perm = Some (b, g') /\
    b = negb (n_moved =? arity) /\
    (n_moved = arity <->
       forall i, i < arity -> Z.testbit moved (Z.of_nat i) = true) /\
    (b = true <->
       be_is_Perm g' perm = true /\ sched_is_scheduled g' perm = true) /\
    (b = false <->
       has_op g' perm iro_Deleted = true /\
       sched_is_scheduled g' perm = false) /\
    (b = false -> g' = kill_node (sched_remove g1 perm) perm).
Proof.
  intros Hok.
  destruct (push_through_perm_loop_cases g lv perm Hok)
    as (ndp & pre & post & one_proj & ndq & frontier & Hp & Hop & Hbl & Hsb & Hl &
        Hnd & Hin & Hprojs & Hnums & Hhead & Hq & Hfront & Hloop).
  assert (get_irn_arity g perm = Some (length (irn_in ndp))) as Har
    by (unfold get_irn_arity; by rewrite Hp).
  assert (be_is_Perm g perm = true) as HisP
    by (unfold be_is_Perm, has_op; rewrite Hp; by apply bool_decide_eq_true).
  assert (has_op g perm iro_Deleted = false) as HnotD
    by (unfold has_op; rewrite Hp, Hop; done).
  assert (sched_is_scheduled g perm = true) as Hsched.
  { rewrite (sched_is_scheduled_spec _ _ _ Hsb), Hl. apply bool_decide_eq_true.
    apply elem_of_app. right. left. }
  assert (1 <= length (irn_in ndp)) as Harity1.
  { assert (one_proj ∈ get_irn_out_edges g perm) as Ho.
    { destruct (get_irn_out_edges g perm) as [|o l]; [done|].
      injection Hhead as <-. left. }
    destruct (is_perm_proj_elim _ _ _ (Hprojs _ Ho)) as (? & _ & _ & Hlt). lia. }
  destruct Hloop as [Hloop|(pre' & p & proj & input & -> & Hfind & Hmay & Hloop)].
  { exists (length (irn_in ndp)), g, 0%Z, 0, true, g.
    unfold push_through_perm. rewrite Hloop. simpl.
    do 3 (split; [done|]).
    split; [by destruct (length (irn_in ndp)); [lia|]|].
    split; [split; [lia|]|].
    { intros Hall. specialize (Hall 0 ltac:(lia)). by rewrite Z.bits_0 in Hall. }
    repeat split; try done; intros (HD & _); congruence. }
  destruct (move_behind_perm_spec g perm p proj input ndp pre' post
              Hp Hop Hbl Hl Hnd Hin Hprojs Hfind)
    as (Hl' & Hs' & Hp' & Hq' & He' & Hother & Hlen & Hproj & Hlt & Hpn & Hinp &
        Hne1 & Hne2 & Hne3 & Hprev' & Hshape).
  set (g4 := move_behind_perm g perm p proj) in *.
  assert (sched_block g4 perm = Some (irn_block ndp)) as Hsb4.
  { unfold sched_block. rewrite Hp'. simpl. by rewrite Hop. }
  unfold push_through_perm. rewrite Hloop. obindg.
  unfold push_through_perm_shrink. simpl Nat.eqb at 1. cbv iota.
  destruct (Nat.ltb_spec (length (irn_in ndp)) 1) as [|_]; [lia|].
  destruct (Nat.eqb_spec (length (irn_in ndp) - 1) 0) as [Hone|Hmore].
  - (* the Perm is deleted *)
    eexists _, g4, _, 1, false, _. do 3 (split; [done|]).
    set (g5 := sched_remove g4 perm).
    assert (get_node (kill_node g5 perm) perm = Some (kill (reroute proj p ndp)))
      as Hk.
    { unfold kill_node. rewrite get_node_update_node, bool_decide_eq_true_2 by done.
      unfold g5. by rewrite (same_nodes_get_node g4), Hp' by apply sched_remove_nodes. }
    assert (sched_is_scheduled (kill_node g5 perm) perm = false) as Hns.
    { assert (sched_block (kill_node g5 perm) perm = Some (irn_block ndp)) as Hsbk.
      { unfold sched_block. by rewrite Hk. }
      rewrite (sched_is_scheduled_spec _ _ _ Hsbk).
      apply bool_decide_eq_false. unfold sched_list, kill_node. simpl.
      fold (sched_list g5 (irn_block ndp)). unfold g5.
      rewrite (sched_remove_list _ _ _ Hsb4). apply not_elem_of_list_remove. }
    assert (length (irn_in ndp) = 1) as Hlen1 by lia.
    split; [by rewrite Hlen1|].
    split; [split; [|lia]|].
    { intros _ i Hi. rewrite testbit_single. apply bool_decide_eq_true. lia. }
    split; [split|split; [split|done]].
    + done.
    + intros [HP _]. unfold be_is_Perm, has_op in HP. rewrite Hk in HP. done.
    + intros _. split; [|done]. unfold has_op. by rewrite Hk.
    + done.
  - (* the Perm shrinks *)
    destruct (build_proj_map (Z.setbit 0 (Z.of_nat input)) 0 (length (irn_in ndp)) 0)
      as [map_ proj_map] eqn:Emap.
    destruct (build_proj_map_single _ _ _ _ _ _ Emap) as (Hmlen & Hmall & Hpm).
    rewrite bool_decide_eq_true_2 in Hmlen by lia.
    rewrite Hmlen, Nat.eqb_refl. simpl negb. cbv iota.
    destruct (renumber_projs_total proj_map (get_irn_out_edges g4 perm) g4)
      as (g5 & -> & Hs5 & Hsame5 & Hshape5).
    { rewrite He'. apply NoDup_filter. by eapply NoDup_fmap_1. }
    { intros out Hout. rewrite He' in Hout.
      apply list_elem_of_filter in Hout as [Ho1 Ho2].
      destruct (is_perm_proj_elim _ _ _ (Hprojs _ Ho2)) as (ndo & Hndo & Hoop & Holt).
      assert (out <> p) as Hop'.
      { intros ->.
        assert (p ∈ (pre' ++ [p]) ++ perm :: post) as Hpin.
        { apply elem_of_app. left. apply elem_of_app. right. left. }
        destruct (scheduled_in_block_elim _ _ _ (Hin p Hpin))
          as (ndx & Hx & _ & _ & Hxproj & _). congruence. }
      assert (irn_proj ndo <> input) as Hnum.
      { intros Heq. apply Ho1.
        eapply (NoDup_fmap_inj_on _ _ _ _ Hnums Ho2 Hproj).
        rewrite Hndo. unfold get_Proj_proj in Hpn.
        destruct (get_node g proj) as [ndpr|]; [|done]. simpl in *.
        case_bool_decide; [|done]. injection Hpn as <-. by rewrite Heq. }
      destruct (Hpm (irn_proj ndo) Holt Hnum) as [m Hm].
      exists (reroute proj p ndo), m.
      rewrite (Hother out Ho1 Hop'), Hndo. done. }
    obindg.
    assert (get_node g5 perm = Some (reroute proj p ndp)) as Hp5.
    { rewrite Hsame5; [done|]. rewrite He'. intros Hx.
      apply list_elem_of_filter in Hx as [_ Hx].
      destruct (is_perm_proj_elim _ _ _ (Hprojs _ Hx)) as (? & ? & ? & _).
      congruence. }
    unfold be_Perm_reduce. rewrite Hp5. obindg.
    destruct (mapM (fun i => irn_in (reroute proj p ndp) !! i) map_)
      as [new_in|] eqn:Enew.
    2:{ exfalso. assert (is_Some (mapM (fun i => irn_in (reroute proj p ndp) !! i) map_))
          as [? Hsome]; [|congruence].
        apply mapM_is_Some. eapply Forall_impl; [done|]. simpl. intros i Hi.
        apply lookup_lt_is_Some. rewrite length_fmap. lia. }
    obindg.
    eexists _, g4, _, 1, true, _. do 3 (split; [done|]).
    set (g6 := update_node g5 perm _).
    assert (get_node g6 perm = Some (set_in (reroute proj p ndp) new_in)) as Hp6.
    { unfold g6. by rewrite get_node_update_node, bool_decide_eq_true_2, Hp5. }
    split; [by rewrite (proj2 (Nat.eqb_neq 1 _)) by lia|].
    split; [split; [lia|]|].
    { intros Hall. exfalso.
      destruct (decide (input = 0)) as [->|Hin0].
      - specialize (Hall 1 ltac:(lia)). rewrite testbit_single in Hall.
        by apply bool_decide_eq_true in Hall.
      - specialize (Hall 0 ltac:(lia)). rewrite testbit_single in Hall.
        apply bool_decide_eq_true in Hall. lia. }
    split; [split|split; [split|done]].
    + intros _. split.
      * unfold be_is_Perm, has_op. rewrite Hp6. simpl.
        by apply bool_decide_eq_true.
      * assert (sched_block g6 perm = Some (irn_block ndp)) as Hsb6.
        { unfold sched_block. rewrite Hp6. simpl. by rewrite Hop. }
        rewrite (sched_is_scheduled_spec _ _ _ Hsb6).
        apply bool_decide_eq_true. unfold sched_list, g6. simpl.
        rewrite Hs5. fold (sched_list g4 (irn_block ndp)). rewrite Hl'.
        apply elem_of_app. right. left.
    + done.
    + done.
    + intros (HD & _). unfold has_op in HD. rewrite Hp6 in HD. simpl in HD.
      apply bool_decide_eq_true in HD. congruence.
Qed.

(** Scenario "push-through elimination": the only input of the Perm is
    moved behind it, so every slot was moved; the function answers false
    and the Perm is killed and out of the schedule. *)
Lemma push_through_perm_result_witness :
  exists g1 g',
    push_through_perm_loop g_push lv_none 3 = Some (1, g1, 1%Z, 1) /\
    push_through_perm g_push lv_none 3 = Some (false, g') /\
    has_op g' 3 iro_Deleted = true /\
    sched_is_scheduled g' 3 = false /\
    g' = kill_node (sched_remove g1 3) 3.
Proof.
  destruct (push_through_perm_result g_push lv_none 3 eq_refl)
    as (arity & g1 & moved & n_moved & b & g' & Har & Hloop & Hrun & Hb & _ &
        _ & Hfalse & Hg).
  injection Har as <-.
  assert (moved = 1%Z /\ n_moved = 1) as [-> ->].
  { assert (exists gx, push_through_perm_loop g_push lv_none 3
                        = Some (1, gx, 1%Z, 1)) as [gx Hx]
      by (eexists; vm_compute; reflexivity).
    rewrite Hx in Hloop. by injection Hloop as _ <- <-. }
  simpl in Hb. subst b.
  exists g1, g'. split; [exact Hloop|]. split; [exact Hrun|].
  destruct (proj1 Hfalse eq_refl) as [HD HS].
  split; [exact HD|]. split; [exact HS|]. exact (Hg eq_refl).
Defined.

(** ** The frontier of the push-through optimisation *)

Lemma list_index_app_l x l1 l2 i :
  list_index x l1 = Some i -> list_index x (l1 ++ l2) = Some i.
Proof.
  revert i. induction l1 as [|y l1 IH]; simpl; intros i H; [done|].
  case_bool_decide; [done|].
  destruct (list_index x l1) as [j|]; [|done]. by rewrite (IH j eq_refl).
Qed.

Lemma list_index_lt_length x l i : list_index x l = Some i -> i < length l.
Proof.
  revert i. induction l as [|y l IH]; simpl; intros i H; [done|].
  case_bool_decide; [injection H as <-; lia|].
  destruct (list_index x l) as [j|]; [|done]. injection H as <-.
  specialize (IH j eq_refl). lia.
Qed.

(** A node in front of [y] in a schedule comes before it. *)
Lemma comes_before_in_schedule g bl x y l1 l2 :
  sched_block g x = Some bl -> sched_block g y = Some bl ->
  x <> bl -> y <> bl ->
  sched_list g bl = l1 ++ y :: l2 -> x ∈ l1 -> y ∉ l1 ->
  sched_comes_after g x y = true.
Proof.
  intros Hx Hy Hxb Hyb Hl Hin Hnin.
  unfold sched_comes_after, sched_time_step. rewrite Hx, Hy. obindg.
  rewrite !bool_decide_eq_false_2 by done. rewrite Hl.
  rewrite (list_index_app_r _ _ _ Hnin).
  destruct (elem_of_list_index _ _ Hin) as [i Hi].
  rewrite (list_index_app_l _ _ _ _ Hi). simpl.
  apply Nat.ltb_lt. apply list_index_lt_length in Hi. lia.
Qed.

(** What the frontier search returns: the nearest node in front of the
    Perm that lets an operand die, or the block when there is none. *)
Lemma find_frontier_spec g lv cls_ one_proj bl before :
  let frontier := find_frontier g lv cls_ one_proj bl before in
  (frontier = bl /\
   forall x, x ∈ before -> lets_operand_die g lv cls_ one_proj x = false) \/
  (exists l1 l2, before = l1 ++ frontier :: l2 /\
     lets_operand_die g lv cls_ one_proj frontier = true /\
     forall x, x ∈ l1 -> lets_operand_die g lv cls_ one_proj x = false).
Proof.
  induction before as [|irn rest IH]; simpl.
  - left. split; [done|]. intros x Hx. inversion Hx.
  - destruct (lets_operand_die g lv cls_ one_proj irn) eqn:E.
    + right. exists [], rest. repeat split; [done|]. intros x Hx. inversion Hx.
    + destruct IH as [[Hf Hall]|(l1 & l2 & Hb & Hd & Hall)].
      * left. split; [done|]. intros x Hx.
        apply elem_of_cons in Hx as [->|Hx]; [done | by apply Hall].
      * right. exists (irn :: l1), l2. repeat split; [by rewrite Hb at 1 | done |].
        intros x Hx. apply elem_of_cons in Hx as [->|Hx]; [done | by apply Hall].
Qed.

Lemma may_push_through_after g cls_ frontier node :
  may_push_through g cls_ frontier node = true ->
  sched_comes_after g frontier node = true.
Proof.
  unfold may_push_through. destruct (get_node g node); [|done].
  rewrite !andb_true_iff. by intros [[[H _] _] _].
Qed.

(** C2, as stated, fails: in [g_front] the first node in front of the
    Perm (node 4) that defines, in class 0, a value interfering with its
    Proj is [B] (node 3), but the frontier [push_through_perm] computes is
    [A] (node 2), where the operand [u] dies; and [B] is moved behind the
    Perm. *)
Lemma frontier_is_where_an_operand_dies :
  perm_frontier_as_specified g_front lv_front 4 = Some 3 /\
  perm_frontier g_front lv_front 4 = Some 2 /\
  exists g1, push_through_perm_loop g_front lv_front 4 = Some (1, g1, 1%Z, 1) /\
             sched_list g1 0 = [1; 2; 4; 3].
Proof.
  repeat split. eexists. split; reflexivity.
Qed.

(** C2, amended: the frontier is the first node, walking the schedule
    predecessors of the Perm, that has an operand of the class of the
    Perm's first Proj which does not interfere with that Proj (an operand
    that dies there), or the block when there is no such node; and no
    node at or before the frontier is moved behind the Perm by the
    loop. *)
Theorem perm_frontier_spec g lv perm :
  perm_ok g perm = true ->
  exists bl one_proj cls_ before frontier arity g1 moved n_moved,
    get_nodes_block g perm = Some bl /\
    head (get_irn_out_edges g perm) = Some one_proj /\
    arch_get_irn_reg_class g one_proj = Some cls_ /\
    sched_before g perm = Some before /\
    perm_frontier g lv perm = Some frontier /\
    ((frontier = bl /\
      forall x, x ∈ before -> lets_operand_die g lv cls_ one_proj x = false) \/
     (exists l1 l2, before = l1 ++ frontier :: l2 /\
        lets_operand_die g lv cls_ one_proj frontier = true /\
        forall x, x ∈ l1 -> lets_operand_die g lv cls_ one_proj x = false)) /\
    push_through_perm_loop g lv perm = Some (arity, g1, moved, n_moved) /\
    forall x, x ∈ before -> sched_comes_after g frontier x = false ->
              sched_comes_after g1 x perm = true.
Proof.
  intros Hok.
  destruct (push_through_perm_loop_cases g lv perm Hok)
    as (ndp & pre & post & one_proj & ndq & frontier & Hp & Hop & Hbl & Hsb & Hl &
        Hnd & Hin & Hprojs & Hnums & Hhead & Hq & Hfront & Hloop).
  assert (perm ∉ pre) as Hpre.
  { apply NoDup_app in Hnd as (_ & Hd & _). intros Hx. apply (Hd _ Hx). left. }
  assert (get_nodes_block g perm = Some (irn_block ndp)) as Hgb
    by (unfold get_nodes_block; by rewrite Hp).
  assert (arch_get_irn_reg_class g one_proj = Some (req_cls (irn_req ndq))) as Hcls
    by (unfold arch_get_irn_reg_class; by rewrite Hq).
  assert (sched_before g perm = Some (reverse pre)) as Hbefore.
  { unfold sched_before. rewrite Hsb. simpl. rewrite Hl.
    rewrite (list_index_app_r _ _ _ Hpre). simpl. by rewrite take_app_length. }
  assert (frontier =
          find_frontier g lv (req_cls (irn_req ndq)) one_proj (irn_block ndp)
            (reverse pre)) as Hfr.
  { unfold perm_frontier in Hfront.
    rewrite Hgb, Hhead in Hfront. simpl in Hfront.
    rewrite Hcls, Hbefore in Hfront. simpl in Hfront. by injection Hfront. }
  set (bl := irn_block ndp) in *.
  assert (perm <> bl) as Hpbl.
  { intros Heq. unfold is_Block, has_op in Hbl. rewrite <- Heq, Hp, Hop in Hbl. done. }
  assert (forall x, x ∈ pre -> x <> bl) as Hxbl.
  { intros x Hx ->.
    destruct (scheduled_in_block_elim g bl bl) as (nd & Hn & _ & Hnop & _).
    { apply Hin. apply elem_of_app. left. exact Hx. }
    unfold is_Block, has_op in Hbl. rewrite Hn in Hbl.
    by apply bool_decide_eq_true in Hbl. }
  assert (exists arity g1 moved n_moved,
            push_through_perm_loop g lv perm = Some (arity, g1, moved, n_moved) /\
            forall x, x ∈ reverse pre -> sched_comes_after g frontier x = false ->
                      sched_comes_after g1 x perm = true)
    as (arity & g1 & moved & n_moved & Hres & Hkeep).
  { destruct Hloop as [Hloop|(pre' & p & proj & input & -> & Hfind & Hmay & Hloop)].
    - eexists _, g, _, _. split; [done|]. intros x Hx _.
      rewrite elem_of_reverse in Hx.
      destruct (scheduled_in_block_elim g bl x) as (nd & _ & _ & _ & _ & Hxsb).
      { apply Hin. apply elem_of_app. by left. }
      eapply comes_before_in_schedule; eauto.
    - destruct (move_behind_perm_spec g perm p proj input ndp pre' post
                  Hp Hop Hbl Hl Hnd Hin Hprojs Hfind)
        as (Hl' & Hs' & Hp' & Hq' & He' & Hother & Hlen & Hproj & Hlt & Hpn & Hinp &
            Hne1 & Hne2 & Hne3 & Hprev' & Hshape).
      eexists _, _, _, _. split; [done|]. intros x Hx Hnot.
      rewrite elem_of_reverse in Hx.
      assert (x <> p) as Hxp.
      { intros ->. apply may_push_through_after in Hmay. congruence. }
      assert (x ∈ pre') as Hx'.
      { apply elem_of_app in Hx as [Hx|Hx]; [done|].
        apply list_elem_of_singleton in Hx. done. }
      destruct (scheduled_in_block_elim g bl x) as (nd & Hn & Hnb & Hnop & Hnproj & _).
      { apply Hin. apply elem_of_app. left. apply elem_of_app. by left. }
      assert (x <> proj) as Hxq.
      { intros ->. destruct (is_perm_proj_elim _ _ _ (Hprojs _ Hproj))
          as (? & ? & ? & _). congruence. }
      destruct (Hshape x nd Hn Hxq) as (nd' & Hn' & Hop' & Hb' & _).
      eapply comes_before_in_schedule.
      + unfold sched_block. rewrite Hn'. simpl.
        rewrite bool_decide_eq_false_2 by congruence. by rewrite Hb', Hnb.
      + unfold sched_block. rewrite Hp'. simpl. by rewrite Hop.
      + apply Hxbl. apply elem_of_app. by left.
      + done.
      + exact Hl'.
      + done.
      + intros Hc. apply Hpre. apply elem_of_app. by left. }
  exists bl, one_proj, (req_cls (irn_req ndq)), (reverse pre), frontier,
    arity, g1, moved, n_moved.
  do 5 (split; [done|]). split; [|done].
  rewrite Hfr. apply find_frontier_spec.
Qed.

Lemma perm_frontier_spec_witness :
  exists bl one_proj cls_ before frontier arity g1 moved n_moved,
    get_nodes_block g_front 4 = Some bl /\
    head (get_irn_out_edges g_front 4) = Some one_proj /\
    arch_get_irn_reg_class g_front one_proj = Some cls_ /\
    sched_before g_front 4 = Some before /\
    perm_frontier g_front lv_front 4 = Some frontier /\
    ((frontier = bl /\
      forall x, x ∈ before ->
        lets_operand_die g_front lv_front cls_ one_proj x = false) \/
     (exists l1 l2, before = l1 ++ frontier :: l2 /\
        lets_operand_die g_front lv_front cls_ one_proj frontier = true /\
        forall x, x ∈ l1 ->
          lets_operand_die g_front lv_front cls_ one_proj x = false)) /\
    push_through_perm_loop g_front lv_front 4 = Some (arity, g1, moved, n_moved) /\
    forall x, x ∈ before -> sched_comes_after g_front frontier x = false ->
              sched_comes_after g1 x 4 = true.
Proof.
  apply (perm_frontier_spec g_front lv_front 4). reflexivity.
Defined.

(** ** Lowering an identity Perm *)

Lemma exchange_length g old nw :
  length (irg_nodes (exchange g old nw)) = length (irg_nodes g).
Proof.
  unfold exchange, update_node. simpl. by rewrite length_alter, length_fmap.
Qed.

(** The pair loop on Projs that all have the register of their input:
    no pair is made, every Proj is exchanged with its input. *)
Lemma build_register_pairs_identity irn pairs es : forall g ndp,
  NoDup es ->
  get_node g irn = Some ndp -> (irn ∉ es) ->
  (forall out, out ∈ es ->
     exists ndo a, get_node g out = Some ndo /\ irn_op ndo = iro_Proj /\
       irn_in ndp !! irn_proj ndo = Some a /\ (a ∉ es) /\
       arch_get_irn_register g a = arch_get_irn_register g out) ->
  exists g',
    build_register_pairs g irn es pairs = Some (pairs, g') /\
    length (irg_nodes g') = length (irg_nodes g) /\
    irg_sched g' = irg_sched g /\
    (forall x nd, get_node g x = Some nd -> x ∉ es ->
       get_node g' x =
       Some (set_in nd (bypass_projs g irn es <$> irn_in nd))) /\
    (forall x, x ∈ es -> has_op g' x iro_Deleted = true).
Proof.
  induction es as [|q rest IH]; intros g ndp Hnd Hp Hirn Hes.
  - exists g. repeat split; try done.
    + intros x nd Hx _. rewrite Hx. f_equal.
      assert (bypass_projs g irn [] <$> irn_in nd = irn_in nd) as ->;
        [|by destruct nd].
      rewrite <- (list_fmap_id (irn_in nd)) at 2. apply list_fmap_ext.
      intros i y _. unfold bypass_projs. rewrite bool_decide_eq_false_2; [done|].
      intros H. inversion H.
    + intros x Hx. inversion Hx.
  - apply NoDup_cons in Hnd as [Hq Hnd].
    destruct (Hes q ltac:(left)) as (ndq & a & Hgq & Hqop & Ha & Hanin & Hreg).
    assert (irn <> q) as Hiq by (intros ->; apply Hirn; left).
    assert (a <> q) as Haq by (intros ->; apply Hanin; left).
    cbn [build_register_pairs]. unfold get_Proj_proj, get_irn_n.
    rewrite Hgq, Hp. obindg. rewrite bool_decide_eq_true_2 by done. obindg.
    rewrite Ha. obindg. rewrite bool_decide_eq_true_2 by done.
    set (g1 := exchange g q a).
    assert (get_node g1 irn = Some (reroute q a ndp)) as Hp1.
    { unfold g1. by rewrite get_node_exchange, bool_decide_eq_false_2, Hp. }
    assert (forall x, x <> q -> get_node g1 x = reroute q a <$> get_node g x) as Hg1.
    { intros x Hx. unfold g1. by rewrite get_node_exchange, bool_decide_eq_false_2. }
    assert (forall x, x <> q ->
              arch_get_irn_register g1 x = arch_get_irn_register g x) as Hreg1.
    { intros x Hx. unfold arch_get_irn_register. rewrite Hg1 by done.
      by destruct (get_node g x). }
    assert (forall out, out ∈ rest ->
              selected_input g1 irn out = selected_input g irn out /\
              exists a', selected_input g irn out = Some a' /\ (a' ∉ q :: rest))
      as Hsel.
    { intros out Hout.
      destruct (Hes out ltac:(by right)) as (ndo & a' & Hgo & Hoop & Ha' & Hnin & _).
      assert (out <> q) as Hoq by (intros ->; done).
      unfold selected_input, get_Proj_proj, get_irn_n.
      rewrite (Hg1 out Hoq), Hgo, Hp1, Hp. simpl.
      rewrite bool_decide_eq_true_2 by done. simpl.
      rewrite list_lookup_fmap, Ha'. simpl.
      rewrite bool_decide_eq_false_2 by (intros ->; apply Hnin; left).
      split; [done|]. by exists a'. }
    destruct (IH g1 (reroute q a ndp) Hnd Hp1) as (g' & Hb & Hlen & Hs & Hnodes & Hdel).
    { intros H. apply Hirn. by right. }
    { intros out Hout.
      destruct (Hes out ltac:(by right)) as (ndo & a' & Hgo & Hoop & Ha' & Hnin & Hr).
      assert (out <> q) as Hoq by (intros ->; done).
      assert (a' <> q) as Ha'q by (intros ->; apply Hnin; left).
      exists (reroute q a ndo), a'. rewrite (Hg1 out Hoq), Hgo. simpl.
      repeat split; try done.
      - rewrite list_lookup_fmap, Ha'. simpl. by rewrite bool_decide_eq_false_2.
      - intros H. apply Hnin. by right.
      - by rewrite !Hreg1. }
    exists g'. split; [done|]. split; [rewrite Hlen; apply exchange_length|].
    split; [done|]. split.
    + intros x nd Hx Hxes.
      assert (x <> q) as Hxq by (intros ->; apply Hxes; left).
      rewrite (Hnodes x (reroute q a nd)).
      2:{ by rewrite Hg1, Hx. }
      2:{ intros H. apply Hxes. by right. }
      f_equal. unfold reroute, set_in. simpl. f_equal.
      rewrite <- list_fmap_compose. apply list_fmap_ext. intros i y _. simpl.
      destruct (decide (y = q)) as [->|Hyq].
      * rewrite bool_decide_eq_true_2 by done.
        unfold bypass_projs.
        rewrite bool_decide_eq_false_2 by (intros H; apply Hanin; by right).
        rewrite bool_decide_eq_true_2 by left.
        unfold selected_input, get_Proj_proj, get_irn_n. rewrite Hgq, Hp. simpl.
        rewrite bool_decide_eq_true_2 by done. simpl. by rewrite Ha.
      * rewrite bool_decide_eq_false_2 by done.
        unfold bypass_projs. destruct (decide (y ∈ rest)) as [Hy|Hy].
        -- rewrite !bool_decide_eq_true_2 by (done || by right).
           by destruct (Hsel y Hy) as [-> _].
        -- rewrite !bool_decide_eq_false_2; [done | | done].
           intros H. apply elem_of_cons in H as [->|H]; done.
    + intros x Hx. apply elem_of_cons in Hx as [->|Hx]; [|by apply Hdel].
      unfold has_op. rewrite (Hnodes q (kill (reroute q a ndq))).
      * done.
      * unfold g1. by rewrite get_node_exchange, bool_decide_eq_true_2, Hgq.
      * done.
Qed.

(** C6: lowering a Perm that is the identity on every slot exchanges
    every Proj with the input it selects (the users of the Proj read the
    input afterwards, the Proj is dead), creates no node, and removes the
    Perm from the schedule and from the graph. *)
Theorem lower_identity_perm g fm irn :
  perm_ok g irn = true ->
  get_irn_arity g irn = Some (get_irn_n_edges g irn) ->
  perm_is_identity g irn = true ->
  perm_is_acyclic g irn = true ->
  exists g',
    lower_perm_node g fm irn = Some g' /\
    length (irg_nodes g') = length (irg_nodes g) /\
    has_op g' irn iro_Deleted = true /\
    sched_is_scheduled g' irn = false /\
    (forall out, out ∈ get_irn_out_edges g irn ->
       has_op g' out iro_Deleted = true) /\
    (forall x nd, get_node g x = Some nd ->
       x ∉ get_irn_out_edges g irn -> x <> irn ->
       get_node g' x =
       Some (set_in nd (bypass_projs g irn (get_irn_out_edges g irn)
                          <$> irn_in nd))).
Proof.
  intros Hok Har Hid Hac.
  destruct (perm_ok_entry g (mk_lv (fun _ => []) (fun _ _ => false)) irn Hok)
    as (ndp & pre & post & one_proj & ndq & frontier & Hp & Hop & Hbl & Hsb & Hl &
        Hnd & Hin & Hprojs & Hnums & Hhead & Hq & Hqop & Hfront & Hprev).
  set (es := get_irn_out_edges g irn) in *.
  assert (irn ∉ es) as Hirn.
  { intros H. destruct (is_perm_proj_elim _ _ _ (Hprojs _ H)) as (? & ? & ? & _).
    congruence. }
  unfold perm_is_acyclic in Hac. rewrite Hp in Hac. fold es in Hac.
  rewrite forallb_forall in Hac.
  unfold perm_is_identity in Hid. fold es in Hid. rewrite forallb_forall in Hid.
  destruct (build_register_pairs_identity irn [] es g ndp) as
    (g1 & Hb & Hlen & Hs & Hnodes & Hdel); [by eapply NoDup_fmap_1 | done | done | |].
  { intros out Hout.
    destruct (is_perm_proj_elim _ _ _ (Hprojs _ Hout)) as (ndo & Hgo & Hoop & Hlt).
    destruct (lookup_lt_is_Some_2 (irn_in ndp) (irn_proj ndo) Hlt) as [a Ha].
    exists ndo, a. repeat split; try done.
    - intros Haes. specialize (Hac a (proj1 (list_elem_of_In _ _) Haes)).
      apply bool_decide_eq_true in Hac. apply Hac.
      by eapply list_elem_of_lookup_2.
    - specialize (Hid out (proj1 (list_elem_of_In _ _) Hout)).
      unfold selected_input, get_Proj_proj, get_irn_n in Hid.
      rewrite Hgo, Hp in Hid. simpl in Hid.
      rewrite bool_decide_eq_true_2 in Hid by done. simpl in Hid.
      rewrite Ha in Hid. by apply bool_decide_eq_true in Hid. }
  assert (get_node g1 irn =
          Some (set_in ndp (bypass_projs g irn es <$> irn_in ndp))) as Hp1
    by (by apply Hnodes).
  unfold lower_perm_node. rewrite Har, Hprev. obindg.
  unfold be_is_Perm, has_op. rewrite Hp, Hop. simpl negb. cbv iota.
  rewrite Nat.eqb_refl. simpl negb. cbv iota.
  unfold build_register_pair_list. fold es. rewrite Hb. obindg. simpl.
  set (g2 := sched_remove g1 irn).
  assert (sched_block g1 irn = Some (irn_block ndp)) as Hsb1.
  { unfold sched_block. rewrite Hp1. simpl. by rewrite Hop. }
  assert (get_node (kill_node g2 irn) irn =
          Some (kill (set_in ndp (bypass_projs g irn es <$> irn_in ndp)))) as Hk.
  { unfold kill_node. rewrite get_node_update_node, bool_decide_eq_true_2 by done.
    unfold g2. by rewrite (same_nodes_get_node g1), Hp1 by apply sched_remove_nodes. }
  eexists. split; [done|]. repeat split.
  - unfold kill_node, update_node. simpl. rewrite length_alter.
    unfold g2. by rewrite sched_remove_nodes.
  - unfold has_op. by rewrite Hk.
  - assert (sched_block (kill_node g2 irn) irn = Some (irn_block ndp)) as Hsbk.
    { unfold sched_block. by rewrite Hk. }
    rewrite (sched_is_scheduled_spec _ _ _ Hsbk).
    apply bool_decide_eq_false. unfold sched_list, kill_node. simpl.
    fold (sched_list g2 (irn_block ndp)). unfold g2.
    rewrite (sched_remove_list _ _ _ Hsb1). apply not_elem_of_list_remove.
  - intros out Hout. unfold has_op, kill_node.
    rewrite get_node_update_node.
    rewrite bool_decide_eq_false_2 by (intros ->; done).
    unfold g2. rewrite (same_nodes_get_node g1) by apply sched_remove_nodes.
    by apply Hdel.
  - intros x nd Hx Hxes Hxi. unfold kill_node.
    rewrite get_node_update_node, bool_decide_eq_false_2 by done.
    unfold g2. rewrite (same_nodes_get_node g1) by apply sched_remove_nodes.
    by apply Hnodes.
Qed.

Lemma lower_identity_perm_witness :
  exists g',
    lower_perm_node g_ident ∅ 3 = Some g' /\
    length (irg_nodes g') = length (irg_nodes g_ident) /\
    has_op g' 3 iro_Deleted = true /\
    sched_is_scheduled g' 3 = false /\
    (forall out, out ∈ get_irn_out_edges g_ident 3 ->
       has_op g' out iro_Deleted = true) /\
    (forall x nd, get_node g_ident x = Some nd ->
       x ∉ get_irn_out_edges g_ident 3 -> x <> 3 ->
       get_node g' x =
       Some (set_in nd (bypass_projs g_ident 3 (get_irn_out_edges g_ident 3)
                          <$> irn_in nd))).
Proof.
  apply (lower_identity_perm g_ident ∅ 3); reflexivity.
Defined.

(** ** Perm nodes across the rewriting steps *)

Lemma perm_frame_refl k g : perm_frame_except k g g.
Proof.
  split; [done|]. split.
  - intros n nd' H Hop _. left. by exists nd'.
  - intros n nd H. exists nd. repeat split; [done | by left].
Qed.

Lemma perm_frame_weaken k g g' : perm_frame g g' -> perm_frame_except k g g'.
Proof.
  intros (Hl & H & Hold). split; [done|]. split; [|done].
  intros n nd' Hn Hop _. by apply H.
Qed.

Lemma perm_frame_trans k g1 g2 g3 :
  perm_frame_except k g1 g2 -> perm_frame_except k g2 g3 ->
  perm_frame_except k g1 g3.
Proof.
  intros (Hl1 & H1 & Ho1) (Hl2 & H2 & Ho2). split; [lia|]. split.
  - intros n nd3 Hn Hop Hk.
    destruct (H2 n nd3 Hn Hop Hk) as [(nd2 & Hn2 & Hop2 & Hlen)|[Hnew Hlen]].
    + destruct (H1 n nd2 Hn2 Hop2 Hk) as [(nd1 & Hn1 & Hop1 & Hlen1)|[Hnew Hlen1]].
      * left. exists nd1. repeat split; [done..|congruence].
      * right. split; [done | congruence].
    + right. split; [lia | done].
  - intros n nd1 Hn.
    destruct (Ho1 n nd1 Hn) as (nd2 & Hn2 & Hb2 & Hop2).
    destruct (Ho2 n nd2 Hn2) as (nd3 & Hn3 & Hb3 & Hop3).
    exists nd3. repeat split; [done | congruence |].
    destruct Hop3 as [Hop3|Hop3]; [|by right].
    rewrite Hop3. done.
Qed.

Lemma perm_frame_same_nodes k g g' :
  irg_nodes g' = irg_nodes g -> perm_frame_except k g g'.
Proof.
  intros H. split; [by rewrite H|]. split.
  - intros n nd' Hn Hop _. left. exists nd'.
    by rewrite <- (same_nodes_get_node g g' n H).
  - intros n nd Hn. exists nd. rewrite (same_nodes_get_node g g' n H).
    repeat split; [done | by left].
Qed.

Lemma perm_frame_update_node k g i f :
  (forall nd, irn_block (f nd) = irn_block nd /\
              (irn_op (f nd) = irn_op nd \/ irn_op (f nd) = iro_Deleted)) ->
  (forall nd, get_node g i = Some nd -> irn_op (f nd) = beo_Perm ->
     Some i <> k -> length (irn_in (f nd)) = length (irn_in nd)) ->
  perm_frame_except k g (update_node g i f).
Proof.
  intros Hshape Hf. split.
  { unfold update_node. simpl. by rewrite length_alter. }
  split.
  - intros n nd' Hn Hop Hk. left. rewrite get_node_update_node in Hn.
    case_bool_decide.
    + subst. destruct (get_node g i) as [nd|] eqn:E; [|done]. injection Hn as <-.
      exists nd. split; [done|]. split; [|by apply Hf].
      destruct (Hshape nd) as [_ [Ho|Ho]]; congruence.
    + by exists nd'.
  - intros n nd Hn. rewrite get_node_update_node. case_bool_decide.
    + subst. rewrite Hn. simpl. exists (f nd). split; [done|]. apply Hshape.
    + exists nd. repeat split; [done | by left].
Qed.

Lemma perm_frame_exchange k g old nw : perm_frame_except k g (exchange g old nw).
Proof.
  split; [by rewrite exchange_length|]. split.
  - intros n nd' Hn Hop _. left. rewrite get_node_exchange in Hn.
    destruct (get_node g n) as [nd|]; [|done]. injection Hn as <-.
    exists nd. case_bool_decide; [done|]. simpl in *.
    by rewrite length_fmap.
  - intros n nd Hn. rewrite get_node_exchange, Hn. simpl. eexists.
    split; [done|]. case_bool_decide; simpl; (split; [done|]); [by right | by left].
Qed.

Lemma perm_frame_kill_node k g n : perm_frame_except k g (kill_node g n).
Proof.
  apply perm_frame_update_node.
  - intros nd. split; [done | by right].
  - intros nd _ Hop. done.
Qed.

Lemma perm_frame_set_register k g n r :
  perm_frame_except k g (arch_set_irn_register g n r).
Proof.
  apply perm_frame_update_node.
  - intros nd. split; [done | by left].
  - done.
Qed.

Lemma perm_frame_add_node k g nd :
  (irn_op nd = beo_Perm -> length (irn_in nd) = 2) ->
  perm_frame_except k g (add_node g nd).2.
Proof.
  intros Hnd. split; [simpl; rewrite length_app; lia|]. split.
  - intros n nd' Hn Hop _. unfold get_node, add_node in Hn. simpl in Hn.
    apply lookup_app_Some in Hn as [Hn|[Hge Hn]].
    + left. by exists nd'.
    + right. split; [done|].
      destruct (n - length (irg_nodes g)) as [|m]; [|done].
      injection Hn as <-. by apply Hnd.
  - intros n nd0 Hn. exists nd0. split; [by apply (extends_get_node g); [apply extends_add_node|]|].
    split; [done | by left].
Qed.

Lemma perm_frame_sched_add_after k g a n :
  perm_frame_except k g (sched_add_after g a n).
Proof. apply perm_frame_same_nodes, sched_add_after_nodes. Qed.

Lemma perm_frame_sched_remove k g n :
  perm_frame_except k g (sched_remove g n).
Proof. apply perm_frame_same_nodes, sched_remove_nodes. Qed.

Lemma perm_frame_be_new_Copy k g block op cpy g' :
  be_new_Copy g block op = Some (cpy, g') -> perm_frame_except k g g'.
Proof.
  unfold be_new_Copy. destruct (get_node g op); [|done]. simpl.
  intros [= <- <-]. by apply perm_frame_add_node.
Qed.

Lemma perm_frame_new_r_Proj k g pred mode pn proj g' :
  new_r_Proj g pred mode pn = Some (proj, g') -> perm_frame_except k g g'.
Proof.
  unfold new_r_Proj. destruct (get_node g pred); [|done]. simpl.
  intros [= <- <-]. by apply perm_frame_add_node.
Qed.

Lemma perm_frame_set_Proj_pred k g proj pred g' :
  set_Proj_pred g proj pred = Some g' -> perm_frame_except k g g'.
Proof.
  unfold set_Proj_pred. destruct (get_node g proj) as [nd|] eqn:E; [|done]. simpl.
  case_bool_decide as Hop; [|done]. intros [= <-].
  apply perm_frame_update_node.
  - intros nd'. split; [done | by left].
  - intros nd' Hnd' Hop' _. simpl in *.
    rewrite E in Hnd'. injection Hnd' as <-. congruence.
Qed.

Lemma perm_frame_set_Proj_proj k g proj pn g' :
  set_Proj_proj g proj pn = Some g' -> perm_frame_except k g g'.
Proof.
  unfold set_Proj_proj. destruct (get_node g proj) as [nd|] eqn:E; [|done]. simpl.
  case_bool_decide as Hop; [|done]. intros [= <-].
  apply perm_frame_update_node.
  - intros nd'. split; [done | by left].
  - done.
Qed.

Ltac frame_step :=
  first
    [ apply perm_frame_refl
    | eapply perm_frame_trans; [|apply perm_frame_sched_add_after]
    | eapply perm_frame_trans; [|apply perm_frame_sched_remove]
    | eapply perm_frame_trans; [|apply perm_frame_exchange]
    | eapply perm_frame_trans; [|apply perm_frame_kill_node]
    | eapply perm_frame_trans; [|apply perm_frame_set_register] ].

Lemma perm_frame_build_register_pairs k irn es : forall g pairs pairs' g',
  build_register_pairs g irn es pairs = Some (pairs', g') ->
  perm_frame_except k g g'.
Proof.
  induction es as [|out rest IH]; intros g pairs pairs' g' H;
    cbn [build_register_pairs] in H.
  - injection H as _ <-. apply perm_frame_refl.
  - destruct (get_Proj_proj g out); obind H; [|done].
    destruct (get_irn_n g irn n); obind H; [|done].
    case_bool_decide.
    + eapply perm_frame_trans; [apply perm_frame_exchange | by eapply IH].
    + destruct (arch_get_irn_register g n0); obind H; [|done].
      destruct (arch_get_irn_register g out); obind H; [|done].
      by eapply IH.
Qed.

Lemma perm_frame_copies_loop k' k block move pairs : forall g sp g' sp',
  copies_loop k g block move pairs sp = Some (g', sp') ->
  perm_frame_except k' g g'.
Proof.
  induction k as [|i IH]; intros g sp g' sp' H; cbn [copies_loop] in H.
  - injection H as <- _. apply perm_frame_refl.
  - destruct (elems move !! i); obind H; [|done].
    destruct (elems move !! S i); obind H; [|done].
    destruct (get_node_for_in_register pairs a); obind H; [|done].
    destruct (get_node_for_out_register pairs a0); obind H; [|done].
    destruct (be_new_Copy g block n) as [[cpy g1]|] eqn:Ec; obind H; [|done].
    eapply perm_frame_trans; [|by eapply IH].
    repeat frame_step. by eapply perm_frame_be_new_Copy.
Qed.

Lemma perm_frame_swaps_loop k' k cls_ block move : forall g pairs sp g' pairs' sp',
  swaps_loop k g cls_ block move pairs sp = Some (g', pairs', sp') ->
  perm_frame_except k' g g'.
Proof.
  induction k as [|i IH]; intros g pairs sp g' pairs' sp' H; cbn [swaps_loop] in H.
  - injection H as <- _ _. apply perm_frame_refl.
  - destruct (elems move !! i) as [e_i|]; obind H; [|done].
    destruct (elems move !! S i) as [e_i1|]; obind H; [|done].
    destruct (get_node_for_in_register pairs e_i) as [arg1|]; obind H; [|done].
    destruct (get_node_for_in_register pairs e_i1) as [arg2|]; obind H; [|done].
    destruct (get_node_for_out_register pairs e_i) as [res1_0|]; obind H; [|done].
    destruct (get_node_for_out_register pairs e_i1) as [res2|]; obind H; [|done].
    destruct (be_new_Perm g cls_ block [arg1; arg2]) as [xchg g1] eqn:Ex.
    assert (perm_frame_except k' g g1) as Hf1.
    { unfold be_new_Perm in Ex.
      match type of Ex with add_node g ?nd = _ =>
        pose proof (perm_frame_add_node k' g nd (fun _ => eq_refl)) as Hf end.
      by rewrite Ex in Hf. }
    match type of H with (?m ≫= _) = _ =>
      destruct m as [[[res1 g2] pairs1]|] eqn:Em end; obind H; [|done].
    assert (perm_frame_except k' g1 g2) as Hf2.
    { destruct i.
      - injection Em as _ <- _. apply perm_frame_refl.
      - destruct (get_pairidx_for_in_regidx pairs (index e_i)); obind Em; [|done].
        destruct (get_irn_mode g1 res1_0); obind Em; [|done].
        destruct (new_r_Proj g1 xchg i0 0) as [[r g2']|] eqn:En; obind Em; [|done].
        injection Em as _ <- _. by eapply perm_frame_new_r_Proj. }
    destruct (set_Proj_pred g2 res2 xchg) as [g3|] eqn:E3; obind H; [|done].
    destruct (set_Proj_proj g3 res2 0) as [g4|] eqn:E4; obind H; [|done].
    destruct (set_Proj_pred g4 res1 xchg) as [g5|] eqn:E5; obind H; [|done].
    destruct (set_Proj_proj g5 res1 1) as [g6|] eqn:E6; obind H; [|done].
    eapply perm_frame_trans; [|by eapply IH].
    repeat frame_step.
    eapply perm_frame_trans; [|by eapply perm_frame_set_Proj_proj].
    eapply perm_frame_trans; [|by eapply perm_frame_set_Proj_pred].
    eapply perm_frame_trans; [|by eapply perm_frame_set_Proj_proj].
    eapply perm_frame_trans; [|by eapply perm_frame_set_Proj_pred].
    by eapply perm_frame_trans.
Qed.

Lemma perm_frame_reduce_perm_size k g fm irn move pairs g' pairs' :
  reduce_perm_size g fm irn move pairs = Some (g', pairs') ->
  perm_frame_except k g g'.
Proof.
  assert (forall g'' pairs'',
            split_cycle_into_swaps g irn move pairs = Some (g'', pairs'') ->
            perm_frame_except k g g'') as Hswaps.
  { intros g'' pairs'' H. unfold split_cycle_into_swaps in H.
    destruct (get_irn_n g irn 0); obind H; [|done].
    destruct (arch_get_irn_register g n); obind H; [|done].
    destruct (get_nodes_block g irn); obind H; [|done].
    destruct (sched_prev g irn); obind H; [|done].
    case_bool_decide; [|done].
    destruct (swaps_loop _ _ _ _ _ _ _) as [[[g1 p1] sp1]|] eqn:El; obind H; [|done].
    injection H as <- _. by eapply perm_frame_swaps_loop. }
  unfold reduce_perm_size. destruct (move_type move).
  - destruct (get_free_register fm irn) as [free_reg|]; [|by apply Hswaps].
    destruct (n_elems move <=? 2); [by apply Hswaps|].
    intros H. destruct (split_cycle_into_copies g irn move pairs free_reg)
      as [g1|] eqn:Ec; obind H; [|done].
    injection H as <- _. unfold split_cycle_into_copies in Ec.
    destruct (get_nodes_block g irn) as [block|]; obind Ec; [|done].
    destruct (sched_prev g irn) as [sp|]; obind Ec; [|done].
    case_bool_decide; [|done].
    match type of Ec with (?m ≫= _) = _ => destruct m as [e_last|] end;
      obind Ec; [|done].
    destruct (get_node_for_in_register pairs e_last) as [arg|]; obind Ec; [|done].
    destruct (be_new_Copy g block arg) as [[save g1']|] eqn:E1; obind Ec; [|done].
    destruct (copies_loop _ _ _ _ _ _) as [[g4 sp']|] eqn:El; obind Ec; [|done].
    destruct (be_new_Copy g4 block save) as [[restore g5]|] eqn:E5; obind Ec; [|done].
    destruct (elems move !! 0) as [e_0|]; obind Ec; [|done].
    destruct (get_node_for_out_register pairs e_0) as [proj|]; obind Ec; [|done].
    injection Ec as <-.
    repeat frame_step.
    eapply perm_frame_trans; [|by eapply perm_frame_be_new_Copy].
    eapply perm_frame_trans; [|by eapply perm_frame_copies_loop].
    repeat frame_step. by eapply perm_frame_be_new_Copy.
  - intros H. destruct (split_chain_into_copies g irn move pairs) as [g1|] eqn:Ec;
      obind H; [|done].
    injection H as <- _. unfold split_chain_into_copies in Ec.
    destruct (get_nodes_block g irn) as [block|]; obind Ec; [|done].
    destruct (sched_prev g irn) as [sp|]; obind Ec; [|done].
    case_bool_decide; [|done].
    destruct (copies_loop _ _ _ _ _ _) as [[g4 sp']|] eqn:El; obind Ec; [|done].
    injection Ec as <-. by eapply perm_frame_copies_loop.
Qed.

(** The lowering loop keeps the frame, and keeps the Perm only when its
    arity is two. *)
Lemma perm_frame_lower_moves k fuel fm irn arity : forall g pairs keep g' keep',
  lower_moves fuel g fm irn arity pairs keep = Some (g', keep') ->
  perm_frame_except k g g' /\ (keep' = true -> keep = true \/ arity = 2).
Proof.
  induction fuel as [|fuel IH]; intros g pairs keep g' keep' H;
    cbn [lower_moves] in H.
  - destruct (get_n_unchecked_pairs pairs =? 0); [|done].
    injection H as <- <-. split; [apply perm_frame_refl | by left].
  - destruct (get_n_unchecked_pairs pairs =? 0).
    { injection H as <- <-. split; [apply perm_frame_refl | by left]. }
    destruct (first_unchecked_pair pairs) as [i|]; obind H; [|done].
    destruct (get_perm_move_info pairs i) as [[move pairs1]|]; obind H; [|done].
    destruct (bool_decide (move_type move = PERM_CYCLE) && (arity =? 2)) eqn:Ek.
    + apply IH in H as [Hf Hk]. split; [done|]. intros _. right.
      apply andb_true_iff in Ek as [_ Ek]. by apply Nat.eqb_eq in Ek.
    + destruct (reduce_perm_size g fm irn move pairs1) as [[g1 pairs2]|] eqn:Er;
        obind H; [|done].
      apply IH in H as [Hf Hk]. split; [|done].
      eapply perm_frame_trans; [|done]. by eapply perm_frame_reduce_perm_size.
Qed.

(** After [lower_perm_node] the other Perms are as before, new Perms are
    binary, and the lowered node is gone or a Perm of arity two. *)
Lemma lower_perm_node_frame g fm irn g' :
  lower_perm_node g fm irn = Some g' ->
  perm_frame_except (Some irn) g g' /\ binary_if_perm g' irn.
Proof.
  unfold lower_perm_node. intros H.
  destruct (get_irn_arity g irn) as [arity|] eqn:Ea; obind H; [|done].
  destruct (sched_prev g irn); obind H; [|done].
  destruct (negb (be_is_Perm g irn)); [done|].
  destruct (negb (arity =? get_irn_n_edges g irn)); [done|].
  destruct (build_register_pair_list g irn) as [[pairs g1]|] eqn:Eb; obind H; [|done].
  destruct (lower_moves _ _ _ _ _ _ _) as [[g2 keep]|] eqn:El; obind H; [|done].
  apply (perm_frame_lower_moves None) in El as [Hf2 Hk].
  assert (perm_frame g g2) as Hf.
  { eapply perm_frame_trans; [|done].
    by eapply perm_frame_build_register_pairs. }
  destruct keep; injection H as <-.
  - split; [by apply perm_frame_weaken|].
    intros nd Hnd Hop. destruct Hk as [|Hk]; [done..|].
    destruct Hf as (_ & Hf & _).
    destruct (Hf irn nd Hnd Hop) as [(nd0 & Hn0 & _ & Hlen)|[Hnew _]]; [done| |].
    + unfold get_irn_arity in Ea. rewrite Hn0 in Ea. simpl in Ea.
      injection Ea as Ea. lia.
    + unfold get_irn_arity in Ea.
      destruct (get_node g irn) eqn:E; [|done].
      apply lookup_lt_Some in E. lia.
  - split.
    + apply perm_frame_weaken. eapply perm_frame_trans; [done|].
      eapply perm_frame_trans; [apply perm_frame_sched_remove|].
      apply perm_frame_kill_node.
    + intros nd Hnd Hop. unfold kill_node in Hnd.
      rewrite get_node_update_node, bool_decide_eq_true_2 in Hnd by done.
      destruct (get_node (sched_remove g2 irn) irn); [|done].
      injection Hnd as <-. done.
Qed.

Lemma perm_frame_push_loop k fuel perm cls_ frontier :
  forall g node moved n_moved g' moved' n_moved',
  push_loop fuel g perm cls_ frontier node moved n_moved
    = Some (g', moved', n_moved') ->
  perm_frame_except k g g'.
Proof.
  induction fuel as [|fuel IH]; intros g node moved n_moved g' moved' n_moved' H;
    cbn [push_loop] in H.
  - destruct (sched_is_begin g node); [|done].
    injection H as <- _ _. apply perm_frame_refl.
  - destruct (sched_is_begin g node).
    { injection H as <- _ _. apply perm_frame_refl. }
    destruct (find_perm_input _ _ _ _) as [[[proj input]|]|]; obind H; [| |done].
    + destruct (negb (may_push_through g cls_ frontier node)).
      { injection H as <- _ _. apply perm_frame_refl. }
      destruct (sched_prev _ node) as [node'|]; obind H; [|done].
      eapply perm_frame_trans; [|by eapply IH].
      unfold move_behind_perm. repeat frame_step.
    + injection H as <- _ _. apply perm_frame_refl.
Qed.

Lemma perm_frame_renumber_projs k proj_map es : forall g g',
  renumber_projs g proj_map es = Some g' -> perm_frame_except k g g'.
Proof.
  induction es as [|proj rest IH]; intros g g' H; cbn [renumber_projs] in H.
  - injection H as <-. apply perm_frame_refl.
  - destruct (get_Proj_proj g proj) as [pn|]; obind H; [|done].
    destruct (proj_map !! pn ≫= proj_map_number) as [pn'|]; obind H; [|done].
    destruct (set_Proj_proj g proj pn') as [g1|] eqn:E; obind H; [|done].
    eapply perm_frame_trans; [by eapply perm_frame_set_Proj_proj | by eapply IH].
Qed.

(** [push_through_perm] leaves the other Perms alone, and the Perm is
    dead when it returns false. *)
Lemma push_through_perm_frame g lv perm b g' :
  push_through_perm g lv perm = Some (b, g') ->
  perm_frame_except (Some perm) g g' /\
  (b = false -> binary_if_perm g' perm).
Proof.
  unfold push_through_perm. intros H.
  destruct (push_through_perm_loop g lv perm) as [[[[arity g1] moved] n_moved]|]
    eqn:El; obind H; [|done].
  assert (perm_frame_except (Some perm) g g1) as Hf1.
  { unfold push_through_perm_loop in El.
    destruct (get_nodes_block g perm); obind El; [|done].
    destruct (get_irn_arity g perm); obind El; [|done].
    destruct (head _); obind El; [|done].
    destruct (arch_get_irn_reg_class g _); obind El; [|done].
    destruct (negb _); [done|].
    destruct (perm_frontier g lv perm); obind El; [|done].
    destruct (sched_prev g perm); obind El; [|done].
    destruct (push_loop _ _ _ _ _ _ _ _) as [[[g1' m'] n']|] eqn:Ep; obind El;
      [|done].
    injection El as _ <- _ _. by eapply perm_frame_push_loop. }
  unfold push_through_perm_shrink in H.
  destruct (n_moved =? 0).
  { injection H as <- <-. split; [done|]. intros [=]. }
  destruct (arity <? n_moved); [done|].
  destruct (arity - n_moved =? 0).
  { injection H as <- <-. split.
    - eapply perm_frame_trans; [done|].
      eapply perm_frame_trans; [apply perm_frame_sched_remove|].
      apply perm_frame_kill_node.
    - intros _ nd Hnd Hop. unfold kill_node in Hnd.
      rewrite get_node_update_node, bool_decide_eq_true_2 in Hnd by done.
      destruct (get_node (sched_remove g1 perm) perm); [|done].
      injection Hnd as <-. done. }
  destruct (build_proj_map moved 0 arity 0) as [map_ proj_map].
  destruct (negb _); [done|].
  destruct (renumber_projs g1 proj_map _) as [g2|] eqn:Er; obind H; [|done].
  destruct (be_Perm_reduce g2 perm map_) as [g3|] eqn:Eb; obind H; [|done].
  injection H as <- <-. split; [|intros [=]].
  eapply perm_frame_trans; [done|].
  eapply perm_frame_trans; [by eapply perm_frame_renumber_projs|].
  unfold be_Perm_reduce in Eb.
  destruct (get_node g2 perm); obind Eb; [|done].
  destruct (mapM _ map_); obind Eb; [|done].
  injection Eb as <-. apply perm_frame_update_node.
  - intros nd. split; [done | by left].
  - intros nd _ _ Hk. done.
Qed.

Lemma lower_nodes_after_ra_walker_frame g lv fm irn g' :
  lower_nodes_after_ra_walker g lv fm irn = Some g' ->
  perm_frame_except (Some irn) g g' /\ binary_if_perm g' irn.
Proof.
  unfold lower_nodes_after_ra_walker. intros H.
  destruct (be_is_Perm g irn) eqn:EP; simpl in H.
  2:{ injection H as <-. split; [apply perm_frame_refl|].
      intros nd Hnd Hop. unfold be_is_Perm, has_op in EP. rewrite Hnd in EP.
      by apply bool_decide_eq_false in EP. }
  destruct (push_through_perm g lv irn) as [[stayed g1]|] eqn:Ep; obind H; [|done].
  apply push_through_perm_frame in Ep as [Hf1 Hdead].
  destruct stayed.
  - apply lower_perm_node_frame in H as [Hf2 Hbin]. split; [|done].
    by eapply perm_frame_trans.
  - injection H as <-. split; [done | by apply Hdead].
Qed.

(** The lowering walk: the Perms it has visited and the Perms it has
    created are binary, and so stay the nodes known to be binary
    before. *)
Lemma walk_lower_nodes_binary lv fm visit : forall g g' (good : nat -> Prop),
  walk_lower_nodes g lv fm visit = Some g' ->
  (forall n, good n -> binary_if_perm g n) ->
  forall n, good n \/ n ∈ visit \/ length (irg_nodes g) <= n ->
            binary_if_perm g' n.
Proof.
  induction visit as [|irn rest IH]; intros g g' good H Hgood n Hn;
    cbn [walk_lower_nodes] in H.
  - injection H as <-. destruct Hn as [Hn|[Hn|Hn]].
    + by apply Hgood.
    + inversion Hn.
    + intros nd Hnd _. apply lookup_lt_Some in Hnd. lia.
  - destruct (lower_nodes_after_ra_walker g lv fm irn) as [g1|] eqn:Ew; obind H;
      [|done].
    apply lower_nodes_after_ra_walker_frame in Ew as [(Hlen & Hf & _) Hbin].
    apply (IH g1 g' (fun m => good m \/ m = irn \/ length (irg_nodes g) <= m) H).
    + intros m Hm nd Hnd Hop.
      destruct (decide (m = irn)) as [->|Hne]; [by apply Hbin|].
      destruct (Hf m nd Hnd Hop) as [(nd0 & Hn0 & Hop0 & Hl0)|[_ Hl0]];
        [congruence | | done].
      destruct Hm as [Hm|[Hm|Hm]]; [|done|].
      * rewrite Hl0. by apply (Hgood m Hm).
      * apply lookup_lt_Some in Hn0. lia.
    + destruct Hn as [Hn|[Hn|Hn]].
      * left. by left.
      * apply elem_of_cons in Hn as [->|Hn]; [left; right; by left | right; by left].
      * left. right. by right.
Qed.

(** C7: after [lower_nodes_after_ra] every Perm node that the lowering
    walk has visited or that lowering has created has exactly two inputs:
    a Perm is kept only with arity 2, and every new Perm is binary. *)
Theorem lower_nodes_after_ra_binary g lv classes alloc visit1 visit2 g' n nd :
  lower_nodes_after_ra g lv classes alloc visit1 visit2 = Some g' ->
  n ∈ visit2 \/ length (irg_nodes g) <= n ->
  get_node g' n = Some nd -> irn_op nd = beo_Perm ->
  length (irn_in nd) = 2.
Proof.
  unfold lower_nodes_after_ra. intros H Hn Hnd Hop.
  destruct (walk_free_registers _ _ _ _ _ _) as [fm|]; obind H; [|done].
  eapply (walk_lower_nodes_binary lv fm visit2 g g' (fun _ => False) H);
    [done | | done..].
  by right.
Qed.

Lemma lower_nodes_after_ra_binary_witness :
  exists g',
    lower_nodes_after_ra g_cycle3_flags lv_none [cls3] 7 (seq 0 9) (seq 0 9)
      = Some g' /\
    be_is_Perm g' 11 = true /\
    forall nd, get_node g' 11 = Some nd -> irn_op nd = beo_Perm ->
               length (irn_in nd) = 2.
Proof.
  eexists. split; [vm_compute; reflexivity|]. split; [reflexivity|].
  intros nd Hnd Hop.
  eapply (lower_nodes_after_ra_binary g_cycle3_flags lv_none [cls3] 7
            (seq 0 9) (seq 0 9) _ 11 nd);
    [vm_compute; reflexivity | right; simpl; lia | exact Hnd | exact Hop].
Defined.

(** ** A cycle lowered with a scratch register *)

Lemma get_node_add_node g nd n :
  get_node (add_node g nd).2 n =
  if bool_decide (n = length (irg_nodes g)) then Some nd else get_node g n.
Proof.
  unfold get_node, add_node. simpl. case_bool_decide as H.
  - subst. rewrite lookup_app_r by done. by rewrite Nat.sub_diag.
  - destruct (decide (n < length (irg_nodes g))).
    + by rewrite lookup_app_l.
    + rewrite !lookup_ge_None_2; [done | lia |]. rewrite length_app. simpl. lia.
Qed.

Lemma list_index_NoDup (l : list nat) k x :
  NoDup l -> l !! k = Some x -> list_index x l = Some k.
Proof.
  revert k. induction l as [|y l IH]; intros k Hnd Hk; [done|].
  apply NoDup_cons in Hnd as [Hy Hnd]. simpl. destruct k as [|k]; simpl in Hk.
  - injection Hk as ->. by rewrite bool_decide_eq_true_2.
  - rewrite bool_decide_eq_false_2.
    + by rewrite (IH k Hnd Hk).
    + intros ->. apply Hy. by eapply list_elem_of_lookup_2.
Qed.

Lemma list_index_lookup x l k : list_index x l = Some k -> l !! k = Some x.
Proof.
  revert k. induction l as [|y l IH]; simpl; intros k H; [done|].
  case_bool_decide; [injection H as <-; by subst|].
  destruct (list_index x l) as [j|]; [|done]. injection H as <-. by apply IH.
Qed.

Lemma list_index_None x l : list_index x l = None -> x ∉ l.
Proof.
  intros H Hx. destruct (elem_of_list_index _ _ Hx) as [i Hi]. congruence.
Qed.

Lemma kill_set_in nd l : kill (set_in nd l) = kill nd.
Proof. by destruct nd. Qed.

Lemma reroute_kill old nw nd : reroute old nw (kill nd) = kill nd.
Proof. by destruct nd. Qed.

Lemma reroute_set_in old nw nd l :
  reroute old nw (set_in nd l) =
  set_in nd ((fun x => if bool_decide (x = old) then nw else x) <$> l).
Proof. by destruct nd. Qed.

(** One copy-and-exchange round of [split_cycle_into_copies]. *)
Lemma copies_emitted_step g bl irn pre post qs n t news gt src r q nds :
  let N := length (irg_nodes g) in
  copies_emitted g bl irn pre post qs n t news gt ->
  NoDup qs -> length qs = n -> bl < N ->
  (forall x, x ∈ pre -> x < N) -> (forall x, x ∈ qs -> x < N) ->
  S t <= n -> length news = S t ->
  qs !! (n - S t) = Some q ->
  get_node gt src = Some nds -> (src ∉ qs) ->
  exists cpy g1,
    be_new_Copy gt bl src = Some (cpy, g1) /\ cpy = N + S t /\
    let g2 := arch_set_irn_register g1 cpy (Some r) in
    let g3 := exchange g2 q cpy in
    let g4 := sched_add_after g3 (skip_Proj g3 (N + t)) cpy in
    copies_emitted g bl irn pre post qs n (S t) (news ++ [(src, r)]) g4.
Proof.
  intros N Hinv Hnd Hqn HblN Hpre Hqs Htn Hnl Hq Hsrc Hsq.
  destruct Hinv as (Hlen & Hsched & Hold & Hnew). fold N in Hlen, Hsched, Hold, Hnew.
  unfold be_new_Copy. rewrite Hsrc. obindg.
  set (ndc := mk_node beo_Copy (irn_mode nds) bl [src] 0 None
                      (normal_req (req_cls (irn_req nds))) 0).
  exists (N + S t), (add_node gt ndc).2.
  assert ((add_node gt ndc).1 = N + S t) as Hcpy.
  { simpl. rewrite Hlen, Hnl. done. }
  split; [by rewrite <- Hcpy; destruct (add_node gt ndc)|]. split; [done|].
  set (cpy := N + S t) in *.
  set (g2 := arch_set_irn_register (add_node gt ndc).2 cpy (Some r)).
  set (g3 := exchange g2 q cpy).
  set (g4 := sched_add_after g3 (skip_Proj g3 (N + t)) cpy).
  assert (q < N) as HqN by (apply Hqs; by eapply list_elem_of_lookup_2).
  assert (list_index q qs = Some (n - S t)) as Hqi by (by apply list_index_NoDup).
  assert (src <> q) as Hsrcq.
  { intros ->. apply Hsq. by eapply list_elem_of_lookup_2. }
  (* the nodes of g3 *)
  assert (forall u, u <> cpy -> get_node g2 u = get_node gt u) as Hg2.
  { intros u Hu. unfold g2, arch_set_irn_register.
    rewrite get_node_update_node, bool_decide_eq_false_2 by done.
    rewrite get_node_add_node, bool_decide_eq_false_2; [done|].
    rewrite Hlen, Hnl. done. }
  assert (get_node g2 cpy = Some (set_reg ndc (Some r))) as Hg2c.
  { unfold g2, arch_set_irn_register.
    rewrite get_node_update_node, bool_decide_eq_true_2 by done.
    rewrite get_node_add_node, bool_decide_eq_true_2; [done|].
    by rewrite Hlen, Hnl. }
  assert (get_node g3 cpy = Some (set_reg ndc (Some r))) as Hg3c.
  { unfold g3. rewrite get_node_exchange, Hg2c. simpl.
    rewrite bool_decide_eq_false_2 by (unfold cpy; lia).
    unfold reroute. simpl. by rewrite bool_decide_eq_false_2. }
  assert (irg_sched g3 = irg_sched gt) as Hs3 by done.
  assert (forall j s' r', news !! j = Some (s', r') ->
            is_copy_of g3 bl (N + j) s' r' /\ (s' ∉ qs)) as Hnew3.
  { intros j s' r' Hj. destruct (Hnew j s' r' Hj)
      as [(nd & Hn & Hop & Hin & Hreg & Hb) Hs'].
    split; [|done].
    assert (j < length news) as Hjl by (by eapply lookup_lt_Some).
    exists (reroute q cpy nd). unfold g3.
    rewrite get_node_exchange, Hg2, Hn by (unfold cpy; lia). simpl.
    rewrite bool_decide_eq_false_2 by lia.
    repeat split; try done. simpl. rewrite Hin. simpl.
    rewrite bool_decide_eq_false_2; [done|].
    intros ->. apply Hs'. by eapply list_elem_of_lookup_2. }
  (* the schedule *)
  assert (skip_Proj g3 (N + t) = N + t /\ sched_block g3 (N + t) = Some bl)
    as [Hskip Hsb].
  { destruct (lookup_lt_is_Some_2 news t ltac:(lia)) as [[s' r'] Ht].
    destruct (Hnew3 t s' r' Ht) as [(nd & Hn & Hop & _ & _ & Hb) _].
    unfold skip_Proj, sched_block. rewrite Hn. simpl.
    rewrite !bool_decide_eq_false_2 by congruence. by rewrite Hb. }
  split; [|split; [|split]].
  - unfold g4. rewrite sched_add_after_nodes. unfold g3. rewrite exchange_length.
    unfold g2, arch_set_irn_register, update_node. simpl.
    rewrite length_alter, !length_app. simpl. rewrite Hlen. fold N. lia.
  - unfold g4, sched_add_after. rewrite Hskip, Hsb.
    rewrite bool_decide_eq_false_2 by lia.
    unfold sched_list. rewrite Hs3, Hsched, lookup_insert_eq. simpl.
    rewrite insert_insert_eq. f_equal. fold N.
    rewrite length_app, Hnl. simpl length.
    replace (S t + 1) with (S (S t)) by lia.
    rewrite (seq_S (S t) N), (seq_S t N).
    rewrite <- !app_assoc. simpl.
    rewrite (app_assoc pre (seq N t)).
    rewrite insert_after_middle; [by rewrite <- app_assoc|].
    intros Hx. apply elem_of_app in Hx as [Hx|Hx].
    + apply Hpre in Hx. lia.
    + apply elem_of_seq in Hx. lia.
  - intros u nd Hu. fold N.
    assert (u < N) as HuN by (by eapply lookup_lt_Some).
    unfold g4. rewrite (same_nodes_get_node g3) by apply sched_add_after_nodes.
    unfold g3. rewrite get_node_exchange, Hg2 by (unfold cpy; lia).
    rewrite (Hold u nd Hu). simpl. f_equal.
    unfold proj_exchanged, copy_for_proj.
    destruct (decide (u = q)) as [->|Huq].
    + rewrite bool_decide_eq_true_2 by done. rewrite Hqi.
      destruct (Nat.leb_spec (n - t) (n - S t)) as [|_]; [lia|].
      rewrite Nat.leb_refl. by rewrite reroute_set_in, kill_set_in.
    + rewrite bool_decide_eq_false_2 by done.
      destruct (list_index u qs) as [k|] eqn:Ek.
      * assert (k <> n - S t) as Hk.
        { intros ->. apply list_index_lookup in Ek. congruence. }
        destruct (Nat.leb_spec (n - t) k), (Nat.leb_spec (n - S t) k); try lia.
        -- apply reroute_kill.
        -- rewrite reroute_set_in. f_equal. rewrite <- list_fmap_compose.
           apply list_fmap_ext. intros i y _. simpl.
           destruct (list_index y qs) as [m|] eqn:Em.
           ++ pose proof (list_index_lt_length _ _ _ Em) as Hmn.
              destruct (Nat.leb_spec (n - t) m), (Nat.leb_spec (n - S t) m); try lia.
              ** rewrite bool_decide_eq_false_2; [done | lia].
              ** assert (m = n - S t) as -> by lia.
                 apply list_index_lookup in Em.
                 rewrite bool_decide_eq_true_2 by congruence.
                 unfold cpy. lia.
              ** rewrite bool_decide_eq_false_2; [done|]. intros ->.
                 rewrite Hqi in Em. injection Em as <-. lia.
           ++ rewrite bool_decide_eq_false_2; [done|]. intros ->. congruence.
      * rewrite reroute_set_in. f_equal. rewrite <- list_fmap_compose.
        apply list_fmap_ext. intros i y _. simpl.
        destruct (list_index y qs) as [m|] eqn:Em.
        -- pose proof (list_index_lt_length _ _ _ Em) as Hmn.
           destruct (Nat.leb_spec (n - t) m), (Nat.leb_spec (n - S t) m); try lia.
           ++ rewrite bool_decide_eq_false_2; [done | lia].
           ++ assert (m = n - S t) as -> by lia.
              apply list_index_lookup in Em.
              rewrite bool_decide_eq_true_2 by congruence.
              unfold cpy. lia.
           ++ rewrite bool_decide_eq_false_2; [done|]. intros ->.
              rewrite Hqi in Em. injection Em as <-. lia.
        -- rewrite bool_decide_eq_false_2; [done|]. intros ->. congruence.
  - intros j s' r' Hj. fold N.
    assert (forall m s'' r'', is_copy_of g3 bl m s'' r'' ->
              is_copy_of g4 bl m s'' r'') as Hg4.
    { intros m s'' r'' (nd & Hn & H'). exists nd. split; [|done].
      unfold g4. by rewrite (same_nodes_get_node g3) by apply sched_add_after_nodes. }
    apply lookup_app_Some in Hj as [Hj|[Hge Hj]].
    + destruct (Hnew3 j s' r' Hj). split; [by apply Hg4 | done].
    + destruct (j - length news) as [|m] eqn:Ejm; [|done].
      injection Hj as <- <-. split; [|done]. apply Hg4.
      assert (j = S t) as -> by lia.
      exists (set_reg ndc (Some r)). by split.
Qed.

Lemma set_in_id nd (f : nat -> nat) :
  (forall y, y ∈ irn_in nd -> f y = y) -> set_in nd (f <$> irn_in nd) = nd.
Proof.
  intros Hf. assert (f <$> irn_in nd = irn_in nd) as ->; [|by destruct nd].
  rewrite <- (list_fmap_id (irn_in nd)) at 2. apply list_fmap_ext.
  intros i y Hy. apply Hf. by eapply list_elem_of_lookup_2.
Qed.

Lemma cycle_nodes_ok_elim g irn hs qs :
  cycle_nodes_ok g irn hs qs = true ->
  NoDup qs /\ (forall q, q ∈ qs -> q < length (irg_nodes g)) /\
  (forall h, h ∈ hs -> is_Some (get_node g h) /\ (h ∉ qs)) /\
  (forall q, q ∈ qs -> is_Proj g q = true /\ q ∈ get_irn_out_edges g irn).
Proof.
  unfold cycle_nodes_ok. rewrite !andb_true_iff. intros [[H1 H2] H3].
  apply bool_decide_eq_true in H1. rewrite forallb_forall in H2.
  rewrite forallb_forall in H3.
  assert (forall q, q ∈ qs -> is_Proj g q = true /\ q ∈ get_irn_out_edges g irn)
    as Hq.
  { intros q Hq. specialize (H2 q (proj1 (list_elem_of_In _ _) Hq)).
    apply andb_true_iff in H2 as [H2 H2']. by apply bool_decide_eq_true in H2'. }
  repeat split; try done; try (by apply Hq).
  - intros q Hq'. destruct (Hq q Hq') as [H _]. unfold is_Proj, has_op in H.
    destruct (get_node g q) eqn:E; [|done]. by eapply lookup_lt_Some.
  - specialize (H3 h (proj1 (list_elem_of_In _ _) H)).
    apply andb_true_iff in H3 as [H3 _]. by apply bool_decide_eq_true in H3.
  - specialize (H3 h (proj1 (list_elem_of_In _ _) H)).
    apply andb_true_iff in H3 as [_ H3]. by apply bool_decide_eq_true in H3.
Qed.

(** The graph once the save copy is in the schedule. *)
Lemma copies_emitted_save g irn ndp pre post qs n h_last r nds :
  let N := length (irg_nodes g) in
  let bl := irn_block ndp in
  get_node g irn = Some ndp ->
  is_Block g bl = true ->
  sched_list g bl = pre ++ irn :: post ->
  NoDup (pre ++ irn :: post) ->
  (forall x, x ∈ pre ++ irn :: post -> scheduled_in_block g bl x = true) ->
  length qs = n -> (h_last ∉ qs) ->
  get_node g h_last = Some nds ->
  exists save g1,
    be_new_Copy g bl h_last = Some (save, g1) /\ save = N /\
    let g2 := arch_set_irn_register g1 save (Some r) in
    copies_emitted g bl irn pre post qs n 0 [(h_last, r)]
      (sched_add_after g2 (skip_Proj g2 (default bl (last pre))) save).
Proof.
  intros N bl Hp Hbl Hl Hnd Hin Hqn Hh Hnds.
  unfold be_new_Copy. rewrite Hnds. obindg.
  set (ndc := mk_node beo_Copy (irn_mode nds) bl [h_last] 0 None
                      (normal_req (req_cls (irn_req nds))) 0).
  exists N, (add_node g ndc).2. split; [done|]. split; [done|].
  set (g2 := arch_set_irn_register (add_node g ndc).2 N (Some r)).
  set (pred := default bl (last pre)).
  assert (forall u, u <> N -> get_node g2 u = get_node g u) as Hg2.
  { intros u Hu. unfold g2, arch_set_irn_register.
    rewrite get_node_update_node, bool_decide_eq_false_2 by done.
    by rewrite get_node_add_node, bool_decide_eq_false_2. }
  assert (get_node g2 N = Some (set_reg ndc (Some r))) as Hg2c.
  { unfold g2, arch_set_irn_register.
    rewrite get_node_update_node, bool_decide_eq_true_2 by done.
    by rewrite get_node_add_node, bool_decide_eq_true_2. }
  assert (bl < N) as HblN.
  { unfold is_Block, has_op in Hbl. destruct (get_node g bl) eqn:E; [|done].
    by eapply lookup_lt_Some. }
  assert (irg_sched g !! bl = Some (pre ++ irn :: post)) as Hlook.
  { apply sched_list_lookup; [done|]. by destruct pre. }
  assert (irg_sched (sched_add_after g2 (skip_Proj g2 pred) N) =
          <[bl := pre ++ [N] ++ irn :: post]> (irg_sched g)) as Hs.
  { assert (skip_Proj g2 pred = pred /\ sched_block g2 pred = Some bl /\
            (if bool_decide (pred = bl) then N :: pre ++ irn :: post
             else insert_after pred N (pre ++ irn :: post)) =
            pre ++ [N] ++ irn :: post) as (Hskip & Hsb & Hins).
    { unfold pred. destruct pre as [|p pre' _] using rev_ind.
      - simpl default. unfold skip_Proj, sched_block.
        rewrite Hg2 by lia. unfold is_Block, has_op in Hbl.
        destruct (get_node g bl) as [ndb|]; [|done].
        apply bool_decide_eq_true in Hbl. rewrite Hbl.
        rewrite (bool_decide_eq_false_2 (iro_Block = iro_Proj)) by done.
        rewrite !bool_decide_eq_true_2 by done. obindg. by rewrite Hbl, bool_decide_eq_true_2.
      - rewrite last_snoc. simpl default.
        destruct (scheduled_in_block_elim g bl p)
          as (ndx & Hx & Hxb & Hxop & Hxproj & Hxsb).
        { apply Hin. apply elem_of_app. left. apply elem_of_app. right. left. }
        assert (p < N) as HpN by (by eapply lookup_lt_Some).
        assert (p <> bl) as Hpbl.
        { intros ->. unfold is_Block, has_op in Hbl. rewrite Hx in Hbl.
          by apply bool_decide_eq_true in Hbl. }
        unfold skip_Proj, sched_block. rewrite !Hg2, Hx by lia. obindg.
        rewrite !bool_decide_eq_false_2 by done. rewrite Hxb.
        repeat split; try done.
        rewrite <- !app_assoc. simpl. apply insert_after_middle.
        rewrite <- app_assoc in Hnd. apply NoDup_app in Hnd as (_ & Hd & _).
        intros Hx'. apply (Hd _ Hx'). left. }
    unfold sched_add_after. rewrite Hskip, Hsb.
    unfold sched_list. simpl. rewrite Hlook. simpl. by rewrite Hins. }
  split; [|split; [|split]].
  - rewrite sched_add_after_nodes. unfold g2, arch_set_irn_register, update_node.
    simpl. rewrite length_alter, length_app. simpl. done.
  - done.
  - intros u nd Hu.
    assert (u < N) as HuN by (by eapply lookup_lt_Some).
    rewrite (same_nodes_get_node g2) by apply sched_add_after_nodes.
    rewrite Hg2, Hu by lia. f_equal.
    unfold proj_exchanged. destruct (list_index u qs) as [k|] eqn:Ek.
    + apply list_index_lt_length in Ek.
      destruct (Nat.leb_spec (n - 0) k); [lia|].
      symmetry. apply set_in_id. intros y _. unfold copy_for_proj.
      destruct (list_index y qs) as [m|] eqn:Em; [|done].
      apply list_index_lt_length in Em.
      by destruct (Nat.leb_spec (n - 0) m); [lia|].
    + symmetry. apply set_in_id. intros y _. unfold copy_for_proj.
      destruct (list_index y qs) as [m|] eqn:Em; [|done].
      apply list_index_lt_length in Em.
      by destruct (Nat.leb_spec (n - 0) m); [lia|].
  - intros [|j] src r' Hj; [|done]. injection Hj as <- <-. split; [|done].
    exists (set_reg ndc (Some r)). rewrite Nat.add_0_r.
    rewrite (same_nodes_get_node g2) by apply sched_add_after_nodes.
    by split.
Qed.

(** The copy loop: with [k] iterations to go, the loop emits the copies of
    the first [k] holders, last one first. *)
Lemma copies_loop_emitted k : forall g bl irn pre post qs hs move pairs news gt,
  let N := length (irg_nodes g) in
  let n := n_elems move in
  copies_emitted g bl irn pre post qs n (n - 1 - k) news gt ->
  NoDup qs -> length qs = n -> bl < N ->
  (forall x, x ∈ pre -> x < N) -> (forall x, x ∈ qs -> x < N) ->
  (forall h, h ∈ hs -> is_Some (get_node g h) /\ (h ∉ qs)) ->
  Forall2 (fun e h => get_node_for_in_register pairs e = Some h) (elems move) hs ->
  Forall2 (fun e q => get_node_for_out_register pairs e = Some q) (elems move) qs ->
  S k <= n -> length news = n - k ->
  exists g',
    copies_loop k gt bl move pairs (N + (n - 1 - k)) = Some (g', N + (n - 1)) /\
    copies_emitted g bl irn pre post qs n (n - 1)
      (news ++ reverse (take k (zip hs (drop 1 (elems move))))) g'.
Proof.
  induction k as [|i IH];
    intros g bl irn pre post qs hs move pairs news gt N n
           Hem Hnd Hqn HblN Hpre Hqs Hhs Hin Hout Hk Hnews.
  - exists gt. simpl. rewrite Nat.sub_0_r in *. rewrite app_nil_r. done.
  - assert (length (elems move) = n) as Hen by done.
    destruct (lookup_lt_is_Some_2 (elems move) i) as [e_i He_i]; [lia|].
    destruct (lookup_lt_is_Some_2 (elems move) (S i)) as [e_i1 He_i1]; [lia|].
    destruct (Forall2_lookup_l _ _ _ _ _ Hin He_i) as (h_i & Hh_i & Harg).
    destruct (Forall2_lookup_l _ _ _ _ _ Hout He_i1) as (q & Hq & Hres).
    destruct (Hhs h_i) as [[ndh Hndh] Hhq]; [by eapply list_elem_of_lookup_2|].
    pose proof Hem as (_ & _ & Hold & _).
    specialize (Hold _ _ Hndh).
    destruct (get_node gt h_i) as [nds|] eqn:Hgt; [clear Hold|done].
    pose proof (copies_emitted_step g bl irn pre post qs n (n - 1 - S i) news gt
                  h_i e_i1 q nds) as Hstep.
    cbn zeta in Hstep.
    destruct (Hstep Hem Hnd Hqn HblN Hpre Hqs)
      as (cpy & g1 & Hcopy & -> & Hstep'); [lia|lia| |done|done|].
    { by replace (n - S (n - 1 - S i)) with (S i) by lia. }
    clear Hstep.
    replace (S (n - 1 - S i)) with (n - 1 - i) in * by lia.
    destruct (IH g bl irn pre post qs hs move pairs _ _ Hstep')
      as (g' & Hloop & Hem'); try done; try lia.
    { rewrite length_app. simpl. lia. }
    exists g'. split.
    + simpl. rewrite He_i, He_i1. obindg. rewrite Harg, Hres. obindg.
      fold N. rewrite Hcopy. obindg. exact Hloop.
    + rewrite (take_S_r _ _ (h_i, e_i1)), reverse_snoc.
      * by rewrite <- app_assoc in Hem'.
      * rewrite lookup_zip_with, Hh_i, lookup_drop. simpl. by rewrite He_i1.
Qed.

Lemma perm_ok_schedule g perm bl pre post :
  perm_ok g perm = true ->
  get_nodes_block g perm = Some bl ->
  sched_list g bl = pre ++ perm :: post ->
  exists ndp,
    get_node g perm = Some ndp /\ bl = irn_block ndp /\ irn_op ndp = beo_Perm /\
    is_Block g bl = true /\ NoDup (pre ++ perm :: post) /\
    (forall x, x ∈ pre ++ perm :: post -> scheduled_in_block g bl x = true) /\
    sched_prev g perm = Some (default bl (last pre)).
Proof.
  unfold perm_ok, get_nodes_block.
  destruct (get_node g perm) as [ndp|] eqn:Hp; [|done].
  rewrite !andb_true_iff.
  intros [[[[[[[H1 H2] H3] H4] H5] H6] H7] H8] [= <-] Hl.
  apply bool_decide_eq_true in H1, H4. rewrite Hl in H4, H5.
  exists ndp. repeat split; try done.
  - intros x Hx. rewrite forallb_forall in H5. apply H5. by apply list_elem_of_In.
  - eapply sched_prev_middle; [by apply perm_ok_sched_block|done|].
    apply NoDup_app in H4 as (_ & Hd & _). intros Hx. apply (Hd _ Hx). left.
Qed.

(** [split_cycle_into_copies] returns, and the graph it returns holds
    the copies of [cycle_copies], in that order, in front of the Perm. *)
Lemma split_cycle_into_copies_spec g irn move pairs s hs qs bl pre post :
  let N := length (irg_nodes g) in
  let n := n_elems move in
  perm_ok g irn = true ->
  get_nodes_block g irn = Some bl ->
  sched_list g bl = pre ++ irn :: post ->
  move_type move = PERM_CYCLE -> 1 <= n ->
  mapM (get_node_for_in_register pairs) (elems move) = Some hs ->
  mapM (get_node_for_out_register pairs) (elems move) = Some qs ->
  cycle_nodes_ok g irn hs qs = true ->
  exists g',
    split_cycle_into_copies g irn move pairs s = Some g' /\
    copies_emitted g bl irn pre post qs n n (cycle_copies N hs (elems move) s) g'.
Proof.
  intros N n Hok Hblk Hl Hty Hn Hhs Hqs Hcyc.
  destruct (perm_ok_schedule _ _ _ _ _ Hok Hblk Hl)
    as (ndp & Hp & -> & Hop & Hbl & Hnd & Hin & Hprev).
  apply mapM_Some in Hhs, Hqs.
  pose proof (Forall2_length _ _ _ Hhs) as Hlh.
  pose proof (Forall2_length _ _ _ Hqs) as Hlq.
  destruct (cycle_nodes_ok_elim _ _ _ _ Hcyc) as (Hndq & HqN & Hh & _).
  assert (length (elems move) = n) as Hen by done.
  destruct (lookup_lt_is_Some_2 (elems move) (n - 1)) as [e_last He_last]; [lia|].
  destruct (lookup_lt_is_Some_2 (elems move) 0) as [e_0 He_0]; [lia|].
  destruct (Forall2_lookup_l _ _ _ _ _ Hhs He_last) as (h_last & Hh_last & Harg).
  destruct (Forall2_lookup_l _ _ _ _ _ Hqs He_0) as (q_0 & Hq_0 & Hproj).
  destruct (Hh h_last) as [[ndh Hndh] Hhq]; [by eapply list_elem_of_lookup_2|].
  assert (irn_block ndp < N) as HblN.
  { unfold is_Block, has_op in Hbl.
    destruct (get_node g (irn_block ndp)) eqn:E; [|done]. by eapply lookup_lt_Some. }
  assert (forall x, x ∈ pre -> x < N) as Hpre.
  { intros x Hx.
    destruct (scheduled_in_block_elim g (irn_block ndp) x) as (ndx & Hx' & _).
    - apply Hin, elem_of_app. by left.
    - by eapply lookup_lt_Some. }
  destruct (copies_emitted_save g irn ndp pre post qs n h_last s ndh)
    as (save & g1 & Hsave & -> & Hem0); try done.
  cbn zeta in Hem0.
  replace 0 with (n - 1 - (n - 1)) in Hem0 at 1 by lia.
  destruct (copies_loop_emitted (n - 1) g (irn_block ndp) irn pre post qs hs
              move pairs _ _ Hem0)
    as (g4 & Hloop & Hem4); try done; try lia.
  { simpl. fold n. lia. }
  fold n N in Hloop, Hem4.
  replace (N + (n - 1 - (n - 1))) with N in Hloop by lia.
  pose proof Hem4 as (_ & _ & _ & Hnews).
  destruct (Hnews 0 h_last s eq_refl) as [(ndc & Hndc & _) _].
  rewrite Nat.add_0_r in Hndc.
  pose proof (copies_emitted_step g (irn_block ndp) irn pre post qs n (n - 1)
                ([(h_last, s)] ++
                 reverse (take (n - 1) (zip hs (drop 1 (elems move)))))
                g4 N e_0 q_0 ndc) as Hstep.
  cbn zeta in Hstep. fold N in Hstep.
  destruct (Hstep Hem4 Hndq) as (cpy & g5 & Hrestore & -> & Hem);
    try done; try lia.
  { rewrite length_app, length_reverse, length_take, length_zip_with, length_drop.
    simpl. lia. }
  { by replace (n - S (n - 1)) with 0 by lia. }
  { intros HNq. specialize (HqN _ HNq). fold N in HqN. lia. }
  clear Hstep. replace (S (n - 1)) with n in * by lia.
  assert (match n_elems move with 0 => None | S m => elems move !! m end
          = Some e_last) as Hlast.
  { fold n. destruct n as [|m] eqn:En; [lia|].
    by replace (S m - 1) with m in He_last by lia. }
  match type of Hem with copies_emitted _ _ _ _ _ _ _ _ _ ?gx => exists gx end.
  split.
  - unfold split_cycle_into_copies, get_nodes_block. rewrite Hp, Hprev. obindg.
    rewrite bool_decide_eq_true_2 by done. unfold N, n in *.
    rewrite Hlast. obindg. rewrite Harg. obindg. rewrite Hsave. obindg.
    rewrite Hloop. obindg. rewrite Hrestore. obindg. rewrite He_0. obindg.
    rewrite Hproj. obindg. reflexivity.
  - assert (cycle_copies N hs (elems move) s =
            ([(h_last, s)] ++ reverse (take (n - 1) (zip hs (drop 1 (elems move)))))
            ++ [(N, e_0)]) as ->; [|done].
    unfold cycle_copies. rewrite last_lookup, <- Hlh, Hen.
    replace (Init.Nat.pred n) with (n - 1) by lia. rewrite Hh_last.
    destruct (elems move) as [|e es'] eqn:Ees; [done|].
    injection He_0 as ->. simpl drop. rewrite drop_0.
    rewrite take_ge; [done|]. rewrite length_zip_with. simpl in Hen. lia.
Qed.

Lemma cycle_copies_length first_new hs es s :
  length hs = length es -> 1 <= length es ->
  length (cycle_copies first_new hs es s) = length es + 1.
Proof.
  intros Hl Hn. unfold cycle_copies.
  destruct (last hs) as [h|] eqn:Eh.
  - destruct es as [|e es']; [simpl in Hn; lia|].
    simpl. rewrite length_app, length_reverse, length_zip_with. simpl in *. lia.
  - apply last_None in Eh. subst hs. simpl in Hl. lia.
Qed.

(** The copy emitted for the register [e] = r_k of the cycle is the
    [n - k]-th new node. *)
Lemma cycle_copies_lookup first_new hs es s k e :
  length hs = length es -> es !! k = Some e ->
  exists src, cycle_copies first_new hs es s !! (length es - k) = Some (src, e).
Proof.
  intros Hl Hk. pose proof (lookup_lt_Some _ _ _ Hk) as Hlt.
  unfold cycle_copies. destruct (last hs) as [h|] eqn:Eh.
  2: { apply last_None in Eh. subst hs. simpl in Hl. lia. }
  destruct es as [|e_0 es']; [done|]. simpl length in *.
  assert (length (reverse (zip hs es')) = length es') as Hlz.
  { rewrite length_reverse, length_zip_with. lia. }
  destruct k as [|k].
  - injection Hk as ->. exists first_new.
    replace (S (length es') - 0) with (S (length es')) by lia.
    rewrite lookup_cons_ne_0 by lia. simpl Nat.pred.
    rewrite lookup_app_r by lia. by rewrite Hlz, Nat.sub_diag.
  - simpl in Hk.
    destruct (lookup_lt_is_Some_2 hs k) as [h_k Hh_k]; [lia|].
    exists h_k.
    replace (S (length es') - S k) with (S (length es' - S k)) by lia.
    rewrite lookup_cons_ne_0 by lia. simpl Nat.pred.
    rewrite lookup_app_l by lia.
    rewrite reverse_lookup by (rewrite length_zip_with; lia).
    rewrite length_zip_with.
    replace (length hs `min` length es' - S (length es' - S k)) with k by lia.
    by rewrite lookup_zip_with, Hh_k, Hk.
Qed.

Lemma proj_exchanged_all n qs u : proj_exchanged n qs n u = bool_decide (u ∈ qs).
Proof.
  unfold proj_exchanged. destruct (list_index u qs) as [k|] eqn:E.
  - rewrite Nat.sub_diag. simpl. symmetry. apply bool_decide_eq_true.
    apply list_index_lookup in E. by eapply list_elem_of_lookup_2.
  - symmetry. apply bool_decide_eq_false. by apply list_index_None.
Qed.

Lemma first_unchecked_pair_Some pairs i :
  first_unchecked_pair pairs = Some i -> get_n_unchecked_pairs pairs <> 0.
Proof.
  unfold get_n_unchecked_pairs. revert i.
  induction pairs as [|p rest IH]; intros i; [done|]. simpl.
  destruct (checked p) eqn:E.
  - destruct (first_unchecked_pair rest) as [j|]; [|done]. intros _.
    rewrite filter_cons_False by (by rewrite E). by eapply IH.
  - intros _. rewrite filter_cons_True by done. done.
Qed.

(** A Perm with other than two inputs is deleted when its lowering ends. *)
Lemma lower_perm_node_deletes g fm irn arity g' :
  lower_perm_node g fm irn = Some g' ->
  get_irn_arity g irn = Some arity -> arity <> 2 ->
  has_op g' irn iro_Deleted = true.
Proof.
  unfold lower_perm_node. intros H Har Hne. rewrite Har in H. obind H.
  destruct (sched_prev g irn) as [prev|]; [|done]. obind H.
  destruct (negb (be_is_Perm g irn)) eqn:Eperm; [done|].
  destruct (negb (arity =? get_irn_n_edges g irn)); [done|].
  destruct (build_register_pair_list g irn) as [[pairs g1]|] eqn:Eb; [|done].
  obind H.
  destruct (lower_moves (length pairs) g1 fm irn arity pairs false)
    as [[g2 keep]|] eqn:El; [|done].
  obind H.
  destruct (perm_frame_lower_moves None _ _ _ _ _ _ _ _ _ El) as [Hf2 Hkeep].
  destruct keep; [destruct Hkeep as [?|?]; done|].
  injection H as <-.
  pose proof (perm_frame_build_register_pairs None _ _ _ _ _ _ Eb) as Hf1.
  apply negb_false_iff in Eperm. unfold be_is_Perm, has_op in Eperm.
  destruct (get_node g irn) as [ndp|] eqn:Hp; [|done].
  destruct Hf1 as (_ & _ & Hf1). destruct (Hf1 _ _ Hp) as (nd1 & Hp1 & _).
  destruct Hf2 as (_ & _ & Hf2). destruct (Hf2 _ _ Hp1) as (nd2 & Hp2 & _).
  unfold has_op, kill_node.
  rewrite get_node_update_node, bool_decide_eq_true_2 by done.
  rewrite (same_nodes_get_node g2 (sched_remove g2 irn))
    by apply sched_remove_nodes.
  by rewrite Hp2.
Qed.

(** C4: a cycle of n >= 3 registers r_0 .. r_(n-1) of a Perm for which
    the scratch register [s] was recorded is lowered by emitting exactly
    n+1 Copy nodes: the holder of r_(n-1) into [s]; for i = n-2 down to 0
    the holder of r_i into r_(i+1); the saved copy into r_0.  The Proj
    of every register of the cycle is rerouted to the copy assigned to
    that register.  The copies stand in the schedule in the order of
    their emission, between the predecessor of the Perm and the Perm.
    When the cycle is the whole Perm, [lower_perm_node] returns with
    the Perm taken out of the schedule, and a Perm with three or more
    inputs is a deleted node when its lowering ends. *)
Theorem cycle_lowered_with_scratch_register
    g fm irn move pairs s hs qs bl pre post :
  let N := length (irg_nodes g) in
  let n := n_elems move in
  perm_ok g irn = true ->
  get_nodes_block g irn = Some bl ->
  sched_list g bl = pre ++ irn :: post ->
  move_type move = PERM_CYCLE -> 3 <= n ->
  get_free_register fm irn = Some s ->
  mapM (get_node_for_in_register pairs) (elems move) = Some hs ->
  mapM (get_node_for_out_register pairs) (elems move) = Some qs ->
  cycle_nodes_ok g irn hs qs = true ->
  exists g',
    reduce_perm_size g fm irn move pairs = Some (g', pairs) /\
    length (irg_nodes g') = N + (n + 1) /\
    length (cycle_copies N hs (elems move) s) = n + 1 /\
    (forall j src r, cycle_copies N hs (elems move) s !! j = Some (src, r) ->
       is_copy_of g' bl (N + j) src r) /\
    (forall u nd, get_node g u = Some nd ->
       get_node g' u =
       Some (if bool_decide (u ∈ qs) then kill nd
             else set_in nd (copy_for_proj N n qs n <$> irn_in nd))) /\
    (forall k q e, qs !! k = Some q -> elems move !! k = Some e ->
       exists src, is_copy_of g' bl (copy_for_proj N n qs n q) src e) /\
    sched_list g' bl = pre ++ seq N (n + 1) ++ irn :: post /\
    (forall pairs0 i,
       build_register_pair_list g irn = Some (pairs0, g) ->
       get_irn_arity g irn = Some (get_irn_n_edges g irn) ->
       first_unchecked_pair pairs0 = Some i ->
       get_perm_move_info pairs0 i = Some (move, pairs) ->
       get_n_unchecked_pairs pairs = 0 ->
       let g_end := kill_node (sched_remove g' irn) irn in
       lower_perm_node g fm irn = Some g_end /\
       sched_list g_end bl = pre ++ seq N (n + 1) ++ post) /\
    (forall g0 g_end arity,
       lower_perm_node g0 fm irn = Some g_end ->
       get_irn_arity g0 irn = Some arity -> 3 <= arity ->
       has_op g_end irn iro_Deleted = true).
Proof.
  intros N n Hok Hblk Hl Hty Hn Hfree Hhs Hqs Hcyc.
  destruct (split_cycle_into_copies_spec g irn move pairs s hs qs bl pre post
              Hok Hblk Hl Hty ltac:(fold n; lia) Hhs Hqs Hcyc)
    as (g' & Hsplit & Hlen & Hsched & Hold & Hnew).
  fold N n in Hlen, Hsched, Hold, Hnew.
  destruct (perm_ok_schedule _ _ _ _ _ Hok Hblk Hl)
    as (ndp & Hp & Hbl' & Hop & Hbl & Hnd & Hin & Hprev).
  pose proof (proj1 (mapM_Some _ _ _) Hhs) as Hhs'.
  pose proof (proj1 (mapM_Some _ _ _) Hqs) as Hqs'.
  pose proof (Forall2_length _ _ _ Hhs') as Hlh.
  pose proof (Forall2_length _ _ _ Hqs') as Hlq.
  destruct (cycle_nodes_ok_elim _ _ _ _ Hcyc) as (Hndq & HqN & Hh & Hq).
  assert (length (elems move) = n) as Hen by done.
  assert (length (cycle_copies N hs (elems move) s) = n + 1) as Hcl.
  { rewrite cycle_copies_length; [done|done|lia]. }
  assert (reduce_perm_size g fm irn move pairs = Some (g', pairs)) as Hred.
  { unfold reduce_perm_size. rewrite Hty, Hfree. fold n.
    destruct (Nat.leb_spec n 2); [lia|]. by rewrite Hsplit. }
  assert (sched_list g' bl = pre ++ seq N (n + 1) ++ irn :: post) as Hsl.
  { unfold sched_list. rewrite Hsched, lookup_insert_eq. simpl. by rewrite Hcl. }
  assert (irn ∉ qs) as Hirn.
  { intros Hx. destruct (Hq _ Hx) as [Hproj _]. unfold is_Proj, has_op in Hproj.
    rewrite Hp, Hop in Hproj. by apply bool_decide_eq_true in Hproj. }
  exists g'. split; [done|]. split; [by rewrite Hlen, Hcl|]. split; [done|].
  split; [|split; [|split; [|split; [done|split]]]].
  - intros j src r Hj. by apply Hnew.
  - intros u nd Hu. rewrite (Hold u nd Hu). by rewrite proj_exchanged_all.
  - intros k q e Hk He.
    destruct (cycle_copies_lookup N hs (elems move) s k e) as [src Hsrc];
      [done|done|].
    exists src. unfold copy_for_proj.
    rewrite (list_index_NoDup _ _ _ Hndq Hk), Nat.sub_diag. simpl.
    pose proof (lookup_lt_Some _ _ _ Hk) as Hlt.
    replace (N + n - k) with (N + (n - k)) by lia.
    apply Hnew. by rewrite <- Hen.
  - intros pairs0 i Hbuild Har Hfirst Hinfo Hdone g_end.
    assert (n <= get_irn_n_edges g irn) as Hedges.
    { unfold get_irn_n_edges. rewrite <- Hen, Hlq.
      apply submseteq_length, NoDup_submseteq; [done|].
      intros q Hq'. by apply Hq. }
    assert (get_node g' irn = Some (set_in ndp (copy_for_proj N n qs n <$> irn_in ndp)))
      as Hp'.
    { rewrite (Hold _ _ Hp), proj_exchanged_all.
      by rewrite bool_decide_eq_false_2. }
    split.
    + unfold lower_perm_node. rewrite Har, Hprev. obindg.
      unfold be_is_Perm, has_op. rewrite Hp, Hop.
      rewrite bool_decide_eq_true_2 by done. simpl negb.
      rewrite Nat.eqb_refl. simpl negb. cbv iota.
      rewrite Hbuild. obindg.
      destruct (length pairs0) as [|fuel] eqn:Ef.
      { destruct pairs0; [done|]. done. }
      simpl lower_moves.
      destruct (Nat.eqb_spec (get_n_unchecked_pairs pairs0) 0) as [E0|_].
      { by apply first_unchecked_pair_Some in Hfirst. }
      rewrite Hfirst. obindg. rewrite Hinfo. obindg.
      destruct (Nat.eqb_spec (get_irn_n_edges g irn) 2) as [E2|_]; [lia|].
      rewrite andb_false_r. rewrite Hred. obindg.
      destruct fuel; simpl lower_moves; rewrite Hdone; simpl; done.
    + unfold g_end.
      assert (sched_list (kill_node (sched_remove g' irn) irn) bl =
              sched_list (sched_remove g' irn) bl) as -> by done.
      rewrite sched_remove_list.
      2: { unfold sched_block. rewrite Hp'. simpl. rewrite Hop.
           rewrite bool_decide_eq_false_2 by done. by rewrite Hbl'. }
      rewrite Hsl, app_assoc, list_remove_middle, <- app_assoc; [done| |].
      * apply NoDup_app in Hnd as (_ & Hd & _).
        rewrite elem_of_app, elem_of_seq. intros [Hx|Hx].
        -- apply (Hd _ Hx). left.
        -- apply lookup_lt_Some in Hp. fold N in Hp. lia.
      * apply NoDup_app in Hnd as (_ & _ & Hd). by apply NoDup_cons in Hd as [? _].
  - intros g0 g_end arity Hrun Har Hge.
    eapply lower_perm_node_deletes; [done|done|lia].
Qed.

(** Scenario "three-cycle with scratch": [t := Copy(c) -> r4],
    [Copy(b) -> r3], [Copy(a) -> r2], [Copy(t) -> r1], in that schedule
    order after [c], and the Perm is deleted. *)
Lemma cycle_lowered_with_scratch_register_witness :
  exists g',
    reduce_perm_size g_cycle3 {[4 := r4]} 4 move_cycle3
      (set_checked <$> pairs_cycle3) = Some (g', set_checked <$> pairs_cycle3) /\
    is_copy_of g' 0 9 3 r4 /\ is_copy_of g' 0 10 2 r3 /\
    is_copy_of g' 0 11 1 r2 /\ is_copy_of g' 0 12 9 r1 /\
    get_node g' 8 = Some (ins_node 0 [12; 10; 11] r4) /\
    sched_list g' 0 = [1; 2; 3; 9; 10; 11; 12; 4; 8] /\
    lower_perm_node g_cycle3 {[4 := r4]} 4 =
      Some (kill_node (sched_remove g' 4) 4) /\
    sched_list (kill_node (sched_remove g' 4) 4) 0 = [1; 2; 3; 9; 10; 11; 12; 8] /\
    has_op (kill_node (sched_remove g' 4) 4) 4 iro_Deleted = true.
Proof.
  destruct (cycle_lowered_with_scratch_register g_cycle3 {[4 := r4]} 4
              move_cycle3 (set_checked <$> pairs_cycle3) r4 [1; 2; 3] [5; 7; 6]
              0 [1; 2; 3] [8])
    as (g' & Hred & Hlen & Hcl & Hnew & Hold & Hlink & Hsl & Hrun & Hdel);
    try (vm_compute; reflexivity).
  destruct (Hrun pairs_cycle3 0) as [Hret Hend];
    try (vm_compute; reflexivity).
  exists g'. repeat split.
  - exact Hred.
  - exact (Hnew 0 3 r4 eq_refl).
  - exact (Hnew 1 2 r3 eq_refl).
  - exact (Hnew 2 1 r2 eq_refl).
  - exact (Hnew 3 9 r1 eq_refl).
  - rewrite (Hold 8 _ eq_refl). vm_compute. reflexivity.
  - exact Hsl.
  - exact Hret.
  - exact Hend.
  - exact (Hdel g_cycle3 _ 3 Hret eq_refl (le_n 3)).
Defined.

(** * Further properties of the lowering code *)

(** ** The register-pair array *)

Lemma get_pairidx_for_in_regidx_first pairs k :
  match get_pairidx_for_in_regidx pairs k with
  | Some i =>
      exists p, pairs !! i = Some p /\ index (in_reg p) = k /\
                forall j q, j < i -> pairs !! j = Some q -> index (in_reg q) <> k
  | None => forall p, p ∈ pairs -> index (in_reg p) <> k
  end.
Proof.
  induction pairs as [|q rest IH]; simpl.
  - intros p Hp. inversion Hp.
  - destruct (Nat.eqb_spec (index (in_reg q)) k) as [He|Hne].
    + exists q. repeat split; [done|]. intros j q' Hj. lia.
    + destruct (get_pairidx_for_in_regidx rest k) as [i|]; simpl.
      * destruct IH as (p & Hp & Hk & Hfirst). exists p. repeat split; [done..|].
        intros [|j] q' Hj Hq'; simpl in Hq'; [by injection Hq' as <-|].
        apply (Hfirst j q'); [lia|done].
      * intros p Hp. apply elem_of_cons in Hp as [->|Hp]; [done|by apply IH].
Qed.

Lemma get_pairidx_for_out_regidx_first pairs k :
  match get_pairidx_for_out_regidx pairs k with
  | Some i =>
      exists p, pairs !! i = Some p /\ index (out_reg p) = k /\
                forall j q, j < i -> pairs !! j = Some q -> index (out_reg q) <> k
  | None => forall p, p ∈ pairs -> index (out_reg p) <> k
  end.
Proof.
  induction pairs as [|q rest IH]; simpl.
  - intros p Hp. inversion Hp.
  - destruct (Nat.eqb_spec (index (out_reg q)) k) as [He|Hne].
    + exists q. repeat split; [done|]. intros j q' Hj. lia.
    + destruct (get_pairidx_for_out_regidx rest k) as [i|]; simpl.
      * destruct IH as (p & Hp & Hk & Hfirst). exists p. repeat split; [done..|].
        intros [|j] q' Hj Hq'; simpl in Hq'; [by injection Hq' as <-|].
        apply (Hfirst j q'); [lia|done].
      * intros p Hp. apply elem_of_cons in Hp as [->|Hp]; [done|by apply IH].
Qed.

Lemma get_node_for_in_register_pairidx pairs r :
  get_node_for_in_register pairs r =
  in_node <$> (get_pairidx_for_in_regidx pairs (index r) ≫= (pairs !!.)).
Proof.
  induction pairs as [|q rest IH]; simpl; [done|].
  destruct (index (in_reg q) =? index r); [done|].
  rewrite IH. by destruct (get_pairidx_for_in_regidx rest (index r)).
Qed.

Lemma get_node_for_out_register_pairidx pairs r :
  get_node_for_out_register pairs r =
  out_node <$> (get_pairidx_for_out_regidx pairs (index r) ≫= (pairs !!.)).
Proof.
  induction pairs as [|q rest IH]; simpl; [done|].
  destruct (index (out_reg q) =? index r); [done|].
  rewrite IH. by destruct (get_pairidx_for_out_regidx rest (index r)).
Qed.

(** X1: the four lookups in the pair array agree: the node found for a
    register is the in node (out node) of the first pair whose in
    register (out register) has the index of that register, and no node
    is found exactly when no pair has it. *)
Theorem pair_lookups_agree pairs r :
  match get_node_for_in_register pairs r with
  | Some n =>
      exists i p, get_pairidx_for_in_regidx pairs (index r) = Some i /\
                  pairs !! i = Some p /\ in_node p = n /\
                  index (in_reg p) = index r /\
                  forall j q, j < i -> pairs !! j = Some q ->
                              index (in_reg q) <> index r
  | None => get_pairidx_for_in_regidx pairs (index r) = None /\
            forall p, p ∈ pairs -> index (in_reg p) <> index r
  end /\
  match get_node_for_out_register pairs r with
  | Some n =>
      exists i p, get_pairidx_for_out_regidx pairs (index r) = Some i /\
                  pairs !! i = Some p /\ out_node p = n /\
                  index (out_reg p) = index r /\
                  forall j q, j < i -> pairs !! j = Some q ->
                              index (out_reg q) <> index r
  | None => get_pairidx_for_out_regidx pairs (index r) = None /\
            forall p, p ∈ pairs -> index (out_reg p) <> index r
  end.
Proof.
  split.
  - rewrite get_node_for_in_register_pairidx.
    pose proof (get_pairidx_for_in_regidx_first pairs (index r)) as H.
    destruct (get_pairidx_for_in_regidx pairs (index r)) as [i|]; simpl.
    + destruct H as (p & Hp & Hk & Hfirst). rewrite Hp. simpl. by exists i, p.
    + done.
  - rewrite get_node_for_out_register_pairidx.
    pose proof (get_pairidx_for_out_regidx_first pairs (index r)) as H.
    destruct (get_pairidx_for_out_regidx pairs (index r)) as [i|]; simpl.
    + destruct H as (p & Hp & Hk & Hfirst). rewrite Hp. simpl. by exists i, p.
    + done.
Qed.

(** X2: while some pair is unchecked, the scan for the first unchecked
    pair stops inside the array, at an unchecked pair behind checked
    ones only. *)
Theorem first_unchecked_pair_found pairs :
  get_n_unchecked_pairs pairs <> 0 ->
  exists i p, first_unchecked_pair pairs = Some i /\ pairs !! i = Some p /\
              checked p = false /\
              forall j q, j < i -> pairs !! j = Some q -> checked q = true.
Proof.
  unfold get_n_unchecked_pairs.
  induction pairs as [|q rest IH]; [done|]. simpl.
  destruct (checked q) eqn:E.
  - rewrite filter_cons_False by (by rewrite E). intros H.
    destruct (IH H) as (i & p & Hi & Hp & Hc & Hfirst).
    exists (S i), p. rewrite Hi. repeat split; [done..|].
    intros [|j] q' Hj Hq'; simpl in Hq'; [by injection Hq' as <-|].
    apply (Hfirst j q'); [lia|done].
  - intros _. exists 0, q. repeat split; [done|]. intros j q' Hj. lia.
Qed.

Lemma first_unchecked_pair_found_witness :
  exists i p,
    first_unchecked_pair [mk_pair r1 1 r2 5 true; mk_pair r2 2 r1 6 false]
      = Some i /\
    [mk_pair r1 1 r2 5 true; mk_pair r2 2 r1 6 false] !! i = Some p /\
    checked p = false /\
    forall j q, j < i ->
      [mk_pair r1 1 r2 5 true; mk_pair r2 2 r1 6 false] !! j = Some q ->
      checked q = true.
Proof.
  apply (first_unchecked_pair_found
           [mk_pair r1 1 r2 5 true; mk_pair r2 2 r1 6 false]).
  vm_compute. lia.
Defined.

(** ** What the decomposer does to the pair array *)

Lemma marks_more_refl pairs : marks_more pairs pairs.
Proof. apply Forall2_same_length_lookup_2; [done|]. intros i p p' H1 H2.
  rewrite H1 in H2. by injection H2 as <-. Qed.

Lemma marks_more_trans p1 p2 p3 :
  marks_more p1 p2 -> marks_more p2 p3 -> marks_more p1 p3.
Proof.
  unfold marks_more. intros H12. revert p3.
  induction H12 as [|a b l l' Hab _ IH]; intros p3 H23; inversion H23; subst.
  - constructor.
  - constructor; [|by apply IH].
    destruct Hab as (Ha1 & Ha2 & Ha3 & Ha4 & Hc).
    destruct H1 as (Hb1 & Hb2 & Hb3 & Hb4 & Hc').
    repeat split; [congruence..|auto].
Qed.

Lemma marks_more_mark pairs o : marks_more pairs (mark_pair_checked pairs o).
Proof.
  destruct o as [k|]; simpl; [|apply marks_more_refl].
  revert k. induction pairs as [|p rest IH]; intros k; [constructor|].
  destruct k as [|k]; simpl.
  - constructor; [done|apply marks_more_refl].
  - constructor; [done|apply IH].
Qed.

Lemma marks_more_in_regs pairs pairs' :
  marks_more pairs pairs' ->
  Forall2 (fun p p' => in_reg p' = in_reg p) pairs pairs'.
Proof. intros H. eapply Forall2_impl; [exact H|]. by intros p p' (-> & _). Qed.

Lemma marks_more_out_regs pairs pairs' :
  marks_more pairs pairs' ->
  Forall2 (fun p p' => out_reg p' = out_reg p) pairs pairs'.
Proof.
  intros H. eapply Forall2_impl; [exact H|]. by intros p p' (_ & _ & -> & _).
Qed.

Lemma same_pairs_in_regidx pairs pairs' k :
  Forall2 (fun p p' => in_reg p' = in_reg p) pairs pairs' ->
  get_pairidx_for_in_regidx pairs' k = get_pairidx_for_in_regidx pairs k.
Proof.
  induction 1 as [|p p' l l' Hp _ IH]; simpl; [done|]. by rewrite Hp, IH.
Qed.

Lemma same_pairs_out_regidx pairs pairs' k :
  Forall2 (fun p p' => out_reg p' = out_reg p) pairs pairs' ->
  get_pairidx_for_out_regidx pairs' k = get_pairidx_for_out_regidx pairs k.
Proof.
  induction 1 as [|p p' l l' Hp _ IH]; simpl; [done|]. by rewrite Hp, IH.
Qed.

Lemma marks_more_checked_at pairs pairs' i :
  marks_more pairs pairs' -> checked_at pairs i -> checked_at pairs' i.
Proof.
  intros Hm (p & Hp & Hc).
  destruct (Forall2_lookup_l _ _ _ _ _ Hm Hp) as (p' & Hp' & _ & _ & _ & _ & Hc').
  exists p'. auto.
Qed.

Lemma mark_pair_checked_at pairs i :
  i < length pairs -> checked_at (mark_pair_checked pairs (Some i)) i.
Proof.
  intros Hi. destruct (lookup_lt_is_Some_2 pairs i Hi) as [p Hp].
  exists (set_checked p). split; [|done]. simpl.
  by rewrite list_lookup_alter_eq, Hp.
Qed.

Lemma marks_more_unchecked pairs pairs' :
  marks_more pairs pairs' ->
  get_n_unchecked_pairs pairs' <= get_n_unchecked_pairs pairs.
Proof.
  unfold get_n_unchecked_pairs.
  induction 1 as [|p p' l l' (_ & _ & _ & _ & Hc) _ IH]; [done|].
  destruct (checked p) eqn:E.
  - rewrite (filter_cons_False _ p) by (by rewrite E).
    rewrite filter_cons_False by (by rewrite (Hc eq_refl)). done.
  - rewrite (filter_cons_True _ p) by done.
    destruct (checked p') eqn:E'.
    + rewrite filter_cons_False by (by rewrite E'). simpl. lia.
    + rewrite filter_cons_True by done. simpl. lia.
Qed.

Lemma mark_move_checked_spec es : forall pairs,
  marks_more pairs (mark_move_checked pairs es) /\
  forall e, e ∈ es ->
    (forall i, get_pairidx_for_in_regidx pairs (index e) = Some i ->
               checked_at (mark_move_checked pairs es) i) /\
    (forall i, get_pairidx_for_out_regidx pairs (index e) = Some i ->
               checked_at (mark_move_checked pairs es) i).
Proof.
  induction es as [|r rest IH]; intros pairs; simpl.
  - split; [apply marks_more_refl|]. intros e He. inversion He.
  - set (pairs1 := mark_pair_checked pairs
                     (get_pairidx_for_in_regidx pairs (index r))).
    set (pairs2 := mark_pair_checked pairs1
                     (get_pairidx_for_out_regidx pairs1 (index r))).
    assert (marks_more pairs pairs1) as H1 by apply marks_more_mark.
    assert (marks_more pairs1 pairs2) as H2 by apply marks_more_mark.
    assert (marks_more pairs pairs2) as H12 by (by eapply marks_more_trans).
    destruct (IH pairs2) as [H3 Hrest].
    split; [by eapply marks_more_trans|].
    intros e He. apply elem_of_cons in He as [->|He].
    + split; intros i Hi.
      * eapply marks_more_checked_at; [exact H3|].
        eapply marks_more_checked_at; [exact H2|].
        unfold pairs1. rewrite Hi. apply mark_pair_checked_at.
        pose proof (get_pairidx_for_in_regidx_first pairs (index r)) as Hf.
        rewrite Hi in Hf. destruct Hf as (p & Hp & _). by eapply lookup_lt_Some.
      * eapply marks_more_checked_at; [exact H3|].
        unfold pairs2.
        rewrite (same_pairs_out_regidx pairs pairs1)
          by (by apply marks_more_out_regs).
        rewrite Hi. apply mark_pair_checked_at.
        pose proof (get_pairidx_for_out_regidx_first pairs (index r)) as Hf.
        rewrite Hi in Hf. destruct Hf as (p & Hp & _).
        rewrite <- (Forall2_length _ _ _ H1). by eapply lookup_lt_Some.
    + destruct (Hrest e He) as [Hin Hout]. split; intros i Hi.
      * apply Hin.
        by rewrite (same_pairs_in_regidx pairs pairs2)
          by (by apply marks_more_in_regs).
      * apply Hout.
        by rewrite (same_pairs_out_regidx pairs pairs2)
          by (by apply marks_more_out_regs).
Qed.

(** X3: the decomposer gives back the pair array with its registers and
    nodes untouched; it only marks pairs as checked, never clears a
    mark, and it marks, for every register of the move, the first pair
    that reads it and the first pair that writes it. *)
Theorem get_perm_move_info_marks pairs start move pairs' :
  get_perm_move_info pairs start = Some (move, pairs') ->
  marks_more pairs pairs' /\
  get_n_unchecked_pairs pairs' <= get_n_unchecked_pairs pairs /\
  forall e, e ∈ elems move ->
    (forall i, get_pairidx_for_in_regidx pairs (index e) = Some i ->
               checked_at pairs' i) /\
    (forall i, get_pairidx_for_out_regidx pairs (index e) = Some i ->
               checked_at pairs' i).
Proof.
  unfold get_perm_move_info. intros H.
  destruct (pairs !! start) as [p0|] eqn:E0; simpl in H; [|done].
  destruct (find_move_start _ _ _ _ _) as [[[h s] ty0]|] eqn:Ef; simpl in H; [|done].
  destruct (pairs !! s) as [ps|] eqn:Es; simpl in H; [|done].
  match type of H with (if ?c then _ else _) = _ => destruct c end; [|done].
  destruct (collect_move_elems _ _ _ _ _ _ _) as [[es ty]|] eqn:Ec; simpl in H; [|done].
  injection H as <- <-. simpl.
  destruct (mark_move_checked_spec es pairs) as [Hm Hmarks].
  split; [done|]. split; [by apply marks_more_unchecked|done].
Qed.

Lemma get_perm_move_info_marks_witness :
  marks_more pairs_cycle3 (set_checked <$> pairs_cycle3) /\
  get_n_unchecked_pairs (set_checked <$> pairs_cycle3)
    <= get_n_unchecked_pairs pairs_cycle3 /\
  forall e, e ∈ elems move_cycle3 ->
    (forall i, get_pairidx_for_in_regidx pairs_cycle3 (index e) = Some i ->
               checked_at (set_checked <$> pairs_cycle3) i) /\
    (forall i, get_pairidx_for_out_regidx pairs_cycle3 (index e) = Some i ->
               checked_at (set_checked <$> pairs_cycle3) i).
Proof.
  apply (get_perm_move_info_marks pairs_cycle3 0 move_cycle3). reflexivity.
Defined.

Lemma is_path_snoc pairs es l e' :
  is_path pairs es -> last es = Some l -> moves_to pairs l e' ->
  is_path pairs (es ++ [e']).
Proof.
  intros Hpath Hlast Hmove k e e'' Hk HSk.
  rewrite last_lookup in Hlast.
  destruct (decide (S k < length es)) as [Hlt|Hge].
  - rewrite lookup_app_l in Hk by lia. rewrite lookup_app_l in HSk by lia.
    by eapply Hpath.
  - pose proof (lookup_lt_Some _ _ _ HSk) as Hlen.
    rewrite length_app in Hlen. simpl in Hlen.
    assert (S k = length es) as Hk' by lia.
    rewrite lookup_app_l in Hk by lia.
    rewrite lookup_app_r in HSk by lia.
    replace (S k - length es) with 0 in HSk by lia. injection HSk as <-.
    replace (Init.Nat.pred (length es)) with k in Hlast by lia.
    rewrite Hk in Hlast. by injection Hlast as ->.
Qed.

Lemma collect_move_elems_path fuel pairs cap head : forall cur_idx es ty es' ty',
  collect_move_elems fuel pairs cap head cur_idx es ty = Some (es', ty') ->
  is_path pairs es ->
  cur_idx = head \/ (exists l, last es = Some l /\ index l = cur_idx) ->
  is_path pairs es'.
Proof.
  induction fuel as [|fuel IH]; intros cur_idx es ty es' ty'; simpl.
  - destruct (cur_idx =? head); [|done]. by intros [= <- <-].
  - destruct (Nat.eqb_spec cur_idx head) as [He|Hne]; [by intros [= <- <-]|].
    pose proof (get_pairidx_for_in_regidx_first pairs cur_idx) as Hf.
    destruct (get_pairidx_for_in_regidx pairs cur_idx) as [k|];
      [|by intros [= <- <-]].
    destruct Hf as (p & Hp & Hin & _). rewrite Hp. simpl.
    destruct (Nat.eqb_spec (index (out_reg p)) head) as [Hh|Hnh].
    + intros H Hpath _. eapply IH; [exact H|done|by left].
    + destruct (length es <? cap); [|done].
      intros H Hpath [?|(l & Hl & Hidx)]; [done|].
      eapply IH; [exact H| |right].
      * eapply is_path_snoc; [done..|]. exists p.
        split; [by eapply list_elem_of_lookup_2|]. split; [congruence|done].
      * exists (out_reg p). by rewrite last_snoc.
Qed.

(** X4: a move has at least two registers, its first two registers are
    the in and the out register of one pair, and every register of the
    move is moved into the next one by some pair of the array. *)
Theorem move_is_path pairs start move pairs' :
  get_perm_move_info pairs start = Some (move, pairs') ->
  2 <= n_elems move /\
  (exists p, p ∈ pairs /\ elems move !! 0 = Some (in_reg p) /\
             elems move !! 1 = Some (out_reg p)) /\
  is_path pairs (elems move).
Proof.
  unfold get_perm_move_info. intros H.
  destruct (pairs !! start) as [p0|] eqn:E0; simpl in H; [|done].
  destruct (find_move_start _ _ _ _ _) as [[[h s] ty0]|] eqn:Ef; simpl in H; [|done].
  destruct (pairs !! s) as [ps|] eqn:Es; simpl in H; [|done].
  match type of H with (if ?c then _ else _) = _ => destruct c end; [|done].
  destruct (collect_move_elems _ _ _ _ _ _ _) as [[es ty]|] eqn:Ec; simpl in H; [|done].
  injection H as <- <-. simpl.
  pose proof Ec as Hinv. apply collect_move_elems_inv in Hinv as [[more ->] _].
  assert (ps ∈ pairs) as Hps by (by eapply list_elem_of_lookup_2).
  split; [unfold n_elems; simpl; lia|]. split; [by exists ps|].
  eapply collect_move_elems_path; [exact Ec| |].
  - intros [|k] e e' Hk HSk; [|done]. injection Hk as <-. injection HSk as <-.
    by exists ps.
  - right. by exists (out_reg ps).
Qed.

Lemma move_is_path_witness :
  2 <= n_elems move_cycle3 /\
  (exists p, p ∈ pairs_cycle3 /\ elems move_cycle3 !! 0 = Some (in_reg p) /\
             elems move_cycle3 !! 1 = Some (out_reg p)) /\
  is_path pairs_cycle3 (elems move_cycle3).
Proof.
  apply (move_is_path pairs_cycle3 0 move_cycle3 (set_checked <$> pairs_cycle3)).
  reflexivity.
Defined.

(** ** The pair list of a Perm *)

Lemma build_register_pairs_new irn edges : forall g acc pairs g',
  build_register_pairs g irn edges acc = Some (pairs, g') ->
  exists new,
    pairs = acc ++ new /\
    sublist (out_node <$> new) edges /\
    Forall (fun p => checked p = false /\ in_reg p <> out_reg p) new /\
    length (irg_nodes g') = length (irg_nodes g) /\
    irg_sched g' = irg_sched g /\
    (length new = length edges -> g' = g).
Proof.
  induction edges as [|out rest IH]; intros g acc pairs g' H; simpl in H.
  - injection H as <- <-. exists []. rewrite app_nil_r.
    repeat split; [constructor|constructor].
  - destruct (get_Proj_proj g out) as [pn|]; [|done]. obind H.
    destruct (get_irn_n g irn pn) as [in_|]; [|done]. obind H.
    destruct (decide (arch_get_irn_register g in_ = arch_get_irn_register g out))
      as [He|Hne].
    + rewrite bool_decide_eq_true_2 in H by done.
      destruct (IH _ _ _ _ H) as (new & -> & Hsub & Hall & Hlen & Hsched & Hsame).
      exists new. repeat split; [by apply sublist_cons|done|..].
      * by rewrite Hlen, exchange_length.
      * by rewrite Hsched, sched_exchange.
      * intros Hl. apply sublist_length in Hsub.
        rewrite length_fmap in Hsub. simpl in Hl. lia.
    + rewrite bool_decide_eq_false_2 in H by done.
      destruct (arch_get_irn_register g in_) as [ri|] eqn:Eri; [|done]. obind H.
      destruct (arch_get_irn_register g out) as [ro|] eqn:Ero; [|done]. obind H.
      destruct (IH _ _ _ _ H) as (new & -> & Hsub & Hall & Hlen & Hsched & Hsame).
      exists (mk_pair ri in_ ro out false :: new).
      rewrite <- app_assoc. repeat split; [by apply sublist_skip| |done..|].
      * constructor; [|done]. split; [done|]. simpl. congruence.
      * intros Hl. apply Hsame. simpl in Hl. lia.
Qed.

Lemma omap_ext_elem {A B} (f h : A -> option B) (l : list A) :
  (forall x, x ∈ l -> f x = h x) -> omap f l = omap h l.
Proof.
  induction l as [|x l IH]; intros H; [done|]. simpl.
  rewrite (H x) by left. fold (omap f l) (omap h l).
  rewrite IH; [done|]. intros y Hy. apply H. by right.
Qed.

(** The pair loop on the Projs of a well-formed Perm that is no input of
    itself: the pairs made are those of [register_pair_of], in the order
    of the edges, and the Projs without a pair are the ones exchanged. *)
Lemma build_register_pairs_exact irn es : forall g ndp acc pairs g',
  NoDup es ->
  get_node g irn = Some ndp -> (irn ∉ es) ->
  (forall out, out ∈ es ->
     exists ndo a, get_node g out = Some ndo /\ irn_op ndo = iro_Proj /\
       irn_in ndp !! irn_proj ndo = Some a /\ (a ∉ es)) ->
  build_register_pairs g irn es acc = Some (pairs, g') ->
  pairs = acc ++ omap (register_pair_of g irn) es /\
  (forall x op, x ∉ es -> has_op g' x op = has_op g x op) /\
  (forall out, out ∈ es ->
     has_op g' out iro_Deleted = true <->
     arch_get_irn_register g out =
     selected_input g irn out ≫= arch_get_irn_register g).
Proof.
  induction es as [|q rest IH]; intros g ndp acc pairs g' Hnd Hp Hirn Hes H.
  - simpl in H. injection H as <- <-. simpl. rewrite app_nil_r.
    split; [done|]. split; [done|]. intros out Ho. inversion Ho.
  - apply NoDup_cons in Hnd as [Hq Hnd].
    destruct (Hes q ltac:(left)) as (ndq & a & Hgq & Hqop & Ha & Hanin).
    assert (irn <> q) as Hiq by (intros ->; apply Hirn; left).
    assert (a <> q) as Haq by (intros ->; apply Hanin; left).
    assert (selected_input g irn q = Some a) as Hselq.
    { unfold selected_input, get_Proj_proj, get_irn_n. rewrite Hgq, Hp. simpl.
      rewrite bool_decide_eq_true_2 by done. simpl. by rewrite Ha. }
    assert (has_op g q iro_Deleted = false) as Hqnd.
    { unfold has_op. rewrite Hgq, Hqop. done. }
    cbn [build_register_pairs] in H. unfold get_Proj_proj, get_irn_n in H.
    rewrite Hgq, Hp in H. simpl in H.
    rewrite bool_decide_eq_true_2 in H by done. simpl in H.
    rewrite Ha in H. simpl in H.
    destruct (decide (arch_get_irn_register g a = arch_get_irn_register g q))
      as [He|Hne].
    + rewrite bool_decide_eq_true_2 in H by done.
      set (g1 := exchange g q a) in *.
      assert (register_pair_of g irn q = None) as Hnone.
      { unfold register_pair_of. rewrite Hselq. simpl. rewrite He.
        destruct (arch_get_irn_register g q) as [r|]; [|done]. simpl.
        by rewrite bool_decide_eq_true_2. }
      assert (get_node g1 irn = Some (reroute q a ndp)) as Hp1.
      { unfold g1. by rewrite get_node_exchange, bool_decide_eq_false_2, Hp. }
      assert (forall x, x <> q -> get_node g1 x = reroute q a <$> get_node g x) as Hg1.
      { intros x Hx. unfold g1. by rewrite get_node_exchange, bool_decide_eq_false_2. }
      assert (forall x, x <> q ->
                arch_get_irn_register g1 x = arch_get_irn_register g x) as Hreg1.
      { intros x Hx. unfold arch_get_irn_register. rewrite Hg1 by done.
        by destruct (get_node g x). }
      assert (forall x op, x <> q -> has_op g1 x op = has_op g x op) as Hop1.
      { intros x op Hx. unfold has_op. rewrite Hg1 by done.
        by destruct (get_node g x). }
      assert (has_op g1 q iro_Deleted = true) as Hqd.
      { unfold has_op, g1. rewrite get_node_exchange, bool_decide_eq_true_2 by done.
        rewrite Hgq. simpl. done. }
      assert (forall out, out ∈ rest ->
                selected_input g1 irn out = selected_input g irn out /\
                arch_get_irn_register g1 out = arch_get_irn_register g out /\
                selected_input g1 irn out ≫= arch_get_irn_register g1 =
                selected_input g irn out ≫= arch_get_irn_register g) as Hsame.
      { intros out Hout.
        destruct (Hes out ltac:(by right)) as (ndo & a' & Hgo & Hoop & Ha' & Hnin).
        assert (out <> q) as Hoq by (intros ->; done).
        assert (a' <> q) as Ha'q by (intros ->; apply Hnin; left).
        unfold selected_input, get_Proj_proj, get_irn_n.
        rewrite (Hg1 out Hoq), Hgo, Hp1, Hp. simpl.
        rewrite bool_decide_eq_true_2 by done. simpl.
        rewrite list_lookup_fmap, Ha'. simpl.
        rewrite bool_decide_eq_false_2 by done.
        by rewrite !Hreg1. }
      destruct (IH g1 (reroute q a ndp) acc pairs g' Hnd Hp1) as (Hpairs & Hkeep & Hdel).
      { intros Hx. apply Hirn. by right. }
      { intros out Hout.
        destruct (Hes out ltac:(by right)) as (ndo & a' & Hgo & Hoop & Ha' & Hnin).
        assert (out <> q) as Hoq by (intros ->; done).
        assert (a' <> q) as Ha'q by (intros ->; apply Hnin; left).
        exists (reroute q a ndo), a'. rewrite (Hg1 out Hoq), Hgo. simpl.
        repeat split; try done.
        - rewrite list_lookup_fmap, Ha'. simpl. by rewrite bool_decide_eq_false_2.
        - intros Hx. apply Hnin. by right. }
      { done. }
      split; [|split].
      * simpl. rewrite Hnone. rewrite Hpairs. f_equal. apply omap_ext_elem.
        intros out Hout. destruct (Hsame out Hout) as (Hs1 & Hs2 & _).
        unfold register_pair_of. rewrite Hs1, Hs2.
        destruct (selected_input g irn out) as [a'|] eqn:Ea'; [|done]. simpl.
        destruct (Hes out ltac:(by right)) as (ndo & a'' & Hgo & Hoop & Ha'' & Hnin).
        assert (a' = a'') as ->.
        { unfold selected_input, get_Proj_proj, get_irn_n in Ea'.
          rewrite Hgo, Hp in Ea'. simpl in Ea'.
          rewrite bool_decide_eq_true_2 in Ea' by done. simpl in Ea'. congruence. }
        rewrite Hreg1; [done|]. intros ->. apply Hnin. left.
      * intros x op Hx.
        assert (x <> q) as Hxq by (intros ->; apply Hx; left).
        rewrite Hkeep by (intros Hx'; apply Hx; by right). by apply Hop1.
      * intros out Hout. apply elem_of_cons in Hout as [->|Hout].
        -- rewrite Hkeep by done. rewrite Hqd, Hselq. simpl. by rewrite He.
        -- destruct (Hsame out Hout) as (_ & Hs2 & Hs3).
           rewrite <- Hs2, <- Hs3. by apply Hdel.
    + rewrite bool_decide_eq_false_2 in H by done.
      destruct (arch_get_irn_register g a) as [ri|] eqn:Eri; [|done].
      destruct (arch_get_irn_register g q) as [ro|] eqn:Ero; [|done].
      simpl in H.
      assert (register_pair_of g irn q = Some (mk_pair ri a ro q false)) as Hsome.
      { unfold register_pair_of. rewrite Hselq. simpl. rewrite Eri, Ero. simpl.
        rewrite bool_decide_eq_false_2; [done|]. congruence. }
      destruct (IH g ndp (acc ++ [mk_pair ri a ro q false]) pairs g' Hnd Hp)
        as (Hpairs & Hkeep & Hdel).
      { intros Hx. apply Hirn. by right. }
      { intros out Hout.
        destruct (Hes out ltac:(by right)) as (ndo & a' & Hgo & Hoop & Ha' & Hnin).
        exists ndo, a'. repeat split; try done.
        intros Hx. apply Hnin. by right. }
      { done. }
      split; [|split].
      * simpl. rewrite Hsome. rewrite Hpairs. by rewrite <- app_assoc.
      * intros x op Hx. apply Hkeep. intros Hx'. apply Hx. by right.
      * intros out Hout. apply elem_of_cons in Hout as [->|Hout].
        -- rewrite Hkeep by done. rewrite Hqnd, Hselq. simpl. rewrite Eri, Ero.
           split; [done|]. intros [= <-]. done.
        -- by apply Hdel.
Qed.

(** X5: the pair list of a Perm holds only Projs of the Perm, in the
    order of the out edges, every pair unchecked and with different in
    and out registers; building the list adds no node and leaves the
    schedule alone, and when no Proj was left out the graph is the one it
    was.  On a well-formed Perm that is no input of itself the list is
    exactly this: one pair for every Proj whose register differs from
    the register of the input it selects, holding that input as in node,
    the Proj as out node and their two registers, and no other pair;
    the Projs without a pair are the ones that are exchanged with their
    input (and so deleted), and no other node changes its opcode. *)
Theorem build_register_pair_list_pairs g irn pairs g' :
  build_register_pair_list g irn = Some (pairs, g') ->
  sublist (out_node <$> pairs) (get_irn_out_edges g irn) /\
  length pairs <= get_irn_n_edges g irn /\
  Forall (fun p => checked p = false /\ in_reg p <> out_reg p) pairs /\
  length (irg_nodes g') = length (irg_nodes g) /\
  irg_sched g' = irg_sched g /\
  (length pairs = get_irn_n_edges g irn -> g' = g) /\
  (perm_ok g irn = true -> perm_is_acyclic g irn = true ->
     pairs = omap (register_pair_of g irn) (get_irn_out_edges g irn) /\
     (forall out in_ ri ro,
        out ∈ get_irn_out_edges g irn ->
        selected_input g irn out = Some in_ ->
        arch_get_irn_register g in_ = Some ri ->
        arch_get_irn_register g out = Some ro ->
        ri <> ro ->
        mk_pair ri in_ ro out false ∈ pairs) /\
     (forall p, p ∈ pairs ->
        out_node p ∈ get_irn_out_edges g irn /\
        selected_input g irn (out_node p) = Some (in_node p) /\
        arch_get_irn_register g (in_node p) = Some (in_reg p) /\
        arch_get_irn_register g (out_node p) = Some (out_reg p)) /\
     (forall out, out ∈ get_irn_out_edges g irn ->
        has_op g' out iro_Deleted = true <->
        arch_get_irn_register g out =
        selected_input g irn out ≫= arch_get_irn_register g) /\
     (forall x op, x ∉ get_irn_out_edges g irn ->
        has_op g' x op = has_op g x op)).
Proof.
  unfold build_register_pair_list, get_irn_n_edges. intros H.
  destruct (build_register_pairs_new _ _ _ _ _ _ H)
    as (new & Hnew & Hsub & Hall & Hlen & Hsched & Hsame).
  simpl in Hnew. subst new.
  split; [done|]. split.
  { apply sublist_length in Hsub. by rewrite length_fmap in Hsub. }
  do 4 (split; [done|]).
  intros Hok Hac.
  destruct (perm_ok_entry g (mk_lv (fun _ => []) (fun _ _ => false)) irn Hok)
    as (ndp & pre & post & one_proj & ndq & frontier & Hp & Hop & Hbl & Hsb & Hl &
        Hnd & Hin & Hprojs & Hnums & Hhead & Hq & Hqop & Hfront & Hprev).
  set (es := get_irn_out_edges g irn) in *.
  assert (irn ∉ es) as Hirn.
  { intros Hx. destruct (is_perm_proj_elim _ _ _ (Hprojs _ Hx)) as (? & ? & ? & _).
    congruence. }
  unfold perm_is_acyclic in Hac. rewrite Hp in Hac. fold es in Hac.
  rewrite forallb_forall in Hac.
  assert (forall out, out ∈ es ->
            exists ndo a, get_node g out = Some ndo /\ irn_op ndo = iro_Proj /\
              irn_in ndp !! irn_proj ndo = Some a /\ (a ∉ es)) as Hes.
  { intros out Hout.
    destruct (is_perm_proj_elim _ _ _ (Hprojs _ Hout)) as (ndo & Hgo & Hoop & Hlt).
    destruct (lookup_lt_is_Some_2 (irn_in ndp) (irn_proj ndo) Hlt) as [a Ha].
    exists ndo, a. repeat split; try done.
    intros Haes. specialize (Hac a (proj1 (list_elem_of_In _ _) Haes)).
    apply bool_decide_eq_true in Hac. apply Hac.
    by eapply list_elem_of_lookup_2. }
  destruct (build_register_pairs_exact irn es g ndp [] pairs g') as (Hpairs & Hkeep & Hdel);
    [by eapply NoDup_fmap_1|done..|].
  simpl in Hpairs.
  assert (forall out, out ∈ es ->
            exists a, selected_input g irn out = Some a) as Hsel.
  { intros out Hout. destruct (Hes out Hout) as (ndo & a & Hgo & Hoop & Ha & _).
    exists a. unfold selected_input, get_Proj_proj, get_irn_n. rewrite Hgo, Hp. simpl.
    rewrite bool_decide_eq_true_2 by done. simpl. by rewrite Ha. }
  split; [done|]. split; [|split; [|split; [|done]]].
  - intros out in_ ri ro Hout Hs Hri Hro Hne. rewrite Hpairs.
    apply list_elem_of_omap. exists out. split; [done|].
    unfold register_pair_of. rewrite Hs. simpl. rewrite Hri, Hro. simpl.
    by rewrite bool_decide_eq_false_2.
  - intros p Hpp. rewrite Hpairs in Hpp.
    apply list_elem_of_omap in Hpp as (out & Hout & Hpo).
    unfold register_pair_of in Hpo.
    destruct (selected_input g irn out) as [a|] eqn:Ea; [|done]. simpl in Hpo.
    destruct (arch_get_irn_register g a) as [ri|] eqn:Eri; [|done]. simpl in Hpo.
    destruct (arch_get_irn_register g out) as [ro|] eqn:Ero; [|done]. simpl in Hpo.
    destruct (bool_decide (ri = ro)); [done|].
    injection Hpo as <-. simpl. by rewrite Ea, Eri, Ero.
  - done.
Qed.

Lemma build_register_pair_list_pairs_witness :
  build_register_pair_list g_mixed 4 = Some (pairs_mixed, exchange g_mixed 7 3) /\
  get_irn_out_edges g_mixed 4 = [5; 6; 7] /\
  pairs_mixed = omap (register_pair_of g_mixed 4) [5; 6; 7] /\
  sublist (out_node <$> pairs_mixed) [5; 6; 7] /\
  Forall (fun p => checked p = false /\ in_reg p <> out_reg p) pairs_mixed /\
  mk_pair r1 1 r2 5 false ∈ pairs_mixed /\
  (has_op (exchange g_mixed 7 3) 7 iro_Deleted = true <->
   arch_get_irn_register g_mixed 7 =
   selected_input g_mixed 4 7 ≫= arch_get_irn_register g_mixed) /\
  has_op (exchange g_mixed 7 3) 4 beo_Perm = has_op g_mixed 4 beo_Perm.
Proof.
  assert (build_register_pair_list g_mixed 4 =
          Some (pairs_mixed, exchange g_mixed 7 3)) as Hb
    by (vm_compute; reflexivity).
  assert (get_irn_out_edges g_mixed 4 = [5; 6; 7]) as He
    by (vm_compute; reflexivity).
  destruct (build_register_pair_list_pairs g_mixed 4 pairs_mixed
              (exchange g_mixed 7 3) Hb)
    as (Hsub & _ & Hall & _ & _ & _ & Hexact).
  destruct Hexact as (Hpairs & Hmade & _ & Hdel & Hkeep);
    [vm_compute; reflexivity..|].
  rewrite He in Hsub, Hpairs, Hmade, Hdel, Hkeep.
  split; [exact Hb|]. split; [exact He|]. split; [exact Hpairs|].
  split; [exact Hsub|]. split; [exact Hall|]. split; [|split].
  - apply (Hmade 5 1 r1 r2); try (vm_compute; reflexivity).
    + apply (bool_decide_unpack _). vm_compute. exact I.
    + discriminate.
  - apply Hdel. apply (bool_decide_unpack _). vm_compute. exact I.
  - apply Hkeep. apply (bool_decide_unpack _). vm_compute. exact I.
Defined.

(** ** A Perm that is an exchange already *)

Lemma swap_pairs_move p0 p1 :
  checked p0 = false -> checked p1 = false ->
  index (in_reg p0) = index (out_reg p1) ->
  index (in_reg p1) = index (out_reg p0) ->
  index (in_reg p0) <> index (in_reg p1) ->
  get_perm_move_info [p0; p1] 0 =
  Some (mk_move [in_reg p1; out_reg p1] PERM_CYCLE,
        [set_checked p0; set_checked p1]).
Proof.
  destruct p0 as [[ci0 a gi0 vi0] n0 [co0 b' go0 vo0] m0 c0].
  destruct p1 as [[ci1 b gi1 vi1] n1 [co1 a' go1 vo1] m1 c1]. simpl.
  intros -> -> <- <- Hne.
  assert ((a =? b) = false) as E1 by (by apply Nat.eqb_neq).
  assert ((b =? a) = false) as E2 by (apply Nat.eqb_neq; congruence).
  unfold get_perm_move_info. simpl.
  repeat (rewrite ?E1, ?E2, ?Nat.eqb_refl; simpl).
  reflexivity.
Qed.

(** X6: a Perm with two inputs whose two pairs exchange two registers
    is an exchange node already: [lower_perm_node] returns and leaves
    the graph, the Perm and the schedule exactly as they were. *)
Theorem binary_swap_perm_kept g fm irn sp p0 p1 g1 :
  be_is_Perm g irn = true ->
  sched_prev g irn = Some sp ->
  get_irn_arity g irn = Some 2 -> get_irn_n_edges g irn = 2 ->
  build_register_pair_list g irn = Some ([p0; p1], g1) ->
  index (in_reg p0) = index (out_reg p1) ->
  index (in_reg p1) = index (out_reg p0) ->
  index (in_reg p0) <> index (in_reg p1) ->
  lower_perm_node g fm irn = Some g.
Proof.
  intros Hperm Hprev Har Hedges Hbuild Ha Hb Hne.
  pose proof Hbuild as Hnew. unfold build_register_pair_list in Hnew.
  apply build_register_pairs_new in Hnew
    as (new & Heq & _ & Hall & _ & _ & Hsame).
  simpl in Heq. subst new.
  assert (g1 = g) as ->.
  { apply Hsame. unfold get_irn_n_edges in Hedges. by rewrite Hedges. }
  apply Forall_cons in Hall as [[Hc0 _] Hall].
  apply Forall_cons in Hall as [[Hc1 _] _].
  unfold lower_perm_node. rewrite Har, Hprev. obindg.
  rewrite Hperm, Hedges. simpl negb. cbv iota. rewrite Hbuild. obindg.
  simpl lower_moves. unfold get_n_unchecked_pairs at 1.
  rewrite filter_cons_True by done. simpl length at 1.
  simpl Nat.eqb at 1. cbv iota.
  rewrite Hc0. obindg.
  rewrite (swap_pairs_move p0 p1) by done. obindg.
  rewrite bool_decide_eq_true_2 by done. simpl. done.
Qed.

Lemma binary_swap_perm_kept_witness :
  lower_perm_node g_swap ∅ 3 = Some g_swap.
Proof.
  apply (binary_swap_perm_kept g_swap ∅ 3 2
           (mk_pair r1 1 r2 4 false) (mk_pair r2 2 r1 5 false) g_swap);
    try (vm_compute; reflexivity).
  vm_compute. lia.
Defined.

(** ** Graphs without Perm nodes *)

Lemma walk_free_registers_no_perm g lv classes alloc visit : forall fm,
  (forall n, n ∈ visit -> be_is_Perm g n = false) ->
  walk_free_registers g lv classes alloc visit fm = Some fm.
Proof.
  induction visit as [|n rest IH]; intros fm Hno; simpl; [done|].
  unfold find_free_registers_walker. rewrite (Hno n) by left. simpl.
  apply IH. intros m Hm. apply Hno. by right.
Qed.

Lemma walk_lower_nodes_no_perm g lv fm visit :
  (forall n, n ∈ visit -> be_is_Perm g n = false) ->
  walk_lower_nodes g lv fm visit = Some g.
Proof.
  induction visit as [|n rest IH]; intros Hno; simpl; [done|].
  unfold lower_nodes_after_ra_walker. rewrite (Hno n) by left. simpl.
  apply IH. intros m Hm. apply Hno. by right.
Qed.

(** X7: when none of the nodes the two walks visit is a Perm,
    [lower_nodes_after_ra] returns the graph it was given: it creates,
    changes, kills and reschedules nothing. *)
Theorem lower_nodes_after_ra_no_perm g lv classes alloc visit1 visit2 :
  forallb (fun n => negb (be_is_Perm g n)) (visit1 ++ visit2) = true ->
  lower_nodes_after_ra g lv classes alloc visit1 visit2 = Some g.
Proof.
  rewrite forallb_forall. intros Hno.
  assert (forall n, n ∈ visit1 ++ visit2 -> be_is_Perm g n = false) as Hno'.
  { intros n Hn. apply negb_true_iff, Hno. by apply list_elem_of_In. }
  unfold lower_nodes_after_ra.
  rewrite walk_free_registers_no_perm.
  - simpl. apply walk_lower_nodes_no_perm.
    intros n Hn. apply Hno', elem_of_app. by right.
  - intros n Hn. apply Hno', elem_of_app. by left.
Qed.

Lemma lower_nodes_after_ra_no_perm_witness :
  lower_nodes_after_ra g_differ lv_none [cls2] 3 (seq 0 3) (seq 0 3)
    = Some g_differ.
Proof.
  apply (lower_nodes_after_ra_no_perm g_differ lv_none [cls2] 3 (seq 0 3) (seq 0 3)).
  reflexivity.
Defined.

(** ** The slot maps of a shrunk Perm *)

Lemma build_proj_map_gen moved todo : forall i n map_ proj_map,
  build_proj_map moved i todo n = (map_, proj_map) ->
  length proj_map = todo /\
  map_ = filter (fun j => Z.testbit moved (Z.of_nat j) = false) (seq i todo) /\
  forall k, k < todo ->
    if Z.testbit moved (Z.of_nat (i + k))
    then proj_map !! k =
         Some (if i + k =? 0 then pm_minus_one else pm_unwritten)
    else exists m, proj_map !! k = Some (pm_number (n + m)) /\
                   map_ !! m = Some (i + k).
Proof.
  induction todo as [|todo IH]; intros i n map_ proj_map; cbn [build_proj_map].
  - intros [= <- <-]. split; [done|]. split; [done|]. intros k Hk. lia.
  - destruct (Z.testbit moved (Z.of_nat i)) eqn:Ei.
    + destruct (build_proj_map moved (S i) todo n) as [m' pm'] eqn:E.
      intros [= <- <-]. destruct (IH _ _ _ _ E) as (Hlen & Hmap & Hpm).
      split; [simpl; lia|]. split.
      * simpl seq. rewrite filter_cons_False by (by rewrite Ei). done.
      * intros [|k] Hk.
        -- by rewrite Nat.add_0_r, Ei.
        -- replace (i + S k) with (S i + k) by lia. simpl. apply Hpm. lia.
    + destruct (build_proj_map moved (S i) todo (S n)) as [m' pm'] eqn:E.
      intros [= <- <-]. destruct (IH _ _ _ _ E) as (Hlen & Hmap & Hpm).
      split; [simpl; lia|]. split.
      * simpl seq. rewrite filter_cons_True by done. by rewrite Hmap.
      * intros [|k] Hk.
        -- rewrite Nat.add_0_r, Ei. exists 0. by rewrite Nat.add_0_r.
        -- replace (i + S k) with (S i + k) by lia.
           specialize (Hpm k ltac:(lia)).
           destruct (Z.testbit moved (Z.of_nat (S i + k))); [done|].
           destruct Hpm as (m & Hm & Hm'). exists (S m). simpl.
           split; [|done]. rewrite Hm. do 2 f_equal. lia.
Qed.

(** X8: the two slot maps built for a shrunk Perm are inverse to each
    other: [map] lists the slots that were not moved, in rising order,
    and [proj_map] gives every such slot its position in [map].  A moved
    slot gets no number: the loop does not write its entry, so the first
    entry holds the -1 of the [memset] and any other entry is left as
    the memory was. *)
Theorem build_proj_map_inverse moved arity map_ proj_map :
  build_proj_map moved 0 arity 0 = (map_, proj_map) ->
  length proj_map = arity /\
  map_ = filter (fun j => Z.testbit moved (Z.of_nat j) = false) (seq 0 arity) /\
  (forall i, i < arity -> Z.testbit moved (Z.of_nat i) = true ->
     proj_map !! i = Some (if i =? 0 then pm_minus_one else pm_unwritten)) /\
  (forall i, i < arity -> Z.testbit moved (Z.of_nat i) = false ->
     exists n, proj_map !! i = Some (pm_number n) /\ map_ !! n = Some i) /\
  (forall n i, map_ !! n = Some i -> proj_map !! i = Some (pm_number n)).
Proof.
  intros H. destruct (build_proj_map_gen _ _ _ _ _ _ H) as (Hlen & Hmap & Hpm).
  assert (forall i, i < arity -> Z.testbit moved (Z.of_nat i) = false ->
            exists n, proj_map !! i = Some (pm_number n) /\ map_ !! n = Some i)
    as Hfwd.
  { intros i Hi Hb. specialize (Hpm i Hi). simpl in Hpm. by rewrite Hb in Hpm. }
  split; [done|]. split; [done|]. split; [|split; [done|]].
  - intros i Hi Hb. specialize (Hpm i Hi). simpl in Hpm. by rewrite Hb in Hpm.
  - intros n i Hn.
    assert (i ∈ map_) as Hin by (by eapply list_elem_of_lookup_2).
    rewrite Hmap in Hin. apply list_elem_of_filter in Hin as [Hb Hin].
    apply elem_of_seq in Hin.
    destruct (Hfwd i ltac:(lia) Hb) as (n' & Hpn & Hn').
    rewrite Hpn. do 2 f_equal.
    assert (NoDup map_) as Hnd.
    { rewrite Hmap. apply NoDup_filter, NoDup_seq. }
    by eapply NoDup_lookup.
Qed.

(** Three slots of which the first two were moved: the first entry holds
    the -1, the second was never written, the third slot is slot 0 of
    the shrunk Perm. *)
Lemma build_proj_map_inverse_witness :
  length [pm_minus_one; pm_unwritten; pm_number 0] = 3 /\
  [2] = filter (fun j => Z.testbit 3 (Z.of_nat j) = false) (seq 0 3) /\
  (forall i, i < 3 -> Z.testbit 3 (Z.of_nat i) = true ->
     [pm_minus_one; pm_unwritten; pm_number 0] !! i =
     Some (if i =? 0 then pm_minus_one else pm_unwritten)) /\
  (forall i, i < 3 -> Z.testbit 3 (Z.of_nat i) = false ->
     exists n, [pm_minus_one; pm_unwritten; pm_number 0] !! i
                 = Some (pm_number n) /\
               [2] !! n = Some i) /\
  (forall n i, [2] !! n = Some i ->
     [pm_minus_one; pm_unwritten; pm_number 0] !! i = Some (pm_number n)).
Proof.
  apply (build_proj_map_inverse 3 3 [2]
           [pm_minus_one; pm_unwritten; pm_number 0]).
  reflexivity.
Defined.

(** ** The free-register map *)

Lemma update_reg_defs_length g n cls regs b regs' :
  update_reg_defs g n cls regs b = Some regs' -> length regs' = length regs.
Proof.
  unfold update_reg_defs. intros H.
  destruct (get_irn_mode g n) as [mode|]; obind H; [|done].
  case_bool_decide.
  - by eapply set_regs_in_use_length.
  - by eapply set_reg_in_use_length.
Qed.

Lemma update_reg_uses_length g n cls regs regs' :
  update_reg_uses g n cls regs = Some regs' -> length regs' = length regs.
Proof.
  unfold update_reg_uses. intros H.
  destruct (get_node g n) as [nd|]; obind H; [|done].
  by eapply set_regs_in_use_length.
Qed.

Lemma walk_block_reverse_length g irn cls todo : forall regs regs',
  walk_block_reverse g irn cls todo regs = Some regs' ->
  length regs' = length regs.
Proof.
  induction todo as [|n todo IH]; intros regs regs' H; simpl in H.
  - by injection H as <-.
  - destruct (is_Phi g n); [by injection H as <-|].
    destruct (update_reg_defs g n cls regs _) as [r1|] eqn:E1; obind H; [|done].
    destruct (update_reg_uses g n cls r1) as [r2|] eqn:E2; obind H; [|done].
    apply update_reg_defs_length in E1. apply update_reg_uses_length in E2.
    case_bool_decide.
    + injection H as <-. congruence.
    + apply IH in H. congruence.
Qed.

Lemma registers_in_use_at_length g lv irn cls in_use :
  registers_in_use_at g lv irn cls = Some in_use ->
  length in_use = n_regs cls.
Proof.
  unfold registers_in_use_at. intros H.
  destruct (get_nodes_block g irn) as [bl|]; obind H; [|done].
  destruct (set_regs_in_use _ _ _ _ _) as [r0|] eqn:E0; obind H; [|done].
  apply walk_block_reverse_length in H.
  apply set_regs_in_use_length in E0. rewrite length_replicate in E0. congruence.
Qed.

Lemma find_free_register_cases g lv alloc fm irn cls fm' :
  find_free_register g lv alloc fm irn cls = Some fm' ->
  exists in_use,
    registers_in_use_at g lv irn cls = Some in_use /\
    length in_use = n_regs cls /\
    ((exists j r, fm' = <[irn := r]> fm /\ j < n_regs cls /\
                  arch_register_for_index cls j = Some r /\
                  in_use !! j = Some false /\
                  rbitset_is_set alloc (global_index r) = true) \/
     (fm' = fm /\
      forall k rk, k < n_regs cls ->
        arch_register_for_index cls k = Some rk ->
        in_use !! k = Some false ->
        rbitset_is_set alloc (global_index rk) = false)).
Proof.
  unfold find_free_register. intros H.
  destruct (registers_in_use_at g lv irn cls) as [in_use|] eqn:Ein; obind H; [|done].
  destruct (first_free_register _ _ _ _ _) as [found|] eqn:Ef; obind H; [|done].
  exists in_use. split; [done|].
  split; [by eapply registers_in_use_at_length|].
  apply first_free_register_spec in Ef. destruct found as [reg|].
  - injection H as <-. left.
    destruct Ef as (j & _ & Hj & Hrj & Hfj & Haj & _). by exists j, reg.
  - injection H as <-. right. split; [done|].
    intros k rk Hk. apply Ef; lia.
Qed.

(** X9: [find_free_register] changes at most the entry of its own Perm
    in the free-register map.  It writes that entry when a register of
    the class is not in use at the Perm and allocatable; when there is
    none, the map is returned as it was. *)
Theorem find_free_register_entry g lv alloc fm irn cls fm' :
  find_free_register g lv alloc fm irn cls = Some fm' ->
  (forall k, k <> irn -> get_free_register fm' k = get_free_register fm k) /\
  exists in_use,
    registers_in_use_at g lv irn cls = Some in_use /\
    length in_use = n_regs cls /\
    ((exists j r, get_free_register fm' irn = Some r /\ j < n_regs cls /\
                  arch_register_for_index cls j = Some r /\
                  in_use !! j = Some false /\
                  rbitset_is_set alloc (global_index r) = true) \/
     (fm' = fm /\
      forall k rk, k < n_regs cls ->
        arch_register_for_index cls k = Some rk ->
        in_use !! k = Some false ->
        rbitset_is_set alloc (global_index rk) = false)).
Proof.
  intros H.
  destruct (find_free_register_cases _ _ _ _ _ _ _ H)
    as (in_use & Hin & Hlen & [(j & r & -> & Hj & Hr & Hf & Ha)|[-> Hnone]]).
  - split.
    + intros k Hk. unfold get_free_register. by rewrite lookup_insert_ne.
    + exists in_use. repeat split; [done..|]. left. exists j, r.
      unfold get_free_register. by rewrite lookup_insert_eq.
  - split; [done|]. exists in_use. repeat split; [done..|]. by right.
Qed.

Lemma find_free_register_entry_witness :
  (forall k, k <> 2 ->
     get_free_register (<[2 := r3]> {[7 := r1]}) k = get_free_register {[7 := r1]} k) /\
  exists in_use,
    registers_in_use_at g_move lv_none 2 cls4 = Some in_use /\
    length in_use = n_regs cls4 /\
    ((exists j r, get_free_register (<[2 := r3]> {[7 := r1]}) 2 = Some r /\
                  j < n_regs cls4 /\
                  arch_register_for_index cls4 j = Some r /\
                  in_use !! j = Some false /\
                  rbitset_is_set 12 (global_index r) = true) \/
     ((<[2 := r3]> {[7 := r1]} : gmap nat arch_register_t) = {[7 := r1]} /\
      forall k rk, k < n_regs cls4 ->
        arch_register_for_index cls4 k = Some rk ->
        in_use !! k = Some false ->
        rbitset_is_set 12 (global_index rk) = false)).
Proof.
  apply (find_free_register_entry g_move lv_none 12 {[7 := r1]} 2 cls4).
  vm_compute. reflexivity.
Defined.

(** X10: the walk that fills the free-register map gives entries to
    visited Perm nodes only, and the register it records for a Perm is
    an allocatable register of the class of the first input of that
    Perm; every other entry of the map stays as it was. *)
Theorem walk_free_registers_entries g lv classes alloc visit : forall fm fm',
  walk_free_registers g lv classes alloc visit fm = Some fm' ->
  forall k,
    get_free_register fm' k = get_free_register fm k \/
    (k ∈ visit /\ be_is_Perm g k = true /\
     exists r, get_free_register fm' k = Some r /\
               scratch_candidate g classes alloc k r).
Proof.
  induction visit as [|n rest IH]; intros fm fm' H k; simpl in H.
  - injection H as <-. by left.
  - destruct (find_free_registers_walker g lv classes alloc fm n) as [fm1|] eqn:E;
      obind H; [|done].
    destruct (IH _ _ H k) as [Hsame|(Hk & Hperm & Hr)].
    2:{ right. split; [by right|done]. }
    rewrite Hsame. unfold find_free_registers_walker in E.
    destruct (be_is_Perm g n) eqn:Ep; simpl in E; [|injection E as <-; by left].
    destruct (get_irn_n g n 0) as [in0|] eqn:E0; obind E; [|done].
    destruct (arch_get_irn_register g in0) as [reg0|] eqn:Er; obind E; [|done].
    destruct (classes !! reg_class reg0) as [cls|] eqn:Ec; obind E; [|done].
    destruct (find_free_register_cases _ _ _ _ _ _ _ E)
      as (in_use & _ & _ & [(j & r & -> & Hj & Hr & _ & Ha)|[-> _]]); [|by left].
    unfold get_free_register in *.
    destruct (decide (k = n)) as [->|Hne].
    + right. split; [left|]. split; [done|]. exists r.
      rewrite lookup_insert_eq. split; [done|]. by exists in0, reg0, cls, j.
    + left. by rewrite lookup_insert_ne.
Qed.

Lemma walk_free_registers_entries_witness :
  get_free_register {[2 := r3]} 2 = get_free_register ∅ 2 \/
  (2 ∈ seq 0 4 /\ be_is_Perm g_move 2 = true /\
   exists r, get_free_register {[2 := r3]} 2 = Some r /\
             scratch_candidate g_move [cls4] 12 2 r).
Proof.
  apply (walk_free_registers_entries g_move lv_none [cls4] 12 (seq 0 4) ∅).
  vm_compute. reflexivity.
Defined.

(** ** What a push-through moves *)

Lemma move_behind_perm_register g perm p proj :
  p <> proj -> is_Some (get_node g p) ->
  arch_get_irn_register (move_behind_perm g perm p proj) p =
  arch_get_irn_register g proj.
Proof.
  intros Hne [ndx Hx]. unfold move_behind_perm, arch_get_irn_register.
  set (g2 := sched_add_after (sched_remove g p) perm p).
  assert (forall x, get_node g2 x = get_node g x) as Hg2.
  { intros x. unfold g2.
    rewrite (same_nodes_get_node (sched_remove g p)) by apply sched_add_after_nodes.
    apply same_nodes_get_node, sched_remove_nodes. }
  rewrite get_node_exchange, bool_decide_eq_false_2 by done.
  unfold arch_set_irn_register.
  rewrite get_node_update_node, bool_decide_eq_true_2 by done.
  rewrite !Hg2, Hx. simpl. by destruct (get_node g proj).
Qed.

(** X11: the loop of [push_through_perm] moves at most one node.  When
    it moves none the graph is untouched.  When it moves one, that node
    is the schedule predecessor of the Perm and the input some Proj of
    the Perm selects: it is rescheduled right behind the Perm, its slot
    is the only one recorded as moved, it takes the register of the
    Proj, the Proj is killed and is no out edge of the Perm any more,
    and no node is added. *)
Theorem push_through_perm_moves_at_most_one g lv perm :
  perm_ok g perm = true ->
  exists arity g1 moved n_moved,
    push_through_perm_loop g lv perm = Some (arity, g1, moved, n_moved) /\
    n_moved <= 1 /\
    (n_moved = 0 -> g1 = g) /\
    (n_moved = 1 ->
     exists bl pre p post proj input,
       get_nodes_block g perm = Some bl /\
       sched_list g bl = pre ++ p :: perm :: post /\
       sched_list g1 bl = pre ++ perm :: p :: post /\
       proj ∈ get_irn_out_edges g perm /\
       get_Proj_proj g proj = Some input /\
       get_irn_n g perm input = Some p /\
       moved = Z.setbit 0 (Z.of_nat input) /\
       arch_get_irn_register g1 p = arch_get_irn_register g proj /\
       has_op g1 proj iro_Deleted = true /\
       get_irn_out_edges g1 perm =
         filter (fun x => x <> proj) (get_irn_out_edges g perm) /\
       length (irg_nodes g1) = length (irg_nodes g)).
Proof.
  intros Hok.
  destruct (push_through_perm_loop_cases g lv perm Hok)
    as (ndp & pre & post & one_proj & ndq & frontier & Hp & Hop & Hbl & Hsb & Hl &
        Hnd & Hin & Hprojs & Hnums & Hhead & Hq & Hfront &
        [Hloop|(pre' & p & proj & input & -> & Hfind & Hmay & Hloop)]).
  - exists (length (irn_in ndp)), g, 0%Z, 0. split; [done|].
    split; [lia|]. split; [done|]. intros; lia.
  - exists (length (irn_in ndp)), (move_behind_perm g perm p proj),
      (Z.setbit 0 (Z.of_nat input)), 1.
    split; [done|]. split; [lia|]. split; [intros; lia|]. intros _.
    destruct (move_behind_perm_spec g perm p proj input ndp pre' post
                Hp Hop Hbl Hl Hnd Hin Hprojs Hfind)
      as (Hl' & _ & _ & Hkill & Hedges & _ & Hlen & Hproj & _ & Hpn & Hinp & _ &
          _ & Hpq & _).
    exists (irn_block ndp), pre', p, post, proj, input.
    unfold get_nodes_block, get_irn_n. rewrite Hp. simpl.
    rewrite <- app_assoc in Hl. simpl in Hl.
    repeat split; try done.
    { apply move_behind_perm_register; [done|].
      destruct (scheduled_in_block_elim g (irn_block ndp) p) as (ndx & Hx & _).
      - apply Hin. apply elem_of_app. left. apply elem_of_app. right. left.
      - by eexists. }
    unfold has_op. rewrite Hkill.
    destruct (is_perm_proj_elim _ _ _ (Hprojs _ Hproj)) as (ndo & Ho & _).
    by rewrite Ho.
Qed.

Lemma push_through_perm_moves_at_most_one_witness :
  exists arity g1 moved n_moved,
    push_through_perm_loop g_push lv_none 3 = Some (arity, g1, moved, n_moved) /\
    n_moved <= 1 /\
    (n_moved = 0 -> g1 = g_push) /\
    (n_moved = 1 ->
     exists bl pre p post proj input,
       get_nodes_block g_push 3 = Some bl /\
       sched_list g_push bl = pre ++ p :: 3 :: post /\
       sched_list g1 bl = pre ++ 3 :: p :: post /\
       proj ∈ get_irn_out_edges g_push 3 /\
       get_Proj_proj g_push proj = Some input /\
       get_irn_n g_push 3 input = Some p /\
       moved = Z.setbit 0 (Z.of_nat input) /\
       arch_get_irn_register g1 p = arch_get_irn_register g_push proj /\
       has_op g1 proj iro_Deleted = true /\
       get_irn_out_edges g1 3 =
         filter (fun x => x <> proj) (get_irn_out_edges g_push 3) /\
       length (irg_nodes g1) = length (irg_nodes g_push)).
Proof.
  apply (push_through_perm_moves_at_most_one g_push lv_none 3). reflexivity.
Defined.

(** ** The search for a copy in front of a node *)

Lemma find_copy_from_spec g op before :
  match find_copy_from g before op with
  | Some c =>
      exists l2 rest, before = l2 ++ c :: rest /\
        is_unspillable_copy_of g op c = true /\
        forall x, x ∈ l2 -> is_other_copy g op x = true
  | None =>
      exists l2 rest, before = l2 ++ rest /\
        (forall x, x ∈ l2 -> is_other_copy g op x = true) /\
        (head rest = None \/ exists y, head rest = Some y /\ be_is_Copy g y = false)
  end.
Proof.
  induction before as [|c rest IH]; simpl.
  - exists [], []. repeat split; [|by left]. intros x Hx. inversion Hx.
  - destruct (be_is_Copy g c) eqn:Ec; simpl.
    2:{ exists [], (c :: rest). repeat split.
        - intros x Hx. inversion Hx.
        - right. by exists c. }
    destruct (bool_decide (be_get_Copy_op g c = Some op)
              && arch_irn_is g c arch_irn_flags_dont_spill) eqn:Em.
    + exists [], rest. repeat split.
      * unfold is_unspillable_copy_of. rewrite Ec. simpl. exact Em.
      * intros x Hx. inversion Hx.
    + assert (is_other_copy g op c = true) as Hc.
      { unfold is_other_copy, is_unspillable_copy_of. rewrite Ec. simpl.
        by rewrite Em. }
      destruct (find_copy_from g rest op) as [c'|].
      * destruct IH as (l2 & rest' & -> & Hm & Hl2).
        exists (c :: l2), rest'. repeat split; [done|].
        intros x Hx. apply elem_of_cons in Hx as [->|Hx]; [done|by apply Hl2].
      * destruct IH as (l2 & rest' & -> & Hl2 & Hstop).
        exists (c :: l2), rest'. repeat split; [|done].
        intros x Hx. apply elem_of_cons in Hx as [->|Hx]; [done|by apply Hl2].
Qed.

(** X12: [find_copy] walks back from the node over the Copy nodes
    scheduled directly in front of it.  The node it returns is the
    nearest one of them that copies [op] and must not be spilled; it
    returns none when it meets another kind of node, or the block,
    first. *)
Theorem find_copy_nearest g irn op res :
  find_copy g irn op = Some res ->
  exists bl front back,
    sched_block g irn = Some bl /\
    sched_list g bl = front ++ irn :: back /\ (irn ∉ front) /\
    match res with
    | Some c =>
        exists far near, front = far ++ c :: near /\
          is_unspillable_copy_of g op c = true /\
          forall x, x ∈ near -> is_other_copy g op x = true
    | None =>
        exists far near, front = far ++ near /\
          (forall x, x ∈ near -> is_other_copy g op x = true) /\
          (last far = None \/ exists y, last far = Some y /\ be_is_Copy g y = false)
    end.
Proof.
  unfold find_copy, sched_before. intros H.
  destruct (sched_block g irn) as [bl|]; obind H; [|done].
  destruct (list_index irn (sched_list g bl)) as [i|] eqn:Ei; obind H; [|done].
  injection H as <-.
  destruct (list_index_split _ _ _ Ei) as (front & back & Hl & Hnot & Hlen).
  exists bl, front, back. repeat split; [done..|].
  rewrite Hl, <- Hlen, take_app_length.
  pose proof (find_copy_from_spec g op (reverse front)) as Hspec.
  destruct (find_copy_from g (reverse front) op) as [c|].
  - destruct Hspec as (l2 & rest & Hrev & Hm & Hl2).
    exists (reverse rest), (reverse l2). repeat split; [|done|].
    + rewrite <- (reverse_involutive front), Hrev.
      by rewrite reverse_app, reverse_cons, <- app_assoc.
    + intros x Hx. apply Hl2. by rewrite elem_of_reverse in Hx.
  - destruct Hspec as (l2 & rest & Hrev & Hl2 & Hstop).
    exists (reverse rest), (reverse l2). repeat split.
    + rewrite <- (reverse_involutive front), Hrev. by rewrite reverse_app.
    + intros x Hx. apply Hl2. by rewrite elem_of_reverse in Hx.
    + by rewrite last_reverse.
Qed.

Lemma find_copy_nearest_witness :
  exists bl front back,
    sched_block g_copied 3 = Some bl /\
    sched_list g_copied bl = front ++ 3 :: back /\ (3 ∉ front) /\
    exists far near, front = far ++ 2 :: near /\
      is_unspillable_copy_of g_copied 1 2 = true /\
      forall x, x ∈ near -> is_other_copy g_copied 1 x = true.
Proof.
  apply (find_copy_nearest g_copied 3 1 (Some 2)). reflexivity.
Defined.

(** ** The keep node of a pattern *)

Lemma adds_cc_refl g : adds_copies_and_copykeeps g g.
Proof. exists []. by rewrite app_nil_r. Qed.

Lemma adds_cc_trans g1 g2 g3 :
  adds_copies_and_copykeeps g1 g2 -> adds_copies_and_copykeeps g2 g3 ->
  adds_copies_and_copykeeps g1 g3.
Proof.
  intros (e1 & H1 & F1) (e2 & H2 & F2). exists (e1 ++ e2).
  split; [by rewrite H2, H1, app_assoc | by apply Forall_app].
Qed.

Lemma adds_cc_extends g g' : adds_copies_and_copykeeps g g' -> extends g g'.
Proof. intros (e & H & _). by exists e. Qed.

Lemma has_irn_users_spec g n :
  has_irn_users g n = true <->
  exists out nd, get_node g out = Some nd /\ n ∈ irn_in nd.
Proof.
  unfold has_irn_users. split.
  - destruct (get_irn_out_edges g n) as [|out l] eqn:E; [done|]. intros _.
    assert (out ∈ get_irn_out_edges g n) as Hout by (rewrite E; left).
    apply elem_of_out_edges in Hout as (nd & Hnd & Hin). by exists out, nd.
  - intros (out & nd & Hnd & Hin).
    assert (out ∈ get_irn_out_edges g n) as Hout
      by (apply elem_of_out_edges; by exists nd).
    by destruct (get_irn_out_edges g n); [inversion Hout|].
Qed.

Lemma has_irn_users_extends g g' n :
  extends g g' -> has_irn_users g n = true -> has_irn_users g' n = true.
Proof.
  intros He. rewrite !has_irn_users_spec. intros (out & nd & Hnd & Hin).
  exists out, nd. split; [|done]. by eapply extends_get_node.
Qed.

Lemma gen_assure_different_pattern_copykeep g env irn other g' env' :
  gen_assure_different_pattern g env irn other = Some (g', env') ->
  has_irn_users g other = true ->
  adds_copies_and_copykeeps g g'.
Proof.
  unfold gen_assure_different_pattern. intros H Hu.
  destruct (get_node g other) as [ndo|] eqn:Ho; obind H; [|done].
  destruct (arch_irn_is_ignore ndo || negb (mode_is_datab (irn_mode ndo))).
  { injection H as <- _. apply adds_cc_refl. }
  destruct (get_nodes_block g irn) as [bl|]; obind H; [|done].
  destruct (find_copy g (skip_Proj g irn) other) as [found|]; obind H; [|done].
  assert (exists cpy g1,
            match found with
            | Some cpy => Some (cpy, g)
            | None =>
                be_new_Copy g bl other
                ≫= λ '(cpy, g'0),
                     Some (cpy, arch_set_irn_flags g'0 cpy arch_irn_flags_dont_spill)
            end = Some (cpy, g1) /\ adds_copies_and_copykeeps g g1)
    as (cpy & g1 & Hg1 & Ha1).
  { destruct found as [cpy|].
    - exists cpy, g. split; [done|apply adds_cc_refl].
    - unfold be_new_Copy. rewrite Ho. obindg.
      match goal with |- context [add_node g ?nd] => set (ndc := nd) end.
      exists (add_node g ndc).1, (add_node g (set_flags ndc arch_irn_flags_dont_spill)).2.
      rewrite <- arch_set_irn_flags_new.
      split; [by destruct (add_node g ndc)|].
      rewrite arch_set_irn_flags_new.
      exists [set_flags ndc arch_irn_flags_dont_spill]. split; [done|].
      constructor; [by left|constructor]. }
  rewrite Hg1 in H. obind H.
  rewrite (has_irn_users_extends g g1) in H by (by try apply adds_cc_extends).
  unfold be_new_CopyKeep_single in H.
  destruct (get_node g1 cpy) as [ndc|]; obind H; [|done].
  match type of H with context [add_node g1 ?nd] => set (ndk := nd) in * end.
  destruct (add_node g1 ndk) as [keep g2] eqn:Ek.
  assert (irg_nodes g2 = irg_nodes g1 ++ [ndk]) as Hn2.
  { unfold add_node in Ek. by injection Ek as <- <-. }
  destruct (negb (sched_is_scheduled_value g2 irn)); [done|].
  injection H as <- _.
  eapply adds_cc_trans; [exact Ha1|].
  exists [ndk]. split.
  - rewrite sched_add_after_nodes.
    destruct (negb (sched_is_scheduled g2 cpy));
      [by rewrite sched_add_before_nodes|done].
  - constructor; [by right|constructor].
Qed.

Lemma get_irn_n_has_users g skipped i d :
  get_irn_n g skipped i = Some d -> has_irn_users g d = true.
Proof.
  unfold get_irn_n. intros H.
  destruct (get_node g skipped) as [nd|] eqn:E; obind H; [|done].
  apply has_irn_users_spec. exists skipped, nd. split; [done|].
  by eapply list_elem_of_lookup_2.
Qed.

Lemma assure_each_bit_copykeep todo : forall g env irn skipped other i g' env',
  assure_each_bit todo g env irn skipped other i = Some (g', env') ->
  adds_copies_and_copykeeps g g'.
Proof.
  induction todo as [|todo IH]; intros g env irn skipped other i g' env' H;
    simpl in H; [done|].
  destruct (Z.shiftl 1 (Z.of_nat i) <=? other)%Z.
  2:{ injection H as <- _. apply adds_cc_refl. }
  destruct (Z.testbit other (Z.of_nat i)).
  - destruct (get_irn_n g skipped i) as [d|] eqn:Ed; obind H; [|done].
    destruct (gen_assure_different_pattern g env irn d) as [[g1 env1]|] eqn:Eg;
      obind H; [|done].
    eapply adds_cc_trans; [|by eapply IH].
    eapply gen_assure_different_pattern_copykeep; [done|].
    by eapply get_irn_n_has_users.
  - obind H. by eapply IH.
Qed.

(** X13: the node a must_be_different constraint names is an input of
    the constrained node and so has a user; hence every keep node that
    [assure_different_constraints] creates is a CopyKeep.  The pass adds
    Copy and CopyKeep nodes only, never a plain Keep, and changes no
    node that was there. *)
Theorem assure_different_constraints_no_keep g env irn skipped g' env' :
  assure_different_constraints g env irn skipped = Some (g', env') ->
  adds_copies_and_copykeeps g g'.
Proof.
  unfold assure_different_constraints. intros H.
  destruct (get_node g irn) as [nd|]; obind H; [|done].
  destruct (arch_register_req_is _ arch_register_req_type_must_be_different).
  2:{ injection H as <- _. apply adds_cc_refl. }
  destruct (_ && _ && _).
  - destruct (get_irn_n g skipped (ntz (other_different (irn_req nd))))
      as [a|]; obind H; [|done].
    destruct (get_irn_n g skipped (ntz (other_same (irn_req nd))))
      as [b|]; obind H; [|done].
    case_bool_decide.
    + injection H as <- _. apply adds_cc_refl.
    + by eapply assure_each_bit_copykeep.
  - by eapply assure_each_bit_copykeep.
Qed.

Lemma assure_different_constraints_no_keep_witness :
  exists g' env',
    assure_different_constraints g_differ (mk_cenv ∅) 2 2 = Some (g', env') /\
    length (irg_nodes g') = 5 /\
    adds_copies_and_copykeeps g_differ g'.
Proof.
  eexists _, _. split; [vm_compute; reflexivity|]. split; [reflexivity|].
  eapply (assure_different_constraints_no_keep g_differ (mk_cenv ∅) 2 2).
  vm_compute. reflexivity.
Defined.

(** ** A chain lowered into copies *)

(** One round of the copy loop of a chain: the copy of [src] is the
    [t]-th new node; it takes the place of the Proj [q] and goes into
    the schedule behind [sp]. *)
Lemma chain_copies_step g bl irn pre post qs t news gt src r q nds sp nsp :
  let N := length (irg_nodes g) in
  chain_copies_emitted g bl irn pre post qs t news gt ->
  NoDup qs -> (forall x, x ∈ qs -> x < N) ->
  t < length qs -> length news = t ->
  qs !! (length qs - 1 - t) = Some q ->
  get_node gt src = Some nds -> (src ∉ qs) ->
  get_node gt sp = Some nsp -> irn_op nsp <> iro_Proj ->
  (if bool_decide (irn_op nsp = iro_Block) then sp else irn_block nsp) = bl ->
  sp <> q -> sp < N + t ->
  (if bool_decide (sp = bl)
   then N + t :: pre ++ seq N t ++ irn :: post
   else insert_after sp (N + t) (pre ++ seq N t ++ irn :: post))
  = pre ++ seq N (S t) ++ irn :: post ->
  exists g1,
    be_new_Copy gt bl src = Some (N + t, g1) /\
    let g2 := arch_set_irn_register g1 (N + t) (Some r) in
    let g3 := exchange g2 q (N + t) in
    let g4 := sched_add_after g3 (skip_Proj g3 sp) (N + t) in
    chain_copies_emitted g bl irn pre post qs (S t) (news ++ [(src, r)]) g4.
Proof.
  intros N Hinv Hnd Hqs Htn Hnl Hq Hsrc Hsq Hsp Hspop Hspbl Hspq HspN Hins.
  destruct Hinv as (Hlen & Hsched & Hold & Hnew). fold N in Hlen, Hsched, Hold, Hnew.
  set (m := length qs) in *.
  unfold be_new_Copy. rewrite Hsrc. obindg.
  set (ndc := mk_node beo_Copy (irn_mode nds) bl [src] 0 None
                      (normal_req (req_cls (irn_req nds))) 0).
  exists (add_node gt ndc).2.
  assert ((add_node gt ndc).1 = N + t) as Hcpy.
  { simpl. rewrite Hlen, Hnl. done. }
  split; [by rewrite <- Hcpy; destruct (add_node gt ndc)|].
  set (cpy := N + t) in *.
  set (g2 := arch_set_irn_register (add_node gt ndc).2 cpy (Some r)).
  set (g3 := exchange g2 q cpy).
  set (g4 := sched_add_after g3 (skip_Proj g3 sp) cpy).
  assert (q < N) as HqN by (apply Hqs; by eapply list_elem_of_lookup_2).
  assert (list_index q qs = Some (m - 1 - t)) as Hqi by (by apply list_index_NoDup).
  assert (src <> q) as Hsrcq.
  { intros ->. apply Hsq. by eapply list_elem_of_lookup_2. }
  assert (forall u, u <> cpy -> get_node g2 u = get_node gt u) as Hg2.
  { intros u Hu. unfold g2, arch_set_irn_register.
    rewrite get_node_update_node, bool_decide_eq_false_2 by done.
    rewrite get_node_add_node, bool_decide_eq_false_2; [done|].
    rewrite Hlen, Hnl. done. }
  assert (get_node g2 cpy = Some (set_reg ndc (Some r))) as Hg2c.
  { unfold g2, arch_set_irn_register.
    rewrite get_node_update_node, bool_decide_eq_true_2 by done.
    rewrite get_node_add_node, bool_decide_eq_true_2; [done|].
    by rewrite Hlen, Hnl. }
  assert (get_node g3 cpy = Some (set_reg ndc (Some r))) as Hg3c.
  { unfold g3. rewrite get_node_exchange, Hg2c. simpl.
    rewrite bool_decide_eq_false_2 by (unfold cpy; lia).
    unfold reroute. simpl. by rewrite bool_decide_eq_false_2. }
  assert (irg_sched g3 = irg_sched gt) as Hs3 by done.
  assert (forall j s' r', news !! j = Some (s', r') ->
            is_copy_of g3 bl (N + j) s' r' /\ (s' ∉ qs)) as Hnew3.
  { intros j s' r' Hj. destruct (Hnew j s' r' Hj)
      as [(nd & Hn & Hop & Hin & Hreg & Hb) Hs'].
    split; [|done].
    assert (j < length news) as Hjl by (by eapply lookup_lt_Some).
    exists (reroute q cpy nd). unfold g3.
    rewrite get_node_exchange, Hg2, Hn by (unfold cpy; lia). simpl.
    rewrite bool_decide_eq_false_2 by lia.
    repeat split; try done. simpl. rewrite Hin. simpl.
    rewrite bool_decide_eq_false_2; [done|].
    intros ->. apply Hs'. by eapply list_elem_of_lookup_2. }
  (* the schedule *)
  assert (skip_Proj g3 sp = sp /\ sched_block g3 sp = Some bl) as [Hskip Hsb].
  { unfold skip_Proj, sched_block, g3.
    rewrite get_node_exchange, Hg2, Hsp by (unfold cpy; lia). simpl.
    rewrite !(bool_decide_eq_false_2 (sp = q)) by done. simpl.
    rewrite bool_decide_eq_false_2 by done. by rewrite Hspbl. }
  split; [|split; [|split]].
  - unfold g4. rewrite sched_add_after_nodes. unfold g3. rewrite exchange_length.
    unfold g2, arch_set_irn_register, update_node. simpl.
    rewrite length_alter, !length_app. simpl. rewrite Hlen. fold N. lia.
  - unfold g4, sched_add_after. rewrite Hskip, Hsb.
    unfold sched_list. rewrite Hs3, Hsched, lookup_insert_eq. simpl.
    fold N. rewrite Hnl. fold cpy in Hins.
    destruct (bool_decide (sp = bl)); simpl; rewrite insert_insert_eq;
      rewrite length_app, Hnl; simpl length;
      replace (t + 1) with (S t) by lia; by rewrite Hins.
  - intros u nd Hu. fold N.
    assert (u < N) as HuN by (by eapply lookup_lt_Some).
    unfold g4. rewrite (same_nodes_get_node g3) by apply sched_add_after_nodes.
    unfold g3. rewrite get_node_exchange, Hg2 by (unfold cpy; lia).
    rewrite (Hold u nd Hu). simpl. f_equal.
    unfold proj_exchanged, chain_copy_for_proj. fold m.
    assert (forall y,
              (if bool_decide
                    (match list_index y qs with
                     | Some k => if m - t <=? k then N + (m - 1 - k) else y
                     | None => y
                     end = q)
               then cpy
               else match list_index y qs with
                    | Some k => if m - t <=? k then N + (m - 1 - k) else y
                    | None => y
                    end) =
              match list_index y qs with
              | Some k => if m - S t <=? k then N + (m - 1 - k) else y
              | None => y
              end) as Hmap.
    { intros y. destruct (list_index y qs) as [k|] eqn:Em.
      - pose proof (list_index_lt_length _ _ _ Em) as Hmn. fold m in Hmn.
        destruct (Nat.leb_spec (m - t) k), (Nat.leb_spec (m - S t) k); try lia.
        + rewrite bool_decide_eq_false_2; [done | lia].
        + assert (k = m - 1 - t) as -> by lia.
          apply list_index_lookup in Em.
          rewrite bool_decide_eq_true_2 by congruence.
          unfold cpy. f_equal. lia.
        + rewrite bool_decide_eq_false_2; [done|]. intros ->.
          rewrite Hqi in Em. injection Em as <-. lia.
      - rewrite bool_decide_eq_false_2; [done|]. intros ->. congruence. }
    destruct (decide (u = q)) as [->|Huq].
    + rewrite bool_decide_eq_true_2 by done. rewrite Hqi.
      destruct (Nat.leb_spec (m - t) (m - 1 - t)) as [|_]; [lia|].
      destruct (Nat.leb_spec (m - S t) (m - 1 - t)) as [_|]; [|lia].
      by rewrite reroute_set_in, kill_set_in.
    + rewrite bool_decide_eq_false_2 by done.
      destruct (list_index u qs) as [k|] eqn:Ek.
      * assert (k <> m - 1 - t) as Hk.
        { intros ->. apply list_index_lookup in Ek. congruence. }
        pose proof (list_index_lt_length _ _ _ Ek) as Hkm. fold m in Hkm.
        destruct (Nat.leb_spec (m - t) k), (Nat.leb_spec (m - S t) k); try lia.
        -- apply reroute_kill.
        -- rewrite reroute_set_in. f_equal. rewrite <- list_fmap_compose.
           apply list_fmap_ext. intros i y _. simpl. apply Hmap.
      * rewrite reroute_set_in. f_equal. rewrite <- list_fmap_compose.
        apply list_fmap_ext. intros i y _. simpl. apply Hmap.
  - intros j s' r' Hj. fold N.
    assert (forall k s'' r'', is_copy_of g3 bl k s'' r'' ->
              is_copy_of g4 bl k s'' r'') as Hg4.
    { intros k s'' r'' (nd & Hn & H'). exists nd. split; [|done].
      unfold g4. by rewrite (same_nodes_get_node g3) by apply sched_add_after_nodes. }
    apply lookup_app_Some in Hj as [Hj|[Hge Hj]].
    + destruct (Hnew3 j s' r' Hj). split; [by apply Hg4 | done].
    + destruct (j - length news) as [|k] eqn:Ejm; [|done].
      injection Hj as <- <-. split; [|done]. apply Hg4.
      assert (j = t) as -> by lia.
      exists (set_reg ndc (Some r)). by split.
Qed.

(** The later rounds of the loop: with [k] rounds to go, not the first
    one, the loop emits the copies of the first [k] holders, last one
    first, each behind the copy emitted before it. *)
Lemma chain_copies_loop k : forall g bl irn pre post qs hs move pairs news gt,
  let N := length (irg_nodes g) in
  let m := length qs in
  chain_copies_emitted g bl irn pre post qs (m - k) news gt ->
  NoDup qs -> bl < N ->
  (forall x, x ∈ pre -> x < N) -> (forall x, x ∈ qs -> x < N) ->
  (forall h, h ∈ hs -> is_Some (get_node g h) /\ (h ∉ qs)) ->
  Forall2 (fun e h => get_node_for_in_register pairs e = Some h)
          (take m (elems move)) hs ->
  Forall2 (fun e q => get_node_for_out_register pairs e = Some q)
          (drop 1 (elems move)) qs ->
  k < m -> length news = m - k ->
  exists g',
    copies_loop k gt bl move pairs (N + (m - k - 1)) = Some (g', N + (m - 1)) /\
    chain_copies_emitted g bl irn pre post qs m
      (news ++ reverse (take k (zip hs (drop 1 (elems move))))) g'.
Proof.
  induction k as [|i IH];
    intros g bl irn pre post qs hs move pairs news gt N m
           Hem Hnd HblN Hpre Hqs Hhs Hin Hout Hk Hnews.
  - exists gt. simpl. rewrite Nat.sub_0_r in *. rewrite app_nil_r. done.
  - pose proof (Forall2_length _ _ _ Hin) as Hlh.
    pose proof (Forall2_length _ _ _ Hout) as Hlq. fold m in Hlq.
    rewrite length_drop in Hlq.
    rewrite length_take in Hlh.
    destruct (lookup_lt_is_Some_2 (elems move) i) as [e_i He_i]; [lia|].
    destruct (lookup_lt_is_Some_2 (elems move) (S i)) as [e_i1 He_i1]; [lia|].
    assert (take m (elems move) !! i = Some e_i) as He_i'
      by (rewrite lookup_take_lt by lia; done).
    assert (drop 1 (elems move) !! i = Some e_i1) as He_i1'
      by (by rewrite lookup_drop).
    destruct (Forall2_lookup_l _ _ _ _ _ Hin He_i') as (h_i & Hh_i & Harg).
    destruct (Forall2_lookup_l _ _ _ _ _ Hout He_i1') as (q & Hq & Hres).
    destruct (Hhs h_i) as [[ndh Hndh] Hhq]; [by eapply list_elem_of_lookup_2|].
    pose proof Hem as (_ & _ & Hold & Hnew).
    specialize (Hold _ _ Hndh).
    destruct (get_node gt h_i) as [nds|] eqn:Hgt; [clear Hold|done].
    destruct (lookup_lt_is_Some_2 news (m - S i - 1) ltac:(lia)) as [[s' r'] Hlast].
    destruct (Hnew _ _ _ Hlast) as [(nsp & Hnsp & Hspop & _ & _ & Hspbl) _].
    fold N in Hnsp.
    pose proof (chain_copies_step g bl irn pre post qs (m - S i) news gt
                  h_i e_i1 q nds (N + (m - S i - 1)) nsp) as Hstep.
    cbn zeta in Hstep. fold N m in Hstep.
    destruct (Hstep Hem Hnd Hqs) as (g1 & Hcopy & Hstep');
      [lia|lia| |done|done|done|congruence| | | | |].
    { by replace (m - 1 - (m - S i)) with i by lia. }
    { rewrite Hspop. by rewrite bool_decide_eq_false_2. }
    { assert (q < N) by (apply Hqs; by eapply list_elem_of_lookup_2). lia. }
    { lia. }
    { rewrite bool_decide_eq_false_2 by lia.
      assert (exists t', m - S i = S t') as [t' Et]
        by (exists (m - S i - 1); lia).
      rewrite Et. replace (S t' - 1) with t' by lia.
      rewrite (seq_S (S t') N), (seq_S t' N). rewrite <- !app_assoc. simpl.
      rewrite (app_assoc pre (seq N t')).
      rewrite insert_after_middle; [by rewrite <- app_assoc|].
      intros Hx. apply elem_of_app in Hx as [Hx|Hx].
      - apply Hpre in Hx. lia.
      - apply elem_of_seq in Hx. lia. }
    clear Hstep.
    replace (S (m - S i)) with (m - i) in * by lia.
    destruct (IH g bl irn pre post qs hs move pairs _ _ Hstep')
      as (g' & Hloop & Hem'); try done; try lia.
    { rewrite length_app. simpl. lia. }
    exists g'. split.
    + simpl. rewrite He_i, He_i1. obindg. rewrite Harg, Hres. obindg.
      fold N. rewrite Hcopy. obindg. fold N m in Hloop.
      replace (N + (m - i - 1)) with (N + (m - S i)) in Hloop by lia.
      exact Hloop.
    + rewrite (take_S_r _ _ (h_i, e_i1)), reverse_snoc.
      * by rewrite <- app_assoc in Hem'.
      * rewrite lookup_zip_with, Hh_i, lookup_drop. simpl. by rewrite He_i1.
Qed.

Lemma chain_copies_emitted_start g bl irn pre post qs :
  sched_list g bl = pre ++ irn :: post ->
  chain_copies_emitted g bl irn pre post qs 0 [] g.
Proof.
  intros Hl. split; [simpl; lia|]. split; [|split].
  - simpl. symmetry. apply insert_id. apply sched_list_lookup; [done|].
    by destruct pre.
  - intros u nd Hu. rewrite Hu. f_equal.
    assert (forall y, chain_copy_for_proj (length (irg_nodes g)) qs 0 y = y) as Hid.
    { intros y. unfold chain_copy_for_proj.
      destruct (list_index y qs) as [k|] eqn:Ek; [|done].
      apply list_index_lt_length in Ek.
      by destruct (Nat.leb_spec (length qs - 0) k); [lia|]. }
    unfold proj_exchanged. destruct (list_index u qs) as [k|] eqn:Ek.
    + apply list_index_lt_length in Ek.
      destruct (Nat.leb_spec (length qs - 0) k); [lia|].
      symmetry. apply set_in_id. intros y _. apply Hid.
    + symmetry. apply set_in_id. intros y _. apply Hid.
  - intros j src r Hj. done.
Qed.

(** [split_chain_into_copies] returns, and the graph it returns holds
    the copies of [chain_copies], in that order, in front of the Perm. *)
Lemma split_chain_into_copies_spec g irn move pairs hs qs bl pre post :
  let N := length (irg_nodes g) in
  let n := n_elems move in
  perm_ok g irn = true ->
  get_nodes_block g irn = Some bl ->
  sched_list g bl = pre ++ irn :: post ->
  move_type move = PERM_CHAIN -> 2 <= n ->
  mapM (get_node_for_in_register pairs) (take (n - 1) (elems move)) = Some hs ->
  mapM (get_node_for_out_register pairs) (drop 1 (elems move)) = Some qs ->
  cycle_nodes_ok g irn hs qs = true ->
  exists g',
    split_chain_into_copies g irn move pairs = Some g' /\
    chain_copies_emitted g bl irn pre post qs (n - 1)
      (chain_copies hs (elems move)) g'.
Proof.
  intros N n Hok Hblk Hl Hty Hn Hhs Hqs Hcyc.
  destruct (perm_ok_schedule _ _ _ _ _ Hok Hblk Hl)
    as (ndp & Hp & -> & Hop & Hbl & Hnd & Hin & Hprev).
  apply mapM_Some in Hhs, Hqs.
  pose proof (Forall2_length _ _ _ Hhs) as Hlh.
  pose proof (Forall2_length _ _ _ Hqs) as Hlq.
  assert (length (elems move) = n) as Hen by done.
  rewrite length_take in Hlh. rewrite length_drop in Hlq.
  set (m := length qs) in *.
  assert (n - 1 = m) as Hnm by lia. rewrite Hnm in *.
  destruct (cycle_nodes_ok_elim _ _ _ _ Hcyc) as (Hndq & HqN & Hh & Hproj).
  destruct (lookup_lt_is_Some_2 (elems move) (m - 1)) as [e_i He_i]; [lia|].
  destruct (lookup_lt_is_Some_2 (elems move) m) as [e_i1 He_i1]; [lia|].
  assert (take m (elems move) !! (m - 1) = Some e_i) as He_i'
    by (rewrite lookup_take_lt by lia; done).
  assert (drop 1 (elems move) !! (m - 1) = Some e_i1) as He_i1'.
  { rewrite lookup_drop. by replace (1 + (m - 1)) with m by lia. }
  destruct (Forall2_lookup_l _ _ _ _ _ Hhs He_i') as (h_i & Hh_i & Harg).
  destruct (Forall2_lookup_l _ _ _ _ _ Hqs He_i1') as (q & Hq & Hres).
  destruct (Hh h_i) as [[ndh Hndh] Hhq]; [by eapply list_elem_of_lookup_2|].
  assert (q ∈ qs) as Hqin by (by eapply list_elem_of_lookup_2).
  destruct (Hproj q Hqin) as [HqProj _].
  assert (irn_block ndp < N) as HblN.
  { unfold is_Block, has_op in Hbl.
    destruct (get_node g (irn_block ndp)) eqn:E; [|done]. by eapply lookup_lt_Some. }
  assert (forall x, x ∈ pre -> x < N) as Hpre.
  { intros x Hx.
    destruct (scheduled_in_block_elim g (irn_block ndp) x) as (ndx & Hx' & _).
    - apply Hin, elem_of_app. by left.
    - by eapply lookup_lt_Some. }
  set (sp := default (irn_block ndp) (last pre)) in *.
  (* the schedule point of the first round *)
  assert (exists nsp, get_node g sp = Some nsp /\ irn_op nsp <> iro_Proj /\
            (if bool_decide (irn_op nsp = iro_Block) then sp else irn_block nsp)
              = irn_block ndp /\
            (if bool_decide (sp = irn_block ndp)
             then N + 0 :: pre ++ seq N 0 ++ irn :: post
             else insert_after sp (N + 0) (pre ++ seq N 0 ++ irn :: post))
            = pre ++ seq N 1 ++ irn :: post)
    as (nsp & Hnsp & Hspop & Hspbl & Hins).
  { unfold sp. destruct pre as [|p pre' _] using rev_ind.
    - simpl default. unfold is_Block, has_op in Hbl.
      destruct (get_node g (irn_block ndp)) as [ndb|] eqn:Eb; [|done].
      apply bool_decide_eq_true in Hbl. exists ndb.
      rewrite Hbl, !bool_decide_eq_true_2 by done.
      repeat split; [done|]. simpl. by rewrite Nat.add_0_r.
    - rewrite last_snoc. simpl default.
      destruct (scheduled_in_block_elim g (irn_block ndp) p)
        as (ndx & Hx & Hxb & Hxop & Hxproj & _).
      { apply Hin. apply elem_of_app. left. apply elem_of_app. right. left. }
      exists ndx. rewrite bool_decide_eq_false_2 by done.
      assert (p <> irn_block ndp) as Hpbl.
      { intros ->. unfold is_Block, has_op in Hbl. rewrite Hx in Hbl.
        by apply bool_decide_eq_true in Hbl. }
      rewrite bool_decide_eq_false_2 by done.
      repeat split; [done..|]. simpl. rewrite Nat.add_0_r.
      rewrite <- !app_assoc. simpl. apply insert_after_middle.
      rewrite <- app_assoc in Hnd. apply NoDup_app in Hnd as (_ & Hd & _).
      intros Hx'. apply (Hd _ Hx'). left. }
  assert (sp <> q) as Hspq.
  { intros ->. unfold is_Proj, has_op in HqProj. rewrite Hnsp in HqProj.
    by apply bool_decide_eq_true in HqProj. }
  pose proof (chain_copies_step g (irn_block ndp) irn pre post qs 0 [] g
                h_i e_i1 q ndh sp nsp) as Hstep.
  cbn zeta in Hstep. fold N m in Hstep.
  destruct (Hstep (chain_copies_emitted_start _ _ _ _ _ _ Hl) Hndq HqN)
    as (g1 & Hcopy & Hem1); try done; try lia.
  { by rewrite Nat.sub_0_r. }
  { apply lookup_lt_Some in Hnsp. fold N in Hnsp. lia. }
  clear Hstep. simpl app in Hem1.
  replace 1 with (m - (m - 1)) in Hem1 at 1 by lia.
  destruct (chain_copies_loop (m - 1) g (irn_block ndp) irn pre post qs hs
              move pairs _ _ Hem1)
    as (g' & Hloop & Hem'); try done; try lia.
  { simpl. fold m. lia. }
  fold N m in Hloop, Hem'.
  exists g'. split.
  - unfold split_chain_into_copies, get_nodes_block. rewrite Hp, Hprev. obindg.
    rewrite bool_decide_eq_true_2 by done. fold n. rewrite Hnm.
    destruct m as [|i] eqn:Em; [lia|].
    replace (S i - 1) with i in * by lia.
    cbn [copies_loop]. rewrite He_i, He_i1. obindg. rewrite Harg, Hres. obindg.
    fold N sp. rewrite Hcopy. obindg.
    replace (N + (S i - i - 1)) with (N + 0) in Hloop by lia.
    by rewrite Hloop.
  - assert (chain_copies hs (elems move) =
            [(h_i, e_i1)] ++ reverse (take (m - 1) (zip hs (drop 1 (elems move)))))
      as ->; [|done].
    unfold chain_copies.
    rewrite <- (take_ge (zip hs (drop 1 (elems move))) (S (m - 1))) at 1
      by (rewrite length_zip_with, length_drop; lia).
    rewrite (take_S_r _ _ (h_i, e_i1)), reverse_snoc; [done|].
    rewrite lookup_zip_with, Hh_i, lookup_drop. simpl.
    replace (S (m - 1)) with m by lia. by rewrite He_i1.
Qed.

Lemma chain_copies_length hs es :
  length hs = length es - 1 -> length (chain_copies hs es) = length es - 1.
Proof.
  intros Hl. unfold chain_copies.
  rewrite length_reverse, length_zip_with, length_drop. lia.
Qed.

(** The copy emitted for the register [e] = r_(k+1) of the chain is the
    [n - 2 - k]-th new node. *)
Lemma chain_copies_lookup hs es k e :
  length hs = length es - 1 -> es !! S k = Some e ->
  exists src, chain_copies hs es !! (length es - 2 - k) = Some (src, e).
Proof.
  intros Hl Hk. pose proof (lookup_lt_Some _ _ _ Hk) as Hlt.
  unfold chain_copies.
  destruct (lookup_lt_is_Some_2 hs k) as [h_k Hh_k]; [lia|].
  exists h_k.
  rewrite reverse_lookup by (rewrite length_zip_with, length_drop; lia).
  rewrite length_zip_with, length_drop.
  replace (length hs `min` (length es - 1) - S (length es - 2 - k)) with k by lia.
  rewrite lookup_zip_with, Hh_k, lookup_drop. simpl. by rewrite Hk.
Qed.

(** X14: a chain of n registers r_0 .. r_(n-1) is lowered by emitting
    exactly n-1 Copy nodes, the end of the chain first: for i = n-2
    down to 0 the holder of r_i is copied into r_(i+1).  The Proj of
    every register r_1 .. r_(n-1) is rerouted to the copy assigned to
    that register.  The copies stand in the schedule in the order of
    their emission, between the predecessor of the Perm and the Perm;
    no scratch register is asked for.  When the chain is the whole
    Perm, [lower_perm_node] returns with the Perm taken out of the
    schedule and killed. *)
Theorem chain_lowered_into_copies g fm irn move pairs hs qs bl pre post :
  let N := length (irg_nodes g) in
  let n := n_elems move in
  perm_ok g irn = true ->
  get_nodes_block g irn = Some bl ->
  sched_list g bl = pre ++ irn :: post ->
  move_type move = PERM_CHAIN -> 2 <= n ->
  mapM (get_node_for_in_register pairs) (take (n - 1) (elems move)) = Some hs ->
  mapM (get_node_for_out_register pairs) (drop 1 (elems move)) = Some qs ->
  cycle_nodes_ok g irn hs qs = true ->
  exists g',
    reduce_perm_size g fm irn move pairs = Some (g', pairs) /\
    length (irg_nodes g') = N + (n - 1) /\
    length (chain_copies hs (elems move)) = n - 1 /\
    (forall j src r, chain_copies hs (elems move) !! j = Some (src, r) ->
       is_copy_of g' bl (N + j) src r) /\
    (forall u nd, get_node g u = Some nd ->
       get_node g' u =
       Some (if bool_decide (u ∈ qs) then kill nd
             else set_in nd (chain_copy_for_proj N qs (n - 1) <$> irn_in nd))) /\
    (forall k q e, qs !! k = Some q -> elems move !! S k = Some e ->
       exists src, is_copy_of g' bl (chain_copy_for_proj N qs (n - 1) q) src e) /\
    sched_list g' bl = pre ++ seq N (n - 1) ++ irn :: post /\
    (forall pairs0 i arity,
       build_register_pair_list g irn = Some (pairs0, g) ->
       get_irn_arity g irn = Some arity -> arity = get_irn_n_edges g irn ->
       first_unchecked_pair pairs0 = Some i ->
       get_perm_move_info pairs0 i = Some (move, pairs) ->
       get_n_unchecked_pairs pairs = 0 ->
       let g_end := kill_node (sched_remove g' irn) irn in
       lower_perm_node g fm irn = Some g_end /\
       has_op g_end irn iro_Deleted = true /\
       sched_list g_end bl = pre ++ seq N (n - 1) ++ post).
Proof.
  intros N n Hok Hblk Hl Hty Hn Hhs Hqs Hcyc.
  destruct (split_chain_into_copies_spec g irn move pairs hs qs bl pre post
              Hok Hblk Hl Hty Hn Hhs Hqs Hcyc)
    as (g' & Hsplit & Hlen & Hsched & Hold & Hnew).
  fold N n in Hlen, Hsched, Hold, Hnew.
  destruct (perm_ok_schedule _ _ _ _ _ Hok Hblk Hl)
    as (ndp & Hp & Hbl' & Hop & Hbl & Hnd & Hin & Hprev).
  pose proof (proj1 (mapM_Some _ _ _) Hhs) as Hhs'.
  pose proof (proj1 (mapM_Some _ _ _) Hqs) as Hqs'.
  pose proof (Forall2_length _ _ _ Hhs') as Hlh.
  pose proof (Forall2_length _ _ _ Hqs') as Hlq.
  destruct (cycle_nodes_ok_elim _ _ _ _ Hcyc) as (Hndq & HqN & Hh & Hq).
  assert (length (elems move) = n) as Hen by done.
  rewrite length_take in Hlh. rewrite length_drop in Hlq.
  assert (length qs = n - 1) as Hm by lia.
  assert (length (chain_copies hs (elems move)) = n - 1) as Hcl.
  { rewrite chain_copies_length; lia. }
  assert (reduce_perm_size g fm irn move pairs = Some (g', pairs)) as Hred.
  { unfold reduce_perm_size. rewrite Hty. by rewrite Hsplit. }
  assert (sched_list g' bl = pre ++ seq N (n - 1) ++ irn :: post) as Hsl.
  { unfold sched_list. rewrite Hsched, lookup_insert_eq. simpl. by rewrite Hcl. }
  assert (irn ∉ qs) as Hirn.
  { intros Hx. destruct (Hq _ Hx) as [Hproj _]. unfold is_Proj, has_op in Hproj.
    rewrite Hp, Hop in Hproj. by apply bool_decide_eq_true in Hproj. }
  assert (forall u, proj_exchanged (length qs) qs (n - 1) u = bool_decide (u ∈ qs))
    as Hex.
  { intros u. rewrite <- Hm. apply proj_exchanged_all. }
  exists g'. split; [done|]. split; [by rewrite Hlen, Hcl|]. split; [done|].
  split; [|split; [|split; [|split; [done|]]]].
  - intros j src r Hj. by apply Hnew.
  - intros u nd Hu. rewrite (Hold u nd Hu). by rewrite Hex.
  - intros k q e Hk He.
    destruct (chain_copies_lookup hs (elems move) k e) as [src Hsrc];
      [lia|done|].
    exists src. unfold chain_copy_for_proj.
    rewrite (list_index_NoDup _ _ _ Hndq Hk), Hm, Nat.sub_diag. simpl.
    pose proof (lookup_lt_Some _ _ _ Hk) as Hlt.
    apply Hnew. rewrite <- Hsrc. f_equal. lia.
  - intros pairs0 i arity Hbuild Har Hedges Hfirst Hinfo Hdone g_end.
    assert (get_node g' irn =
            Some (set_in ndp (chain_copy_for_proj N qs (n - 1) <$> irn_in ndp)))
      as Hp'.
    { rewrite (Hold _ _ Hp), Hex. by rewrite bool_decide_eq_false_2. }
    split; [|split].
    + unfold lower_perm_node. rewrite Har, Hprev. obindg.
      unfold be_is_Perm, has_op. rewrite Hp, Hop.
      rewrite bool_decide_eq_true_2 by done. simpl negb.
      rewrite <- Hedges, Nat.eqb_refl. simpl negb. cbv iota.
      rewrite Hbuild. obindg.
      destruct (length pairs0) as [|fuel] eqn:Ef.
      { destruct pairs0; [done|]. done. }
      simpl lower_moves.
      destruct (Nat.eqb_spec (get_n_unchecked_pairs pairs0) 0) as [E0|_].
      { by apply first_unchecked_pair_Some in Hfirst. }
      rewrite Hfirst. obindg. rewrite Hinfo. obindg.
      rewrite bool_decide_eq_false_2 by (by rewrite Hty). simpl andb. cbv iota.
      rewrite Hred. obindg.
      destruct fuel; simpl lower_moves; rewrite Hdone; simpl; done.
    + unfold g_end, has_op, kill_node.
      rewrite get_node_update_node, bool_decide_eq_true_2 by done.
      rewrite (same_nodes_get_node g' (sched_remove g' irn))
        by apply sched_remove_nodes.
      by rewrite Hp'.
    + unfold g_end.
      assert (sched_list (kill_node (sched_remove g' irn) irn) bl =
              sched_list (sched_remove g' irn) bl) as -> by done.
      rewrite sched_remove_list.
      2: { unfold sched_block. rewrite Hp'. simpl. rewrite Hop.
           rewrite bool_decide_eq_false_2 by done. by rewrite Hbl'. }
      rewrite Hsl, app_assoc, list_remove_middle, <- app_assoc; [done| |].
      * apply NoDup_app in Hnd as (_ & Hd & _).
        rewrite elem_of_app, elem_of_seq. intros [Hx|Hx].
        -- apply (Hd _ Hx). left.
        -- apply lookup_lt_Some in Hp. fold N in Hp. lia.
      * apply NoDup_app in Hnd as (_ & _ & Hd). by apply NoDup_cons in Hd as [? _].
Qed.

(** Scenario "chain": [Copy(b) -> r3], then [Copy(a) -> r2], in front
    of the Perm, and the Perm is deleted. *)
Lemma chain_lowered_into_copies_witness :
  exists g',
    reduce_perm_size g_chain ∅ 3 move_chain (set_checked <$> pairs_chain)
      = Some (g', set_checked <$> pairs_chain) /\
    is_copy_of g' 0 7 2 r3 /\ is_copy_of g' 0 8 1 r2 /\
    get_node g' 6 = Some (ins_node 0 [8; 7] r4) /\
    sched_list g' 0 = [1; 2; 7; 8; 3; 6] /\
    lower_perm_node g_chain ∅ 3 = Some (kill_node (sched_remove g' 3) 3) /\
    has_op (kill_node (sched_remove g' 3) 3) 3 iro_Deleted = true /\
    sched_list (kill_node (sched_remove g' 3) 3) 0 = [1; 2; 7; 8; 6].
Proof.
  destruct (chain_lowered_into_copies g_chain ∅ 3 move_chain
              (set_checked <$> pairs_chain) [1; 2] [4; 5] 0 [1; 2] [6])
    as (g' & Hred & Hlen & Hcl & Hnew & Hold & Hlink & Hsl & Hrun);
    try (vm_compute; reflexivity).
  { vm_compute. lia. }
  destruct (Hrun pairs_chain 0 2) as (Hret & Hdel & Hend);
    try (vm_compute; reflexivity).
  exists g'. repeat split.
  - exact Hred.
  - exact (Hnew 0 2 r3 eq_refl).
  - exact (Hnew 1 1 r2 eq_refl).
  - rewrite (Hold 6 _ eq_refl). vm_compute. reflexivity.
  - exact Hsl.
  - exact Hret.
  - exact Hdel.
  - exact Hend.
Defined.

(** ** A Perm shrunk by a push-through *)

Lemma renumber_projs_spec proj_map es : forall g g',
  NoDup es -> renumber_projs g proj_map es = Some g' ->
  (forall x, x ∉ es -> get_node g' x = get_node g x) /\
  (forall x, x ∈ es ->
     exists nd m, get_node g x = Some nd /\ irn_op nd = iro_Proj /\
                  proj_map !! irn_proj nd = Some (pm_number m) /\
                  get_node g' x = Some (set_proj nd m)).
Proof.
  induction es as [|out rest IH]; intros g g' Hnd H; simpl in H.
  - injection H as <-. split; [done|]. intros x Hx. inversion Hx.
  - apply NoDup_cons in Hnd as [Hout Hnd].
    unfold get_Proj_proj, set_Proj_proj in H.
    destruct (get_node g out) as [nd|] eqn:Hg; obind H; [|done].
    destruct (decide (irn_op nd = iro_Proj)) as [Hop|Hop].
    2:{ by rewrite bool_decide_eq_false_2 in H by done. }
    rewrite bool_decide_eq_true_2 in H by done. obind H.
    destruct (proj_map !! irn_proj nd) as [[m| |]|] eqn:Hm; simpl in H; try done.
    set (g1 := update_node g out (fun nd => set_proj nd m)) in *.
    destruct (IH _ _ Hnd H) as [Hsame Hin]. split.
    + intros x Hx. rewrite Hsame by (intros H'; apply Hx; by right).
      unfold g1. rewrite get_node_update_node, bool_decide_eq_false_2; [done|].
      intros ->. apply Hx. left.
    + intros x Hx. apply elem_of_cons in Hx as [->|Hx].
      * exists nd, m. repeat split; [done..|]. rewrite Hsame by done.
        unfold g1. by rewrite get_node_update_node, bool_decide_eq_true_2, Hg.
      * destruct (Hin x Hx) as (ndx & mx & Hx1 & Hx2 & Hx3 & Hx4).
        exists ndx, mx. repeat split; [|done..].
        unfold g1 in Hx1. rewrite get_node_update_node in Hx1.
        rewrite bool_decide_eq_false_2 in Hx1; [done|]. intros ->. done.
Qed.

(** X15: a push-through that leaves the Perm in place keeps the wiring
    of its results: every Proj the Perm has afterwards is one it had
    before, and it selects the same input node as before, although the
    Perm has lost a slot and the Proj may have a new number. *)
Theorem push_through_perm_keeps_selection g lv perm g' :
  perm_ok g perm = true ->
  perm_is_acyclic g perm = true ->
  push_through_perm g lv perm = Some (true, g') ->
  forall out, out ∈ get_irn_out_edges g' perm ->
    out ∈ get_irn_out_edges g perm /\
    is_Some (selected_input g perm out) /\
    selected_input g' perm out = selected_input g perm out.
Proof.
  intros Hok Hacyc Hpush.
  destruct (push_through_perm_loop_cases g lv perm Hok)
    as (ndp & pre & post & one_proj & ndq & frontier & Hp & Hop & Hbl & Hsb & Hl &
        Hnd & Hin & Hprojs & Hnums & Hhead & Hq & Hfront & Hloop).
  assert (forall out, out ∈ get_irn_out_edges g perm ->
            is_Some (selected_input g perm out)) as Hsel.
  { intros out Hout.
    destruct (is_perm_proj_elim _ _ _ (Hprojs _ Hout)) as (ndo & Ho & Hoop & Hlt).
    unfold selected_input, get_Proj_proj, get_irn_n. rewrite Ho. simpl.
    rewrite bool_decide_eq_true_2 by done. simpl. rewrite Hp. simpl.
    by apply lookup_lt_is_Some. }
  destruct Hloop as [Hloop|(pre' & p & proj & input & -> & Hfind & Hmay & Hloop)].
  { unfold push_through_perm in Hpush. rewrite Hloop in Hpush. simpl in Hpush.
    injection Hpush as <-. intros out Hout. auto. }
  destruct (move_behind_perm_spec g perm p proj input ndp pre' post
              Hp Hop Hbl Hl Hnd Hin Hprojs Hfind)
    as (Hl' & Hs' & Hp' & Hq' & He' & Hother & Hlen & Hproj & Hlt & Hpn & Hinp &
        Hne1 & Hne2 & Hne3 & Hprev' & Hshape).
  set (g4 := move_behind_perm g perm p proj) in *.
  (* the Perm reads none of its Projs *)
  assert (irn_in (reroute proj p ndp) = irn_in ndp) as Hins.
  { unfold perm_is_acyclic in Hacyc. rewrite Hp in Hacyc.
    rewrite forallb_forall in Hacyc.
    specialize (Hacyc proj (proj1 (list_elem_of_In _ _) Hproj)).
    apply bool_decide_eq_true in Hacyc.
    unfold reroute. simpl.
    rewrite <- (list_fmap_id (irn_in ndp)) at 2. apply list_fmap_ext.
    intros i y Hy. simpl. rewrite bool_decide_eq_false_2; [done|].
    intros ->. apply Hacyc. by eapply list_elem_of_lookup_2. }
  assert (perm ∉ irn_in ndp) as Hself.
  { intros Hx.
    assert (perm ∈ get_irn_out_edges g perm) as Hout
      by (apply elem_of_out_edges; by exists ndp).
    destruct (is_perm_proj_elim _ _ _ (Hprojs _ Hout)) as (nd & Hn & Hnop & _).
    congruence. }
  unfold push_through_perm in Hpush. rewrite Hloop in Hpush. obind Hpush.
  unfold push_through_perm_shrink in Hpush. simpl Nat.eqb at 1 in Hpush.
  cbv iota in Hpush.
  destruct (length (irn_in ndp) <? 1); [done|].
  destruct (length (irn_in ndp) - 1 =? 0); [done|].
  destruct (build_proj_map (Z.setbit 0 (Z.of_nat input)) 0 (length (irn_in ndp)) 0)
    as [map_ proj_map] eqn:Emap.
  destruct (build_proj_map_gen _ _ _ _ _ _ Emap) as (_ & _ & Hpm).
  destruct (negb (length map_ =? length (irn_in ndp) - 1)); [done|].
  destruct (renumber_projs g4 proj_map (get_irn_out_edges g4 perm))
    as [g5|] eqn:Eren; obind Hpush; [|done].
  apply renumber_projs_spec in Eren as [Hsame5 Hin5].
  2:{ rewrite He'. apply NoDup_filter. by eapply NoDup_fmap_1. }
  assert (get_node g5 perm = Some (reroute proj p ndp)) as Hp5.
  { rewrite Hsame5; [done|]. rewrite He'. intros Hx.
    apply list_elem_of_filter in Hx as [_ Hx].
    destruct (is_perm_proj_elim _ _ _ (Hprojs _ Hx)) as (? & ? & ? & _).
    congruence. }
  unfold be_Perm_reduce in Hpush. rewrite Hp5 in Hpush. obind Hpush.
  rewrite Hins in Hpush.
  destruct (mapM (fun i => irn_in ndp !! i) map_) as [new_in|] eqn:Enew;
    obind Hpush; [|done].
  injection Hpush as <-.
  set (g6 := update_node g5 perm (fun nd => set_in nd new_in)).
  apply mapM_Some in Enew.
  assert (get_node g6 perm = Some (set_in (reroute proj p ndp) new_in)) as Hp6.
  { unfold g6. by rewrite get_node_update_node, bool_decide_eq_true_2, Hp5. }
  assert (perm ∉ new_in) as Hself'.
  { intros Hx. apply list_elem_of_lookup in Hx as [i Hi].
    destruct (Forall2_lookup_r _ _ _ _ _ Enew Hi) as (j & _ & Hj).
    apply Hself. by eapply list_elem_of_lookup_2. }
  intros out Hout.
  apply elem_of_out_edges in Hout as (nd6 & Hn6 & Hin6).
  assert (out <> perm) as Hop'.
  { intros ->. rewrite Hp6 in Hn6. injection Hn6 as <-. done. }
  assert (get_node g5 out = Some nd6) as Hn5.
  { unfold g6 in Hn6.
    by rewrite get_node_update_node, bool_decide_eq_false_2 in Hn6. }
  assert (out ∈ get_irn_out_edges g4 perm) as Hout4.
  { apply elem_of_out_edges.
    destruct (decide (out ∈ get_irn_out_edges g4 perm)) as [Hi|Hni].
    - by apply elem_of_out_edges in Hi.
    - rewrite (Hsame5 out Hni) in Hn5. by exists nd6. }
  destruct (Hin5 out Hout4) as (nd4 & m & Hn4 & Hop4 & Hm & Hn5').
  rewrite Hn5 in Hn5'. injection Hn5' as ->.
  rewrite He' in Hout4. apply list_elem_of_filter in Hout4 as [Hoq Hout0].
  split; [done|]. split; [by apply Hsel|].
  destruct (is_perm_proj_elim _ _ _ (Hprojs _ Hout0)) as (ndo & Ho & Hoop & Holt).
  assert (out <> p) as Hop''.
  { intros ->.
    assert (p ∈ (pre' ++ [p]) ++ perm :: post) as Hpin.
    { apply elem_of_app. left. apply elem_of_app. right. left. }
    destruct (scheduled_in_block_elim _ _ _ (Hin p Hpin))
      as (ndx & Hx & _ & _ & Hxproj & _). congruence. }
  rewrite (Hother out Hoq Hop''), Ho in Hn4. injection Hn4 as <-.
  simpl in Hm.
  assert (irn_proj ndo <> input) as Hnum.
  { intros Heq. apply Hoq.
    eapply (NoDup_fmap_inj_on _ _ _ _ Hnums Hout0 Hproj).
    rewrite Ho. unfold get_Proj_proj in Hpn.
    destruct (get_node g proj) as [ndpr|]; [|done]. simpl in *.
    case_bool_decide; [|done]. injection Hpn as <-. by rewrite Heq. }
  specialize (Hpm (irn_proj ndo) Holt). simpl in Hpm.
  rewrite testbit_single, bool_decide_eq_false_2 in Hpm by done.
  destruct Hpm as (m' & Hm' & Hmap). rewrite Hm in Hm'. injection Hm' as ->.
  simpl in Hmap.
  destruct (Forall2_lookup_l _ _ _ _ _ Enew Hmap) as (y & Hy & Hy').
  unfold selected_input, get_Proj_proj, get_irn_n.
  fold g6. rewrite Hn6, Ho. simpl.
  rewrite !bool_decide_eq_true_2 by done. simpl.
  rewrite Hp6, Hp. simpl. by rewrite Hy, Hy'.
Qed.

Lemma push_through_perm_keeps_selection_witness :
  get_Proj_proj g_shrink 6 = Some 1 /\ get_Proj_proj g_shrunk 6 = Some 0 /\
  forall out, out ∈ get_irn_out_edges g_shrunk 4 ->
    out ∈ get_irn_out_edges g_shrink 4 /\
    is_Some (selected_input g_shrink 4 out) /\
    selected_input g_shrunk 4 out = selected_input g_shrink 4 out.
Proof.
  split; [reflexivity|]. split; [reflexivity|].
  apply (push_through_perm_keeps_selection g_shrink lv_none 4 g_shrunk);
    vm_compute; reflexivity.
Defined.

(** ** A cycle lowered into swaps *)

Lemma alter_set_in_node_regs pairs pidx y :
  Forall2 (fun p p' => in_reg p' = in_reg p /\ out_reg p' = out_reg p /\
                       out_node p' = out_node p)
          pairs (alter (fun p => set_in_node p y) pidx pairs).
Proof.
  revert pidx. induction pairs as [|p rest IH]; intros pidx; [constructor|].
  destruct pidx as [|pidx]; simpl.
  - constructor; [done|]. apply Forall2_same_length_lookup_2; [done|].
    intros i a b H1 H2. rewrite H1 in H2. by injection H2 as <-.
  - constructor; [done|apply IH].
Qed.

Lemma same_pairs_out_node pairs pairs' e :
  Forall2 (fun p p' => in_reg p' = in_reg p /\ out_reg p' = out_reg p /\
                       out_node p' = out_node p) pairs pairs' ->
  get_node_for_out_register pairs' e = get_node_for_out_register pairs e.
Proof.
  induction 1 as [|p p' l l' (_ & Ho & Hn) _ IH]; simpl; [done|].
  by rewrite Ho, Hn, IH.
Qed.

Lemma pairs_after_swaps_start pairs hs es first_new :
  2 <= length es ->
  Forall2 (fun e h => get_node_for_in_register pairs e = Some h) es hs ->
  pairs_after_swaps pairs hs es first_new 0 pairs.
Proof.
  intros Hn Hhs. split.
  - apply Forall2_same_length_lookup_2; [done|].
    intros i a b H1 H2. rewrite H1 in H2. by injection H2 as <-.
  - intros j e He. pose proof (lookup_lt_Some _ _ _ He) as Hlt.
    destruct (Forall2_lookup_l _ _ _ _ _ Hhs He) as (h & Hh & Hl).
    rewrite Hl, Hh.
    destruct (Nat.leb_spec (length es - 1 - 0) j); [|done].
    destruct (Nat.leb_spec j (length es - 2)); [lia|done].
Qed.

Lemma pairs_after_swaps_step pairs hs es first_new t pairs_t pidx e_i :
  NoDup (index <$> es) -> S t < length es ->
  es !! (length es - 2 - t) = Some e_i ->
  pairs_after_swaps pairs hs es first_new t pairs_t ->
  get_pairidx_for_in_regidx pairs_t (index e_i) = Some pidx ->
  pairs_after_swaps pairs hs es first_new (S t)
    (alter (fun p => set_in_node p (swap_proj first_new t)) pidx pairs_t).
Proof.
  intros Hnd Ht He_i [Hregs Hlook] Hpidx.
  set (y := swap_proj first_new t).
  pose proof (alter_set_in_node_regs pairs_t pidx y) as Halt.
  split.
  - apply Forall2_same_length_lookup_2.
    { rewrite length_alter. by eapply Forall2_length. }
    intros i a c Ha Hc.
    destruct (Forall2_lookup_l _ _ _ _ _ Hregs Ha) as (b & Hb & Hb1 & Hb2 & Hb3).
    destruct (Forall2_lookup_l _ _ _ _ _ Halt Hb) as (c' & Hc' & Hc1 & Hc2 & Hc3).
    rewrite Hc in Hc'. injection Hc' as <-. repeat split; congruence.
  - intros j e He. rewrite get_node_for_in_register_pairidx.
    rewrite (same_pairs_in_regidx pairs_t).
    2:{ eapply Forall2_impl; [exact Halt|]. by intros p p' (-> & _). }
    pose proof (get_pairidx_for_in_regidx_first pairs_t (index e_i)) as Hf.
    rewrite Hpidx in Hf. destruct Hf as (pp & Hpp & Hppi & _).
    destruct (decide (j = length es - 2 - t)) as [->|Hne].
    + rewrite He_i in He. injection He as <-. rewrite Hpidx. simpl.
      rewrite list_lookup_alter_eq, Hpp. simpl.
      destruct (Nat.leb_spec (length es - 1 - S t) (length es - 2 - t)); [|lia].
      destruct (Nat.leb_spec (length es - 2 - t) (length es - 2)); [|lia].
      simpl. unfold y. do 2 f_equal. lia.
    + assert (index e <> index e_i) as Hidx.
      { intros Heq. apply Hne.
        eapply NoDup_lookup; [exact Hnd| |].
        - by rewrite list_lookup_fmap, He.
        - rewrite list_lookup_fmap, He_i. simpl. by rewrite Heq. }
      specialize (Hlook j e He). rewrite get_node_for_in_register_pairidx in Hlook.
      pose proof (get_pairidx_for_in_regidx_first pairs_t (index e)) as Hf.
      destruct (get_pairidx_for_in_regidx pairs_t (index e)) as [idx|]; simpl in *.
      * destruct Hf as (pe & Hpe & Hpei & _).
        rewrite list_lookup_alter_ne by (intros ->; congruence).
        rewrite Hlook.
        destruct (Nat.leb_spec (length es - 1 - t) j),
                 (Nat.leb_spec (length es - 1 - S t) j),
                 (Nat.leb_spec j (length es - 2)); simpl; try done; try lia.
      * rewrite Hlook.
        destruct (Nat.leb_spec (length es - 1 - t) j),
                 (Nat.leb_spec (length es - 1 - S t) j),
                 (Nat.leb_spec j (length es - 2)); simpl; try done; try lia.
Qed.

Lemma get_node_for_in_register_idx pairs e h :
  get_node_for_in_register pairs e = Some h ->
  is_Some (get_pairidx_for_in_regidx pairs (index e)).
Proof.
  rewrite get_node_for_in_register_pairidx.
  destruct (get_pairidx_for_in_regidx pairs (index e)); [by eexists|done].
Qed.

Lemma swaps_loop_S i g cls block move pairs sched_point :
  swaps_loop (S i) g cls block move pairs sched_point =
  (e_i ← elems move !! i;
   e_i1 ← elems move !! S i;
   arg1 ← get_node_for_in_register pairs e_i;
   arg2 ← get_node_for_in_register pairs e_i1;
   res1_0 ← get_node_for_out_register pairs e_i;
   res2 ← get_node_for_out_register pairs e_i1;
   let '(xchg, g1) := be_new_Perm g cls block [arg1; arg2] in
   '(res1, g2, pairs') ←
      match i with
      | S _ =>
          pidx ← get_pairidx_for_in_regidx pairs (index e_i);
          mode ← get_irn_mode g1 res1_0;
          '(res1, g2) ← new_r_Proj g1 xchg mode 0;
          Some (res1, g2, alter (fun p => set_in_node p res1) pidx pairs)
      | 0 => Some (res1_0, g1, pairs)
      end;
   g3 ← set_Proj_pred g2 res2 xchg;
   g4 ← set_Proj_proj g3 res2 0;
   g5 ← set_Proj_pred g4 res1 xchg;
   g6 ← set_Proj_proj g5 res1 1;
   let g7 := arch_set_irn_register g6 res2 (Some e_i1) in
   let g8 := arch_set_irn_register g7 res1 (Some e_i) in
   let g9 := sched_add_after g8 (skip_Proj g8 sched_point) xchg in
   swaps_loop i g9 cls block move pairs' res1).
Proof. done. Qed.

Lemma swaps_round g bl irn pre post hs qs pairs pairs_t cls move t i gt sp nsp nsp' :
  let N := length (irg_nodes g) in
  let es := elems move in
  let n := length es in
  let sp' := if bool_decide (irn_op nsp = iro_Proj)
             then default sp (irn_in nsp !! 0) else sp in
  swaps_emitted g bl irn pre post hs qs es t gt ->
  pairs_after_swaps pairs hs es N t pairs_t ->
  NoDup qs -> NoDup (index <$> es) -> length hs = n ->
  (forall q, q ∈ qs -> is_Proj g q = true) ->
  Forall2 (fun e q => get_node_for_out_register pairs e = Some q) es qs ->
  n - 2 - t = S i -> S (S t) < n ->
  get_node gt sp = Some nsp -> get_node gt sp' = Some nsp' ->
  (sp ∉ qs) -> (sp' ∉ qs) ->
  (if bool_decide (irn_op nsp' = iro_Block) then sp' else irn_block nsp') = bl ->
  (if bool_decide (sp' = bl)
   then swap_perm N t :: pre ++ (swap_perm N <$> seq 0 t) ++ irn :: post
   else insert_after sp' (swap_perm N t)
          (pre ++ (swap_perm N <$> seq 0 t) ++ irn :: post))
  = pre ++ (swap_perm N <$> seq 0 (S t)) ++ irn :: post ->
  exists g9 pairs',
    swaps_loop (S (S i)) gt cls bl move pairs_t sp =
    swaps_loop (S i) g9 cls bl move pairs' (swap_proj N t) /\
    swaps_emitted g bl irn pre post hs qs es (S t) g9 /\
    pairs_after_swaps pairs hs es N (S t) pairs'.
Proof.
  intros N es n sp' Hem Hpairs Hndq Hnde Hlh Hproj Hout Hi Ht
         Hsp Hsp' Hspq Hspq' Hspbl Hins.
  destruct Hem as (Hlen & Hsched & Hold & Hnew). fold N n in Hlen, Hsched, Hold, Hnew.
  pose proof Hpairs as [Hregs Hlook]. fold n in Hlook.
  pose proof (Forall2_length _ _ _ Hout) as Hlq. fold n in Hlq.
  destruct (lookup_lt_is_Some_2 es (S i)) as [e_i He_i]; [fold n; lia|].
  destruct (lookup_lt_is_Some_2 es (S (S i))) as [e_i1 He_i1]; [fold n; lia|].
  destruct (lookup_lt_is_Some_2 hs (S i)) as [a1 Ha1]; [lia|].
  destruct (Forall2_lookup_l _ _ _ _ _ Hout He_i) as (q_i & Hq_i & Hres1).
  destruct (Forall2_lookup_l _ _ _ _ _ Hout He_i1) as (q_i1 & Hq_i1 & Hres2).
  assert (get_node_for_in_register pairs_t e_i = Some a1) as Harg1.
  { rewrite (Hlook _ _ He_i).
    destruct (Nat.leb_spec (n - 1 - t) (S i)); [lia|]. done. }
  assert (exists a2, swap_arg2 N hs t = Some a2 /\
            get_node_for_in_register pairs_t e_i1 = Some a2) as (a2 & Ha2 & Harg2).
  { rewrite (Hlook _ _ He_i1).
    destruct (Nat.leb_spec (n - 1 - t) (S (S i))); [|lia].
    destruct t as [|t'].
    - destruct (Nat.leb_spec (S (S i)) (n - 2)); [lia|]. simpl.
      destruct (lookup_lt_is_Some_2 hs (S (S i))) as [a2 Ha2]; [lia|].
      exists a2. split; [|done]. rewrite last_lookup, Hlh.
      by replace (Init.Nat.pred n) with (S (S i)) by lia.
    - destruct (Nat.leb_spec (S (S i)) (n - 2)); [|lia]. simpl.
      exists (swap_proj N t'). split; [done|]. do 2 f_equal. lia. }
  destruct (get_node_for_in_register_idx _ _ _ Harg1) as [pidx Hpidx].
  rewrite <- (same_pairs_out_node pairs pairs_t) in Hres1, Hres2 by done.
  (* the nodes the round works on *)
  assert (forall q, q ∈ qs -> q < N) as HqN.
  { intros q Hq. specialize (Hproj q Hq). unfold is_Proj, has_op in Hproj.
    destruct (get_node g q) eqn:E; [|done]. by eapply lookup_lt_Some. }
  assert (exists nd1, get_node g q_i = Some nd1 /\ get_node gt q_i = Some nd1)
    as (nd1 & Hg1 & Hgt1).
  { assert (q_i ∈ qs) as Hin by (by eapply list_elem_of_lookup_2).
    specialize (Hproj _ Hin). unfold is_Proj, has_op in Hproj.
    destruct (get_node g q_i) as [nd1|] eqn:E; [|done].
    exists nd1. split; [done|]. rewrite (Hold _ _ E).
    rewrite (list_index_NoDup _ _ _ Hndq Hq_i).
    by destruct (Nat.leb_spec (n - t) (S i)); [lia|]. }
  assert (exists nd2, get_node g q_i1 = Some nd2 /\ get_node gt q_i1 = Some nd2 /\
            irn_op nd2 = iro_Proj) as (nd2 & Hg2 & Hgt2 & Hop2).
  { assert (q_i1 ∈ qs) as Hin by (by eapply list_elem_of_lookup_2).
    specialize (Hproj _ Hin). unfold is_Proj, has_op in Hproj.
    destruct (get_node g q_i1) as [nd2|] eqn:E; [|done].
    apply bool_decide_eq_true in Hproj.
    exists nd2. split; [done|]. split; [|done]. rewrite (Hold _ _ E).
    rewrite (list_index_NoDup _ _ _ Hndq Hq_i1).
    by destruct (Nat.leb_spec (n - t) (S (S i))); [lia|]. }
  assert (q_i1 < N) as Hq1N by (apply HqN; by eapply list_elem_of_lookup_2).
  set (X := swap_perm N t). set (Y := swap_proj N t).
  assert (X = length (irg_nodes gt)) as HX by (unfold X, swap_perm; lia).
  set (ndx := mk_node beo_Perm mode_T bl [a1; a2] 0 None (normal_req cls) 0).
  set (g1 := (add_node gt ndx).2).
  set (ndy := mk_node iro_Proj (irn_mode nd1) bl [X] 0 None (normal_req cls) 0).
  set (g2 := (add_node g1 ndy).2).
  assert (Y = length (irg_nodes g1)) as HY.
  { unfold Y, swap_proj, g1, add_node. simpl. rewrite length_app. simpl. lia. }
  set (g3 := update_node g2 q_i1 (fun nd => set_in nd [X])).
  set (g4 := update_node g3 q_i1 (fun nd => set_proj nd 0)).
  set (g5 := update_node g4 Y (fun nd => set_in nd [X])).
  set (g6 := update_node g5 Y (fun nd => set_proj nd 1)).
  set (g7 := arch_set_irn_register g6 q_i1 (Some e_i1)).
  set (g8 := arch_set_irn_register g7 Y (Some e_i)).
  assert (forall u, get_node g2 u =
            if bool_decide (u = Y) then Some ndy
            else if bool_decide (u = X) then Some ndx else get_node gt u) as Hn2.
  { intros u. unfold g2. rewrite get_node_add_node, <- HY.
    destruct (bool_decide (u = Y)); [done|]. unfold g1. by rewrite get_node_add_node, <- HX. }
  assert (forall u, get_node g8 u =
            if bool_decide (u = Y)
            then Some (set_reg (set_proj (set_in ndy [X]) 1) (Some e_i))
            else if bool_decide (u = X) then Some ndx
            else if bool_decide (u = q_i1)
                 then Some (set_reg (set_proj (set_in nd2 [X]) 0) (Some e_i1))
                 else get_node gt u) as Hn8.
  { intros u. unfold g8, g7, g6, g5, g4, g3, arch_set_irn_register.
    rewrite !get_node_update_node, Hn2.
    assert (Y <> q_i1) by (unfold Y, swap_proj; lia).
    assert (X <> q_i1) by (unfold X, swap_perm; lia).
    assert (X <> Y) by (unfold X, Y, swap_perm, swap_proj; lia).
    destruct (decide (u = Y)) as [->|HuY].
    - rewrite !(bool_decide_eq_true_2 (Y = Y)) by done.
      rewrite !(bool_decide_eq_false_2 (Y = q_i1)) by done. done.
    - rewrite !(bool_decide_eq_false_2 (u = Y)) by done.
      destruct (decide (u = q_i1)) as [->|Huq].
      + rewrite !(bool_decide_eq_true_2 (q_i1 = q_i1)) by done.
        rewrite (bool_decide_eq_false_2 (q_i1 = X)) by done.
        by rewrite Hgt2.
      + rewrite !(bool_decide_eq_false_2 (u = q_i1)) by done. done. }
  assert (irg_sched g8 = irg_sched gt) as Hs8 by done.
  assert (length (irg_nodes g8) = N + 2 * S t) as Hlen8.
  { unfold g8, g7, g6, g5, g4, g3, arch_set_irn_register, update_node. simpl.
    rewrite !length_alter, !length_app. simpl. lia. }
  exists (sched_add_after g8 (skip_Proj g8 sp) X),
         (alter (fun p => set_in_node p Y) pidx pairs_t).
  split; [|split].
  - rewrite (swaps_loop_S (S i)). fold es. rewrite He_i, He_i1. obindg.
    rewrite Harg1, Harg2, Hres1, Hres2. obindg.
    unfold be_new_Perm. fold ndx.
    replace (add_node gt ndx) with (X, g1) by (unfold g1, add_node; by rewrite HX).
    rewrite Hpidx. obindg.
    assert (get_irn_mode g1 q_i = Some (irn_mode nd1)) as ->.
    { unfold get_irn_mode, g1. rewrite get_node_add_node.
      rewrite bool_decide_eq_false_2 by (apply Nat.lt_neq; apply Nat.lt_le_trans with N;
        [apply HqN; by eapply list_elem_of_lookup_2 | lia]).
      by rewrite Hgt1. }
    obindg.
    assert (new_r_Proj g1 X (irn_mode nd1) 0 = Some (Y, g2)) as ->.
    { assert (get_node g1 X = Some ndx) as Hx.
      { unfold g1. rewrite get_node_add_node. by rewrite bool_decide_eq_true_2. }
      unfold new_r_Proj. rewrite Hx. obindg. fold ndy.
      unfold g2, add_node. by rewrite HY. }
    obindg.
    assert (set_Proj_pred g2 q_i1 X = Some g3) as ->.
    { unfold set_Proj_pred. rewrite Hn2.
      rewrite !bool_decide_eq_false_2 by (unfold X, Y, swap_perm, swap_proj; lia).
      rewrite Hgt2. obindg. by rewrite bool_decide_eq_true_2. }
    obindg.
    assert (set_Proj_proj g3 q_i1 0 = Some g4) as ->.
    { unfold set_Proj_proj, g3. rewrite get_node_update_node, Hn2.
      rewrite bool_decide_eq_true_2 by done.
      rewrite !bool_decide_eq_false_2 by (unfold X, Y, swap_perm, swap_proj; lia).
      rewrite Hgt2. obindg. by rewrite bool_decide_eq_true_2. }
    obindg.
    assert (set_Proj_pred g4 Y X = Some g5) as ->.
    { unfold set_Proj_pred, g4, g3. rewrite !get_node_update_node, Hn2.
      rewrite !(bool_decide_eq_false_2 (Y = q_i1)) by (unfold Y, swap_proj; lia).
      rewrite bool_decide_eq_true_2 by done.
      obindg. by rewrite bool_decide_eq_true_2. }
    obindg.
    assert (set_Proj_proj g5 Y 1 = Some g6) as ->.
    { unfold set_Proj_proj, g5, g4, g3. rewrite !get_node_update_node, Hn2.
      rewrite !(bool_decide_eq_false_2 (Y = q_i1)) by (unfold Y, swap_proj; lia).
      rewrite !bool_decide_eq_true_2 by done.
      obindg. by rewrite bool_decide_eq_true_2. }
    obindg. done.
  - assert (forall u, u < length (irg_nodes gt) -> u ∉ qs -> get_node g8 u = get_node gt u)
      as Hsame.
    { intros u Hu Hq. rewrite Hn8.
      rewrite !bool_decide_eq_false_2; [done | | |].
      - intros ->. apply Hq. by eapply list_elem_of_lookup_2.
      - lia.
      - rewrite HY. unfold g1, add_node. simpl. rewrite length_app. simpl. lia. }
    assert (skip_Proj g8 sp = sp') as Hskip.
    { unfold skip_Proj. rewrite Hsame; [by rewrite Hsp | by eapply lookup_lt_Some | done]. }
    assert (sched_block g8 sp' = Some bl) as Hsb.
    { unfold sched_block.
      rewrite Hsame; [rewrite Hsp'; obindg; by rewrite Hspbl
                     | by eapply lookup_lt_Some | done]. }
    rewrite Hskip.
    split; [by rewrite sched_add_after_nodes|]. split; [|split].
    + unfold sched_add_after. rewrite Hsb. cbn [set_sched irg_sched]. unfold sched_list.
      rewrite Hs8, Hsched, lookup_insert_eq. cbn [default].
      rewrite insert_insert_eq. f_equal. exact Hins.
    + intros u nd Hu.
      rewrite (same_nodes_get_node g8) by apply sched_add_after_nodes.
      assert (u < N) as HuN by (by eapply lookup_lt_Some).
      rewrite Hn8. rewrite !(bool_decide_eq_false_2 (u = _))
        by (unfold X, Y, swap_perm, swap_proj; lia).
      destruct (decide (u = q_i1)) as [->|Hne].
      * rewrite bool_decide_eq_true_2 by done.
        rewrite (list_index_NoDup _ _ _ Hndq Hq_i1).
        rewrite Hg2 in Hu. injection Hu as <-.
        unfold rewired_proj. fold es. rewrite He_i1.
        replace (length es - 1 - S (S i)) with t by (unfold n in *; lia).
        by rewrite (proj2 (Nat.leb_le _ _)) by (unfold n in *; lia).
      * rewrite bool_decide_eq_false_2 by done.
        rewrite (Hold _ _ Hu).
        destruct (list_index u qs) as [k|] eqn:Ek; [|done].
        assert (k <> S (S i)) as Hk.
        { intros ->. apply Hne. apply list_index_lookup in Ek. congruence. }
        unfold n in *.
        destruct (Nat.leb_spec (length es - t) k), (Nat.leb_spec (length es - S t) k);
          done || lia.
    + intros j b1 b2 e Hj Hb1 Hb2 He.
      destruct (decide (j = t)) as [->|Hjt].
      * unfold n in *. replace (length es - 2 - t) with (S i) in * by lia.
        pose proof (eq_trans (eq_sym Hb1) Ha1) as Hx1. injection Hx1 as ->.
        pose proof (eq_trans (eq_sym Hb2) Ha2) as Hx2. injection Hx2 as ->.
        pose proof (eq_trans (eq_sym He) He_i) as Hx3. injection Hx3 as ->.
        split.
        -- exists ndx. rewrite (same_nodes_get_node g8) by apply sched_add_after_nodes.
           rewrite Hn8. rewrite bool_decide_eq_false_2
             by (unfold X, Y, swap_perm, swap_proj; lia).
           by rewrite bool_decide_eq_true_2.
        -- exists (set_reg (set_proj (set_in ndy [X]) 1) (Some e_i)).
           rewrite (same_nodes_get_node g8) by apply sched_add_after_nodes.
           rewrite Hn8. by rewrite bool_decide_eq_true_2.
      * destruct (Hnew j b1 b2 e) as [(nda & Hga & Hra) (ndb & Hgb & Hrb)];
          [lia | done | done | done |].
        split.
        -- exists nda. split; [|done].
           rewrite (same_nodes_get_node g8) by apply sched_add_after_nodes.
           rewrite Hn8. rewrite !bool_decide_eq_false_2; [done | | |].
           ++ unfold swap_perm. lia.
           ++ unfold X, swap_perm. lia.
           ++ unfold Y, swap_perm, swap_proj. lia.
        -- exists ndb. split; [|done].
           rewrite (same_nodes_get_node g8) by apply sched_add_after_nodes.
           rewrite Hn8. rewrite !bool_decide_eq_false_2; [done | | |].
           ++ unfold swap_proj. lia.
           ++ unfold X, swap_perm, swap_proj. lia.
           ++ unfold Y, swap_proj. lia.
  - apply pairs_after_swaps_step with (e_i := e_i); try done.
    + unfold n in *. lia.
    + unfold n in *. by replace (length es - 2 - t) with (S i) by lia.
Qed.

Lemma swaps_last_round g bl irn pre post hs qs pairs pairs_t cls move t gt sp nsp nsp' :
  let N := length (irg_nodes g) in
  let es := elems move in
  let n := length es in
  let sp' := if bool_decide (irn_op nsp = iro_Proj)
             then default sp (irn_in nsp !! 0) else sp in
  swaps_emitted g bl irn pre post hs qs es t gt ->
  pairs_after_swaps pairs hs es N t pairs_t ->
  NoDup qs -> length hs = n ->
  (forall q, q ∈ qs -> is_Proj g q = true) ->
  Forall2 (fun e q => get_node_for_out_register pairs e = Some q) es qs ->
  S (S t) = n ->
  get_node gt sp = Some nsp -> get_node gt sp' = Some nsp' ->
  (sp ∉ qs) -> (sp' ∉ qs) ->
  (if bool_decide (irn_op nsp' = iro_Block) then sp' else irn_block nsp') = bl ->
  (if bool_decide (sp' = bl)
   then swap_perm N t :: pre ++ (swap_perm N <$> seq 0 t) ++ irn :: post
   else insert_after sp' (swap_perm N t)
          (pre ++ (swap_perm N <$> seq 0 t) ++ irn :: post))
  = pre ++ (swap_perm N <$> seq 0 (S t)) ++ irn :: post ->
  exists g9 sp9,
    swaps_loop 1 gt cls bl move pairs_t sp = Some (g9, pairs_t, sp9) /\
    length (irg_nodes g9) = N + 2 * n - 3 /\
    irg_sched g9 =
      <[bl := pre ++ (swap_perm N <$> seq 0 (n - 1)) ++ irn :: post]> (irg_sched g) /\
    (forall u nd, get_node g u = Some nd ->
       get_node g9 u =
       Some (match list_index u qs with
             | Some 0 => set_reg (set_proj (set_in nd [swap_perm N (n - 2)]) 1) (es !! 0)
             | Some k => rewired_proj N n es k nd
             | None => nd
             end)) /\
    (forall j a1 a2, j < n - 1 -> hs !! (n - 2 - j) = Some a1 ->
       swap_arg2 N hs j = Some a2 -> is_swap_of g9 bl (swap_perm N j) a1 a2) /\
    (forall j e, j < n - 2 -> es !! (n - 2 - j) = Some e ->
       is_proj_of g9 (swap_proj N j) (swap_perm N j) 1 e).
Proof.
  intros N es n sp' Hem Hpairs Hndq Hlh Hproj Hout Ht
         Hsp Hsp' Hspq Hspq' Hspbl Hins.
  destruct Hem as (Hlen & Hsched & Hold & Hnew). fold N n in Hlen, Hsched, Hold, Hnew.
  pose proof Hpairs as [Hregs Hlook]. fold n in Hlook.
  pose proof (Forall2_length _ _ _ Hout) as Hlq. fold n in Hlq.
  destruct (lookup_lt_is_Some_2 es 0) as [e_0 He_0]; [fold n; lia|].
  destruct (lookup_lt_is_Some_2 es 1) as [e_1 He_1]; [fold n; lia|].
  destruct (lookup_lt_is_Some_2 hs 0) as [a1 Ha1]; [lia|].
  destruct (Forall2_lookup_l _ _ _ _ _ Hout He_0) as (q_0 & Hq_0 & Hres1).
  destruct (Forall2_lookup_l _ _ _ _ _ Hout He_1) as (q_1 & Hq_1 & Hres2).
  assert (get_node_for_in_register pairs_t e_0 = Some a1) as Harg1.
  { rewrite (Hlook _ _ He_0).
    destruct (Nat.leb_spec (n - 1 - t) 0); [lia|]. done. }
  assert (exists a2, swap_arg2 N hs t = Some a2 /\
            get_node_for_in_register pairs_t e_1 = Some a2) as (a2 & Ha2 & Harg2).
  { rewrite (Hlook _ _ He_1).
    destruct (Nat.leb_spec (n - 1 - t) 1); [|lia].
    destruct t as [|t'].
    - destruct (Nat.leb_spec 1 (n - 2)); [lia|]. simpl.
      destruct (lookup_lt_is_Some_2 hs 1) as [a2 Ha2]; [lia|].
      exists a2. split; [|done]. rewrite last_lookup, Hlh.
      by replace (Init.Nat.pred n) with 1 by lia.
    - destruct (Nat.leb_spec 1 (n - 2)); [|lia]. simpl.
      exists (swap_proj N t'). split; [done|]. do 2 f_equal. lia. }
  rewrite <- (same_pairs_out_node pairs pairs_t) in Hres1, Hres2 by done.
  assert (forall q, q ∈ qs -> q < N) as HqN.
  { intros q Hq. specialize (Hproj q Hq). unfold is_Proj, has_op in Hproj.
    destruct (get_node g q) eqn:E; [|done]. by eapply lookup_lt_Some. }
  assert (forall k q, k < 2 -> qs !! k = Some q ->
            exists nd, get_node g q = Some nd /\ get_node gt q = Some nd /\
                       irn_op nd = iro_Proj) as Hq01.
  { intros k q Hk Hq.
    assert (q ∈ qs) as Hin by (by eapply list_elem_of_lookup_2).
    specialize (Hproj _ Hin). unfold is_Proj, has_op in Hproj.
    destruct (get_node g q) as [nd|] eqn:E; [|done].
    apply bool_decide_eq_true in Hproj.
    exists nd. split; [done|]. split; [|done]. rewrite (Hold _ _ E).
    rewrite (list_index_NoDup _ _ _ Hndq Hq).
    by destruct (Nat.leb_spec (n - t) k); [lia|]. }
  destruct (Hq01 0 q_0) as (nd1 & Hg1 & Hgt1 & Hop1); [lia|done|].
  destruct (Hq01 1 q_1) as (nd2 & Hg2 & Hgt2 & Hop2); [lia|done|].
  assert (q_0 < N) as Hq0N by (apply HqN; by eapply list_elem_of_lookup_2).
  assert (q_1 < N) as Hq1N by (apply HqN; by eapply list_elem_of_lookup_2).
  assert (q_0 <> q_1) as Hq01ne.
  { intros Heq. rewrite <- Heq in Hq_1.
    pose proof (NoDup_lookup _ _ _ _ Hndq Hq_0 Hq_1). lia. }
  set (X := swap_perm N t).
  assert (X = length (irg_nodes gt)) as HX by (unfold X, swap_perm; lia).
  set (ndx := mk_node beo_Perm mode_T bl [a1; a2] 0 None (normal_req cls) 0).
  set (g1 := (add_node gt ndx).2).
  set (g3 := update_node g1 q_1 (fun nd => set_in nd [X])).
  set (g4 := update_node g3 q_1 (fun nd => set_proj nd 0)).
  set (g5 := update_node g4 q_0 (fun nd => set_in nd [X])).
  set (g6 := update_node g5 q_0 (fun nd => set_proj nd 1)).
  set (g7 := arch_set_irn_register g6 q_1 (Some e_1)).
  set (g8 := arch_set_irn_register g7 q_0 (Some e_0)).
  assert (forall u, get_node g1 u =
            if bool_decide (u = X) then Some ndx else get_node gt u) as Hn1.
  { intros u. unfold g1. by rewrite get_node_add_node, <- HX. }
  assert (forall u, get_node g8 u =
            if bool_decide (u = q_0)
            then Some (set_reg (set_proj (set_in nd1 [X]) 1) (Some e_0))
            else if bool_decide (u = q_1)
                 then Some (set_reg (set_proj (set_in nd2 [X]) 0) (Some e_1))
                 else if bool_decide (u = X) then Some ndx
                      else get_node gt u) as Hn8.
  { intros u. unfold g8, g7, g6, g5, g4, g3, arch_set_irn_register.
    rewrite !get_node_update_node, Hn1.
    assert (X <> q_0) by (unfold X, swap_perm; lia).
    assert (X <> q_1) by (unfold X, swap_perm; lia).
    destruct (decide (u = q_0)) as [->|Hu0].
    - rewrite !(bool_decide_eq_true_2 (q_0 = q_0)) by done.
      rewrite !(bool_decide_eq_false_2 (q_0 = q_1)) by done.
      rewrite (bool_decide_eq_false_2 (q_0 = X)) by done.
      by rewrite Hgt1.
    - rewrite !(bool_decide_eq_false_2 (u = q_0)) by done.
      destruct (decide (u = q_1)) as [->|Hu1].
      + rewrite !(bool_decide_eq_true_2 (q_1 = q_1)) by done.
        rewrite (bool_decide_eq_false_2 (q_1 = X)) by done.
        by rewrite Hgt2.
      + rewrite !(bool_decide_eq_false_2 (u = q_1)) by done. done. }
  assert (irg_sched g8 = irg_sched gt) as Hs8 by done.
  assert (length (irg_nodes g8) = N + 2 * n - 3) as Hlen8.
  { unfold g8, g7, g6, g5, g4, g3, arch_set_irn_register, update_node. simpl.
    rewrite !length_alter, !length_app. simpl. lia. }
  assert (forall u, u < length (irg_nodes gt) -> u ∉ qs -> get_node g8 u = get_node gt u)
    as Hsame.
  { intros u Hu Hq. rewrite Hn8.
    rewrite !bool_decide_eq_false_2; [done | | |].
    - lia.
    - intros ->. apply Hq. by eapply list_elem_of_lookup_2.
    - intros ->. apply Hq. by eapply list_elem_of_lookup_2. }
  assert (skip_Proj g8 sp = sp') as Hskip.
  { unfold skip_Proj. rewrite Hsame; [by rewrite Hsp | by eapply lookup_lt_Some | done]. }
  assert (sched_block g8 sp' = Some bl) as Hsb.
  { unfold sched_block.
    rewrite Hsame; [rewrite Hsp'; obindg; by rewrite Hspbl
                   | by eapply lookup_lt_Some | done]. }
  exists (sched_add_after g8 sp' X), q_0.
  split; [|split; [|split; [|split; [|split]]]].
  - rewrite (swaps_loop_S 0). fold es. rewrite He_0, He_1. obindg.
    rewrite Harg1, Harg2, Hres1, Hres2. obindg.
    unfold be_new_Perm. fold ndx.
    replace (add_node gt ndx) with (X, g1) by (unfold g1, add_node; by rewrite HX).
    obindg.
    assert (set_Proj_pred g1 q_1 X = Some g3) as ->.
    { unfold set_Proj_pred. rewrite Hn1.
      rewrite !bool_decide_eq_false_2 by (unfold X, swap_perm; lia).
      rewrite Hgt2. obindg. by rewrite bool_decide_eq_true_2. }
    obindg.
    assert (set_Proj_proj g3 q_1 0 = Some g4) as ->.
    { unfold set_Proj_proj, g3. rewrite get_node_update_node, Hn1.
      rewrite bool_decide_eq_true_2 by done.
      rewrite !bool_decide_eq_false_2 by (unfold X, swap_perm; lia).
      rewrite Hgt2. obindg. by rewrite bool_decide_eq_true_2. }
    obindg.
    assert (set_Proj_pred g4 q_0 X = Some g5) as ->.
    { unfold set_Proj_pred, g4, g3. rewrite !get_node_update_node, Hn1.
      rewrite !(bool_decide_eq_false_2 (q_0 = q_1)) by done.
      rewrite !bool_decide_eq_false_2 by (unfold X, swap_perm; lia).
      rewrite Hgt1. obindg. by rewrite bool_decide_eq_true_2. }
    obindg.
    assert (set_Proj_proj g5 q_0 1 = Some g6) as ->.
    { unfold set_Proj_proj, g5, g4, g3. rewrite !get_node_update_node, Hn1.
      rewrite !(bool_decide_eq_false_2 (q_0 = q_1)) by done.
      rewrite bool_decide_eq_true_2 by done.
      rewrite !bool_decide_eq_false_2 by (unfold X, swap_perm; lia).
      rewrite Hgt1. obindg. by rewrite bool_decide_eq_true_2. }
    obindg. fold g7 g8. by rewrite Hskip.
  - by rewrite sched_add_after_nodes.
  - unfold sched_add_after. rewrite Hsb. cbn [set_sched irg_sched]. unfold sched_list.
    rewrite Hs8, Hsched, lookup_insert_eq. cbn [default].
    rewrite insert_insert_eq. f_equal.
    replace (n - 1) with (S t) by lia. exact Hins.
  - intros u nd Hu.
    rewrite (same_nodes_get_node g8) by apply sched_add_after_nodes.
    assert (u < N) as HuN by (by eapply lookup_lt_Some).
    rewrite Hn8.
    destruct (decide (u = q_0)) as [->|Hne0].
    { rewrite bool_decide_eq_true_2 by done.
      rewrite (list_index_NoDup _ _ _ Hndq Hq_0).
      rewrite Hg1 in Hu. injection Hu as <-. fold es. rewrite He_0.
      unfold X. by replace (n - 2) with t by lia. }
    rewrite bool_decide_eq_false_2 by done.
    destruct (decide (u = q_1)) as [->|Hne1].
    { rewrite bool_decide_eq_true_2 by done.
      rewrite (list_index_NoDup _ _ _ Hndq Hq_1).
      rewrite Hg2 in Hu. injection Hu as <-.
      unfold rewired_proj. fold es. rewrite He_1.
      unfold X. by replace (n - 1 - 1) with t by lia. }
    rewrite bool_decide_eq_false_2 by done.
    rewrite bool_decide_eq_false_2 by (unfold X, swap_perm; lia).
    rewrite (Hold _ _ Hu).
    destruct (list_index u qs) as [k|] eqn:Ek; [|done].
    apply list_index_lookup in Ek.
    destruct k as [|[|k]]; [congruence | congruence |].
    unfold n in *. by destruct (Nat.leb_spec (length es - t) (S (S k))); [|lia].
  - intros j b1 b2 Hj Hb1 Hb2.
    destruct (decide (j = t)) as [->|Hjt].
    + unfold n in *. replace (length es - 2 - t) with 0 in * by lia.
      pose proof (eq_trans (eq_sym Hb1) Ha1) as Hx1. injection Hx1 as ->.
      pose proof (eq_trans (eq_sym Hb2) Ha2) as Hx2. injection Hx2 as ->.
      exists ndx. rewrite (same_nodes_get_node g8) by apply sched_add_after_nodes.
      rewrite Hn8. rewrite !bool_decide_eq_false_2 by (unfold X, swap_perm; lia).
      by rewrite bool_decide_eq_true_2.
    + destruct (lookup_lt_is_Some_2 es (n - 2 - j)) as [e He]; [fold n; lia|].
      destruct (Hnew j b1 b2 e) as [(nda & Hga & Hra) _]; [lia | done | done | done |].
      exists nda. split; [|done].
      rewrite (same_nodes_get_node g8) by apply sched_add_after_nodes.
      rewrite Hn8. rewrite !bool_decide_eq_false_2; [done | | |].
      * unfold X, swap_perm. lia.
      * unfold swap_perm. lia.
      * unfold swap_perm. lia.
  - intros j e Hj He.
    destruct (lookup_lt_is_Some_2 hs (n - 2 - j)) as [b1 Hb1]; [lia|].
    assert (is_Some (swap_arg2 N hs j)) as [b2 Hb2].
    { destruct j as [|j']; simpl; [|by eexists].
      rewrite last_lookup. apply lookup_lt_is_Some_2. lia. }
    destruct (Hnew j b1 b2 e) as [_ (ndb & Hgb & Hrb)]; [lia | done | done | done |].
    exists ndb. split; [|done].
    rewrite (same_nodes_get_node g8) by apply sched_add_after_nodes.
    rewrite Hn8. rewrite !bool_decide_eq_false_2; [done | | |].
    * unfold X, swap_perm, swap_proj. lia.
    * unfold swap_proj. lia.
    * unfold swap_proj. lia.
Qed.

Lemma swaps_emitted_start g bl irn pre post hs qs es :
  sched_list g bl = pre ++ irn :: post -> length qs = length es ->
  swaps_emitted g bl irn pre post hs qs es 0 g.
Proof.
  intros Hl Hlq. split; [simpl; lia|]. split; [|split].
  - simpl. symmetry. apply insert_id. apply sched_list_lookup; [done|].
    by destruct pre.
  - intros u nd Hu. rewrite Hu. f_equal.
    destruct (list_index u qs) as [k|] eqn:Ek; [|done].
    apply list_index_lt_length in Ek.
    by destruct (Nat.leb_spec (length es - 0) k); [lia|].
  - intros j a1 a2 e Hj. lia.
Qed.

(** After a round that is not the last one the schedule point is the
    new Proj; the next exchange node is put behind its Perm. *)
Lemma swaps_next_sched_point g bl irn pre post hs qs es t gt :
  let N := length (irg_nodes g) in
  let n := length es in
  swaps_emitted g bl irn pre post hs qs es (S t) gt ->
  length hs = n -> S (S t) <= n ->
  (forall q, q ∈ qs -> q < N) -> (forall x, x ∈ pre -> x < N) -> bl < N ->
  exists nsp nsp',
    let sp := swap_proj N t in
    let sp' := if bool_decide (irn_op nsp = iro_Proj)
               then default sp (irn_in nsp !! 0) else sp in
    get_node gt sp = Some nsp /\ get_node gt sp' = Some nsp' /\
    (sp ∉ qs) /\ (sp' ∉ qs) /\
    (if bool_decide (irn_op nsp' = iro_Block) then sp' else irn_block nsp') = bl /\
    (if bool_decide (sp' = bl)
     then swap_perm N (S t) :: pre ++ (swap_perm N <$> seq 0 (S t)) ++ irn :: post
     else insert_after sp' (swap_perm N (S t))
            (pre ++ (swap_perm N <$> seq 0 (S t)) ++ irn :: post))
    = pre ++ (swap_perm N <$> seq 0 (S (S t))) ++ irn :: post.
Proof.
  intros N n (Hlen & Hsched & Hold & Hnew) Hlh Ht HqN Hpre HblN.
  fold N n in Hnew.
  destruct (lookup_lt_is_Some_2 hs (n - 2 - t)) as [a1 Ha1]; [lia|].
  destruct (lookup_lt_is_Some_2 es (n - 2 - t)) as [e He]; [fold n; lia|].
  assert (is_Some (swap_arg2 N hs t)) as [a2 Ha2].
  { destruct t as [|t']; simpl; [|by eexists].
    rewrite last_lookup. apply lookup_lt_is_Some_2. lia. }
  destruct (Hnew t a1 a2 e) as [(nda & Hga & Hopa & Hina & Hbla)
                                  (ndb & Hgb & Hopb & Hinb & _)]; [lia|done..|].
  exists ndb, nda. cbn zeta.
  rewrite (bool_decide_eq_true_2 _ Hopb), Hinb. simpl default.
  split; [done|]. split; [done|]. split; [|split; [|split]].
  - intros Hin. specialize (HqN _ Hin). unfold swap_proj in HqN. lia.
  - intros Hin. specialize (HqN _ Hin). unfold swap_perm in HqN. lia.
  - rewrite bool_decide_eq_false_2; [done|]. rewrite Hopa. done.
  - rewrite bool_decide_eq_false_2 by (unfold swap_perm; lia).
    rewrite (seq_S (S t)), (seq_S t), !fmap_app. simpl.
    rewrite <- !app_assoc. simpl.
    rewrite !(app_assoc pre). apply insert_after_middle.
    intros Hin. apply elem_of_app in Hin as [Hin|Hin].
    + specialize (Hpre _ Hin). unfold swap_perm in Hpre. lia.
    + apply list_elem_of_fmap in Hin as (j & Hj & Hin).
      apply elem_of_seq in Hin. unfold swap_perm in Hj. lia.
Qed.

(** The loop of [split_cycle_into_swaps] from round [t] on. *)
Lemma swaps_loop_rounds g bl irn pre post hs qs pairs cls move :
  let N := length (irg_nodes g) in
  let es := elems move in
  let n := length es in
  NoDup qs -> NoDup (index <$> es) -> length hs = n ->
  (forall q, q ∈ qs -> is_Proj g q = true) ->
  Forall2 (fun e q => get_node_for_out_register pairs e = Some q) es qs ->
  (forall x, x ∈ pre -> x < N) -> bl < N ->
  forall i t gt pairs_t sp,
    swaps_emitted g bl irn pre post hs qs es t gt ->
    pairs_after_swaps pairs hs es N t pairs_t ->
    S (S (t + i)) = n ->
    (exists nsp nsp',
       let sp' := if bool_decide (irn_op nsp = iro_Proj)
                  then default sp (irn_in nsp !! 0) else sp in
       get_node gt sp = Some nsp /\ get_node gt sp' = Some nsp' /\
       (sp ∉ qs) /\ (sp' ∉ qs) /\
       (if bool_decide (irn_op nsp' = iro_Block) then sp' else irn_block nsp') = bl /\
       (if bool_decide (sp' = bl)
        then swap_perm N t :: pre ++ (swap_perm N <$> seq 0 t) ++ irn :: post
        else insert_after sp' (swap_perm N t)
               (pre ++ (swap_perm N <$> seq 0 t) ++ irn :: post))
       = pre ++ (swap_perm N <$> seq 0 (S t)) ++ irn :: post) ->
    exists g9 pairs9 sp9,
      swaps_loop (S i) gt cls bl move pairs_t sp = Some (g9, pairs9, sp9) /\
      pairs_after_swaps pairs hs es N (n - 2) pairs9 /\
      length (irg_nodes g9) = N + 2 * n - 3 /\
      irg_sched g9 =
        <[bl := pre ++ (swap_perm N <$> seq 0 (n - 1)) ++ irn :: post]> (irg_sched g) /\
      (forall u nd, get_node g u = Some nd ->
         get_node g9 u =
         Some (match list_index u qs with
               | Some 0 => set_reg (set_proj (set_in nd [swap_perm N (n - 2)]) 1) (es !! 0)
               | Some k => rewired_proj N n es k nd
               | None => nd
               end)) /\
      (forall j a1 a2, j < n - 1 -> hs !! (n - 2 - j) = Some a1 ->
         swap_arg2 N hs j = Some a2 -> is_swap_of g9 bl (swap_perm N j) a1 a2) /\
      (forall j e, j < n - 2 -> es !! (n - 2 - j) = Some e ->
         is_proj_of g9 (swap_proj N j) (swap_perm N j) 1 e).
Proof.
  intros N es n Hndq Hnde Hlh Hproj Hout Hpre HblN.
  assert (forall q, q ∈ qs -> q < N) as HqN.
  { intros q Hq. specialize (Hproj q Hq). unfold is_Proj, has_op in Hproj.
    destruct (get_node g q) eqn:E; [|done]. by eapply lookup_lt_Some. }
  induction i as [|i IH]; intros t gt pairs_t sp Hem Hpairs Hn
    (nsp & nsp' & Hsp & Hsp' & Hspq & Hspq' & Hspbl & Hins).
  - destruct (swaps_last_round g bl irn pre post hs qs pairs pairs_t cls move t
                gt sp nsp nsp') as (g9 & sp9 & Hloop & Hrest); try done.
    { fold es n. lia. }
    exists g9, pairs_t, sp9. split; [done|]. split; [|done].
    fold n. by replace (n - 2) with t by lia.
  - destruct (swaps_round g bl irn pre post hs qs pairs pairs_t cls move t i
                gt sp nsp nsp') as (g9 & pairs' & Hloop & Hem9 & Hpairs9); try done.
    { fold es n. lia. }
    { fold es n. lia. }
    destruct (swaps_next_sched_point g bl irn pre post hs qs es t g9)
      as (msp & msp' & Hm); try done.
    { fold n. lia. }
    destruct (IH (S t) g9 pairs' (swap_proj N t) Hem9 Hpairs9) as (g' & pairs'' & sp'' & Hloop' & Hrest).
    { lia. }
    { exists msp, msp'. exact Hm. }
    exists g', pairs'', sp''. split; [|done].
    rewrite Hloop. exact Hloop'.
Qed.

(** [split_cycle_into_swaps] returns; the graph it returns holds the
    [n - 1] exchange nodes in front of the Perm and the Projs of the
    cycle hang off them. *)
Lemma split_cycle_into_swaps_spec g irn move pairs hs qs bl pre post in0 reg0 :
  let N := length (irg_nodes g) in
  let es := elems move in
  let n := n_elems move in
  perm_ok g irn = true ->
  get_nodes_block g irn = Some bl ->
  sched_list g bl = pre ++ irn :: post ->
  get_irn_n g irn 0 = Some in0 -> arch_get_irn_register g in0 = Some reg0 ->
  move_type move = PERM_CYCLE -> 2 <= n ->
  NoDup (index <$> es) ->
  mapM (get_node_for_in_register pairs) es = Some hs ->
  mapM (get_node_for_out_register pairs) es = Some qs ->
  cycle_nodes_ok g irn hs qs = true ->
  exists g' pairs',
    split_cycle_into_swaps g irn move pairs = Some (g', pairs') /\
    pairs_after_swaps pairs hs es N (n - 2) pairs' /\
    length (irg_nodes g') = N + 2 * n - 3 /\
    irg_sched g' =
      <[bl := pre ++ (swap_perm N <$> seq 0 (n - 1)) ++ irn :: post]> (irg_sched g) /\
    (forall u nd, get_node g u = Some nd ->
       get_node g' u =
       Some (match list_index u qs with
             | Some 0 => set_reg (set_proj (set_in nd [swap_perm N (n - 2)]) 1) (es !! 0)
             | Some k => rewired_proj N n es k nd
             | None => nd
             end)) /\
    (forall j a1 a2, j < n - 1 -> hs !! (n - 2 - j) = Some a1 ->
       swap_arg2 N hs j = Some a2 -> is_swap_of g' bl (swap_perm N j) a1 a2) /\
    (forall j e, j < n - 2 -> es !! (n - 2 - j) = Some e ->
       is_proj_of g' (swap_proj N j) (swap_perm N j) 1 e).
Proof.
  intros N es n Hok Hblk Hl Hin0 Hreg0 Hty Hn Hnde Hhs Hqs Hcyc.
  destruct (perm_ok_schedule _ _ _ _ _ Hok Hblk Hl)
    as (ndp & Hp & -> & Hop & Hbl & Hnd & Hin & Hprev).
  apply mapM_Some in Hhs, Hqs.
  pose proof (Forall2_length _ _ _ Hhs) as Hlh.
  pose proof (Forall2_length _ _ _ Hqs) as Hlq.
  assert (length es = n) as Hen by done.
  destruct (cycle_nodes_ok_elim _ _ _ _ Hcyc) as (Hndq & HqN & Hh & Hproj).
  assert (irn_block ndp < N) as HblN.
  { unfold is_Block, has_op in Hbl.
    destruct (get_node g (irn_block ndp)) eqn:E; [|done]. by eapply lookup_lt_Some. }
  assert (forall x, x ∈ pre -> x < N) as Hpre.
  { intros x Hx.
    destruct (scheduled_in_block_elim g (irn_block ndp) x) as (ndx & Hx' & _).
    - apply Hin, elem_of_app. by left.
    - by eapply lookup_lt_Some. }
  set (sp := default (irn_block ndp) (last pre)) in *.
  (* the schedule point of the first round *)
  assert (exists nsp, get_node g sp = Some nsp /\ irn_op nsp <> iro_Proj /\
            (if bool_decide (irn_op nsp = iro_Block) then sp else irn_block nsp)
              = irn_block ndp /\
            (if bool_decide (sp = irn_block ndp)
             then swap_perm N 0 :: pre ++ (swap_perm N <$> seq 0 0) ++ irn :: post
             else insert_after sp (swap_perm N 0)
                    (pre ++ (swap_perm N <$> seq 0 0) ++ irn :: post))
            = pre ++ (swap_perm N <$> seq 0 1) ++ irn :: post)
    as (nsp & Hnsp & Hspop & Hspbl & Hins).
  { unfold sp. destruct pre as [|p pre' _] using rev_ind.
    - simpl default. unfold is_Block, has_op in Hbl.
      destruct (get_node g (irn_block ndp)) as [ndb|] eqn:Eb; [|done].
      apply bool_decide_eq_true in Hbl. exists ndb.
      rewrite Hbl, !bool_decide_eq_true_2 by done.
      repeat split; done.
    - rewrite last_snoc. simpl default.
      destruct (scheduled_in_block_elim g (irn_block ndp) p)
        as (ndx & Hx & Hxb & Hxop & Hxproj & _).
      { apply Hin. apply elem_of_app. left. apply elem_of_app. right. left. }
      exists ndx. rewrite bool_decide_eq_false_2 by done.
      assert (p <> irn_block ndp) as Hpbl.
      { intros ->. unfold is_Block, has_op in Hbl. rewrite Hx in Hbl.
        by apply bool_decide_eq_true in Hbl. }
      rewrite bool_decide_eq_false_2 by done.
      repeat split; [done..|]. simpl.
      rewrite <- !app_assoc. simpl. apply insert_after_middle.
      rewrite <- app_assoc in Hnd. apply NoDup_app in Hnd as (_ & Hd & _).
      intros Hx'. apply (Hd _ Hx'). left. }
  assert (sp ∉ qs) as Hspq.
  { intros Hq. destruct (Hproj _ Hq) as [HqProj _].
    unfold is_Proj, has_op in HqProj. rewrite Hnsp in HqProj.
    by apply bool_decide_eq_true in HqProj. }
  destruct (swaps_loop_rounds g (irn_block ndp) irn pre post hs qs pairs
              (reg_class reg0) move Hndq Hnde)
    with (i := n - 2) (t := 0) (gt := g) (pairs_t := pairs) (sp := sp)
    as (g' & pairs' & sp9 & Hloop & Hrest); try done.
  { intros q Hq. by destruct (Hproj q Hq). }
  { apply swaps_emitted_start; [done|]. by rewrite <- Hlq. }
  { apply pairs_after_swaps_start; [fold es; lia | done]. }
  { fold es. lia. }
  { exists nsp, nsp. cbn zeta. rewrite (bool_decide_eq_false_2 _ Hspop).
    repeat split; done. }
  exists g', pairs'. split; [|exact Hrest].
  unfold split_cycle_into_swaps, get_nodes_block. rewrite Hin0. obindg.
  rewrite Hreg0. obindg. rewrite Hp. obindg. rewrite Hprev. obindg.
  rewrite bool_decide_eq_true_2 by done.
  replace (n_elems move - 1) with (S (n - 2)) by (fold n; lia).
  fold sp. rewrite Hloop. done.
Qed.

(** X16: a cycle of n >= 2 registers r_0 .. r_(n-1) for which no scratch
    register is free (or which has only two registers) is lowered into
    n-1 exchange nodes (Perms with two inputs), the far end of the cycle
    first: round j = 0 .. n-2 swaps r_(n-2-j) and r_(n-1-j); its first
    input is the holder of r_(n-2-j), its second the holder of r_(n-1)
    in round 0 and afterwards the new Proj of the round before.  Every
    round but the last adds one Proj, result 1 of its exchange node in
    r_(n-2-j), which is recorded as the in node of the pair that reads
    that register.  No Proj of the old Perm is exchanged or killed: the
    Proj of r_k, k >= 1, becomes result 0 of the exchange node of round
    n-1-k, the Proj of r_0 result 1 of the last one; all other nodes
    stay as they are.  So 2n-3 nodes are added, and the exchange nodes
    stand in the schedule in the order of their creation between the
    predecessor of the Perm and the Perm. *)
Theorem cycle_lowered_into_swaps g fm irn move pairs hs qs bl pre post in0 reg0 :
  let N := length (irg_nodes g) in
  let es := elems move in
  let n := n_elems move in
  perm_ok g irn = true ->
  get_nodes_block g irn = Some bl ->
  sched_list g bl = pre ++ irn :: post ->
  get_irn_n g irn 0 = Some in0 -> arch_get_irn_register g in0 = Some reg0 ->
  move_type move = PERM_CYCLE -> 2 <= n ->
  get_free_register fm irn = None \/ n = 2 ->
  NoDup (index <$> es) ->
  mapM (get_node_for_in_register pairs) es = Some hs ->
  mapM (get_node_for_out_register pairs) es = Some qs ->
  cycle_nodes_ok g irn hs qs = true ->
  exists g' pairs',
    reduce_perm_size g fm irn move pairs = Some (g', pairs') /\
    length (irg_nodes g') = N + 2 * n - 3 /\
    sched_list g' bl = pre ++ (swap_perm N <$> seq 0 (n - 1)) ++ irn :: post /\
    (forall j a1 a2, j < n - 1 -> hs !! (n - 2 - j) = Some a1 ->
       swap_arg2 N hs j = Some a2 -> is_swap_of g' bl (swap_perm N j) a1 a2) /\
    (forall j e, j < n - 2 -> es !! (n - 2 - j) = Some e ->
       is_proj_of g' (swap_proj N j) (swap_perm N j) 1 e) /\
    (forall k q e, qs !! S k = Some q -> es !! S k = Some e ->
       is_proj_of g' q (swap_perm N (n - 2 - k)) 0 e) /\
    (forall q e, qs !! 0 = Some q -> es !! 0 = Some e ->
       is_proj_of g' q (swap_perm N (n - 2)) 1 e) /\
    (forall u nd, get_node g u = Some nd -> u ∉ qs -> get_node g' u = Some nd) /\
    pairs_after_swaps pairs hs es N (n - 2) pairs'.
Proof.
  intros N es n Hok Hblk Hl Hin0 Hreg0 Hty Hn Hfree Hnde Hhs Hqs Hcyc.
  destruct (split_cycle_into_swaps_spec g irn move pairs hs qs bl pre post in0 reg0)
    as (g' & pairs' & Hsplit & Hpairs & Hlen & Hsched & Hold & Hswap & Hnew);
    try done.
  fold N es n in Hpairs, Hlen, Hsched, Hold, Hswap, Hnew.
  destruct (cycle_nodes_ok_elim _ _ _ _ Hcyc) as (Hndq & _ & _ & Hproj).
  assert (forall k q, qs !! k = Some q ->
            exists nd, get_node g q = Some nd /\ irn_op nd = iro_Proj /\
                       list_index q qs = Some k) as Hq.
  { intros k q Hk. destruct (Hproj q) as [HP _]; [by eapply list_elem_of_lookup_2|].
    unfold is_Proj, has_op in HP. destruct (get_node g q) as [nd|]; [|done].
    apply bool_decide_eq_true in HP. exists nd.
    by rewrite (list_index_NoDup _ _ _ Hndq Hk). }
  exists g', pairs'. split; [|split; [done|split; [|split; [done|split; [done|]]]]].
  - unfold reduce_perm_size. rewrite Hty.
    destruct Hfree as [-> | Hn2]; [done|].
    destruct (get_free_register fm irn); [|done].
    fold n. by rewrite Hn2.
  - unfold sched_list. by rewrite Hsched, lookup_insert_eq.
  - split; [|split; [|split; [|done]]].
    + intros k q e Hk He. destruct (Hq _ _ Hk) as (nd & Hnd & Hopq & Hidx).
      exists (rewired_proj N n es (S k) nd).
      rewrite (Hold _ _ Hnd), Hidx. split; [done|].
      unfold rewired_proj. simpl. rewrite He.
      repeat split; [done|]. do 2 f_equal. lia.
    + intros q e Hk He. destruct (Hq _ _ Hk) as (nd & Hnd & Hopq & Hidx).
      eexists. rewrite (Hold _ _ Hnd), Hidx. split; [done|].
      simpl. by rewrite He.
    + intros u nd Hu Hnq. rewrite (Hold _ _ Hu).
      destruct (list_index u qs) as [k|] eqn:Ek; [|done].
      by apply list_index_Some_elem in Ek.
Qed.

(** Scenario "three-cycle" with no scratch register: the exchange node 9
    swaps b and c, its result 1 (the new Proj 10) is r2; the exchange
    node 11 swaps a and that Proj; the old Projs hang off the two
    exchange nodes and the old Perm is still scheduled. *)
Lemma cycle_lowered_into_swaps_witness :
  exists g' pairs',
    reduce_perm_size g_cycle3 ∅ 4 move_cycle3 (set_checked <$> pairs_cycle3)
      = Some (g', pairs') /\
    length (irg_nodes g') = 12 /\
    sched_list g' 0 = [1; 2; 3; 9; 11; 4; 8] /\
    is_swap_of g' 0 9 2 3 /\ is_proj_of g' 10 9 1 r2 /\
    is_swap_of g' 0 11 1 10 /\
    is_proj_of g' 6 9 0 r3 /\ is_proj_of g' 7 11 0 r2 /\ is_proj_of g' 5 11 1 r1 /\
    get_node g' 4 = Some (perm_node 0 [1; 2; 3]) /\
    get_node_for_in_register pairs' r2 = Some 10.
Proof.
  destruct (cycle_lowered_into_swaps g_cycle3 ∅ 4 move_cycle3
              (set_checked <$> pairs_cycle3) [1; 2; 3] [5; 7; 6] 0 [1; 2; 3] [8] 1 r1)
    as (g' & pairs' & Hred & Hlen & Hsl & Hswap & Hnew & Hrew & Hrew0 & Hold & Hpairs);
    try (vm_compute; reflexivity).
  { vm_compute. lia. }
  { by left. }
  { apply (bool_decide_unpack _). vm_compute. exact I. }
  exists g', pairs'. repeat split.
  - exact Hred.
  - exact Hlen.
  - exact Hsl.
  - exact (Hswap 0 2 3 ltac:(vm_compute; lia) eq_refl eq_refl).
  - exact (Hnew 0 r2 ltac:(vm_compute; lia) eq_refl).
  - exact (Hswap 1 1 10 ltac:(vm_compute; lia) eq_refl eq_refl).
  - exact (Hrew 1 6 r3 eq_refl eq_refl).
  - exact (Hrew 0 7 r2 eq_refl eq_refl).
  - exact (Hrew0 5 r1 eq_refl eq_refl).
  - apply Hold; [reflexivity|]. apply (bool_decide_unpack _). vm_compute. exact I.
  - destruct Hpairs as [_ Hlook]. exact (Hlook 1 r2 eq_refl).
Defined.

(** ** The pattern that keeps two registers different *)

Lemma insert_before_middle b x pre post :
  b ∉ pre -> insert_before b x (pre ++ b :: post) = pre ++ x :: b :: post.
Proof.
  induction pre as [|y pre IH]; simpl; intros Hb.
  - by rewrite bool_decide_eq_true_2.
  - rewrite bool_decide_eq_false_2 by (intros ->; apply Hb; left).
    rewrite IH; [done|]. intros H. apply Hb. by right.
Qed.

Lemma find_copy_from_elem g before op c :
  find_copy_from g before op = Some c ->
  c ∈ before /\ be_get_Copy_op g c = Some op.
Proof.
  induction before as [|x rest IH]; simpl; [done|].
  destruct (negb (be_is_Copy g x)); [done|].
  destruct (bool_decide (be_get_Copy_op g x = Some op)) eqn:Eop; simpl.
  - destruct (arch_irn_is g x arch_irn_flags_dont_spill).
    + intros [= <-]. split; [left|]. by apply bool_decide_eq_true in Eop.
    + intros H. destruct (IH H). split; [by right|done].
  - intros H. destruct (IH H). split; [by right|done].
Qed.

(** The nodes, the schedule and the environment after one call of
    [gen_assure_different_pattern] for an operand that asks for a
    pattern. *)
Lemma gen_assure_different_pattern_shape g env irn d nd_d bl pre post :
  let N := length (irg_nodes g) in
  let s := skip_Proj g irn in
  let cls := req_cls (irn_req nd_d) in
  get_node g d = Some nd_d ->
  arch_irn_is_ignore nd_d = false -> mode_is_datab (irn_mode nd_d) = true ->
  get_nodes_block g irn = Some bl -> is_Block g bl = true ->
  sched_list g bl = pre ++ s :: post ->
  NoDup (pre ++ s :: post) ->
  forallb (scheduled_in_block g bl) (pre ++ s :: post) = true ->
  exists g' env',
    gen_assure_different_pattern g env irn d = Some (g', env') /\
    match find_copy_from g (reverse pre) d with
    | Some c =>
        exists nd_c, get_node g c = Some nd_c /\ c ∈ pre /\
          irg_nodes g' = irg_nodes g ++
            [mk_node beo_CopyKeep (irn_mode nd_c) bl [c; irn] 0 None
                     (normal_req (req_cls (irn_req nd_c))) 0] /\
          irg_sched g' = <[bl := pre ++ s :: N :: post]> (irg_sched g) /\
          env' = env_add_copy (env_add_copy env d cls c) d cls N
    | None =>
        irg_nodes g' = irg_nodes g ++
          [mk_node beo_Copy (irn_mode nd_d) bl [d] 0 None (normal_req cls)
                   arch_irn_flags_dont_spill;
           mk_node beo_CopyKeep (irn_mode nd_d) bl [N; irn] 0 None
                   (normal_req cls) 0] /\
        irg_sched g' = <[bl := pre ++ N :: s :: S N :: post]> (irg_sched g) /\
        env' = env_add_copy (env_add_copy env d cls N) d cls (S N)
    end.
Proof.
  intros N s cls Hd Hign Hdatab Hblk Hbl Hl Hnd Hsched.
  rewrite forallb_forall in Hsched.
  assert (forall x, x ∈ pre ++ s :: post -> scheduled_in_block g bl x = true) as Hin.
  { intros x Hx. apply Hsched. by apply list_elem_of_In. }
  destruct (scheduled_in_block_elim g bl s)
    as (nds & Hs & Hsb & Hsop & Hsproj & Hsbl).
  { apply Hin, elem_of_app. right. left. }
  assert (s <> bl) as Hsne.
  { intros Heq. unfold is_Block, has_op in Hbl. rewrite <- Heq, Hs in Hbl.
    by apply bool_decide_eq_true in Hbl. }
  assert (s ∉ pre) as Hspre.
  { apply NoDup_app in Hnd as (_ & Hd' & _). intros Hx. apply (Hd' _ Hx). left. }
  assert (forall x, x ∈ pre ++ s :: post -> x < N) as HltN.
  { intros x Hx. destruct (scheduled_in_block_elim g bl x (Hin x Hx)) as (ndx & Hx' & _).
    by eapply lookup_lt_Some. }
  assert (is_Some (get_node g irn)) as Hirn.
  { unfold get_nodes_block in Hblk. by destruct (get_node g irn). }
  assert (find_copy g s d = Some (find_copy_from g (reverse pre) d)) as Hfind.
  { unfold find_copy, sched_before. rewrite Hsbl. obindg.
    rewrite Hl, (list_index_app_r _ _ _ Hspre). obindg.
    by rewrite take_app_length. }
  unfold gen_assure_different_pattern. rewrite Hd. obindg.
  rewrite Hign, Hdatab. simpl. rewrite Hblk. obindg. fold s. rewrite Hfind. obindg.
  destruct (find_copy_from g (reverse pre) d) as [c|] eqn:Efound.
  - (* an unspillable copy is there *)
    destruct (find_copy_from_elem _ _ _ _ Efound) as [Hc Hcop].
    rewrite elem_of_reverse in Hc.
    destruct (scheduled_in_block_elim g bl c) as (nd_c & Hgc & Hcb & _ & _ & Hcbl).
    { apply Hin, elem_of_app. by left. }
    obindg.
    rewrite (get_irn_n_has_users g c 0 d Hcop).
    unfold be_new_CopyKeep_single. rewrite Hgc. obindg.
    match goal with |- context [add_node g ?nd] => set (ndk := nd) end.
    set (g2 := (add_node g ndk).2).
    assert (extends g g2) as He2 by apply extends_add_node.
    replace (add_node g ndk) with (N, g2) by done. obindg.
    assert (skip_Proj g2 irn = s) as Hskip by (by apply extends_skip_Proj).
    assert (sched_list g2 bl = pre ++ s :: post) as Hl2 by done.
    assert (sched_is_scheduled g2 s = true) as Hss.
    { unfold sched_is_scheduled. rewrite (extends_sched_block _ _ _ _ He2 Hsbl), Hl2.
      apply bool_decide_eq_true, elem_of_app. right. left. }
    assert (sched_is_scheduled g2 c = true) as Hcs.
    { unfold sched_is_scheduled. rewrite (extends_sched_block _ _ _ _ He2 Hcbl), Hl2.
      apply bool_decide_eq_true, elem_of_app. by left. }
    unfold sched_is_scheduled_value. rewrite Hskip, Hss, Hcs. cbn [negb]. rewrite !Hskip.
    assert (be_is_CopyKeep (sched_add_after g2 s N) N = true) as ->.
    { unfold be_is_CopyKeep, has_op.
      rewrite (same_nodes_get_node g2) by apply sched_add_after_nodes.
      unfold g2. rewrite get_node_add_node, bool_decide_eq_true_2 by done. done. }
    eexists _, _. split; [done|].
    exists nd_c. split; [done|]. split; [done|]. split; [|split; [|done]].
    + by rewrite sched_add_after_nodes.
    + unfold sched_add_after. rewrite (extends_sched_block _ _ _ _ He2 Hsbl).
      cbn [set_sched irg_sched]. rewrite Hl2.
      rewrite bool_decide_eq_false_2 by done.
      by rewrite insert_after_middle.
  - (* a new copy is made *)
    unfold be_new_Copy. rewrite Hd. obindg.
    match goal with |- context [add_node g ?nd] => set (ndc := nd) end.
    replace (add_node g ndc) with ((add_node g ndc).1, (add_node g ndc).2)
      by (by destruct (add_node g ndc)).
    obindg. rewrite arch_set_irn_flags_new.
    set (ndc' := set_flags ndc arch_irn_flags_dont_spill).
    set (g1 := (add_node g ndc').2).
    change (add_node g ndc).1 with N.
    assert (extends g g1) as He1 by apply extends_add_node.
    assert (get_node g1 N = Some ndc') as HgN.
    { unfold g1. by rewrite get_node_add_node, bool_decide_eq_true_2. }
    assert (has_irn_users g1 d = true) as ->.
    { apply has_irn_users_spec. exists N, ndc'. split; [done|]. left. }
    unfold be_new_CopyKeep_single. rewrite HgN. obindg.
    match goal with |- context [add_node g1 ?nd] => set (ndk := nd) end.
    set (g2 := (add_node g1 ndk).2).
    assert (length (irg_nodes g1) = S N) as Hlen1.
    { unfold g1, add_node. simpl. rewrite length_app. simpl. lia. }
    replace (add_node g1 ndk) with (S N, g2)
      by (unfold g2, add_node; by rewrite Hlen1).
    obindg.
    assert (extends g g2) as He2.
    { eapply extends_trans; [exact He1|apply extends_add_node]. }
    assert (skip_Proj g2 irn = s) as Hskip by (by apply extends_skip_Proj).
    assert (sched_list g2 bl = pre ++ s :: post) as Hl2 by done.
    assert (sched_is_scheduled g2 s = true) as Hss.
    { unfold sched_is_scheduled. rewrite (extends_sched_block _ _ _ _ He2 Hsbl), Hl2.
      apply bool_decide_eq_true, elem_of_app. right. left. }
    assert (get_node g2 N = Some ndc') as HgN2.
    { unfold g2. rewrite get_node_add_node, bool_decide_eq_false_2 by lia. done. }
    assert (sched_is_scheduled g2 N = false) as Hns.
    { unfold sched_is_scheduled, sched_block. rewrite HgN2. simpl.
      rewrite Hl2. apply bool_decide_eq_false. intros Hx.
      specialize (HltN _ Hx). lia. }
    unfold sched_is_scheduled_value. rewrite Hskip, Hss, Hns. cbn [negb]. rewrite ?Hskip.
    set (g3 := sched_add_before g2 s N).
    assert (irg_nodes g3 = irg_nodes g2) as Hn3 by apply sched_add_before_nodes.
    assert (skip_Proj g3 irn = s) as Hskip3.
    { by rewrite (same_nodes_skip_Proj g2). }
    rewrite Hskip3.
    assert (irg_sched g3 = <[bl := pre ++ N :: s :: post]> (irg_sched g)) as Hs3.
    { unfold g3, sched_add_before. rewrite (extends_sched_block _ _ _ _ He2 Hsbl).
      cbn [set_sched irg_sched]. rewrite Hl2.
      rewrite bool_decide_eq_false_2 by done.
      by rewrite insert_before_middle. }
    assert (be_is_CopyKeep (sched_add_after g3 s (S N)) (S N) = true) as ->.
    { unfold be_is_CopyKeep, has_op.
      rewrite (same_nodes_get_node g3) by apply sched_add_after_nodes.
      rewrite (same_nodes_get_node g2 g3) by done.
      unfold g2. rewrite get_node_add_node, bool_decide_eq_true_2 by done. done. }
    eexists _, _. split; [done|].
    split; [|split; [|done]].
    + rewrite sched_add_after_nodes, Hn3. unfold g2, g1, add_node. simpl.
      by rewrite <- app_assoc.
    + unfold sched_add_after.
      rewrite (same_nodes_sched_block g2 g3) by done.
      rewrite (extends_sched_block _ _ _ _ He2 Hsbl).
      cbn [set_sched irg_sched]. unfold sched_list. rewrite Hs3, lookup_insert_eq.
      cbn [default]. rewrite bool_decide_eq_false_2 by done.
      rewrite insert_insert_eq. f_equal.
      replace (pre ++ N :: s :: post) with ((pre ++ [N]) ++ s :: post)
        by (by rewrite <- app_assoc).
      unfold id. rewrite insert_after_middle; [by rewrite <- app_assoc|].
      intros Hx. apply elem_of_app in Hx as [Hx|Hx]; [done|].
      apply list_elem_of_singleton in Hx.
      apply lookup_lt_Some in Hs. fold N in Hs. lia.
Qed.

(** X17: the pattern [gen_assure_different_pattern] builds for a node
    and an operand it must differ from (not ignorable, of a data mode)
    never holds a plain Keep.  When a Copy of the operand that must not
    be spilled stands among the Copy nodes directly in front of the node,
    that Copy is used again: one node is added, a CopyKeep of the Copy
    and the node, scheduled directly behind the node.  Otherwise two
    nodes are added: a Copy of the operand, flagged as not to be
    spilled and scheduled directly in front of the node, and a CopyKeep
    of that Copy and the node, scheduled directly behind the node.  In
    both cases the Copy and the CopyKeep are recorded for the operand in
    the environment, and no other schedule changes. *)
Theorem different_pattern_shape g env irn d nd_d bl pre post :
  let N := length (irg_nodes g) in
  let s := skip_Proj g irn in
  let cls := req_cls (irn_req nd_d) in
  get_node g d = Some nd_d ->
  arch_irn_is_ignore nd_d = false -> mode_is_datab (irn_mode nd_d) = true ->
  get_nodes_block g irn = Some bl -> is_Block g bl = true ->
  sched_list g bl = pre ++ s :: post ->
  NoDup (pre ++ s :: post) ->
  forallb (scheduled_in_block g bl) (pre ++ s :: post) = true ->
  exists g' env',
    gen_assure_different_pattern g env irn d = Some (g', env') /\
    match find_copy_from g (reverse pre) d with
    | Some c =>
        exists nd_c, get_node g c = Some nd_c /\ c ∈ pre /\
          irg_nodes g' = irg_nodes g ++
            [mk_node beo_CopyKeep (irn_mode nd_c) bl [c; irn] 0 None
                     (normal_req (req_cls (irn_req nd_c))) 0] /\
          irg_sched g' = <[bl := pre ++ s :: N :: post]> (irg_sched g) /\
          env' = env_add_copy (env_add_copy env d cls c) d cls N
    | None =>
        irg_nodes g' = irg_nodes g ++
          [mk_node beo_Copy (irn_mode nd_d) bl [d] 0 None (normal_req cls)
                   arch_irn_flags_dont_spill;
           mk_node beo_CopyKeep (irn_mode nd_d) bl [N; irn] 0 None
                   (normal_req cls) 0] /\
        irg_sched g' = <[bl := pre ++ N :: s :: S N :: post]> (irg_sched g) /\
        env' = env_add_copy (env_add_copy env d cls N) d cls (S N)
    end.
Proof. apply gen_assure_different_pattern_shape. Qed.

(** In [g_copied] the unspillable Copy 2 of [d] stands in front of [N]
    (node 3): only the CopyKeep 4 of that Copy and [N] is added, behind
    [N].  In [g_differ] there is no such Copy: the Copy 3 of [d] is put
    in front of [N] (node 2) and the CopyKeep 4 behind it. *)
Lemma different_pattern_shape_witness :
  (exists g' env',
     gen_assure_different_pattern g_copied (mk_cenv ∅) 3 1 = Some (g', env') /\
     exists nd_c, get_node g_copied 2 = Some nd_c /\ 2 ∈ [1; 2] /\
       irg_nodes g' = irg_nodes g_copied ++
         [mk_node beo_CopyKeep (irn_mode nd_c) 0 [2; 3] 0 None
                  (normal_req (req_cls (irn_req nd_c))) 0] /\
       irg_sched g' = <[0 := [1; 2; 3; 4]]> (irg_sched g_copied) /\
       env' = env_add_copy (env_add_copy (mk_cenv ∅) 1 0 2) 1 0 4) /\
  (exists g' env',
     gen_assure_different_pattern g_differ (mk_cenv ∅) 2 1 = Some (g', env') /\
     irg_nodes g' = irg_nodes g_differ ++
       [mk_node beo_Copy mode_Iu 0 [1] 0 None (normal_req 0)
                arch_irn_flags_dont_spill;
        mk_node beo_CopyKeep mode_Iu 0 [3; 2] 0 None (normal_req 0) 0] /\
     irg_sched g' = <[0 := [1; 3; 2; 4]]> (irg_sched g_differ) /\
     env' = env_add_copy (env_add_copy (mk_cenv ∅) 1 0 3) 1 0 4).
Proof.
  split.
  - apply (different_pattern_shape g_copied (mk_cenv ∅) 3 1 (ins_node 0 [] r1)
             0 [1; 2] []); try reflexivity.
    apply (bool_decide_unpack _). vm_compute. exact I.
  - apply (different_pattern_shape g_differ (mk_cenv ∅) 2 1 (ins_node 0 [] r1)
             0 [1] []); try reflexivity.
    apply (bool_decide_unpack _). vm_compute. exact I.
Defined.

(** ** The patterns of a node that must be different *)

Lemma extends_scheduled_in_block g g' bl x :
  extends g g' -> scheduled_in_block g bl x = true ->
  scheduled_in_block g' bl x = true.
Proof.
  intros He. unfold scheduled_in_block.
  destruct (get_node g x) as [nd|] eqn:E; [|done].
  by rewrite (extends_get_node _ _ _ _ He E).
Qed.

Lemma NoDup_insert_middle (x : nat) l1 l2 :
  NoDup (l1 ++ l2) -> x ∉ l1 ++ l2 -> NoDup (l1 ++ x :: l2).
Proof.
  intros Hnd Hx. rewrite <- Permutation_middle. by apply NoDup_cons.
Qed.

Lemma elem_of_insert_middle (x y : nat) l1 l2 :
  x ∈ l1 ++ y :: l2 -> x = y \/ x ∈ l1 ++ l2.
Proof.
  rewrite !elem_of_app, elem_of_cons. tauto.
Qed.

(** One call of [gen_assure_different_pattern] for an operand that asks
    for a pattern emits the pattern and leaves the schedule of the block
    in the shape the next call needs. *)
Lemma gen_assure_different_pattern_step g env irn d nd_d bl pre post :
  get_node g d = Some nd_d ->
  arch_irn_is_ignore nd_d = false -> mode_is_datab (irn_mode nd_d) = true ->
  get_nodes_block g irn = Some bl -> is_Block g bl = true ->
  sched_list g bl = pre ++ skip_Proj g irn :: post ->
  NoDup (pre ++ skip_Proj g irn :: post) ->
  forallb (scheduled_in_block g bl) (pre ++ skip_Proj g irn :: post) = true ->
  exists g' env' pre' post',
    gen_assure_different_pattern g env irn d = Some (g', env') /\
    pattern_emitted g env irn bl d g' env' /\
    extends g g' /\
    sched_list g' bl = pre' ++ skip_Proj g' irn :: post' /\
    NoDup (pre' ++ skip_Proj g' irn :: post') /\
    forallb (scheduled_in_block g' bl) (pre' ++ skip_Proj g' irn :: post') = true.
Proof.
  intros Hd Hign Hdatab Hblk Hbl Hl Hnd Hsched.
  destruct (gen_assure_different_pattern_shape g env irn d nd_d bl pre post)
    as (g' & env' & Hgen & Hshape); try done.
  set (N := length (irg_nodes g)) in *.
  set (s := skip_Proj g irn) in *.
  assert (forall x, x ∈ pre ++ s :: post -> scheduled_in_block g bl x = true) as Hin.
  { intros x Hx. rewrite forallb_forall in Hsched. apply Hsched.
    by apply list_elem_of_In. }
  assert (forall x, x ∈ pre ++ s :: post -> x < N) as HltN.
  { intros x Hx. destruct (scheduled_in_block_elim g bl x (Hin x Hx)) as (ndx & Hx' & _).
    by eapply lookup_lt_Some. }
  assert (s ∉ pre) as Hspre.
  { apply NoDup_app in Hnd as (_ & Hd' & _). intros Hx. apply (Hd' _ Hx). left. }
  assert (is_Some (get_node g irn)) as Hirn.
  { unfold get_nodes_block in Hblk. by destruct (get_node g irn). }
  assert (forall extra, irg_nodes g' = irg_nodes g ++ extra ->
            extends g g' /\ skip_Proj g' irn = s) as Hext.
  { intros extra He. assert (extends g g') as Hx by (by exists extra).
    split; [done|]. by apply extends_skip_Proj. }
  assert (forall pre' post' extra,
            irg_nodes g' = irg_nodes g ++ extra ->
            irg_sched g' = <[bl := pre' ++ s :: post']> (irg_sched g) ->
            NoDup (pre' ++ s :: post') ->
            (forall x, x ∈ pre' ++ s :: post' -> scheduled_in_block g' bl x = true) ->
            extends g g' /\
            sched_list g' bl = pre' ++ skip_Proj g' irn :: post' /\
            NoDup (pre' ++ skip_Proj g' irn :: post') /\
            forallb (scheduled_in_block g' bl)
              (pre' ++ skip_Proj g' irn :: post') = true) as Hpack.
  { intros pre' post' extra He Hs Hnd' Hall.
    destruct (Hext extra He) as [Hx ->]. split; [done|].
    split; [unfold sched_list; by rewrite Hs, lookup_insert_eq|].
    split; [done|]. apply forallb_forall. intros x Hx'.
    apply Hall. by apply list_elem_of_In. }
  exists g', env'.
  destruct (find_copy_from g (reverse pre) d) as [c|] eqn:Efound.
  - destruct Hshape as (nd_c & Hgc & Hc & Hnodes & Hs & Henv).
    exists pre, (N :: post). split; [done|]. split.
    { exists nd_d, pre, post. fold N s. rewrite Efound.
      split; [done|]. split; [done|]. split; [done|].
      exists nd_c. repeat split; try done.
      pose proof (find_copy_from_spec g d (reverse pre)) as Hspec.
      rewrite Efound in Hspec. by destruct Hspec as (? & ? & _ & ? & _). }
    assert (extends g g') as Hx by (by eexists).
    eapply Hpack; [exact Hnodes|exact Hs| |].
    + replace (pre ++ s :: N :: post) with ((pre ++ [s]) ++ N :: post)
        by (by rewrite <- app_assoc).
      apply NoDup_insert_middle; rewrite <- app_assoc; [done|].
      intros HN. specialize (HltN _ HN). lia.
    + intros x Hxin.
      replace (pre ++ s :: N :: post) with ((pre ++ [s]) ++ N :: post) in Hxin
        by (by rewrite <- app_assoc).
      apply elem_of_insert_middle in Hxin as [->|Hxin].
      * unfold scheduled_in_block, get_node. rewrite Hnodes.
        rewrite lookup_app_r by done. fold N. rewrite Nat.sub_diag. simpl.
        by rewrite bool_decide_eq_true_2.
      * rewrite <- app_assoc in Hxin.
        apply (extends_scheduled_in_block g); [done|by apply Hin].
  - destruct Hshape as (Hnodes & Hs & Henv).
    exists (pre ++ [N]), (S N :: post). split; [done|]. split.
    { exists nd_d, pre, post. fold N s. rewrite Efound. done. }
    assert (extends g g') as Hx by (by eexists).
    assert (NoDup (pre ++ N :: s :: post)) as Hnd1.
    { apply NoDup_insert_middle; [done|].
      intros HN. specialize (HltN _ HN). lia. }
    eapply Hpack; [exact Hnodes|by rewrite <- app_assoc| |].
    + rewrite <- app_assoc. simpl.
      replace (pre ++ N :: s :: S N :: post) with ((pre ++ [N; s]) ++ S N :: post)
        by (by rewrite <- app_assoc).
      apply NoDup_insert_middle; rewrite <- app_assoc; [done|]. simpl.
      intros HN. apply elem_of_insert_middle in HN as [HN|HN]; [lia|].
      specialize (HltN _ HN). lia.
    + intros x Hxin. rewrite <- app_assoc in Hxin. simpl in Hxin.
      apply elem_of_insert_middle in Hxin as [->|Hxin].
      { unfold scheduled_in_block, get_node. rewrite Hnodes.
        rewrite lookup_app_r by done. fold N. rewrite Nat.sub_diag. simpl.
        by rewrite bool_decide_eq_true_2. }
      replace (pre ++ s :: S N :: post) with ((pre ++ [s]) ++ S N :: post) in Hxin
        by (by rewrite <- app_assoc).
      apply elem_of_insert_middle in Hxin as [->|Hxin].
      { unfold scheduled_in_block, get_node. rewrite Hnodes.
        rewrite lookup_app_r by (fold N; lia). fold N.
        replace (S N - N) with 1 by lia. simpl.
        by rewrite bool_decide_eq_true_2. }
      rewrite <- app_assoc in Hxin.
      apply (extends_scheduled_in_block g); [done|by apply Hin].
Qed.

Lemma omap_none {A B} (f : A -> option B) (l : list A) :
  (forall x, x ∈ l -> f x = None) -> omap f l = [].
Proof.
  induction l as [|x l IH]; intros H; [done|]. simpl.
  rewrite (H x) by left. fold (omap f l). apply IH.
  intros y Hy. apply H. by right.
Qed.

(** The loop of [assure_different_constraints]: it returns, and what it
    does is one pattern after the other for the operands that ask for
    one. *)
Lemma assure_each_bit_patterns g0 irn skipped M bl :
  (0 <= M < 2 ^ 31)%Z ->
  (forall j, Z.testbit M (Z.of_nat j) = true ->
     exists d, get_irn_n g0 skipped j = Some d /\ is_Some (get_node g0 d)) ->
  forall todo i g env pre post,
    i + todo = 32 -> i <= 31 ->
    extends g0 g ->
    get_nodes_block g irn = Some bl -> is_Block g bl = true ->
    sched_list g bl = pre ++ skip_Proj g irn :: post ->
    NoDup (pre ++ skip_Proj g irn :: post) ->
    forallb (scheduled_in_block g bl) (pre ++ skip_Proj g irn :: post) = true ->
    exists g' env',
      assure_each_bit todo g env irn skipped M i = Some (g', env') /\
      patterns_emitted g env irn bl
        (omap (fun j => if needs_pattern g0 skipped M j
                        then get_irn_n g0 skipped j else None) (seq i todo))
        g' env'.
Proof.
  intros HM Hins.
  set (f := fun j => if needs_pattern g0 skipped M j
                     then get_irn_n g0 skipped j else None).
  induction todo as [|todo IH];
    intros i g env pre post Hsum Hi He Hblk Hbl Hl Hnd Hsched.
  { lia. }
  cbn [assure_each_bit].
  destruct (Z.leb_spec (Z.shiftl 1 (Z.of_nat i)) M) as [Hle|Hgt].
  - assert (i < 31) as Hi'.
    { rewrite Z.shiftl_1_l in Hle.
      destruct (decide (i < 31)) as [|Hge]; [done|].
      assert (2 ^ 31 <= 2 ^ Z.of_nat i)%Z by (apply Z.pow_le_mono_r; lia). lia. }
    cbn [seq omap list_omap].
    fold (omap f (seq (S i) todo)).
    destruct (Z.testbit M (Z.of_nat i)) eqn:Eb.
    + destruct (Hins _ Eb) as (d & Hd & [ndo Hndo]).
      assert (get_irn_n g skipped i = Some d) as ->.
      { unfold get_irn_n in *.
        destruct (get_node g0 skipped) as [nds|] eqn:Es; [|done].
        by rewrite (extends_get_node _ _ _ _ He Es). }
      assert (get_node g d = Some ndo) as Hgd by (by eapply extends_get_node).
      assert (f i = if negb (arch_irn_is_ignore ndo) && mode_is_datab (irn_mode ndo)
                    then Some d else None) as ->.
      { unfold f, needs_pattern. rewrite Eb, Hd. simpl. rewrite Hndo.
        by destruct (negb (arch_irn_is_ignore ndo) && mode_is_datab (irn_mode ndo)). }
      obindg.
      destruct (arch_irn_is_ignore ndo) eqn:Ei;
        [|destruct (mode_is_datab (irn_mode ndo)) eqn:Em]; simpl.
      * unfold gen_assure_different_pattern. rewrite Hgd. obindg. rewrite Ei. simpl.
        apply (IH (S i) g env pre post); try done; lia.
      * destruct (gen_assure_different_pattern_step g env irn d ndo bl pre post)
          as (g1 & env1 & pre1 & post1 & -> & Hpat & He1 & Hl1 & Hnd1 & Hs1);
          try done.
        obindg.
        destruct (IH (S i) g1 env1 pre1 post1) as (g' & env' & Hloop & Hrest);
          try done; try lia.
        { by eapply extends_trans. }
        { unfold get_nodes_block in *.
          destruct (get_node g irn) as [ndi|] eqn:Egi; [|done].
          by rewrite (extends_get_node _ _ _ _ He1 Egi). }
        { unfold is_Block, has_op in *.
          destruct (get_node g bl) as [ndb|] eqn:Egb; [|done].
          by rewrite (extends_get_node _ _ _ _ He1 Egb). }
        exists g', env'. split; [done|]. by exists g1, env1.
      * unfold gen_assure_different_pattern. rewrite Hgd. obindg.
        rewrite Ei, Em. simpl.
        apply (IH (S i) g env pre post); try done; lia.
    + assert (f i = None) as ->.
      { unfold f. by rewrite needs_pattern_unset. }
      obindg. apply (IH (S i) g env pre post); try done; lia.
  - exists g, env. split; [done|].
    rewrite omap_none; [done|].
    intros j Hj. apply elem_of_seq in Hj. unfold f.
    rewrite needs_pattern_unset; [done|].
    apply (testbit_below M i j); lia.
Qed.

(** C8, amended: for a scheduled node N that must be different over
    mask M: if it also should be the same over mask S, and M and S are
    single-bit masks selecting the same input node, nothing is generated
    (graph and environment are unchanged).  Otherwise one copy/keep
    pattern is generated for each set bit of M whose input is neither
    ignorable nor without a datab mode, in the order of the bits, and
    nothing at all for the other set bits: each pattern is a Copy of the
    input that must not be spilled, scheduled directly in front of N
    (or such a Copy that [find_copy] meets there already), and a
    CopyKeep of that Copy and N, scheduled directly behind N, both
    recorded for the input in the environment.  So only Copy and
    CopyKeep nodes are added, one keep node for each such bit. *)
Theorem assure_different_constraints_patterns g env irn skipped nd bl pre post :
  get_node g irn = Some nd ->
  arch_register_req_is (irn_req nd)
    arch_register_req_type_must_be_different = true ->
  (0 <= other_different (irn_req nd) < 2 ^ 31)%Z ->
  (forall j, Z.testbit (other_different (irn_req nd)) (Z.of_nat j) = true ->
     exists d, get_irn_n g skipped j = Some d /\ is_Some (get_node g d)) ->
  (arch_register_req_is (irn_req nd)
     arch_register_req_type_should_be_same
   && is_po2 (other_different (irn_req nd))
   && is_po2 (other_same (irn_req nd)) = true ->
   is_Some (get_irn_n g skipped (ntz (other_different (irn_req nd)))) /\
   is_Some (get_irn_n g skipped (ntz (other_same (irn_req nd))))) ->
  irn_block nd = bl -> is_Block g bl = true ->
  sched_list g bl = pre ++ skip_Proj g irn :: post ->
  NoDup (pre ++ skip_Proj g irn :: post) ->
  forallb (scheduled_in_block g bl) (pre ++ skip_Proj g irn :: post) = true ->
  exists g' env',
    assure_different_constraints g env irn skipped = Some (g', env') /\
    if same_single_input g skipped (irn_req nd)
    then g' = g /\ env' = env
    else patterns_emitted g env irn bl
           (pattern_inputs g skipped (other_different (irn_req nd))) g' env' /\
         adds_copies_and_keeps g g' /\
         count_keeps g' =
           count_keeps g + count_patterns g skipped (other_different (irn_req nd)).
Proof.
  intros Hnd Hmust HM Hins Hntz Hblk Hbl Hl Hndup Hsched.
  assert (sched_is_scheduled_value g irn = true) as Hs.
  { unfold sched_is_scheduled_value, sched_is_scheduled.
    destruct (scheduled_in_block_elim g bl (skip_Proj g irn))
      as (nds & _ & _ & _ & _ & ->).
    { rewrite forallb_forall in Hsched. apply Hsched.
      apply list_elem_of_In, elem_of_app. right. left. }
    rewrite Hl. apply bool_decide_eq_true, elem_of_app. right. left. }
  unfold assure_different_constraints, same_single_input.
  rewrite Hnd. obindg. rewrite Hmust.
  assert (exists g' env',
            assure_each_bit 32 g env irn skipped
              (other_different (irn_req nd)) 0 = Some (g', env') /\
            patterns_emitted g env irn bl
              (pattern_inputs g skipped (other_different (irn_req nd))) g' env' /\
            adds_copies_and_keeps g g' /\
            count_keeps g' = count_keeps g +
              count_patterns g skipped (other_different (irn_req nd)))
    as (g' & env' & Hloop & Hpat & Ha & Hc).
  { destruct (assure_each_bit_spec g irn skipped _ HM (ex_intro _ nd Hnd) Hins
                32 0 g env) as (g' & env' & Hloop & Ha & Hc);
      [lia | lia | apply adds_refl | done |].
    destruct (assure_each_bit_patterns g irn skipped _ bl HM Hins
                32 0 g env pre post) as (g'' & env'' & Hloop' & Hpat);
      [lia | lia | apply extends_refl | | done..|].
    { unfold get_nodes_block. rewrite Hnd. simpl. by rewrite Hblk. }
    rewrite Hloop in Hloop'. injection Hloop' as <- <-.
    by exists g', env'. }
  destruct (arch_register_req_is (irn_req nd)
              arch_register_req_type_should_be_same
            && is_po2 (other_different (irn_req nd))
            && is_po2 (other_same (irn_req nd))) eqn:Ec.
  - destruct (Hntz eq_refl) as [[a Ea] [b Eb]]. rewrite Ea, Eb. obindg.
    simpl andb. destruct (decide (a = b)) as [->|Hne].
    + rewrite !bool_decide_eq_true_2 by done. by exists g, env.
    + rewrite (bool_decide_eq_false_2 (a = b)) by done.
      rewrite bool_decide_eq_false_2 by congruence.
      by exists g', env'.
  - simpl andb. by exists g', env'.
Qed.

(** Node 2 of [g_differ] must differ from its input 0, the ordinary node
    1: one pattern, for that node.  Node 2 of [g_ignore] must differ from
    its input 0 as well, but that node is ignorable: there is no operand
    that asks for a pattern, and nothing changes. *)
Lemma assure_different_constraints_patterns_witness :
  (exists g' env',
     assure_different_constraints g_differ (mk_cenv ∅) 2 2 = Some (g', env') /\
     patterns_emitted g_differ (mk_cenv ∅) 2 0 [1] g' env' /\
     adds_copies_and_keeps g_differ g' /\
     count_keeps g' = count_keeps g_differ + 1) /\
  (exists g' env',
     assure_different_constraints g_ignore (mk_cenv ∅) 2 2 = Some (g', env') /\
     (g' = g_ignore /\ env' = mk_cenv ∅) /\
     adds_copies_and_keeps g_ignore g' /\
     count_keeps g' = count_keeps g_ignore + 0).
Proof.
  split.
  - apply (assure_different_constraints_patterns g_differ (mk_cenv ∅) 2 2
             (mk_node iro_Generic mode_Iu 0 [1] 0 (Some r2)
                (mk_req arch_register_req_type_must_be_different 0 0 1) 0)
             0 [1] []); try reflexivity.
    + simpl. lia.
    + intros [|j]; simpl.
      * intros _. exists 1. split; [reflexivity | by eexists].
      * intros H. discriminate H.
    + intros H. discriminate H.
    + apply (bool_decide_unpack _). vm_compute. exact I.
  - apply (assure_different_constraints_patterns g_ignore (mk_cenv ∅) 2 2
             (mk_node iro_Generic mode_Iu 0 [1] 0 (Some r2)
                (mk_req arch_register_req_type_must_be_different 0 0 1) 0)
             0 [1] []); try reflexivity.
    + simpl. lia.
    + intros [|j]; simpl.
      * intros _. exists 1. split; [reflexivity | by eexists].
      * intros H. discriminate H.
    + intros H. discriminate H.
    + apply (bool_decide_unpack _). vm_compute. exact I.
Defined.

(** ** A Perm that is one cycle, lowered into swaps *)

Lemma alter_set_in_node_unchecked pairs pidx y :
  get_n_unchecked_pairs (alter (fun p => set_in_node p y) pidx pairs) =
  get_n_unchecked_pairs pairs.
Proof.
  unfold get_n_unchecked_pairs. revert pidx.
  induction pairs as [|p rest IH]; intros pidx; [done|].
  destruct pidx as [|pidx]; simpl.
  - destruct (checked p) eqn:E.
    + rewrite !filter_cons_False by (simpl; by rewrite E). done.
    + rewrite !filter_cons_True by (simpl; by rewrite E). done.
  - destruct (checked p) eqn:E.
    + rewrite !filter_cons_False by (by rewrite E). apply IH.
    + rewrite !filter_cons_True by (by rewrite E).
      cbn [length]. f_equal. apply IH.
Qed.

Lemma swaps_loop_unchecked k : forall g cls bl move pairs sp g' pairs' sp',
  swaps_loop k g cls bl move pairs sp = Some (g', pairs', sp') ->
  get_n_unchecked_pairs pairs' = get_n_unchecked_pairs pairs.
Proof.
  induction k as [|i IH]; intros g cls bl move pairs sp g' pairs' sp' H.
  { by injection H as _ <- _. }
  rewrite swaps_loop_S in H.
  destruct (elems move !! i) as [e_i|]; obind H; [|done].
  destruct (elems move !! S i) as [e_i1|]; obind H; [|done].
  destruct (get_node_for_in_register pairs e_i) as [arg1|]; obind H; [|done].
  destruct (get_node_for_in_register pairs e_i1) as [arg2|]; obind H; [|done].
  destruct (get_node_for_out_register pairs e_i) as [res1_0|]; obind H; [|done].
  destruct (get_node_for_out_register pairs e_i1) as [res2|]; obind H; [|done].
  destruct (be_new_Perm g cls bl [arg1; arg2]) as [xchg g1].
  match type of H with
  | (?m ≫= _) = _ =>
      assert (forall r1 g2 ps, m = Some (r1, g2, ps) ->
                get_n_unchecked_pairs ps = get_n_unchecked_pairs pairs) as Hm
  end.
  { intros r1 g2 ps Hm. destruct i as [|i'].
    - by injection Hm as _ _ <-.
    - destruct (get_pairidx_for_in_regidx pairs (index e_i)) as [pidx|]; obind Hm; [|done].
      destruct (get_irn_mode g1 res1_0) as [mode|]; obind Hm; [|done].
      destruct (new_r_Proj g1 xchg mode 0) as [[r g0]|]; obind Hm; [|done].
      injection Hm as _ _ <-. apply alter_set_in_node_unchecked. }
  match type of H with
  | (?m ≫= _) = _ => destruct m as [[[r1 g2] ps]|] eqn:Em; obind H; [|done]
  end.
  specialize (Hm _ _ _ eq_refl).
  destruct (set_Proj_pred g2 res2 xchg) as [g3|]; obind H; [|done].
  destruct (set_Proj_proj g3 res2 0) as [g4|]; obind H; [|done].
  destruct (set_Proj_pred g4 r1 xchg) as [g5|]; obind H; [|done].
  destruct (set_Proj_proj g5 r1 1) as [g6|]; obind H; [|done].
  rewrite (IH _ _ _ _ _ _ _ _ _ H). exact Hm.
Qed.

(** X18: a Perm with other than two inputs whose pairs form one cycle,
    with no scratch register at hand (or a cycle of two registers), is
    lowered as a whole: [lower_perm_node] returns, the Perm is taken out
    of the schedule and killed, the n-1 exchange nodes stand where it
    stood, and the Projs it had are the results of the exchange nodes:
    the Proj of r_k, k >= 1, is result 0 of the exchange node of round
    n-1-k, the Proj of r_0 result 1 of the last one. *)
Theorem cyclic_perm_lowered_into_swaps
    g fm irn move pairs0 pairs i arity hs qs bl pre post in0 reg0 :
  let N := length (irg_nodes g) in
  let es := elems move in
  let n := n_elems move in
  perm_ok g irn = true ->
  get_nodes_block g irn = Some bl ->
  sched_list g bl = pre ++ irn :: post ->
  get_irn_n g irn 0 = Some in0 -> arch_get_irn_register g in0 = Some reg0 ->
  get_irn_arity g irn = Some arity -> arity = get_irn_n_edges g irn ->
  arity <> 2 ->
  build_register_pair_list g irn = Some (pairs0, g) ->
  first_unchecked_pair pairs0 = Some i ->
  get_perm_move_info pairs0 i = Some (move, pairs) ->
  get_n_unchecked_pairs pairs = 0 ->
  move_type move = PERM_CYCLE -> 2 <= n ->
  get_free_register fm irn = None \/ n = 2 ->
  NoDup (index <$> es) ->
  mapM (get_node_for_in_register pairs) es = Some hs ->
  mapM (get_node_for_out_register pairs) es = Some qs ->
  cycle_nodes_ok g irn hs qs = true ->
  exists g_end,
    lower_perm_node g fm irn = Some g_end /\
    has_op g_end irn iro_Deleted = true /\
    length (irg_nodes g_end) = N + 2 * n - 3 /\
    sched_list g_end bl = pre ++ (swap_perm N <$> seq 0 (n - 1)) ++ post /\
    (forall j a1 a2, j < n - 1 -> hs !! (n - 2 - j) = Some a1 ->
       swap_arg2 N hs j = Some a2 -> is_swap_of g_end bl (swap_perm N j) a1 a2) /\
    (forall k q e, qs !! S k = Some q -> es !! S k = Some e ->
       is_proj_of g_end q (swap_perm N (n - 2 - k)) 0 e) /\
    (forall q e, qs !! 0 = Some q -> es !! 0 = Some e ->
       is_proj_of g_end q (swap_perm N (n - 2)) 1 e).
Proof.
  intros N es n Hok Hblk Hl Hin0 Hreg0 Har Hedges Har2 Hbuild Hfirst Hinfo Hdone
         Hty Hn Hfree Hnde Hhs Hqs Hcyc.
  destruct (split_cycle_into_swaps_spec g irn move pairs hs qs bl pre post in0 reg0)
    as (g' & pairs' & Hsplit & Hpairs & Hlen & Hsched & Hold & Hswap & Hnew);
    try done.
  fold N es n in Hpairs, Hlen, Hsched, Hold, Hswap, Hnew.
  destruct (perm_ok_schedule _ _ _ _ _ Hok Hblk Hl)
    as (ndp & Hp & Hbl' & Hop & Hbl & Hnd & Hin & Hprev).
  destruct (cycle_nodes_ok_elim _ _ _ _ Hcyc) as (Hndq & HqN & _ & Hproj).
  assert (forall k q, qs !! k = Some q ->
            exists nd, get_node g q = Some nd /\ irn_op nd = iro_Proj /\
                       list_index q qs = Some k) as Hq.
  { intros k q Hk. destruct (Hproj q) as [HP _]; [by eapply list_elem_of_lookup_2|].
    unfold is_Proj, has_op in HP. destruct (get_node g q) as [nd|]; [|done].
    apply bool_decide_eq_true in HP. exists nd.
    by rewrite (list_index_NoDup _ _ _ Hndq Hk). }
  assert (irn ∉ qs) as Hirn.
  { intros Hx. destruct (Hproj _ Hx) as [HP _]. unfold is_Proj, has_op in HP.
    rewrite Hp, Hop in HP. by apply bool_decide_eq_true in HP. }
  assert (get_node g' irn = Some ndp) as Hp'.
  { rewrite (Hold _ _ Hp).
    destruct (list_index irn qs) as [k|] eqn:Ek; [|done].
    by apply list_index_Some_elem in Ek. }
  assert (reduce_perm_size g fm irn move pairs = Some (g', pairs')) as Hred.
  { unfold reduce_perm_size. rewrite Hty.
    destruct Hfree as [-> | Hn2]; [done|].
    destruct (get_free_register fm irn); [|done].
    fold n. by rewrite Hn2. }
  assert (get_n_unchecked_pairs pairs' = 0) as Hdone'.
  { unfold split_cycle_into_swaps in Hsplit. rewrite Hin0 in Hsplit. obind Hsplit.
    rewrite Hreg0 in Hsplit. obind Hsplit. rewrite Hblk in Hsplit. obind Hsplit.
    rewrite Hprev in Hsplit. obind Hsplit.
    rewrite bool_decide_eq_true_2 in Hsplit by done.
    destruct (swaps_loop _ _ _ _ _ _ _) as [[[g9 pairs9] sp9]|] eqn:El;
      obind Hsplit; [|done].
    injection Hsplit as _ <-. by rewrite (swaps_loop_unchecked _ _ _ _ _ _ _ _ _ _ El). }
  set (g_end := kill_node (sched_remove g' irn) irn).
  assert (forall u, u <> irn -> get_node g_end u = get_node g' u) as Hend.
  { intros u Hu. unfold g_end, kill_node.
    rewrite get_node_update_node, bool_decide_eq_false_2 by done.
    by rewrite (same_nodes_get_node g' (sched_remove g' irn))
      by apply sched_remove_nodes. }
  assert (irn < N) as HirnN by (by eapply lookup_lt_Some).
  exists g_end. split; [|split; [|split; [|split; [|split; [|split]]]]].
  - unfold lower_perm_node. rewrite Har, Hprev. obindg.
    unfold be_is_Perm, has_op. rewrite Hp, Hop.
    rewrite bool_decide_eq_true_2 by done. simpl negb.
    rewrite <- Hedges, Nat.eqb_refl. simpl negb. cbv iota.
    rewrite Hbuild. obindg.
    destruct (length pairs0) as [|fuel] eqn:Ef.
    { destruct pairs0; [done|]. done. }
    simpl lower_moves.
    destruct (Nat.eqb_spec (get_n_unchecked_pairs pairs0) 0) as [E0|_].
    { by apply first_unchecked_pair_Some in Hfirst. }
    rewrite Hfirst. obindg. rewrite Hinfo. obindg.
    rewrite (proj2 (Nat.eqb_neq arity 2)) by done. rewrite andb_false_r. cbv iota.
    rewrite Hred. obindg.
    destruct fuel; simpl lower_moves; rewrite Hdone'; simpl; done.
  - unfold g_end, has_op, kill_node.
    rewrite get_node_update_node, bool_decide_eq_true_2 by done.
    rewrite (same_nodes_get_node g' (sched_remove g' irn))
      by apply sched_remove_nodes.
    by rewrite Hp'.
  - unfold g_end, kill_node, update_node. simpl. rewrite length_alter.
    by rewrite sched_remove_nodes.
  - assert (sched_list g_end bl = sched_list (sched_remove g' irn) bl) as -> by done.
    rewrite sched_remove_list.
    2: { unfold sched_block. rewrite Hp'. simpl. rewrite Hop.
         rewrite bool_decide_eq_false_2 by done. by rewrite Hbl'. }
    unfold sched_list. rewrite Hsched, lookup_insert_eq. simpl.
    rewrite app_assoc, list_remove_middle, <- app_assoc; [done| |].
    + apply NoDup_app in Hnd as (_ & Hd & _).
      rewrite elem_of_app. intros [Hx|Hx].
      * apply (Hd _ Hx). left.
      * apply list_elem_of_fmap in Hx as (j & Hj & _). unfold swap_perm in Hj. lia.
    + apply NoDup_app in Hnd as (_ & _ & Hd). by apply NoDup_cons in Hd as [? _].
  - intros j a1 a2 Hj Ha1 Ha2.
    destruct (Hswap j a1 a2 Hj Ha1 Ha2) as (nd & Hg & Hr).
    exists nd. split; [|done]. rewrite Hend; [done|]. unfold swap_perm. lia.
  - intros k q e Hk He. destruct (Hq _ _ Hk) as (nd & Hndq' & Hopq & Hidx).
    exists (rewired_proj N n es (S k) nd).
    rewrite Hend by (intros ->; apply Hirn; by eapply list_elem_of_lookup_2).
    rewrite (Hold _ _ Hndq'), Hidx. split; [done|].
    unfold rewired_proj. simpl. rewrite He.
    repeat split; [done|]. do 2 f_equal. lia.
  - intros q e Hk He. destruct (Hq _ _ Hk) as (nd & Hndq' & Hopq & Hidx).
    eexists.
    rewrite Hend by (intros ->; apply Hirn; by eapply list_elem_of_lookup_2).
    rewrite (Hold _ _ Hndq'), Hidx. split; [done|].
    simpl. by rewrite He.
Qed.

(** Scenario "three-cycle" with no scratch register, as a whole: the
    Perm 4 is deleted and the exchange nodes 9 and 11 stand in its
    place. *)
Lemma cyclic_perm_lowered_into_swaps_witness :
  exists g_end,
    lower_perm_node g_cycle3 ∅ 4 = Some g_end /\
    has_op g_end 4 iro_Deleted = true /\
    length (irg_nodes g_end) = 12 /\
    sched_list g_end 0 = [1; 2; 3; 9; 11; 8] /\
    is_swap_of g_end 0 9 2 3 /\ is_swap_of g_end 0 11 1 10 /\
    is_proj_of g_end 6 9 0 r3 /\ is_proj_of g_end 7 11 0 r2 /\
    is_proj_of g_end 5 11 1 r1.
Proof.
  destruct (cyclic_perm_lowered_into_swaps g_cycle3 ∅ 4 move_cycle3 pairs_cycle3
              (set_checked <$> pairs_cycle3) 0 3 [1; 2; 3] [5; 7; 6] 0
              [1; 2; 3] [8] 1 r1)
    as (g_end & Hrun & Hdel & Hlen & Hsl & Hswap & Hrew & Hrew0);
    try (vm_compute; reflexivity).
  { vm_compute. lia. }
  { vm_compute. lia. }
  { by left. }
  { apply (bool_decide_unpack _). vm_compute. exact I. }
  exists g_end. repeat split.
  - exact Hrun.
  - exact Hdel.
  - exact Hlen.
  - exact Hsl.
  - exact (Hswap 0 2 3 ltac:(vm_compute; lia) eq_refl eq_refl).
  - exact (Hswap 1 1 10 ltac:(vm_compute; lia) eq_refl eq_refl).
  - exact (Hrew 1 6 r3 eq_refl eq_refl).
  - exact (Hrew 0 7 r2 eq_refl eq_refl).
  - exact (Hrew0 5 r1 eq_refl eq_refl).
Defined.

(** ** Progress of the decomposer *)

Lemma in_regidx_unique pairs s ps :
  NoDup ((fun p => index (in_reg p)) <$> pairs) ->
  pairs !! s = Some ps ->
  get_pairidx_for_in_regidx pairs (index (in_reg ps)) = Some s.
Proof.
  intros Hnd Hs.
  pose proof (get_pairidx_for_in_regidx_first pairs (index (in_reg ps))) as Hf.
  destruct (get_pairidx_for_in_regidx pairs (index (in_reg ps))) as [i|].
  - destruct Hf as (p & Hp & Hi & _). f_equal.
    eapply NoDup_lookup; [exact Hnd| |].
    + by rewrite list_lookup_fmap, Hp.
    + rewrite list_lookup_fmap, Hs. simpl. by rewrite Hi.
  - exfalso. apply (Hf ps); [by eapply list_elem_of_lookup_2|done].
Qed.

Lemma collect_move_elems_at_head fuel pairs cap head es ty :
  collect_move_elems fuel pairs cap head head es ty = Some (es, ty).
Proof. destruct fuel; simpl; by rewrite Nat.eqb_refl. Qed.

(** The walk forward from the pair the walk back has reached comes by
    the pair the walk back started from. *)
Lemma find_move_start_forward pairs start p0 cur h' fuel :
  NoDup ((fun p => index (in_reg p)) <$> pairs) ->
  pairs !! start = Some p0 ->
  (forall j pj, pairs !! j = Some pj -> index (out_reg pj) = h' -> j = start) ->
  forall head s s' ty,
    (exists ps, pairs !! s = Some ps /\ index (in_reg ps) = head) ->
    find_move_start fuel pairs cur head s = Some (h', s', ty) ->
    (forall px fuel2 cap es ty2 es' ty',
       pairs !! s = Some px ->
       (exists e, e ∈ es /\ index e = index (out_reg px)) ->
       (s = start -> exists e, e ∈ es /\ index e = index (in_reg p0)) ->
       collect_move_elems fuel2 pairs cap h' (index (out_reg px)) es ty2
         = Some (es', ty') ->
       exists e, e ∈ es' /\ index e = index (in_reg p0)) ->
    (forall px fuel2 cap es ty2 es' ty',
       pairs !! s' = Some px ->
       (exists e, e ∈ es /\ index e = index (out_reg px)) ->
       (s' = start -> exists e, e ∈ es /\ index e = index (in_reg p0)) ->
       collect_move_elems fuel2 pairs cap h' (index (out_reg px)) es ty2
         = Some (es', ty') ->
       exists e, e ∈ es' /\ index e = index (in_reg p0)).
Proof.
  intros Hnd Hstart Hclose.
  induction fuel as [|fuel IH]; intros head s s' ty (ps & Hps & Hhead) Hfind HS;
    simpl in Hfind.
  { destruct (head =? cur); [|done]. by injection Hfind as _ <- _. }
  destruct (head =? cur); [by injection Hfind as _ <- _|].
  pose proof (get_pairidx_for_out_regidx_first pairs head) as Hf.
  destruct (get_pairidx_for_out_regidx pairs head) as [c|];
    [|by injection Hfind as _ <- _].
  destruct Hf as (pc & Hpc & Hoc & _). rewrite Hpc in Hfind. obind Hfind.
  apply (IH _ _ _ _ (ex_intro _ pc (conj Hpc eq_refl)) Hfind).
  (* one step forward from [c] leads to [s] *)
  intros px fuel2 cap es ty2 es' ty' Hpx (e & He & Hie) Hst Hcol.
  rewrite Hpc in Hpx. injection Hpx as <-.
  assert (forall l : list arch_register_t, e ∈ l -> s = start ->
            exists e', e' ∈ l /\ index e' = index (in_reg p0)) as Hvia.
  { intros l Hl ->. exists e. split; [done|].
    rewrite Hstart in Hps. injection Hps as <-. congruence. }
  destruct (Nat.eqb_spec (index (out_reg pc)) h') as [Heq|Hne].
  { rewrite Heq, collect_move_elems_at_head in Hcol. injection Hcol as <- _.
    apply Hst. by eapply Hclose. }
  destruct fuel2 as [|fuel2]; simpl in Hcol.
  { by rewrite (proj2 (Nat.eqb_neq _ _) Hne) in Hcol. }
  rewrite (proj2 (Nat.eqb_neq _ _) Hne) in Hcol.
  rewrite Hoc, <- Hhead, (in_regidx_unique _ _ _ Hnd Hps), Hps in Hcol. obind Hcol.
  destruct (Nat.eqb_spec (index (out_reg ps)) h') as [Heq'|Hne'].
  - rewrite Heq', collect_move_elems_at_head in Hcol. injection Hcol as <- _.
    apply Hvia; [done|]. by eapply Hclose.
  - destruct (length es <? cap); [|done].
    apply (HS ps fuel2 cap (es ++ [out_reg ps]) ty2 es' ty' Hps); [| |done].
    + exists (out_reg ps). split; [|done]. apply elem_of_app. right. left.
    + intros Hs. apply Hvia; [|done]. apply elem_of_app. by left.
Qed.

Lemma checked_at_fewer_unchecked pairs pairs' i p :
  marks_more pairs pairs' -> pairs !! i = Some p -> checked p = false ->
  checked_at pairs' i ->
  get_n_unchecked_pairs pairs' < get_n_unchecked_pairs pairs.
Proof.
  unfold get_n_unchecked_pairs. intros Hm. revert i.
  induction Hm as [|a b l l' Hab Hm IH]; intros i Hi Hc (q & Hq & Hqc); [done|].
  destruct i as [|i]; simpl in Hi, Hq.
  - injection Hi as ->. injection Hq as ->.
    rewrite (filter_cons_True _ p) by done.
    rewrite filter_cons_False by (by rewrite Hqc).
    pose proof (marks_more_unchecked _ _ Hm) as Hle.
    unfold get_n_unchecked_pairs in Hle. simpl. lia.
  - assert (length (filter (fun p => checked p = false) l') <
            length (filter (fun p => checked p = false) l)) as Hlt.
    { apply (IH i Hi Hc). by exists q. }
    destruct Hab as (_ & _ & _ & _ & Hcab).
    destruct (checked a) eqn:Ea.
    + rewrite (filter_cons_False _ a) by (by rewrite Ea).
      rewrite filter_cons_False by (by rewrite (Hcab eq_refl)). done.
    + rewrite (filter_cons_True _ a) by done.
      destruct (checked b) eqn:Eb.
      * rewrite filter_cons_False by (by rewrite Eb). simpl. lia.
      * rewrite filter_cons_True by done. simpl. lia.
Qed.

Lemma decomposer_progress pairs start p0 move pairs' :
  NoDup ((fun p => index (in_reg p)) <$> pairs) ->
  NoDup ((fun p => index (out_reg p)) <$> pairs) ->
  pairs !! start = Some p0 -> checked p0 = false ->
  get_perm_move_info pairs start = Some (move, pairs') ->
  (exists e, e ∈ elems move /\ index e = index (in_reg p0)) /\
  checked_at pairs' start /\
  get_n_unchecked_pairs pairs' < get_n_unchecked_pairs pairs.
Proof.
  intros Hndi Hndo Hstart Hc H. unfold get_perm_move_info in H.
  rewrite Hstart in H. obind H.
  destruct (find_move_start _ _ _ _ _) as [[[h s] ty0]|] eqn:Ef; obind H; [|done].
  destruct (find_move_start_inv _ _ _ _ _ _ _ _ _ Hstart eq_refl Ef)
    as [(ps & Hps & Hh) Hty].
  rewrite Hps in H. obind H.
  match type of H with (if ?c then _ else _) = _ => destruct c end; [|done].
  destruct (collect_move_elems _ _ _ _ _ _ _) as [[es ty]|] eqn:Ec; obind H; [|done].
  injection H as <- <-. simpl.
  assert (forall j pj, pairs !! j = Some pj -> index (out_reg pj) = h -> j = start)
    as Hclose.
  { intros j pj Hj Ho. destruct ty0.
    - subst h. eapply NoDup_lookup; [exact Hndo| |].
      + by rewrite list_lookup_fmap, Hj.
      + rewrite list_lookup_fmap, Hstart. simpl. f_equal. congruence.
    - pose proof (get_pairidx_for_out_regidx_first pairs h) as Hf.
      rewrite Hty in Hf. exfalso.
      apply (Hf pj); [by eapply list_elem_of_lookup_2|done]. }
  assert (exists e, e ∈ es /\ index e = index (in_reg p0)) as (e & He & Hie).
  { eapply (find_move_start_forward pairs start p0 _ h _ Hndi Hstart Hclose
              _ _ _ _ (ex_intro _ p0 (conj Hstart eq_refl)) Ef);
      [| exact Hps | | | exact Ec].
    - intros px fuel2 cap es0 ty2 es' ty' Hpx _ Hst Hcol.
      destruct (Hst eq_refl) as (e & He & Hie).
      destruct (collect_move_elems_inv _ _ _ _ _ _ _ _ _ Hcol) as [[more ->] _].
      exists e. split; [|done]. apply elem_of_app. by left.
    - exists (out_reg ps). split; [|done]. right. left.
    - intros ->. rewrite Hstart in Hps. injection Hps as <-.
      exists (in_reg p0). split; [left|done]. }
  destruct (mark_move_checked_spec es pairs) as [Hm Hmarks].
  assert (checked_at (mark_move_checked pairs es) start) as Hat.
  { destruct (Hmarks e He) as [Hin _]. apply Hin.
    rewrite Hie. by apply in_regidx_unique. }
  split; [by exists e|]. split; [done|].
  exact (checked_at_fewer_unchecked _ _ _ _ Hm Hstart Hc Hat).
Qed.

(** X19: progress of the decomposer.  On a pair array in which no
    register is read by two pairs and none is written by two pairs, a
    call that starts at a pair not yet checked and returns has checked
    that pair: its in register is among the registers of the move, so
    the number of pairs still to do is smaller than before. *)
Theorem get_perm_move_info_checks_start pairs start p0 move pairs' :
  NoDup ((fun p => index (in_reg p)) <$> pairs) ->
  NoDup ((fun p => index (out_reg p)) <$> pairs) ->
  pairs !! start = Some p0 -> checked p0 = false ->
  get_perm_move_info pairs start = Some (move, pairs') ->
  (exists e, e ∈ elems move /\ index e = index (in_reg p0)) /\
  checked_at pairs' start /\
  get_n_unchecked_pairs pairs' < get_n_unchecked_pairs pairs.
Proof. apply decomposer_progress. Qed.

(** Started at its second pair, the chain r1 -> r2 -> r3 is walked
    back to its first pair and then forward past the second one. *)
Lemma get_perm_move_info_checks_start_witness :
  (exists e, e ∈ elems move_chain /\ index e = index r2) /\
  checked_at (set_checked <$> pairs_chain) 1 /\
  get_n_unchecked_pairs (set_checked <$> pairs_chain)
    < get_n_unchecked_pairs pairs_chain.
Proof.
  apply (get_perm_move_info_checks_start pairs_chain 1 (mk_pair r2 2 r3 5 false)
           move_chain (set_checked <$> pairs_chain)); try reflexivity.
  - apply (bool_decide_unpack _). vm_compute. exact I.
  - apply (bool_decide_unpack _). vm_compute. exact I.
Defined.

(** ** The rounds of the lowering loop *)

Lemma first_unchecked_pair_lookup pairs i :
  first_unchecked_pair pairs = Some i ->
  exists p, pairs !! i = Some p /\ checked p = false.
Proof.
  revert i. induction pairs as [|q rest IH]; intros i; [done|]. simpl.
  destruct (checked q) eqn:E.
  - destruct (first_unchecked_pair rest) as [j|]; [|done].
    intros [= <-]. by apply IH.
  - intros [= <-]. by exists q.
Qed.

Lemma same_marks_refl (pairs : list reg_pair_t) :
  Forall2 (fun p p' => in_reg p' = in_reg p /\ out_reg p' = out_reg p /\
                       checked p' = checked p) pairs pairs.
Proof.
  apply Forall2_same_length_lookup_2; [done|].
  intros i a b H1 H2. rewrite H1 in H2. by injection H2 as <-.
Qed.

Lemma same_marks_alter pairs pidx y :
  Forall2 (fun p p' => in_reg p' = in_reg p /\ out_reg p' = out_reg p /\
                       checked p' = checked p)
          pairs (alter (fun p => set_in_node p y) pidx pairs).
Proof.
  revert pidx. induction pairs as [|p rest IH]; intros pidx; [constructor|].
  destruct pidx as [|pidx]; simpl.
  - constructor; [done|apply same_marks_refl].
  - constructor; [done|apply IH].
Qed.

Lemma same_marks_trans (p1 p2 p3 : list reg_pair_t) :
  Forall2 (fun p p' => in_reg p' = in_reg p /\ out_reg p' = out_reg p /\
                       checked p' = checked p) p1 p2 ->
  Forall2 (fun p p' => in_reg p' = in_reg p /\ out_reg p' = out_reg p /\
                       checked p' = checked p) p2 p3 ->
  Forall2 (fun p p' => in_reg p' = in_reg p /\ out_reg p' = out_reg p /\
                       checked p' = checked p) p1 p3.
Proof.
  intros H12. revert p3.
  induction H12 as [|a b l l' (Ha1 & Ha2 & Ha3) _ IH]; intros p3 H23;
    inversion H23 as [|? c ? l'' (Hb1 & Hb2 & Hb3)]; subst; constructor.
  - repeat split; congruence.
  - by apply IH.
Qed.

Lemma swaps_loop_same_marks k : forall g cls bl move pairs sp g' pairs' sp',
  swaps_loop k g cls bl move pairs sp = Some (g', pairs', sp') ->
  Forall2 (fun p p' => in_reg p' = in_reg p /\ out_reg p' = out_reg p /\
                       checked p' = checked p) pairs pairs'.
Proof.
  induction k as [|i IH]; intros g cls bl move pairs sp g' pairs' sp' H.
  { injection H as _ <- _. apply same_marks_refl. }
  rewrite swaps_loop_S in H.
  destruct (elems move !! i) as [e_i|]; obind H; [|done].
  destruct (elems move !! S i) as [e_i1|]; obind H; [|done].
  destruct (get_node_for_in_register pairs e_i) as [arg1|]; obind H; [|done].
  destruct (get_node_for_in_register pairs e_i1) as [arg2|]; obind H; [|done].
  destruct (get_node_for_out_register pairs e_i) as [res1_0|]; obind H; [|done].
  destruct (get_node_for_out_register pairs e_i1) as [res2|]; obind H; [|done].
  destruct (be_new_Perm g cls bl [arg1; arg2]) as [xchg g1].
  match type of H with
  | (?m ≫= _) = _ =>
      assert (forall r1 g2 ps, m = Some (r1, g2, ps) ->
                Forall2 (fun p p' => in_reg p' = in_reg p /\ out_reg p' = out_reg p /\
                                     checked p' = checked p) pairs ps) as Hm
  end.
  { intros r1 g2 ps Hm. destruct i as [|i'].
    - injection Hm as _ _ <-. apply same_marks_refl.
    - destruct (get_pairidx_for_in_regidx pairs (index e_i)) as [pidx|]; obind Hm; [|done].
      destruct (get_irn_mode g1 res1_0) as [mode|]; obind Hm; [|done].
      destruct (new_r_Proj g1 xchg mode 0) as [[r g0]|]; obind Hm; [|done].
      injection Hm as _ _ <-. apply same_marks_alter. }
  match type of H with
  | (?m ≫= _) = _ => destruct m as [[[r1 g2] ps]|] eqn:Em; obind H; [|done]
  end.
  specialize (Hm _ _ _ eq_refl).
  destruct (set_Proj_pred g2 res2 xchg) as [g3|]; obind H; [|done].
  destruct (set_Proj_proj g3 res2 0) as [g4|]; obind H; [|done].
  destruct (set_Proj_pred g4 r1 xchg) as [g5|]; obind H; [|done].
  destruct (set_Proj_proj g5 r1 1) as [g6|]; obind H; [|done].
  eapply same_marks_trans; [exact Hm|]. exact (IH _ _ _ _ _ _ _ _ _ H).
Qed.

Lemma reduce_perm_size_same_marks g fm irn move pairs g' pairs' :
  reduce_perm_size g fm irn move pairs = Some (g', pairs') ->
  Forall2 (fun p p' => in_reg p' = in_reg p /\ out_reg p' = out_reg p /\
                       checked p' = checked p) pairs pairs'.
Proof.
  assert (forall r, split_cycle_into_swaps g irn move pairs = Some r ->
            Forall2 (fun p p' => in_reg p' = in_reg p /\ out_reg p' = out_reg p /\
                                 checked p' = checked p) pairs r.2) as Hswaps.
  { intros r H. unfold split_cycle_into_swaps in H.
    destruct (get_irn_n g irn 0) as [in0|]; obind H; [|done].
    destruct (arch_get_irn_register g in0) as [reg0|]; obind H; [|done].
    destruct (get_nodes_block g irn) as [bl|]; obind H; [|done].
    destruct (sched_prev g irn) as [sp|]; obind H; [|done].
    destruct (bool_decide (move_type move = PERM_CYCLE)); [|done].
    destruct (swaps_loop _ _ _ _ _ _ _) as [[[g9 pairs9] sp9]|] eqn:El; obind H; [|done].
    injection H as <-. simpl. by eapply swaps_loop_same_marks. }
  unfold reduce_perm_size. intros H. destruct (move_type move).
  - destruct (get_free_register fm irn) as [free_reg|].
    + destruct (n_elems move <=? 2); [apply (Hswaps _ H)|].
      destruct (split_cycle_into_copies g irn move pairs free_reg); obind H; [|done].
      injection H as _ <-. apply same_marks_refl.
    + apply (Hswaps _ H).
  - destruct (split_chain_into_copies g irn move pairs); obind H; [|done].
    injection H as _ <-. apply same_marks_refl.
Qed.

Lemma same_marks_invariant (pairs pairs' : list reg_pair_t) :
  Forall2 (fun p p' => in_reg p' = in_reg p /\ out_reg p' = out_reg p /\
                       checked p' = checked p) pairs pairs' ->
  (fun p => index (in_reg p)) <$> pairs' = (fun p => index (in_reg p)) <$> pairs /\
  (fun p => index (out_reg p)) <$> pairs' = (fun p => index (out_reg p)) <$> pairs /\
  get_n_unchecked_pairs pairs' = get_n_unchecked_pairs pairs.
Proof.
  unfold get_n_unchecked_pairs.
  induction 1 as [|p p' l l' (Hi & Ho & Hc) _ (IH1 & IH2 & IH3)]; [done|].
  rewrite !fmap_cons, IH1, IH2, Hi, Ho. split; [done|]. split; [done|].
  destruct (checked p) eqn:E.
  - rewrite (filter_cons_False _ p) by (by rewrite E).
    rewrite filter_cons_False by (by rewrite Hc). done.
  - rewrite (filter_cons_True _ p) by done.
    rewrite filter_cons_True by (by rewrite Hc). simpl. by rewrite IH3.
Qed.

Lemma marks_more_indices pairs pairs' :
  marks_more pairs pairs' ->
  (fun p => index (in_reg p)) <$> pairs' = (fun p => index (in_reg p)) <$> pairs /\
  (fun p => index (out_reg p)) <$> pairs' = (fun p => index (out_reg p)) <$> pairs.
Proof.
  induction 1 as [|p p' l l' (Hi & _ & Ho & _) _ (IH1 & IH2)]; [done|].
  by rewrite !fmap_cons, IH1, IH2, Hi, Ho.
Qed.

(** X20: the loop of [lower_perm_node] ends after at most one round for
    each pair that is not checked.  On a pair array in which no register
    is read by two pairs and none is written by two pairs, rounds beyond
    that number are never asked for: with any larger bound on the
    rounds the loop gives the same result, so it fails only if a call
    inside a round fails. *)
Theorem lower_moves_rounds fuel : forall fuel' g fm irn arity pairs keep_perm,
  NoDup ((fun p => index (in_reg p)) <$> pairs) ->
  NoDup ((fun p => index (out_reg p)) <$> pairs) ->
  get_n_unchecked_pairs pairs <= fuel -> fuel <= fuel' ->
  lower_moves fuel' g fm irn arity pairs keep_perm =
  lower_moves fuel g fm irn arity pairs keep_perm.
Proof.
  induction fuel as [|fuel IH]; intros fuel' g fm irn arity pairs keep Hndi Hndo Hle Hff.
  { assert (get_n_unchecked_pairs pairs = 0) as E0 by lia.
    destruct fuel'; simpl; by rewrite E0. }
  destruct fuel' as [|fuel']; [lia|]. simpl.
  destruct (get_n_unchecked_pairs pairs =? 0); [done|].
  destruct (first_unchecked_pair pairs) as [i|] eqn:Ei; [|done]. obindg.
  destruct (first_unchecked_pair_lookup _ _ Ei) as (p & Hp & Hc).
  destruct (get_perm_move_info pairs i) as [[move pairs1]|] eqn:Einfo; [|done]. obindg.
  destruct (decomposer_progress _ _ _ _ _ Hndi Hndo Hp Hc Einfo) as (_ & _ & Hlt).
  pose proof Einfo as Hmarks. unfold get_perm_move_info in Hmarks.
  assert (marks_more pairs pairs1) as Hm.
  { rewrite Hp in Hmarks. obind Hmarks.
    destruct (find_move_start _ _ _ _ _) as [[[h s] ty0]|]; obind Hmarks; [|done].
    destruct (pairs !! s); obind Hmarks; [|done].
    match type of Hmarks with (if ?c then _ else _) = _ => destruct c end; [|done].
    destruct (collect_move_elems _ _ _ _ _ _ _) as [[es ty]|]; obind Hmarks; [|done].
    injection Hmarks as _ <-. apply mark_move_checked_spec. }
  destruct (marks_more_indices _ _ Hm) as [Hi1 Ho1].
  destruct (bool_decide (move_type move = PERM_CYCLE) && (arity =? 2)).
  - apply IH; [by rewrite Hi1 | by rewrite Ho1 | lia | lia].
  - destruct (reduce_perm_size g fm irn move pairs1) as [[g' pairs2]|] eqn:Er; [|done].
    obindg.
    destruct (same_marks_invariant _ _ (reduce_perm_size_same_marks _ _ _ _ _ _ _ Er))
      as (Hi2 & Ho2 & Hn2).
    apply IH; [by rewrite Hi2, Hi1 | by rewrite Ho2, Ho1 | lia | lia].
Qed.

(** The three pairs of the three-cycle: three rounds are enough, and a
    hundred give the same. *)
Lemma lower_moves_rounds_witness :
  lower_moves 100 g_cycle3 ∅ 4 3 pairs_cycle3 false =
  lower_moves 3 g_cycle3 ∅ 4 3 pairs_cycle3 false.
Proof.
  apply (lower_moves_rounds 3 100 g_cycle3 ∅ 4 3 pairs_cycle3 false).
  - apply (bool_decide_unpack _). vm_compute. exact I.
  - apply (bool_decide_unpack _). vm_compute. exact I.
  - vm_compute. lia.
  - lia.
Defined.

(** ** Registers marked in use have a holder *)

Lemma set_reg_in_use_true_inv g n cls regs b regs' j :
  set_reg_in_use g n cls regs b = Some regs' ->
  regs' !! j = Some true ->
  regs !! j = Some true \/
  (b = true /\ exists r, holds_register g cls n r /\ index r = j).
Proof.
  unfold set_reg_in_use. intros H Hj.
  destruct (get_node g n) as [nd|] eqn:Hnd; obind H; [|done].
  destruct (mode_is_data (irn_mode nd)) eqn:Hm; simpl in H;
    [|injection H as <-; by left].
  destruct (irn_reg nd) as [reg|] eqn:Hr; [|done].
  destruct (reg_virtual reg) eqn:Hv; [injection H as <-; by left|].
  destruct (Nat.eqb_spec (reg_class reg) (cls_index cls)) as [Hc|Hc]; simpl in H;
    [|injection H as <-; by left].
  unfold arch_register_get_index in H.
  destruct (Nat.ltb_spec (index reg) (length regs)); [|done].
  injection H as <-.
  destruct (decide (index reg = j)) as [<-|Hne].
  - rewrite list_lookup_insert_eq in Hj by done. injection Hj as ->.
    right. split; [done|]. exists reg. split; [|done]. by exists nd.
  - rewrite list_lookup_insert_ne in Hj by done. by left.
Qed.

Lemma set_regs_in_use_true_inv g l cls b j : forall regs regs',
  set_regs_in_use g l cls regs b = Some regs' ->
  regs' !! j = Some true ->
  regs !! j = Some true \/
  (b = true /\ exists x r, x ∈ l /\ holds_register g cls x r /\ index r = j).
Proof.
  induction l as [|n l IH]; intros regs regs' H Hj; simpl in H.
  - injection H as <-. by left.
  - destruct (set_reg_in_use g n cls regs b) as [regs1|] eqn:E; obind H; [|done].
    destruct (IH _ _ H Hj) as [H1|(Hb & x & r & Hx & Hr)].
    + destruct (set_reg_in_use_true_inv _ _ _ _ _ _ _ E H1) as [H0|(Hb & r & Hr)];
        [by left|].
      right. split; [done|]. exists n, r. split; [left|done].
    + right. split; [done|]. exists x, r. split; [by right|done].
Qed.

Lemma walk_block_reverse_true_inv g irn cls j todo : forall regs out,
  walk_block_reverse g irn cls todo regs = Some out ->
  out !! j = Some true ->
  regs !! j = Some true \/
  exists x r, holds_register g cls x r /\ index r = j /\
    (x = irn \/ x ∈ get_irn_out_edges g irn \/
     exists node nd, node ∈ todo /\ get_node g node = Some nd /\ x ∈ irn_in nd).
Proof.
  induction todo as [|node todo IH]; intros regs out H Hj; simpl in H.
  { injection H as <-. by left. }
  destruct (is_Phi g node); [injection H as <-; by left|].
  destruct (update_reg_defs g node cls regs _) as [regs1|] eqn:E1; obind H; [|done].
  destruct (update_reg_uses g node cls regs1) as [regs2|] eqn:E2; obind H; [|done].
  assert (regs2 !! j = Some true ->
          regs !! j = Some true \/
          exists x r, holds_register g cls x r /\ index r = j /\
            (x = irn \/ x ∈ get_irn_out_edges g irn \/
             exists n' nd, n' ∈ node :: todo /\ get_node g n' = Some nd /\
                           x ∈ irn_in nd)) as Hstep.
  { intros H2. unfold update_reg_uses in E2.
    destruct (get_node g node) as [nd|] eqn:Hnd; obind E2; [|done].
    destruct (set_regs_in_use_true_inv _ _ _ _ _ _ _ E2 H2)
      as [H1|(_ & x & r & Hx & Hr & Hi)].
    2:{ right. exists x, r. split; [done|]. split; [done|]. right. right.
        exists node, nd. split; [left|done]. }
    unfold update_reg_defs in E1.
    destruct (get_irn_mode g node) as [mode|]; obind E1; [|done].
    destruct (bool_decide (mode = mode_T)).
    - destruct (set_regs_in_use_true_inv _ _ _ _ _ _ _ E1 H1)
        as [H0|(Hb & x & r & Hx & Hr & Hi)]; [by left|].
      apply bool_decide_eq_true in Hb. subst node.
      right. exists x, r. split; [done|]. split; [done|]. right. by left.
    - destruct (set_reg_in_use_true_inv _ _ _ _ _ _ _ E1 H1)
        as [H0|(Hb & r & Hr & Hi)]; [by left|].
      apply bool_decide_eq_true in Hb. subst node.
      right. exists irn, r. split; [done|]. split; [done|]. by left. }
  destruct (bool_decide (irn = node)).
  - injection H as <-. by apply Hstep.
  - destruct (IH _ _ H Hj) as [H2|(x & r & Hr & Hi & Hx)].
    + by apply Hstep.
    + right. exists x, r. split; [done|]. split; [done|].
      destruct Hx as [?|[?|(n' & nd & Hn' & Hnd & Hin)]]; [by left|right; by left|].
      right. right. exists n', nd. split; [by right|done].
Qed.

(** X21: the scratch-register finder marks a register as in use at a
    Perm only if some node holds it (has a data mode and a non-virtual
    register of the class with that index), and that node is live at
    the end of the block, is the Perm or one of its Projs, or is an
    input of a node scheduled in the block.  A register that no such
    node holds is not marked. *)
Theorem registers_in_use_have_holder g lv irn cls in_use j :
  registers_in_use_at g lv irn cls = Some in_use ->
  in_use !! j = Some true ->
  exists bl x r,
    get_nodes_block g irn = Some bl /\
    holds_register g cls x r /\ index r = j /\
    (x ∈ lv_end lv bl \/ x = irn \/ x ∈ get_irn_out_edges g irn \/
     exists node nd, node ∈ sched_list g bl /\ get_node g node = Some nd /\
                     x ∈ irn_in nd).
Proof.
  unfold registers_in_use_at. intros H Hj.
  destruct (get_nodes_block g irn) as [bl|]; obind H; [|done].
  destruct (set_regs_in_use _ _ _ _ _) as [regs0|] eqn:E0; obind H; [|done].
  exists bl.
  destruct (walk_block_reverse_true_inv _ _ _ _ _ _ _ H Hj)
    as [H0|(x & r & Hr & Hi & Hx)].
  - destruct (set_regs_in_use_true_inv _ _ _ _ _ _ _ E0 H0)
      as [Hrep|(_ & x & r & Hx & Hr & Hi)].
    + apply lookup_replicate in Hrep as [? _]. done.
    + exists x, r. repeat split; [done..|]. by left.
  - exists x, r. repeat split; [done..|].
    destruct Hx as [?|[?|(n' & nd & Hn' & Hnd & Hin)]];
      [right; by left | right; right; by left |].
    right. right. right. exists n', nd. split; [|done].
    by rewrite elem_of_reverse in Hn'.
Qed.

(** In [g_move] register r1 is marked at the Perm: its holder [a] is
    the input of the Perm. *)
Lemma registers_in_use_have_holder_witness :
  exists bl x r,
    get_nodes_block g_move 2 = Some bl /\
    holds_register g_move cls4 x r /\ index r = 0 /\
    (x ∈ lv_end lv_none bl \/ x = 2 \/ x ∈ get_irn_out_edges g_move 2 \/
     exists node nd, node ∈ sched_list g_move bl /\ get_node g_move node = Some nd /\
                     x ∈ irn_in nd).
Proof.
  apply (registers_in_use_have_holder g_move lv_none 2 cls4
           [true; true; false; false] 0); reflexivity.
Defined.

(** ** The registers of a move are distinct *)

Lemma out_regidx_same_pair pairs (p q : reg_pair_t) :
  NoDup ((fun p => index (out_reg p)) <$> pairs) ->
  p ∈ pairs -> q ∈ pairs -> index (out_reg p) = index (out_reg q) -> p = q.
Proof.
  intros Hnd Hp Hq Heq.
  apply list_elem_of_lookup_1 in Hp as [i Hi].
  apply list_elem_of_lookup_1 in Hq as [j Hj].
  assert (i = j) as ->; [|congruence].
  eapply NoDup_lookup; [exact Hnd| |].
  - by rewrite list_lookup_fmap, Hi.
  - rewrite list_lookup_fmap, Hj. simpl. by rewrite Heq.
Qed.

(** The walk forward lists, behind the register it started from, the
    out registers of the pairs [lp] it has gone through. *)
Lemma collect_move_elems_distinct pairs cap h fuel :
  NoDup ((fun p => index (out_reg p)) <$> pairs) ->
  forall cur es ty es' ty' (lp : list reg_pair_t) p_first p_last,
    Forall (fun p => p ∈ pairs) lp ->
    index <$> es = h :: ((fun p => index (out_reg p)) <$> lp) ->
    NoDup (h :: ((fun p => index (out_reg p)) <$> lp)) ->
    lp !! 0 = Some p_first -> index (in_reg p_first) = h ->
    (forall t pa pb, lp !! t = Some pa -> lp !! S t = Some pb ->
       index (out_reg pa) = index (in_reg pb)) ->
    last lp = Some p_last -> index (out_reg p_last) = cur ->
    collect_move_elems fuel pairs cap h cur es ty = Some (es', ty') ->
    NoDup (index <$> es').
Proof.
  intros Hndo.
  induction fuel as [|fuel IH];
    intros cur es ty es' ty' lp p_first p_last Hin Hes Hnd Hfirst Hh Hlink Hlast Hcur H;
    simpl in H.
  { destruct (cur =? h); [|done]. injection H as <- _. by rewrite Hes. }
  destruct (Nat.eqb_spec cur h) as [|Hne]; [injection H as <- _; by rewrite Hes|].
  pose proof (get_pairidx_for_in_regidx_first pairs cur) as Hf.
  destruct (get_pairidx_for_in_regidx pairs cur) as [k|];
    [|injection H as <- _; by rewrite Hes].
  destruct Hf as (p & Hp & Hpin & _). rewrite Hp in H. obind H.
  destruct (Nat.eqb_spec (index (out_reg p)) h) as [Heq|Hne'].
  { rewrite Heq, collect_move_elems_at_head in H. injection H as <- _.
    by rewrite Hes. }
  destruct (length es <? cap); [|done].
  assert (p ∈ pairs) as Hpp by (by eapply list_elem_of_lookup_2).
  assert (p_last ∈ pairs) as Hpl.
  { rewrite last_lookup in Hlast. apply list_elem_of_lookup_2 in Hlast.
    rewrite Forall_forall in Hin. by apply Hin. }
  apply (IH (index (out_reg p)) (es ++ [out_reg p]) ty es' ty' (lp ++ [p]) p_first p);
    [| | | | | | | |exact H].
  - apply Forall_app. split; [done|]. by constructor.
  - rewrite !fmap_app, Hes. done.
  - rewrite fmap_app. simpl.
    apply NoDup_cons in Hnd as [Hh' Hnd'].
    apply NoDup_cons. split.
    + rewrite elem_of_app. intros [Hx|Hx]; [done|].
      apply list_elem_of_singleton in Hx. congruence.
    + apply NoDup_app. split; [done|]. split; [|apply NoDup_singleton].
      intros x Hx Hx'. apply list_elem_of_singleton in Hx'. subst x.
      apply list_elem_of_fmap in Hx as (q & Hq & Hqin).
      apply list_elem_of_lookup_1 in Hqin as [t Ht].
      assert (q ∈ pairs) as Hqp.
      { rewrite Forall_forall in Hin. apply Hin. by eapply list_elem_of_lookup_2. }
      simpl in Hq.
      assert (q = p) as -> by (by apply (out_regidx_same_pair pairs q p Hndo Hqp Hpp)).
      destruct t as [|t'].
      * rewrite Hfirst in Ht. injection Ht as ->. congruence.
      * destruct (lookup_lt_is_Some_2 lp t') as [pa Hpa].
        { apply lookup_lt_Some in Ht. lia. }
        pose proof (Hlink _ _ _ Hpa Ht) as Hl.
        assert (pa ∈ pairs) as Hpap.
        { rewrite Forall_forall in Hin. apply Hin. by eapply list_elem_of_lookup_2. }
        assert (pa = p_last) as ->.
        { apply (out_regidx_same_pair pairs pa p_last Hndo Hpap Hpl). congruence. }
        rewrite last_lookup in Hlast.
        assert (t' = Init.Nat.pred (length lp)) as ->.
        { eapply NoDup_lookup; [exact Hnd'| |].
          - by rewrite list_lookup_fmap, Hpa.
          - by rewrite list_lookup_fmap, Hlast. }
        apply lookup_lt_Some in Ht. lia.
  - rewrite lookup_app_l; [done|]. apply lookup_lt_Some in Hfirst. done.
  - done.
  - intros t pa pb Ha Hb.
    destruct (decide (S t < length lp)) as [Hlt|Hge].
    + rewrite lookup_app_l in Ha by lia. rewrite lookup_app_l in Hb by lia.
      by eapply Hlink.
    + pose proof (lookup_lt_Some _ _ _ Hb) as Hb'. rewrite length_app in Hb'.
      simpl in Hb'. assert (S t = length lp) as Ht by lia.
      rewrite lookup_app_r in Hb by lia. rewrite Ht, Nat.sub_diag in Hb.
      injection Hb as <-.
      rewrite lookup_app_l in Ha by lia.
      rewrite last_lookup in Hlast.
      replace (Init.Nat.pred (length lp)) with t in Hlast by lia.
      rewrite Ha in Hlast. injection Hlast as ->. congruence.
  - by rewrite last_snoc.
  - done.
Qed.

(** X22: the decomposer lists no register twice.  On a pair array in
    which no register is written by two pairs and no pair writes the
    register it reads, the registers of the move that
    [get_perm_move_info] returns have pairwise distinct indices. *)
Theorem move_registers_distinct pairs start move pairs' :
  NoDup ((fun p => index (out_reg p)) <$> pairs) ->
  (forall p, p ∈ pairs -> index (in_reg p) <> index (out_reg p)) ->
  get_perm_move_info pairs start = Some (move, pairs') ->
  NoDup (index <$> elems move).
Proof.
  intros Hndo Hid H. unfold get_perm_move_info in H.
  destruct (pairs !! start) as [p0|] eqn:Hstart; obind H; [|done].
  destruct (find_move_start _ _ _ _ _) as [[[h s] ty0]|] eqn:Ef; obind H; [|done].
  destruct (find_move_start_inv _ _ _ _ _ _ _ _ _ Hstart eq_refl Ef)
    as [(ps & Hps & Hh) _].
  rewrite Hps in H. obind H.
  match type of H with (if ?c then _ else _) = _ => destruct c end; [|done].
  destruct (collect_move_elems _ _ _ _ _ _ _) as [[es ty]|] eqn:Ec; obind H; [|done].
  injection H as <- _. simpl.
  assert (ps ∈ pairs) as Hpp by (by eapply list_elem_of_lookup_2).
  eapply (collect_move_elems_distinct pairs _ h _ Hndo _ _ _ _ _ [ps] ps ps);
    [| | | | | | | |exact Ec].
  - by constructor.
  - simpl. by rewrite Hh.
  - simpl. apply NoDup_cons. split; [|apply NoDup_singleton].
    intros Hx. apply list_elem_of_singleton in Hx. apply (Hid ps Hpp). congruence.
  - done.
  - done.
  - intros t pa pb Ha Hb. destruct t; done.
  - done.
  - done.
Qed.

Lemma move_registers_distinct_witness : NoDup (index <$> elems move_cycle3).
Proof.
  apply (move_registers_distinct pairs_cycle3 0 move_cycle3
           (set_checked <$> pairs_cycle3)).
  - apply (bool_decide_unpack _). vm_compute. exact I.
  - intros p Hp. apply (bool_decide_unpack _).
    revert p Hp. apply Forall_forall.
    repeat constructor; vm_compute; exact I.
  - reflexivity.
Defined.

(** ** The pair that closes a cycle *)

(** In a cycle the walk forward stops in front of the pair the walk
    back started from. *)
Lemma find_move_start_closes pairs start p0 fuel :
  NoDup ((fun p => index (in_reg p)) <$> pairs) ->
  NoDup ((fun p => index (out_reg p)) <$> pairs) ->
  pairs !! start = Some p0 ->
  forall head s s' ty,
    (exists ps, pairs !! s = Some ps /\ index (in_reg ps) = head) ->
    find_move_start fuel pairs (index (out_reg p0)) head s
      = Some (index (out_reg p0), s', ty) ->
    (forall px fuel2 cap es ty2 es' ty',
       pairs !! s = Some px ->
       (exists l, last es = Some l /\ index l = index (out_reg px)) ->
       (s = start -> exists l, last es = Some l /\ index l = index (in_reg p0)) ->
       collect_move_elems fuel2 pairs cap (index (out_reg p0))
         (index (out_reg px)) es ty2 = Some (es', ty') ->
       exists l, last es' = Some l /\ index l = index (in_reg p0)) ->
    (forall px fuel2 cap es ty2 es' ty',
       pairs !! s' = Some px ->
       (exists l, last es = Some l /\ index l = index (out_reg px)) ->
       (s' = start -> exists l, last es = Some l /\ index l = index (in_reg p0)) ->
       collect_move_elems fuel2 pairs cap (index (out_reg p0))
         (index (out_reg px)) es ty2 = Some (es', ty') ->
       exists l, last es' = Some l /\ index l = index (in_reg p0)).
Proof.
  intros Hndi Hndo Hstart.
  assert (forall j pj, pairs !! j = Some pj ->
            index (out_reg pj) = index (out_reg p0) -> j = start) as Hclose.
  { intros j pj Hj Ho. eapply NoDup_lookup; [exact Hndo| |].
    - by rewrite list_lookup_fmap, Hj.
    - rewrite list_lookup_fmap, Hstart. simpl. by rewrite Ho. }
  induction fuel as [|fuel IH]; intros head s s' ty (ps & Hps & Hhead) Hfind HS;
    simpl in Hfind.
  { destruct (head =? index (out_reg p0)); [|done]. by injection Hfind as _ <- _. }
  destruct (head =? index (out_reg p0)); [by injection Hfind as _ <- _|].
  pose proof (get_pairidx_for_out_regidx_first pairs head) as Hf.
  destruct (get_pairidx_for_out_regidx pairs head) as [c|].
  2:{ by injection Hfind as _ <- _. }
  destruct Hf as (pc & Hpc & Hoc & _). rewrite Hpc in Hfind. obind Hfind.
  apply (IH _ _ _ _ (ex_intro _ pc (conj Hpc eq_refl)) Hfind).
  intros px fuel2 cap es ty2 es' ty' Hpx (l & Hl & Hil) Hst Hcol.
  rewrite Hpc in Hpx. injection Hpx as <-.
  destruct (Nat.eqb_spec (index (out_reg pc)) (index (out_reg p0))) as [Heq|Hne].
  { rewrite Heq, collect_move_elems_at_head in Hcol. injection Hcol as <- _.
    apply Hst. by eapply Hclose. }
  destruct fuel2 as [|fuel2]; simpl in Hcol.
  { by rewrite (proj2 (Nat.eqb_neq _ _) Hne) in Hcol. }
  rewrite (proj2 (Nat.eqb_neq _ _) Hne) in Hcol.
  rewrite Hoc, <- Hhead, (in_regidx_unique _ _ _ Hndi Hps), Hps in Hcol. obind Hcol.
  destruct (Nat.eqb_spec (index (out_reg ps)) (index (out_reg p0))) as [Heq'|Hne'].
  - rewrite Heq', collect_move_elems_at_head in Hcol. injection Hcol as <- _.
    assert (s = start) as -> by (by eapply Hclose).
    rewrite Hstart in Hps. injection Hps as <-.
    exists l. split; [done|]. congruence.
  - destruct (length es <? cap); [|done].
    apply (HS ps fuel2 cap (es ++ [out_reg ps]) ty2 es' ty' Hps); [| |done].
    + exists (out_reg ps). by rewrite last_snoc.
    + intros ->. rewrite Hstart in Hps. by injection Hps as <-.
Qed.

(** X23: the pair at which the decomposer is started closes the cycle
    it finds.  On a pair array in which no register is read by two
    pairs and none is written by two pairs, a move tagged as a cycle
    begins with the register the start pair writes and ends with the
    register the start pair reads. *)
Theorem cycle_closed_by_start_pair pairs start p0 move pairs' :
  NoDup ((fun p => index (in_reg p)) <$> pairs) ->
  NoDup ((fun p => index (out_reg p)) <$> pairs) ->
  pairs !! start = Some p0 ->
  get_perm_move_info pairs start = Some (move, pairs') ->
  move_type move = PERM_CYCLE ->
  exists e0 el,
    elems move !! 0 = Some e0 /\ last (elems move) = Some el /\
    index e0 = index (out_reg p0) /\ index el = index (in_reg p0).
Proof.
  intros Hndi Hndo Hstart H Hty. unfold get_perm_move_info in H.
  rewrite Hstart in H. obind H.
  destruct (find_move_start _ _ _ _ _) as [[[h s] ty0]|] eqn:Ef; obind H; [|done].
  destruct (find_move_start_inv _ _ _ _ _ _ _ _ _ Hstart eq_refl Ef)
    as [(ps & Hps & Hh) Hty0].
  rewrite Hps in H. obind H.
  match type of H with (if ?c then _ else _) = _ => destruct c end; [|done].
  destruct (collect_move_elems _ _ _ _ _ _ _) as [[es ty]|] eqn:Ec; obind H; [|done].
  injection H as <- _. simpl in *. subst ty.
  destruct (collect_move_elems_inv _ _ _ _ _ _ _ _ _ Ec) as [[more Hmore] Hcase].
  assert (ty0 = PERM_CYCLE) as ->.
  { destruct ty0; [done|]. destruct Hcase as [?|[_ (p & Hp & Hpo)]]; [done|].
    pose proof (get_pairidx_for_out_regidx_first pairs h) as Hf.
    rewrite Hty0 in Hf. by apply Hf in Hp. }
  rewrite Hty0 in Hh, Ef, Ec. clear Hcase Hty0 h.
  assert (exists l, last es = Some l /\ index l = index (in_reg p0)) as (l & Hl & Hil).
  { eapply (find_move_start_closes pairs start p0 _ Hndi Hndo Hstart
              _ _ _ _ (ex_intro _ p0 (conj Hstart eq_refl)) Ef);
      [| exact Hps | | | exact Ec].
    - intros px fuel2 cap es0 ty2 es' ty' Hpx _ Hst Hcol.
      rewrite Hstart in Hpx. injection Hpx as <-.
      rewrite collect_move_elems_at_head in Hcol. injection Hcol as <- _.
      by apply Hst.
    - by exists (out_reg ps).
    - intros ->. rewrite Hstart in Hps. injection Hps as <-.
      exists (out_reg p0). split; [done|]. congruence. }
  exists (in_reg ps), l. split; [by rewrite Hmore|]. done.
Qed.

(** The three-cycle, started at its first pair (r3 -> r1): the move
    r1, r2, r3 begins with r1 and ends with r3. *)
Lemma cycle_closed_by_start_pair_witness :
  exists e0 el,
    elems move_cycle3 !! 0 = Some e0 /\ last (elems move_cycle3) = Some el /\
    index e0 = index r1 /\ index el = index r3.
Proof.
  apply (cycle_closed_by_start_pair pairs_cycle3 0 (mk_pair r3 3 r1 5 false)
           move_cycle3 (set_checked <$> pairs_cycle3)); try reflexivity.
  - apply (bool_decide_unpack _). vm_compute. exact I.
  - apply (bool_decide_unpack _). vm_compute. exact I.
Defined.

(** ** The ends of a chain *)

Lemma collect_move_elems_chain_end pairs cap head fuel :
  (forall p, p ∈ pairs -> index (out_reg p) <> head) ->
  forall cur es ty es' ty',
    (exists p, p ∈ pairs /\ index (out_reg p) = cur) ->
    (exists l, last es = Some l /\ index l = cur) ->
    collect_move_elems fuel pairs cap head cur es ty = Some (es', ty') ->
    exists el, last es' = Some el /\
               forall p, p ∈ pairs -> index (in_reg p) <> index el.
Proof.
  intros Hhead.
  induction fuel as [|fuel IH]; intros cur es ty es' ty' (pw & Hpw & Hw) (l & Hl & Hil) H;
    simpl in H.
  { destruct (Nat.eqb_spec cur head) as [->|]; [|done]. by apply Hhead in Hpw. }
  destruct (Nat.eqb_spec cur head) as [->|Hne]; [by apply Hhead in Hpw|].
  pose proof (get_pairidx_for_in_regidx_first pairs cur) as Hf.
  destruct (get_pairidx_for_in_regidx pairs cur) as [k|].
  2:{ injection H as <- _. exists l. split; [done|]. by rewrite Hil. }
  destruct Hf as (p & Hp & Hpin & _). rewrite Hp in H. obind H.
  assert (p ∈ pairs) as Hpp by (by eapply list_elem_of_lookup_2).
  rewrite (proj2 (Nat.eqb_neq _ _) (Hhead p Hpp)) in H.
  destruct (length es <? cap); [|done].
  apply (IH _ _ _ _ _ (ex_intro _ p (conj Hpp eq_refl))) in H; [done|].
  exists (out_reg p). by rewrite last_snoc.
Qed.

(** X24: a chain is a whole chain.  A move tagged as a chain begins
    with a register that no pair of the array writes and ends with a
    register that no pair of the array reads. *)
Theorem chain_ends pairs start move pairs' :
  get_perm_move_info pairs start = Some (move, pairs') ->
  move_type move = PERM_CHAIN ->
  exists e0 el,
    elems move !! 0 = Some e0 /\ last (elems move) = Some el /\
    (forall p, p ∈ pairs -> index (out_reg p) <> index e0) /\
    (forall p, p ∈ pairs -> index (in_reg p) <> index el).
Proof.
  intros H Hty. unfold get_perm_move_info in H.
  destruct (pairs !! start) as [p0|] eqn:Hstart; obind H; [|done].
  destruct (find_move_start _ _ _ _ _) as [[[h s] ty0]|] eqn:Ef; obind H; [|done].
  destruct (find_move_start_inv _ _ _ _ _ _ _ _ _ Hstart eq_refl Ef)
    as [(ps & Hps & Hh) Hty0].
  rewrite Hps in H. obind H.
  match type of H with (if ?c then _ else _) = _ => destruct c end; [|done].
  destruct (collect_move_elems _ _ _ _ _ _ _) as [[es ty]|] eqn:Ec; obind H; [|done].
  injection H as <- _. simpl in *. subst ty.
  destruct (collect_move_elems_inv _ _ _ _ _ _ _ _ _ Ec) as [[more Hmore] Hcase].
  assert (ty0 = PERM_CHAIN) as ->.
  { destruct Hcase as [?|[? _]]; done. }
  assert (forall p, p ∈ pairs -> index (out_reg p) <> h) as Hhead.
  { pose proof (get_pairidx_for_out_regidx_first pairs h) as Hf.
    by rewrite Hty0 in Hf. }
  assert (ps ∈ pairs) as Hpp by (by eapply list_elem_of_lookup_2).
  assert (exists el, last es = Some el /\
                     forall p, p ∈ pairs -> index (in_reg p) <> index el)
    as (el & Hel & Hnone).
  { eapply (collect_move_elems_chain_end pairs _ h _ Hhead); [| |exact Ec].
    - by exists ps.
    - by exists (out_reg ps). }
  exists (in_reg ps), el. split; [by rewrite Hmore|]. split; [done|].
  split; [|done]. intros p Hp. rewrite Hh. by apply Hhead.
Qed.

(** The chain r1 -> r2 -> r3: nothing writes r1 and nothing reads r3. *)
Lemma chain_ends_witness :
  exists e0 el,
    elems move_chain !! 0 = Some e0 /\ last (elems move_chain) = Some el /\
    (forall p, p ∈ pairs_chain -> index (out_reg p) <> index e0) /\
    (forall p, p ∈ pairs_chain -> index (in_reg p) <> index el).
Proof.
  apply (chain_ends pairs_chain 1 move_chain (set_checked <$> pairs_chain));
    reflexivity.
Defined.
